(** * Abyss Depth Diver: coordinate-synchronised simulation and collision

    A shallow embedding of the game core (GameObject, Submarine,
    CollisionDetector, InputHandler, Renderer, Game) followed by the
    properties of its specification.

    Modelling conventions.
    - A JavaScript number is a rational ([Q]); the source only adds,
      subtracts, multiplies by constants, compares and clamps, so every
      definition stays executable. Where a result depends on how a
      double is rounded (a random draw scaled to a range, the remainder
      of a particle height, the easing of the camera) every operation
      is rounded by [JS.fl], the rounding of IEEE 754 binary64 to the
      nearest double, ties to even; clamps, comparisons and the sums of
      the craft and of the resources are written exactly. Identifiers
      and millisecond timestamps are integers ([Z]).
    - [Date.now()], [Math.random()] and [Math.sin] are oracles of the
      environment ([JS.Env]); the k-th call of [Date.now()] (resp.
      [Math.random()]) returns the k-th value of its oracle, and the
      number of calls made so far is threaded through a small state
      monad ([JS.M]).
    - A [Set] of strings is a [gset string], the cooldown [Map] is a
      [gmap Z Z].
    - What the code writes to the page (hints, the game-over screen) is
      appended to a log of the game state. *)

From Stdlib Require Import QArith Qround Qabs Qpower Lqa ZArith Lia.
From stdpp Require Import gmap strings list fin_maps.

#[global] Instance Q_eq_dec : EqDecision Q.
Proof. solve_decision. Defined.

(* ===================================================================== *)
(** * Part I: the embedding *)
(* ===================================================================== *)

(** ** JavaScript numbers and the environment *)
Module JS.
Local Open Scope Q_scope.

Definition leb (a b : Q) : bool := Qle_bool a b.
Definition ltb (a b : Q) : bool := negb (Qle_bool b a).
Definition geb (a b : Q) : bool := Qle_bool b a.
Definition gtb (a b : Q) : bool := negb (Qle_bool a b).
(** [a !== b] on numbers. *)
Definition neb (a b : Q) : bool := negb (Qeq_bool a b).

(** [Math.max(a, b)], [Math.min(a, b)], [Math.abs(a)], [Math.floor(a)]. *)
Definition Math_max (a b : Q) : Q := if ltb a b then b else a.
Definition Math_min (a b : Q) : Q := if ltb b a then b else a.
Definition Math_abs (a : Q) : Q := if ltb a 0 then - a else a.
Definition Math_floor (a : Q) : Q := inject_Z (Qfloor a).

(** [a % n]: the remainder keeps the sign of the dividend. *)
Definition trunc (a : Q) : Z := if ltb a 0 then Qceiling a else Qfloor a.
Definition rem (a n : Q) : Q := a - n * inject_Z (trunc (a / n)).

(** The rounding of doubles (IEEE 754 binary64, round to nearest, ties
    to even), on rationals.

    [rne t] is the integer nearest to [t], the even one of two at the
    same distance. [exponent a] is the [e] with [2^e <= a < 2^(e+1)] of
    a positive [a]; below [2^-1022] the doubles are subnormal and keep
    the exponent [-1022] ([expo]). A double of exponent [e] is a
    multiple of [2^(e-52)] ([ulp]), so [mag a] rounds [a / ulp a] to an
    integer and scales it back; [fl] does so for the magnitude and
    restores the sign. The exponent is unbounded above (no infinities):
    no number of the game comes near the largest double. *)
Definition rne (t : Q) : Z :=
  let f := Qfloor t in
  let r := t - inject_Z f in
  if Qlt_le_dec r (1 # 2) then f
  else if Qlt_le_dec (1 # 2) r then (f + 1)%Z
  else if Z.even f then f else (f + 1)%Z.

Definition exponent (a : Q) : Z :=
  let k := (Z.log2 (Qnum a) - Z.log2 (Z.pos (Qden a)))%Z in
  if Qle_bool (2 ^ k) a then k else (k - 1)%Z.

Definition expo (a : Q) : Z := Z.max (exponent a) (-1022).
Definition ulp (a : Q) : Q := 2 ^ (expo a - 52).
Definition mag (a : Q) : Q := inject_Z (rne (a / ulp a)) * ulp a.

Definition fl (x : Q) : Q :=
  if Qle_bool 0 x then mag x else - mag (- x).

#[global] Arguments rne _ : simpl never.
#[global] Arguments exponent _ : simpl never.
#[global] Arguments ulp _ : simpl never.
#[global] Arguments mag _ : simpl never.
#[global] Arguments fl _ : simpl never.

(** The arithmetic of doubles: the exact result, rounded. [lit c] is
    the double a decimal literal [c] of the source denotes. *)
Definition add (a b : Q) : Q := fl (a + b).
Definition sub (a b : Q) : Q := fl (a - b).
Definition mul (a b : Q) : Q := fl (a * b).
Definition div (a b : Q) : Q := fl (a / b).
Definition lit (c : Q) : Q := fl c.

(** The oracles of one execution. *)
Record Env := {
  Date_now : nat -> Z;
  Math_random : nat -> Q;
  Math_sin : Q -> Q
}.

(** How many times each oracle has been consulted. *)
Record World := mkWorld { clockReads : nat; randomDraws : nat }.

Definition M (A : Type) : Type := World -> A * World.
Definition ret {A} (a : A) : M A := fun w => (a, w).
Definition bind {A B} (c : M A) (k : A -> M B) : M B :=
  fun w => let (a, w') := c w in k a w'.

Definition now (E : Env) : M Z :=
  fun w => (Date_now E (clockReads w),
            {| clockReads := S (clockReads w); randomDraws := randomDraws w |}).
Definition random (E : Env) : M Q :=
  fun w => (Math_random E (randomDraws w),
            {| clockReads := clockReads w; randomDraws := S (randomDraws w) |}).

Module Notations.
  Notation "'let*' x ':=' c1 'in' c2" := (bind c1 (fun x => c2))
    (at level 10, x name, c1 at level 100, c2 at level 200).
  Notation "'let*' ' pat ':=' c1 'in' c2" :=
    (bind c1 (fun x => match x with pat => c2 end))
    (at level 10, pat pattern, c1 at level 100, c2 at level 200).
End Notations.
Import Notations.

(** [array.forEach(f)] where [f] updates the captured state [s]. *)
Fixpoint forEach {A S} (f : A -> S -> M S) (l : list A) (s : S) : M S :=
  match l with
  | [] => ret s
  | a :: l' => let* s' := f a s in forEach f l' s'
  end.

(** [array.map(f)] for an effectful [f]. *)
Fixpoint mapM {A B} (f : A -> M B) (l : list A) : M (list B) :=
  match l with
  | [] => ret []
  | a :: l' => let* b := f a in let* bs := mapM f l' in ret (b :: bs)
  end.

(** [for (let i = 0; i < n; i++) body]: the body runs [n] times. *)
Fixpoint times {S} (n : nat) (body : S -> M S) (s : S) : M S :=
  match n with
  | O => ret s
  | S n' => let* s' := body s in times n' body s'
  end.
End JS.
Import JS.Notations.

(** ** Rectangles [{x, y, width, height}] *)
Module Rect.
Record t := mk { x : Q; y : Q; width : Q; height : Q }.
End Rect.

(** ** GameObject.js *)
Module GameObject.
Local Open Scope Q_scope.

Record t := mk {
  x : Q; y : Q; width : Q; height : Q;
  type : string;
  velocityX : Q; velocityY : Q;
  health : Q; speed : Q;
  id : Z;
  visible : bool;
  createdAt : Z
}.

#[global] Instance eq_dec : EqDecision t.
Proof. solve_decision. Defined.

Definition new (E : JS.Env) (x y width height : Q) (type : string) : JS.M t :=
  let* now := JS.now E in
  JS.ret {| x := x; y := y; width := width; height := height; type := type;
            velocityX := 0; velocityY := 0; health := 0; speed := 0;
            id := 0%Z; visible := false; createdAt := now |}.

Definition set_x (v : Q) (o : t) : t :=
  mk v (y o) (width o) (height o) (type o) (velocityX o) (velocityY o)
     (health o) (speed o) (id o) (visible o) (createdAt o).
Definition set_y (v : Q) (o : t) : t :=
  mk (x o) v (width o) (height o) (type o) (velocityX o) (velocityY o)
     (health o) (speed o) (id o) (visible o) (createdAt o).
Definition set_velocityX (v : Q) (o : t) : t :=
  mk (x o) (y o) (width o) (height o) (type o) v (velocityY o)
     (health o) (speed o) (id o) (visible o) (createdAt o).
Definition set_velocityY (v : Q) (o : t) : t :=
  mk (x o) (y o) (width o) (height o) (type o) (velocityX o) v
     (health o) (speed o) (id o) (visible o) (createdAt o).
Definition set_health (v : Q) (o : t) : t :=
  mk (x o) (y o) (width o) (height o) (type o) (velocityX o) (velocityY o)
     v (speed o) (id o) (visible o) (createdAt o).
Definition set_speed (v : Q) (o : t) : t :=
  mk (x o) (y o) (width o) (height o) (type o) (velocityX o) (velocityY o)
     (health o) v (id o) (visible o) (createdAt o).
Definition set_id (v : Z) (o : t) : t :=
  mk (x o) (y o) (width o) (height o) (type o) (velocityX o) (velocityY o)
     (health o) (speed o) v (visible o) (createdAt o).
Definition set_visible (v : bool) (o : t) : t :=
  mk (x o) (y o) (width o) (height o) (type o) (velocityX o) (velocityY o)
     (health o) (speed o) (id o) v (createdAt o).

Definition update (o : t) : t :=
  set_y (y o + velocityY o) (set_x (x o + velocityX o) o).

Definition isOffScreen (o : t) (screenWidth screenHeight depth : Q) : bool :=
  if JS.ltb (x o) (-200) || JS.gtb (x o) (screenWidth + 200) then true
  else if JS.gtb (JS.Math_abs (y o - depth)) 1200 then true
  else false.

(** The [switch (this.type)] of [getHitbox]: the four locals
    [(offsetX, offsetY, hitboxWidth, hitboxHeight)] after the switch. *)
Definition hitboxLocals (o : t) : Q * Q * Q * Q :=
  let offsetX := 0 in
  let offsetY := 0 in
  let hitboxWidth := width o in
  let hitboxHeight := height o in
  if String.eqb (type o) "shark" then
    (width o * 0.1, height o * 0.2, width o * 0.8, height o * 0.6)
  else if String.eqb (type o) "squid" then
    (width o * 0.2, height o * 0.1, width o * 0.6, height o * 0.8)
  else if String.eqb (type o) "angler" then
    (width o * 0.15, height o * 0.2, width o * 0.7, height o * 0.6)
  else if String.eqb (type o) "viper" then
    (width o * 0.05, height o * 0.1, width o * 0.9, height o * 0.8)
  else if String.eqb (type o) "rock" then
    (width o * 0.1, height o * 0.1, width o * 0.8, height o * 0.8)
  else if String.eqb (type o) "bubble" then
    (width o * 0.15, height o * 0.15, width o * 0.7, height o * 0.7)
  else
    (offsetX, offsetY, hitboxWidth, hitboxHeight).

Definition getHitbox (o : t) : Rect.t :=
  let '(offsetX, offsetY, hitboxWidth, hitboxHeight) := hitboxLocals o in
  {| Rect.x := x o + offsetX;
     Rect.y := y o + offsetY;
     Rect.width := hitboxWidth;
     Rect.height := hitboxHeight |}.

Definition collidesWith (o other : t) : bool :=
  let hitbox1 := getHitbox o in
  let hitbox2 := getHitbox other in
  JS.ltb (Rect.x hitbox1) (Rect.x hitbox2 + Rect.width hitbox2) &&
  JS.gtb (Rect.x hitbox1 + Rect.width hitbox1) (Rect.x hitbox2) &&
  JS.ltb (Rect.y hitbox1) (Rect.y hitbox2 + Rect.height hitbox2) &&
  JS.gtb (Rect.y hitbox1 + Rect.height hitbox1) (Rect.y hitbox2).

Definition getCenter (o : t) : Q * Q :=
  (x o + width o / 2, y o + height o / 2).
End GameObject.

(** ** Submarine.js *)
Module Submarine.
Local Open Scope Q_scope.

(** [class Submarine extends GameObject]: the inherited fields are
    [base]. *)
Record t := mk {
  base : GameObject.t;
  screenX : Q; screenY : Q;
  rotation : Q; targetRotation : Q;
  centerY : Q; maxVerticalOffset : Q;
  moveSpeed : Q; rotationSpeed : Q;
  hitboxOffsetX : Q; hitboxOffsetY : Q;
  hitboxWidth : Q; hitboxHeight : Q
}.

Definition new (E : JS.Env) (x y width height : Q) : JS.M t :=
  let* b := GameObject.new E x y width height "submarine" in
  JS.ret {| base := b;
            screenX := x; screenY := y;
            rotation := 0; targetRotation := 0;
            centerY := y; maxVerticalOffset := 80;
            moveSpeed := 0.18; rotationSpeed := 1;
            hitboxOffsetX := width * 0.225;
            hitboxOffsetY := height * 0.275;
            hitboxWidth := width * 0.55;
            hitboxHeight := height * 0.45 |}.

Definition set_screenX (v : Q) (s : t) : t :=
  mk (base s) v (screenY s) (rotation s) (targetRotation s) (centerY s)
     (maxVerticalOffset s) (moveSpeed s) (rotationSpeed s)
     (hitboxOffsetX s) (hitboxOffsetY s) (hitboxWidth s) (hitboxHeight s).
Definition set_screenY (v : Q) (s : t) : t :=
  mk (base s) (screenX s) v (rotation s) (targetRotation s) (centerY s)
     (maxVerticalOffset s) (moveSpeed s) (rotationSpeed s)
     (hitboxOffsetX s) (hitboxOffsetY s) (hitboxWidth s) (hitboxHeight s).
Definition set_rotation (v : Q) (s : t) : t :=
  mk (base s) (screenX s) (screenY s) v (targetRotation s) (centerY s)
     (maxVerticalOffset s) (moveSpeed s) (rotationSpeed s)
     (hitboxOffsetX s) (hitboxOffsetY s) (hitboxWidth s) (hitboxHeight s).
Definition set_targetRotation (v : Q) (s : t) : t :=
  mk (base s) (screenX s) (screenY s) (rotation s) v (centerY s)
     (maxVerticalOffset s) (moveSpeed s) (rotationSpeed s)
     (hitboxOffsetX s) (hitboxOffsetY s) (hitboxWidth s) (hitboxHeight s).

Definition has (keys : gset string) (k : string) : bool := bool_decide (k ∈ keys).

(** The horizontal branch of [update] (keys A/D). *)
Definition updateHorizontal (s : t) (keys : gset string) (speed : Q) : t :=
  if has keys "a" then
    set_targetRotation (JS.Math_max (-15) (targetRotation s - 1))
      (set_screenX (JS.Math_max 0 (screenX s - speed)) s)
  else if has keys "d" then
    set_targetRotation (JS.Math_min 15 (targetRotation s + 1))
      (set_screenX (JS.Math_min (800 - GameObject.width (base s)) (screenX s + speed)) s)
  else
    set_targetRotation (targetRotation s * 0.9) s.

(** The two vertical [if]s of [update] (keys W/S), run in sequence on
    the pair (submarine, worldOffsetY). *)
Definition updateUp (keys : gset string) (speed : Q) (sw : t * Q) : t * Q :=
  let (s, worldOffsetY) := sw in
  if has keys "w" then
    (set_screenY (JS.Math_max (centerY s - maxVerticalOffset s)
                              (screenY s - speed * 0.5)) s,
     speed)
  else (s, worldOffsetY).

Definition updateDown (keys : gset string) (speed : Q) (sw : t * Q) : t * Q :=
  let (s, worldOffsetY) := sw in
  if has keys "s" then
    (set_screenY (JS.Math_min (centerY s + maxVerticalOffset s)
                              (screenY s + speed * 0.5)) s,
     - speed)
  else (s, worldOffsetY).

(** [update(keys, deltaTime)]: the submarine after the call and the
    returned [worldOffsetY]. *)
Definition update (s : t) (keys : gset string) (deltaTime : Q) : t * Q :=
  let speed := moveSpeed s * deltaTime in
  let worldOffsetY := 0 in
  let s := updateHorizontal s keys speed in
  let '(s, worldOffsetY) := updateDown keys speed (updateUp keys speed (s, worldOffsetY)) in
  let s := set_rotation (rotation s + (targetRotation s - rotation s) * 0.1) s in
  (s, worldOffsetY).

Definition getScreenHitbox (s : t) : Rect.t :=
  {| Rect.x := screenX s + hitboxOffsetX s;
     Rect.y := screenY s + hitboxOffsetY s;
     Rect.width := hitboxWidth s;
     Rect.height := hitboxHeight s |}.

Definition getWorldHitbox (s : t) (depth : Q) : Rect.t :=
  let screenHitbox := getScreenHitbox s in
  {| Rect.x := Rect.x screenHitbox;
     Rect.y := Rect.y screenHitbox + depth;
     Rect.width := Rect.width screenHitbox;
     Rect.height := Rect.height screenHitbox |}.

Definition getScreenCenter (s : t) : Q * Q :=
  (screenX s + GameObject.width (base s) / 2,
   screenY s + GameObject.height (base s) / 2).

Definition reset (s : t) : t :=
  set_targetRotation 0 (set_rotation 0 (set_screenY (centerY s) (set_screenX 350 s))).
End Submarine.

(** ** CollisionDetector.js *)
Module CollisionDetector.
Local Open Scope Q_scope.

Record t := mk {
  collisionCooldown : gmap Z Z;
  cooldownDuration : Z
}.

Definition new : t := {| collisionCooldown := ∅; cooldownDuration := 100 |}.

Definition checkAABB (rect1 rect2 : Rect.t) : bool :=
  JS.ltb (Rect.x rect1) (Rect.x rect2 + Rect.width rect2) &&
  JS.gtb (Rect.x rect1 + Rect.width rect1) (Rect.x rect2) &&
  JS.ltb (Rect.y rect1) (Rect.y rect2 + Rect.height rect2) &&
  JS.gtb (Rect.y rect1 + Rect.height rect1) (Rect.y rect2).

(** Returns the answer and the detector after the call (an expired
    entry is deleted by the lookup). [Date.now()] is read only when
    the id is in the table. *)
Definition isInCollisionCooldown (E : JS.Env) (cd : t) (obj : GameObject.t)
  : JS.M (bool * t) :=
  match collisionCooldown cd !! GameObject.id obj with
  | None => JS.ret (false, cd)
  | Some cooldownTime =>
      let* now := JS.now E in
      if (cooldownDuration cd <=? now - cooldownTime)%Z then
        JS.ret (false, mk (delete (GameObject.id obj) (collisionCooldown cd))
                          (cooldownDuration cd))
      else JS.ret (true, cd)
  end.

Definition setCollisionCooldown (E : JS.Env) (cd : t) (obj : GameObject.t) : JS.M t :=
  let* now := JS.now E in
  JS.ret (mk (<[GameObject.id obj := now]> (collisionCooldown cd)) (cooldownDuration cd)).

Definition clearCollisionCooldown (cd : t) (obj : GameObject.t) : t :=
  mk (delete (GameObject.id obj) (collisionCooldown cd)) (cooldownDuration cd).

Definition calculateDepthOffset (depth cameraOffset : Q) : Q :=
  - depth + 300 + cameraOffset.

Definition getWorldObjectScreenHitbox (obj : GameObject.t) (depthOffset : Q) : Rect.t :=
  let baseHitbox := GameObject.getHitbox obj in
  let screenY := Rect.y baseHitbox + depthOffset in
  {| Rect.x := Rect.x baseHitbox;
     Rect.y := screenY;
     Rect.width := Rect.width baseHitbox;
     Rect.height := Rect.height baseHitbox |}.

(** The callback of [monsters.forEach] and of [obstacles.forEach]; the
    captured state is the array [collisions] and the detector. *)
Definition gatedStep (E : JS.Env) (subScreenHitbox : Rect.t) (depthOffset : Q)
    (obj : GameObject.t) (st : list GameObject.t * t)
  : JS.M (list GameObject.t * t) :=
  let '(collisions, cd) := st in
  let* '(inCooldown, cd) := isInCollisionCooldown E cd obj in
  if negb inCooldown then
    let objScreenHitbox := getWorldObjectScreenHitbox obj depthOffset in
    if checkAABB subScreenHitbox objScreenHitbox then
      let collisions := collisions ++ [obj] in
      let* cd := setCollisionCooldown E cd obj in
      JS.ret (collisions, cd)
    else JS.ret (collisions, cd)
  else JS.ret (collisions, cd).

Definition checkMonsterCollisions (E : JS.Env) (cd : t) (submarine : Submarine.t)
    (monsters : list GameObject.t) (depth cameraOffset : Q)
  : JS.M (list GameObject.t * t) :=
  let subScreenHitbox := Submarine.getScreenHitbox submarine in
  let depthOffset := calculateDepthOffset depth cameraOffset in
  let collisions := [] in
  JS.forEach (gatedStep E subScreenHitbox depthOffset) monsters (collisions, cd).

Definition checkObstacleCollisions (E : JS.Env) (cd : t) (submarine : Submarine.t)
    (obstacles : list GameObject.t) (depth cameraOffset : Q)
  : JS.M (list GameObject.t * t) :=
  let subScreenHitbox := Submarine.getScreenHitbox submarine in
  let depthOffset := calculateDepthOffset depth cameraOffset in
  let collisions := [] in
  JS.forEach (gatedStep E subScreenHitbox depthOffset) obstacles (collisions, cd).

(** The callback of [bubbles.forEach]: no cooldown lookup, no stamp. *)
Definition bubbleStep (subScreenHitbox : Rect.t) (depthOffset : Q)
    (bubble : GameObject.t) (st : list GameObject.t * t)
  : JS.M (list GameObject.t * t) :=
  let '(collisions, cd) := st in
  let bubbleScreenHitbox := getWorldObjectScreenHitbox bubble depthOffset in
  if checkAABB subScreenHitbox bubbleScreenHitbox then
    JS.ret (collisions ++ [bubble], cd)
  else JS.ret (collisions, cd).

Definition checkBubbleCollisions (cd : t) (submarine : Submarine.t)
    (bubbles : list GameObject.t) (depth cameraOffset : Q)
  : JS.M (list GameObject.t * t) :=
  let subScreenHitbox := Submarine.getScreenHitbox submarine in
  let depthOffset := calculateDepthOffset depth cameraOffset in
  let collisions := [] in
  JS.forEach (bubbleStep subScreenHitbox depthOffset) bubbles (collisions, cd).

Definition cleanupCooldowns (E : JS.Env) (cd : t) : JS.M t :=
  let* now := JS.now E in
  let expiredIds :=
    (List.filter
       (fun entry : Z * Z => (cooldownDuration cd <=? now - entry.2)%Z)
       (map_to_list (collisionCooldown cd))).*1 in
  JS.ret (mk (foldr delete (collisionCooldown cd) expiredIds) (cooldownDuration cd)).

Definition reset (cd : t) : t := mk ∅ (cooldownDuration cd).

Definition getDebugInfo (cd : t) : nat * Z :=
  (size (collisionCooldown cd), cooldownDuration cd).
End CollisionDetector.

(** ** InputHandler.js *)
Module InputHandler.
Local Open Scope Q_scope.

Record t := mk {
  keys : gset string;
  cameraOffset : Q;
  targetCameraOffset : Q
}.

Definition new : t := {| keys := ∅; cameraOffset := 0; targetCameraOffset := 0 |}.

(** [handleKeyDown] without its calls into the game ([Game.handleKeyDown]
    adds them): [key] is [e.key.toLowerCase()]. *)
Definition handleKeyDown (ih : t) (key : string) : t :=
  let ih := mk ({[key]} ∪ keys ih) (cameraOffset ih) (targetCameraOffset ih) in
  let ih :=
    if String.eqb key "arrowup" then
      mk (keys ih) (cameraOffset ih) (JS.Math_max (-100) (targetCameraOffset ih - 30))
    else ih in
  if String.eqb key "arrowdown" then
    mk (keys ih) (cameraOffset ih) (JS.Math_min 100 (targetCameraOffset ih + 30))
  else ih.

Definition handleKeyUp (ih : t) (key : string) : t :=
  mk (keys ih ∖ {[key]}) (cameraOffset ih) (targetCameraOffset ih).

Definition handleWheel (ih : t) (deltaY : Q) : t :=
  let delta := if JS.gtb deltaY 0 then 30 else -30 in
  mk (keys ih) (cameraOffset ih)
     (JS.Math_max (-100) (JS.Math_min 100 (targetCameraOffset ih + delta))).

(** [this.cameraOffset += (this.targetCameraOffset - this.cameraOffset) * 0.1],
    each operation rounded. *)
Definition updateCameraOffset (ih : t) : t :=
  mk (keys ih)
     (JS.add (cameraOffset ih)
        (JS.mul (JS.sub (targetCameraOffset ih) (cameraOffset ih)) (JS.lit 0.1)))
     (targetCameraOffset ih).

Definition getKeys (ih : t) : gset string := keys ih.
Definition getCameraOffset (ih : t) : Q := cameraOffset ih.
Definition getTargetCameraOffset (ih : t) : Q := targetCameraOffset ih.

Definition reset (ih : t) : t := mk ∅ 0 0.

Definition isKeyPressed (ih : t) (key : string) : bool := bool_decide (key ∈ keys ih).
End InputHandler.

(** ** The 2D canvas context, as far as the renderer uses it for the
    world layer: the current transform (axis scales and a translation),
    the stack of saved transforms, and what has been drawn, in device
    (screen) coordinates. *)
Module Canvas.
Local Open Scope Q_scope.

Inductive Draw :=
| FillText (text : option string) (x y : Q)
| StrokeRect (x y width height : Q)
| Arc (x y radius : Q).

Record ctx := mk {
  sx : Q; sy : Q; tx : Q; ty : Q;
  saved : list (Q * Q * Q * Q);
  drawn : list Draw
}.

Definition new : ctx :=
  {| sx := 1; sy := 1; tx := 0; ty := 0; saved := []; drawn := [] |}.

Definition save (c : ctx) : ctx :=
  mk (sx c) (sy c) (tx c) (ty c) ((sx c, sy c, tx c, ty c) :: saved c) (drawn c).

Definition restore (c : ctx) : ctx :=
  match saved c with
  | [] => c
  | (sx', sy', tx', ty') :: rest => mk sx' sy' tx' ty' rest (drawn c)
  end.

Definition translate (a b : Q) (c : ctx) : ctx :=
  mk (sx c) (sy c) (tx c + sx c * a) (ty c + sy c * b) (saved c) (drawn c).

Definition scale (a b : Q) (c : ctx) : ctx :=
  mk (sx c * a) (sy c * b) (tx c) (ty c) (saved c) (drawn c).

Definition deviceX (c : ctx) (x : Q) : Q := sx c * x + tx c.
Definition deviceY (c : ctx) (y : Q) : Q := sy c * y + ty c.

Definition emit (d : Draw) (c : ctx) : ctx :=
  mk (sx c) (sy c) (tx c) (ty c) (saved c) (drawn c ++ [d]).

Definition fillText (text : option string) (x y : Q) (c : ctx) : ctx :=
  emit (FillText text (deviceX c x) (deviceY c y)) c.

Definition strokeRect (x y width height : Q) (c : ctx) : ctx :=
  emit (StrokeRect (deviceX c x) (deviceY c y) (sx c * width) (sy c * height)) c.

Definition arc (x y radius : Q) (c : ctx) : ctx :=
  emit (Arc (deviceX c x) (deviceY c y) radius) c.

Definition clear (c : ctx) : ctx :=
  mk (sx c) (sy c) (tx c) (ty c) (saved c) [].
End Canvas.

(** ** The plain objects of Game.js: the game state and a particle *)
Module GameState.
Record t := mk {
  oxygen : Q; energy : Q; health : Q; depth : Q; score : Q;
  sonarActive : bool;
  sonarCooldown : Q
}.

Definition set_oxygen (v : Q) (s : t) : t :=
  mk v (energy s) (health s) (depth s) (score s) (sonarActive s) (sonarCooldown s).
Definition set_energy (v : Q) (s : t) : t :=
  mk (oxygen s) v (health s) (depth s) (score s) (sonarActive s) (sonarCooldown s).
Definition set_health (v : Q) (s : t) : t :=
  mk (oxygen s) (energy s) v (depth s) (score s) (sonarActive s) (sonarCooldown s).
Definition set_depth (v : Q) (s : t) : t :=
  mk (oxygen s) (energy s) (health s) v (score s) (sonarActive s) (sonarCooldown s).
Definition set_score (v : Q) (s : t) : t :=
  mk (oxygen s) (energy s) (health s) (depth s) v (sonarActive s) (sonarCooldown s).
Definition set_sonarActive (v : bool) (s : t) : t :=
  mk (oxygen s) (energy s) (health s) (depth s) (score s) v (sonarCooldown s).
Definition set_sonarCooldown (v : Q) (s : t) : t :=
  mk (oxygen s) (energy s) (health s) (depth s) (score s) (sonarActive s) v.
End GameState.

Module Particle.
Record t := mk { x : Q; y : Q; size : Q; speed : Q }.
End Particle.

(** ** Renderer.js

    The world layer of a frame (everything drawn between the
    [ctx.translate(0, depthOffset)] of [render] and its [ctx.restore()])
    is modelled; the screen-space decorations (background, light rays,
    sonar rings, the submarine sprite, the vignette) draw outside that
    transform and are left out. *)
Module Renderer.
Local Open Scope Q_scope.

Record t := mk {
  ctx : Canvas.ctx;
  depthColor : Z * Z * Z;
  backgroundY : Q
}.

Definition new : t :=
  {| ctx := Canvas.new; depthColor := (0, 100, 150)%Z; backgroundY := 0 |}.

Definition emojiMap (key : string) : option string :=
  if String.eqb key "submarine" then Some "🚢"
  else if String.eqb key "shark" then Some "🦈"
  else if String.eqb key "squid" then Some "🦑"
  else if String.eqb key "angler" then Some "🎣"
  else if String.eqb key "viper" then Some "🐍"
  else if String.eqb key "bubble" then Some "🫧"
  else if String.eqb key "rock" then Some "🪨"
  else None.

Definition updateDepthColor (r : t) (depth : Q) : t :=
  if JS.ltb depth 1000 then mk (ctx r) (0, 100, 150)%Z (backgroundY r)
  else if JS.ltb depth 3000 then mk (ctx r) (0, 60, 120)%Z (backgroundY r)
  else if JS.ltb depth 6000 then mk (ctx r) (0, 30, 80)%Z (backgroundY r)
  else if JS.ltb depth 9000 then mk (ctx r) (0, 15, 50)%Z (backgroundY r)
  else mk (ctx r) (0, 5, 20)%Z (backgroundY r).

Definition drawParticles (particles : list Particle.t) (c : Canvas.ctx) : Canvas.ctx :=
  fold_left (fun c p => Canvas.arc (Particle.x p) (Particle.y p) (Particle.size p) c)
            particles c.

Definition drawBubbles (bubbles : list GameObject.t) (c : Canvas.ctx) : Canvas.ctx :=
  fold_left (fun c bubble =>
               Canvas.restore
                 (Canvas.fillText (emojiMap "bubble")
                    (GameObject.x bubble + GameObject.width bubble / 2)
                    (GameObject.y bubble + GameObject.height bubble / 2)
                    (Canvas.save c)))
            bubbles c.

Definition drawObstacles (obstacles : list GameObject.t) (c : Canvas.ctx) : Canvas.ctx :=
  fold_left (fun c obstacle =>
               Canvas.restore
                 (Canvas.fillText (emojiMap "rock")
                    (GameObject.x obstacle + GameObject.width obstacle / 2)
                    (GameObject.y obstacle + GameObject.height obstacle / 2)
                    (Canvas.save c)))
            obstacles c.

Definition drawMonster (c : Canvas.ctx) (monster : GameObject.t) : Canvas.ctx :=
  if GameObject.visible monster then
    let c := Canvas.save c in
    let c :=
      if String.eqb (GameObject.type monster) "squid" then
        let c := Canvas.translate (GameObject.x monster + GameObject.width monster)
                                  (GameObject.y monster) c in
        let c := Canvas.scale (-1) 1 c in
        Canvas.fillText (emojiMap (GameObject.type monster))
          (0 - GameObject.width monster / 2)
          (GameObject.y monster + GameObject.height monster / 2) c
      else
        Canvas.fillText (emojiMap (GameObject.type monster))
          (GameObject.x monster + GameObject.width monster / 2)
          (GameObject.y monster + GameObject.height monster / 2) c in
    Canvas.restore c
  else c.

Definition drawMonsters (monsters : list GameObject.t) (c : Canvas.ctx) : Canvas.ctx :=
  fold_left drawMonster monsters c.

Definition drawWorldObjectHitbox (depthOffset : Q) (c : Canvas.ctx) (obj : GameObject.t)
  : Canvas.ctx :=
  let baseHitbox := GameObject.getHitbox obj in
  let screenY := Rect.y baseHitbox + depthOffset in
  Canvas.restore
    (Canvas.strokeRect (Rect.x baseHitbox) screenY
       (Rect.width baseHitbox) (Rect.height baseHitbox) (Canvas.save c)).

Definition drawDebugHitboxes (submarine : Submarine.t)
    (monsters obstacles bubbles : list GameObject.t) (depth cameraOffset : Q)
    (c : Canvas.ctx) : Canvas.ctx :=
  let subHitbox := Submarine.getScreenHitbox submarine in
  let c := Canvas.restore
             (Canvas.strokeRect (Rect.x subHitbox) (Rect.y subHitbox)
                (Rect.width subHitbox) (Rect.height subHitbox) (Canvas.save c)) in
  let depthOffset := - depth + 300 + cameraOffset in
  let c := fold_left (drawWorldObjectHitbox depthOffset) monsters c in
  let c := fold_left (drawWorldObjectHitbox depthOffset) obstacles c in
  fold_left (drawWorldObjectHitbox depthOffset) bubbles c.

(** The camera transform of [render]: the context right after
    [ctx.save(); ctx.translate(0, depthOffset)]. *)
Definition applyCamera (gameState : GameState.t) (cameraOffset : Q) (c : Canvas.ctx)
  : Canvas.ctx :=
  let c := Canvas.save c in
  let depthOffset := - GameState.depth gameState + 300 + cameraOffset in
  Canvas.translate 0 depthOffset c.

Definition render (r : t) (gameState : GameState.t) (submarine : Submarine.t)
    (monsters obstacles bubbles : list GameObject.t) (particles : list Particle.t)
    (cameraOffset : Q) (debugMode : bool) : t :=
  let c := Canvas.clear (ctx r) in
  let r := updateDepthColor r (GameState.depth gameState) in
  let c := applyCamera gameState cameraOffset c in
  let c := drawParticles particles c in
  let c := drawBubbles bubbles c in
  let c := drawObstacles obstacles c in
  let c := drawMonsters monsters c in
  let c :=
    if debugMode then
      drawDebugHitboxes submarine monsters obstacles bubbles
        (GameState.depth gameState) cameraOffset c
    else c in
  let c := Canvas.restore c in
  mk c (depthColor r) (backgroundY r).

Definition reset (r : t) : t := mk (ctx r) (0, 100, 150)%Z 0.
End Renderer.

(** ** Game.js *)
Module Game.
Local Open Scope Q_scope.

(** The texts handed to [showHint], by the call that produces them. *)
Inductive Hint :=
| SonarActivated | LowEnergy | SonarOnCooldown
| DebugOn | DebugOff
| LowOxygen
| MonsterDamage (damage : Q)
| RockDamage (damage : Q)
| OxygenGained (amount : Q)
| RewardReached (threshold : Z)
| UpgradeUnlocked (upgrade : string).

(** The three reasons handed to [endGame]. *)
Inductive Reason := Victory | OxygenDepleted | SubmarineDestroyed.

(** What the game writes to the page. *)
Inductive DomEvent :=
| HintShown (h : Hint)
| GameOverShown (reason : Reason) (finalScore : Q)
| GameOverHidden.

Record Upgrades := mkUpgrades {
  oxygenTank : bool;
  advancedSonar : bool;
  reinforcedHull : bool;
  turboThrust : bool
}.

Record Reward := mkReward {
  depth : Z;
  oxygen : Q;
  points : Q
}.

Record t := mk {
  renderer : Renderer.t;
  inputHandler : InputHandler.t;
  collisionDetector : CollisionDetector.t;
  submarine : Submarine.t;
  gameState : GameState.t;
  monsters : list GameObject.t;
  obstacles : list GameObject.t;
  bubbles : list GameObject.t;
  particles : list Particle.t;
  upgrades : Upgrades;
  nextMonsterId : Z;
  lastSpawnDepth : Q;
  lastResourceUpdate : Z;
  resourceUpdateInterval : Z;
  gameOverTriggered : bool;
  gameOverReason : option Reason;
  debugMode : bool;
  menuOpen : option string;
  hint : option Hint;
  claimedRewards : gset Z;
  lastFrameTime : Q;
  page : list DomEvent
}.

Definition set_renderer (v : Renderer.t) (g : t) : t :=
  mk v (inputHandler g) (collisionDetector g) (submarine g) (gameState g) (monsters g)
    (obstacles g) (bubbles g) (particles g) (upgrades g) (nextMonsterId g)
    (lastSpawnDepth g) (lastResourceUpdate g) (resourceUpdateInterval g)
    (gameOverTriggered g) (gameOverReason g) (debugMode g) (menuOpen g) (hint g)
    (claimedRewards g) (lastFrameTime g) (page g).
Definition set_inputHandler (v : InputHandler.t) (g : t) : t :=
  mk (renderer g) v (collisionDetector g) (submarine g) (gameState g) (monsters g)
    (obstacles g) (bubbles g) (particles g) (upgrades g) (nextMonsterId g)
    (lastSpawnDepth g) (lastResourceUpdate g) (resourceUpdateInterval g)
    (gameOverTriggered g) (gameOverReason g) (debugMode g) (menuOpen g) (hint g)
    (claimedRewards g) (lastFrameTime g) (page g).
Definition set_collisionDetector (v : CollisionDetector.t) (g : t) : t :=
  mk (renderer g) (inputHandler g) v (submarine g) (gameState g) (monsters g)
    (obstacles g) (bubbles g) (particles g) (upgrades g) (nextMonsterId g)
    (lastSpawnDepth g) (lastResourceUpdate g) (resourceUpdateInterval g)
    (gameOverTriggered g) (gameOverReason g) (debugMode g) (menuOpen g) (hint g)
    (claimedRewards g) (lastFrameTime g) (page g).
Definition set_submarine (v : Submarine.t) (g : t) : t :=
  mk (renderer g) (inputHandler g) (collisionDetector g) v (gameState g) (monsters g)
    (obstacles g) (bubbles g) (particles g) (upgrades g) (nextMonsterId g)
    (lastSpawnDepth g) (lastResourceUpdate g) (resourceUpdateInterval g)
    (gameOverTriggered g) (gameOverReason g) (debugMode g) (menuOpen g) (hint g)
    (claimedRewards g) (lastFrameTime g) (page g).
Definition set_gameState (v : GameState.t) (g : t) : t :=
  mk (renderer g) (inputHandler g) (collisionDetector g) (submarine g) v (monsters g)
    (obstacles g) (bubbles g) (particles g) (upgrades g) (nextMonsterId g)
    (lastSpawnDepth g) (lastResourceUpdate g) (resourceUpdateInterval g)
    (gameOverTriggered g) (gameOverReason g) (debugMode g) (menuOpen g) (hint g)
    (claimedRewards g) (lastFrameTime g) (page g).
Definition set_monsters (v : list GameObject.t) (g : t) : t :=
  mk (renderer g) (inputHandler g) (collisionDetector g) (submarine g) (gameState g) v
    (obstacles g) (bubbles g) (particles g) (upgrades g) (nextMonsterId g)
    (lastSpawnDepth g) (lastResourceUpdate g) (resourceUpdateInterval g)
    (gameOverTriggered g) (gameOverReason g) (debugMode g) (menuOpen g) (hint g)
    (claimedRewards g) (lastFrameTime g) (page g).
Definition set_obstacles (v : list GameObject.t) (g : t) : t :=
  mk (renderer g) (inputHandler g) (collisionDetector g) (submarine g) (gameState g)
    (monsters g) v (bubbles g) (particles g) (upgrades g) (nextMonsterId g)
    (lastSpawnDepth g) (lastResourceUpdate g) (resourceUpdateInterval g)
    (gameOverTriggered g) (gameOverReason g) (debugMode g) (menuOpen g) (hint g)
    (claimedRewards g) (lastFrameTime g) (page g).
Definition set_bubbles (v : list GameObject.t) (g : t) : t :=
  mk (renderer g) (inputHandler g) (collisionDetector g) (submarine g) (gameState g)
    (monsters g) (obstacles g) v (particles g) (upgrades g) (nextMonsterId g)
    (lastSpawnDepth g) (lastResourceUpdate g) (resourceUpdateInterval g)
    (gameOverTriggered g) (gameOverReason g) (debugMode g) (menuOpen g) (hint g)
    (claimedRewards g) (lastFrameTime g) (page g).
Definition set_particles (v : list Particle.t) (g : t) : t :=
  mk (renderer g) (inputHandler g) (collisionDetector g) (submarine g) (gameState g)
    (monsters g) (obstacles g) (bubbles g) v (upgrades g) (nextMonsterId g)
    (lastSpawnDepth g) (lastResourceUpdate g) (resourceUpdateInterval g)
    (gameOverTriggered g) (gameOverReason g) (debugMode g) (menuOpen g) (hint g)
    (claimedRewards g) (lastFrameTime g) (page g).
Definition set_upgrades (v : Upgrades) (g : t) : t :=
  mk (renderer g) (inputHandler g) (collisionDetector g) (submarine g) (gameState g)
    (monsters g) (obstacles g) (bubbles g) (particles g) v (nextMonsterId g)
    (lastSpawnDepth g) (lastResourceUpdate g) (resourceUpdateInterval g)
    (gameOverTriggered g) (gameOverReason g) (debugMode g) (menuOpen g) (hint g)
    (claimedRewards g) (lastFrameTime g) (page g).
Definition set_nextMonsterId (v : Z) (g : t) : t :=
  mk (renderer g) (inputHandler g) (collisionDetector g) (submarine g) (gameState g)
    (monsters g) (obstacles g) (bubbles g) (particles g) (upgrades g) v
    (lastSpawnDepth g) (lastResourceUpdate g) (resourceUpdateInterval g)
    (gameOverTriggered g) (gameOverReason g) (debugMode g) (menuOpen g) (hint g)
    (claimedRewards g) (lastFrameTime g) (page g).
Definition set_lastSpawnDepth (v : Q) (g : t) : t :=
  mk (renderer g) (inputHandler g) (collisionDetector g) (submarine g) (gameState g)
    (monsters g) (obstacles g) (bubbles g) (particles g) (upgrades g) (nextMonsterId
    g) v (lastResourceUpdate g) (resourceUpdateInterval g) (gameOverTriggered g)
    (gameOverReason g) (debugMode g) (menuOpen g) (hint g) (claimedRewards g)
    (lastFrameTime g) (page g).
Definition set_lastResourceUpdate (v : Z) (g : t) : t :=
  mk (renderer g) (inputHandler g) (collisionDetector g) (submarine g) (gameState g)
    (monsters g) (obstacles g) (bubbles g) (particles g) (upgrades g) (nextMonsterId
    g) (lastSpawnDepth g) v (resourceUpdateInterval g) (gameOverTriggered g)
    (gameOverReason g) (debugMode g) (menuOpen g) (hint g) (claimedRewards g)
    (lastFrameTime g) (page g).
Definition set_gameOverTriggered (v : bool) (g : t) : t :=
  mk (renderer g) (inputHandler g) (collisionDetector g) (submarine g) (gameState g)
    (monsters g) (obstacles g) (bubbles g) (particles g) (upgrades g) (nextMonsterId
    g) (lastSpawnDepth g) (lastResourceUpdate g) (resourceUpdateInterval g) v
    (gameOverReason g) (debugMode g) (menuOpen g) (hint g) (claimedRewards g)
    (lastFrameTime g) (page g).
Definition set_gameOverReason (v : option Reason) (g : t) : t :=
  mk (renderer g) (inputHandler g) (collisionDetector g) (submarine g) (gameState g)
    (monsters g) (obstacles g) (bubbles g) (particles g) (upgrades g) (nextMonsterId
    g) (lastSpawnDepth g) (lastResourceUpdate g) (resourceUpdateInterval g)
    (gameOverTriggered g) v (debugMode g) (menuOpen g) (hint g) (claimedRewards g)
    (lastFrameTime g) (page g).
Definition set_debugMode (v : bool) (g : t) : t :=
  mk (renderer g) (inputHandler g) (collisionDetector g) (submarine g) (gameState g)
    (monsters g) (obstacles g) (bubbles g) (particles g) (upgrades g) (nextMonsterId
    g) (lastSpawnDepth g) (lastResourceUpdate g) (resourceUpdateInterval g)
    (gameOverTriggered g) (gameOverReason g) v (menuOpen g) (hint g) (claimedRewards
    g) (lastFrameTime g) (page g).
Definition set_menuOpen (v : option string) (g : t) : t :=
  mk (renderer g) (inputHandler g) (collisionDetector g) (submarine g) (gameState g)
    (monsters g) (obstacles g) (bubbles g) (particles g) (upgrades g) (nextMonsterId
    g) (lastSpawnDepth g) (lastResourceUpdate g) (resourceUpdateInterval g)
    (gameOverTriggered g) (gameOverReason g) (debugMode g) v (hint g) (claimedRewards
    g) (lastFrameTime g) (page g).
Definition set_hint (v : option Hint) (g : t) : t :=
  mk (renderer g) (inputHandler g) (collisionDetector g) (submarine g) (gameState g)
    (monsters g) (obstacles g) (bubbles g) (particles g) (upgrades g) (nextMonsterId
    g) (lastSpawnDepth g) (lastResourceUpdate g) (resourceUpdateInterval g)
    (gameOverTriggered g) (gameOverReason g) (debugMode g) (menuOpen g) v
    (claimedRewards g) (lastFrameTime g) (page g).
Definition set_claimedRewards (v : gset Z) (g : t) : t :=
  mk (renderer g) (inputHandler g) (collisionDetector g) (submarine g) (gameState g)
    (monsters g) (obstacles g) (bubbles g) (particles g) (upgrades g) (nextMonsterId
    g) (lastSpawnDepth g) (lastResourceUpdate g) (resourceUpdateInterval g)
    (gameOverTriggered g) (gameOverReason g) (debugMode g) (menuOpen g) (hint g) v
    (lastFrameTime g) (page g).
Definition set_lastFrameTime (v : Q) (g : t) : t :=
  mk (renderer g) (inputHandler g) (collisionDetector g) (submarine g) (gameState g)
    (monsters g) (obstacles g) (bubbles g) (particles g) (upgrades g) (nextMonsterId
    g) (lastSpawnDepth g) (lastResourceUpdate g) (resourceUpdateInterval g)
    (gameOverTriggered g) (gameOverReason g) (debugMode g) (menuOpen g) (hint g)
    (claimedRewards g) v (page g).
Definition set_page (v : list DomEvent) (g : t) : t :=
  mk (renderer g) (inputHandler g) (collisionDetector g) (submarine g) (gameState g)
    (monsters g) (obstacles g) (bubbles g) (particles g) (upgrades g) (nextMonsterId
    g) (lastSpawnDepth g) (lastResourceUpdate g) (resourceUpdateInterval g)
    (gameOverTriggered g) (gameOverReason g) (debugMode g) (menuOpen g) (hint g)
    (claimedRewards g) (lastFrameTime g) v.

Definition initialGameState : GameState.t :=
  {| GameState.oxygen := 100; GameState.energy := 100; GameState.health := 100;
     GameState.depth := 0; GameState.score := 0;
     GameState.sonarActive := false; GameState.sonarCooldown := 0 |}.

Definition initialUpgrades : Upgrades :=
  {| oxygenTank := false; advancedSonar := false;
     reinforcedHull := false; turboThrust := false |}.

Definition newParticle (E : JS.Env) (ps : list Particle.t) : JS.M (list Particle.t) :=
  let* rx := JS.random E in
  let* ry := JS.random E in
  let* rsize := JS.random E in
  let* rspeed := JS.random E in
  JS.ret (ps ++ [{| Particle.x := JS.mul rx 800; Particle.y := JS.mul ry 600;
                    Particle.size := JS.add (JS.mul rsize 3) 1;
                    Particle.speed := JS.add (JS.mul rspeed 0.5) (JS.lit 0.2) |}]).

Definition initializeParticles (E : JS.Env) : JS.M (list Particle.t) :=
  JS.times 50 (newParticle E) [].

(** [new Game(canvas)]. *)
Definition new (E : JS.Env) : JS.M t :=
  let* submarine := Submarine.new E 350 270 100 60 in
  let* lastFrameTime := JS.now E in
  let* particles := initializeParticles E in
  JS.ret {| renderer := Renderer.new;
            inputHandler := InputHandler.new;
            collisionDetector := CollisionDetector.new;
            submarine := submarine;
            gameState := initialGameState;
            monsters := []; obstacles := []; bubbles := [];
            particles := particles;
            upgrades := initialUpgrades;
            nextMonsterId := 1;
            lastSpawnDepth := 0;
            lastResourceUpdate := 0;
            resourceUpdateInterval := 50;
            gameOverTriggered := false;
            gameOverReason := None;
            debugMode := false;
            menuOpen := None;
            hint := None;
            claimedRewards := ∅;
            lastFrameTime := inject_Z lastFrameTime;
            page := [] |}.

Definition showHint (text : Hint) (g : t) : t :=
  set_page (page g ++ [HintShown text]) (set_hint (Some text) g).

Definition activateSonar (g : t) : t :=
  let gs := gameState g in
  if JS.geb (GameState.energy gs) 20 && JS.leb (GameState.sonarCooldown gs) 0
     && negb (GameState.sonarActive gs) then
    let gs := GameState.set_energy
                (JS.Math_max 0 (GameState.energy gs
                                - (if advancedSonar (upgrades g) then 10 else 20))) gs in
    let gs := GameState.set_sonarActive true gs in
    let gs := GameState.set_sonarCooldown 5 gs in
    showHint SonarActivated (set_gameState gs g)
  else if JS.ltb (GameState.energy gs) 20 then showHint LowEnergy g
  else if JS.gtb (GameState.sonarCooldown gs) 0 then showHint SonarOnCooldown g
  else g.

(** The callback that [activateSonar] schedules for 3000 ms later. *)
Definition sonarTimeout (g : t) : t :=
  set_gameState (GameState.set_sonarActive false (gameState g)) g.

(** The callback that [showHint] schedules for 3000 ms later. *)
Definition hintTimeout (g : t) : t := set_hint None g.

Definition openMenu (menuName : string) (g : t) : t := set_menuOpen (Some menuName) g.
Definition closeMenu (g : t) : t := set_menuOpen None g.
Definition toggleMenu (menuName : string) (g : t) : t :=
  if bool_decide (menuOpen g = Some menuName) then closeMenu g else openMenu menuName g.

Definition toggleDebugMode (g : t) : t :=
  let g := set_debugMode (negb (debugMode g)) g in
  showHint (if debugMode g then DebugOn else DebugOff) g.

(** Truthiness of [this.menuOpen] ([null] or a string). *)
Definition truthy (m : option string) : bool :=
  match m with
  | None => false
  | Some s => negb (String.eqb s "")
  end.

(** *** Procedural spawning *)

Definition monsterTypes : list string := ["squid"; "angler"; "viper"; "shark"].

(** [array[i]] for a numeric index; outside the array the result is
    [undefined], which every comparison of the source treats like a
    string that matches no case. *)
Definition index (l : list string) (i : Z) : string :=
  if (i <? 0)%Z then "undefined" else nth (Z.to_nat i) l "undefined".

(** One iteration of the loop of [spawnMonsters]. Every operation is
    rounded but the product by [monsterTypes.length]: a product by 4
    only changes the exponent of a double. *)
Definition spawnMonster (E : JS.Env) (currentDepth : Q) (g : t) : JS.M t :=
  let* rtype := JS.random E in
  let type := index monsterTypes
                (Qfloor (rtype * inject_Z (Z.of_nat (length monsterTypes)))) in
  let depthMultiplier := JS.add 1 (JS.div currentDepth 5000) in
  let* rdir := JS.random E in
  let direction := if JS.gtb rdir 0.5 then 1 else -1 in
  let baseSpeed :=
    if String.eqb type "viper" then 1.5
    else if String.eqb type "shark" then JS.lit 1.2
    else if String.eqb type "squid" then JS.lit 0.8 else JS.lit 0.6 in
  let* ry := JS.random E in
  let* monster :=
    GameObject.new E
      (if JS.gtb direction 0 then -100 else 900)
      (JS.add (JS.add currentDepth 600) (JS.mul ry 400))
      (if String.eqb type "shark" then 150
       else if String.eqb type "angler" then 100
       else if String.eqb type "viper" then 120 else 80)
      (if String.eqb type "shark" then 100
       else if String.eqb type "angler" then 80
       else if String.eqb type "viper" then 60 else 80)
      type in
  let monster := GameObject.set_id (nextMonsterId g) monster in
  let g := set_nextMonsterId (nextMonsterId g + 1)%Z g in
  let monster := GameObject.set_velocityX
                   (JS.mul (JS.mul direction baseSpeed)
                      (JS.add 1 (JS.div currentDepth 10000))) monster in
  let* rvy := JS.random E in
  let monster := GameObject.set_velocityY
                   (JS.mul (JS.sub rvy 0.5) (JS.lit 0.3)) monster in
  let monster := GameObject.set_health
                   (JS.Math_floor
                      (JS.mul
                         (if String.eqb type "shark" then 200
                          else if String.eqb type "angler" then 150
                          else if String.eqb type "viper" then 120 else 100)
                         depthMultiplier)) monster in
  let monster := GameObject.set_speed
                   (JS.mul baseSpeed (JS.add 1 (JS.div currentDepth 10000))) monster in
  let monster := GameObject.set_visible false monster in
  JS.ret (set_monsters (monsters g ++ [monster]) g).

Definition spawnMonsters (E : JS.Env) (g : t) : JS.M t :=
  let currentDepth := GameState.depth (gameState g) in
  let* r := JS.random E in
  if JS.geb (currentDepth - lastSpawnDepth g) (400 + r * 300) then
    let g := set_lastSpawnDepth currentDepth g in
    let enemyCount := JS.Math_min (1 + JS.Math_floor (currentDepth / 2000)) 3 in
    JS.times (Z.to_nat (Qceiling enemyCount)) (spawnMonster E currentDepth) g
  else JS.ret g.

Definition spawnObstacle (E : JS.Env) (currentDepth : Q) (g : t) : JS.M t :=
  if (Z.of_nat (length (obstacles g)) <? 4)%Z then
    let* r := JS.random E in
    if JS.ltb r (JS.lit 0.02) then
      let* rx := JS.random E in
      let* ry := JS.random E in
      let* rw := JS.random E in
      let* rh := JS.random E in
      let* obstacle :=
        GameObject.new E (JS.add (JS.mul rx 700) 50)
                       (JS.add (JS.add currentDepth 400) (JS.mul ry 400))
                       (JS.add 80 (JS.mul rw 40)) (JS.add 80 (JS.mul rh 40))
                       "rock" in
      let obstacle := GameObject.set_id (nextMonsterId g) obstacle in
      let g := set_nextMonsterId (nextMonsterId g + 1)%Z g in
      JS.ret (set_obstacles (obstacles g ++ [obstacle]) g)
    else JS.ret g
  else JS.ret g.

Definition spawnBubble (E : JS.Env) (currentDepth : Q) (g : t) : JS.M t :=
  if (Z.of_nat (length (bubbles g)) <? 5)%Z then
    let* r := JS.random E in
    if JS.ltb r (JS.lit 0.025) then
      let* rx := JS.random E in
      let* ry := JS.random E in
      let* bubble :=
        GameObject.new E (JS.add (JS.mul rx 750) 25)
                       (JS.add (JS.add currentDepth 500) (JS.mul ry 300))
                       40 40 "bubble" in
      let bubble := GameObject.set_id (nextMonsterId g) bubble in
      let g := set_nextMonsterId (nextMonsterId g + 1)%Z g in
      JS.ret (set_bubbles (bubbles g ++ [bubble]) g)
    else JS.ret g
  else JS.ret g.

Definition spawnProceduralElements (E : JS.Env) (g : t) : JS.M t :=
  let currentDepth := GameState.depth (gameState g) in
  let* g := spawnObstacle E currentDepth g in
  spawnBubble E currentDepth g.

(** *** Depth rewards *)

Definition rewards : list Reward :=
  [ {| depth := 2000; oxygen := 20; points := 500 |};
    {| depth := 4000; oxygen := 30; points := 1000 |};
    {| depth := 6000; oxygen := 40; points := 2000 |} ].

(** The callback of [rewards.forEach]; [d] is the local [depth]. *)
Definition claimReward (d : Q) (g : t) (reward : Reward) : t :=
  if JS.geb d (inject_Z (depth reward))
     && negb (bool_decide (depth reward ∈ claimedRewards g)) then
    let g := set_claimedRewards ({[depth reward]} ∪ claimedRewards g) g in
    let gs := gameState g in
    let gs := GameState.set_oxygen
                (JS.Math_min 100 (GameState.oxygen gs + oxygen reward)) gs in
    let gs := GameState.set_score (GameState.score gs + points reward) gs in
    showHint (RewardReached (depth reward)) (set_gameState gs g)
  else g.

Definition set_oxygenTank (v : bool) (u : Upgrades) : Upgrades :=
  mkUpgrades v (advancedSonar u) (reinforcedHull u) (turboThrust u).
Definition set_advancedSonar (v : bool) (u : Upgrades) : Upgrades :=
  mkUpgrades (oxygenTank u) v (reinforcedHull u) (turboThrust u).
Definition set_reinforcedHull (v : bool) (u : Upgrades) : Upgrades :=
  mkUpgrades (oxygenTank u) (advancedSonar u) v (turboThrust u).
Definition set_turboThrust (v : bool) (u : Upgrades) : Upgrades :=
  mkUpgrades (oxygenTank u) (advancedSonar u) (reinforcedHull u) v.

Definition unlockUpgrades (d : Q) (g : t) : t :=
  let g :=
    if JS.geb d 3000 && negb (oxygenTank (upgrades g)) then
      showHint (UpgradeUnlocked "oxygenTank")
               (set_upgrades (set_oxygenTank true (upgrades g)) g)
    else g in
  let g :=
    if JS.geb d 5000 && negb (advancedSonar (upgrades g)) then
      showHint (UpgradeUnlocked "advancedSonar")
               (set_upgrades (set_advancedSonar true (upgrades g)) g)
    else g in
  let g :=
    if JS.geb d 7000 && negb (reinforcedHull (upgrades g)) then
      showHint (UpgradeUnlocked "reinforcedHull")
               (set_upgrades (set_reinforcedHull true (upgrades g)) g)
    else g in
  if JS.geb d 9000 && negb (turboThrust (upgrades g)) then
    showHint (UpgradeUnlocked "turboThrust")
             (set_upgrades (set_turboThrust true (upgrades g)) g)
  else g.

Definition checkDepthRewards (g : t) : t :=
  let d := GameState.depth (gameState g) in
  let g := fold_left (claimReward d) rewards g in
  unlockUpgrades d g.

Definition endGame (reason : Reason) (finalScore : Q) (g : t) : t :=
  let g := set_gameOverTriggered true g in
  let g := set_gameOverReason (Some reason) g in
  set_page (page g ++ [GameOverShown reason finalScore]) g.

(** *** The phases of [update], in source order *)

(** "Mover objetos do mundo". *)
Definition moveWorld (worldOffsetY : Q) (g : t) : t :=
  if JS.neb worldOffsetY 0 then
    let shift := fun o => GameObject.set_y (GameObject.y o + worldOffsetY) o in
    let g := set_monsters (List.map shift (monsters g)) g in
    let g := set_obstacles (List.map shift (obstacles g)) g in
    set_bubbles (List.map shift (bubbles g)) g
  else g.

(** "Atualizar profundidade". *)
Definition descend (keys : gset string) (g : t) : t :=
  if Submarine.has keys "s" then
    let gs := gameState g in
    let g := set_gameState
               (GameState.set_depth (JS.Math_min 11000 (GameState.depth gs + 5)) gs) g in
    checkDepthRewards g
  else g.

(** "Atualizar partículas". The sum and the difference are rounded;
    the remainder of two doubles is a double, so [%] is exact. *)
Definition moveParticle (E : JS.Env) (p : Particle.t) : JS.M Particle.t :=
  let y' := JS.rem (JS.add (JS.sub (Particle.y p) (Particle.speed p)) 600) 600 in
  let* now := JS.now E in
  let x' := JS.add (Particle.x p)
              (JS.mul
                 (JS.Math_sin E (JS.add (JS.div (inject_Z now) 1000) (Particle.y p)))
                 0.5) in
  JS.ret (Particle.mk x' y' (Particle.size p) (Particle.speed p)).

Definition updateParticles (E : JS.Env) (g : t) : JS.M t :=
  let* ps := JS.mapM (moveParticle E) (particles g) in
  JS.ret (set_particles ps g).

(** "Atualizar recursos (throttled)". *)
Definition updateResources (E : JS.Env) (g : t) : JS.M t :=
  let* now := JS.now E in
  if (resourceUpdateInterval g <=? now - lastResourceUpdate g)%Z then
    let g := set_lastResourceUpdate now g in
    let gs := gameState g in
    let gs := GameState.set_oxygen (JS.Math_max 0 (GameState.oxygen gs - 0.05)) gs in
    let gs := GameState.set_energy (JS.Math_min 100 (GameState.energy gs + 0.02)) gs in
    let gs := GameState.set_sonarCooldown
                (JS.Math_max 0 (GameState.sonarCooldown gs - 0.016)) gs in
    let g := set_gameState gs g in
    if JS.ltb (GameState.oxygen gs) 20 && bool_decide (hint g = None) then
      JS.ret (showHint LowOxygen g)
    else JS.ret g
  else JS.ret g.

(** "Atualizar monstros". *)
Definition moveMonster (E : JS.Env) (sonarActive : bool) (m : GameObject.t)
  : JS.M GameObject.t :=
  let* now := JS.now E in
  let swimMotion := JS.Math_sin E (inject_Z now / 500 + GameObject.x m) * 0.5 in
  let m := GameObject.set_x (GameObject.x m + GameObject.velocityX m) m in
  let m := GameObject.set_y (GameObject.y m + (GameObject.velocityY m + swimMotion)) m in
  let m :=
    if JS.ltb (GameObject.x m) (-150) || JS.gtb (GameObject.x m) 950 then
      GameObject.set_velocityX (- GameObject.velocityX m) m
    else m in
  JS.ret (GameObject.set_visible sonarActive m).

Definition updateMonsters (E : JS.Env) (g : t) : JS.M t :=
  let* ms := JS.mapM (moveMonster E (GameState.sonarActive (gameState g))) (monsters g) in
  JS.ret (set_monsters ms g).

(** "Limpar objetos fora de tela". *)
Definition onScreen (d : Q) (o : GameObject.t) : bool :=
  negb (GameObject.isOffScreen o 800 600 d).

Definition cull (g : t) : t :=
  let g := set_monsters
             (List.filter (onScreen (GameState.depth (gameState g))) (monsters g)) g in
  let g := set_obstacles
             (List.filter (onScreen (GameState.depth (gameState g))) (obstacles g)) g in
  set_bubbles (List.filter (onScreen (GameState.depth (gameState g))) (bubbles g)) g.

(** [list.filter(o => !collisions.includes(o))]. Objects are compared
    by identity in the source; live objects carry distinct ids, so
    comparing the records is the same test. *)
Definition without (collisions l : list GameObject.t) : list GameObject.t :=
  List.filter (fun o => negb (bool_decide (o ∈ collisions))) l.

Definition hitByMonster (g : t) (monster : GameObject.t) : t :=
  let damage := if reinforcedHull (upgrades g) then 7 else 10 in
  let gs := gameState g in
  let g := set_gameState
             (GameState.set_health (JS.Math_max 0 (GameState.health gs - damage)) gs) g in
  showHint (MonsterDamage damage) g.

Definition hitByObstacle (g : t) (obstacle : GameObject.t) : t :=
  let damage := if reinforcedHull (upgrades g) then 17 else 25 in
  let gs := gameState g in
  let g := set_gameState
             (GameState.set_health (JS.Math_max 0 (GameState.health gs - damage)) gs) g in
  showHint (RockDamage damage) g.

(** "Verificar colisões com monstros". *)
Definition collideMonsters (E : JS.Env) (cameraOffset : Q) (g : t) : JS.M t :=
  let* '(monsterCollisions, cd) :=
    CollisionDetector.checkMonsterCollisions E (collisionDetector g) (submarine g)
      (monsters g) (GameState.depth (gameState g)) cameraOffset in
  let g := set_collisionDetector cd g in
  let g := fold_left hitByMonster monsterCollisions g in
  JS.ret (set_monsters (without monsterCollisions (monsters g)) g).

(** "Verificar colisões com obstáculos". *)
Definition collideObstacles (E : JS.Env) (cameraOffset : Q) (g : t) : JS.M t :=
  let* '(obstacleCollisions, cd) :=
    CollisionDetector.checkObstacleCollisions E (collisionDetector g) (submarine g)
      (obstacles g) (GameState.depth (gameState g)) cameraOffset in
  let g := set_collisionDetector cd g in
  let g := fold_left hitByObstacle obstacleCollisions g in
  JS.ret (set_obstacles (without obstacleCollisions (obstacles g)) g).

(** "Verificar colisões com bolhas". *)
Definition collideBubbles (cameraOffset : Q) (g : t) : JS.M t :=
  let* '(bubbleCollisions, cd) :=
    CollisionDetector.checkBubbleCollisions (collisionDetector g) (submarine g)
      (bubbles g) (GameState.depth (gameState g)) cameraOffset in
  let g := set_collisionDetector cd g in
  let n := inject_Z (Z.of_nat (length bubbleCollisions)) in
  let g :=
    if (0 <? Z.of_nat (length bubbleCollisions))%Z then
      let gs := gameState g in
      let g := set_gameState
                 (GameState.set_oxygen
                    (JS.Math_min 100 (GameState.oxygen gs + 15 * n)) gs) g in
      showHint (OxygenGained (15 * n)) g
    else g in
  JS.ret (set_bubbles (without bubbleCollisions (bubbles g)) g).

(** "Verificar condições de fim de jogo". *)
Definition checkGameOver (g : t) : t :=
  let gs := gameState g in
  if JS.geb (GameState.depth gs) 11000 then
    endGame Victory (GameState.score gs + 10000) g
  else if JS.leb (GameState.oxygen gs) 0 then
    endGame OxygenDepleted (GameState.score gs) g
  else if JS.leb (GameState.health gs) 0 then
    endGame SubmarineDestroyed (GameState.score gs) g
  else g.

(** The part of [update] that runs before the culling: input, the
    craft, the world scroll, depth and its rewards, particles,
    resources and the creatures' own motion. *)
Definition simulate (E : JS.Env) (deltaTime : Q) (g : t) : JS.M t :=
  let g := set_inputHandler (InputHandler.updateCameraOffset (inputHandler g)) g in
  let keys := InputHandler.getKeys (inputHandler g) in
  let '(submarine', worldOffsetY) := Submarine.update (submarine g) keys deltaTime in
  let g := set_submarine submarine' g in
  let g := moveWorld worldOffsetY g in
  let g := descend keys g in
  let g := set_renderer
             (Renderer.updateDepthColor (renderer g) (GameState.depth (gameState g))) g in
  let* g := updateParticles E g in
  let* g := updateResources E g in
  updateMonsters E g.

(** The three collision passes, in source order. *)
Definition collide (E : JS.Env) (g : t) : JS.M t :=
  let cameraOffset := InputHandler.getCameraOffset (inputHandler g) in
  let* g := collideMonsters E cameraOffset g in
  let* g := collideObstacles E cameraOffset g in
  collideBubbles cameraOffset g.

Definition spawn (E : JS.Env) (g : t) : JS.M t :=
  let* g := spawnMonsters E g in
  spawnProceduralElements E g.

(** [update(deltaTime)]. The final [updateHUD()] only copies the game
    state to the page and is left out. *)
Definition update (E : JS.Env) (deltaTime : Q) (g : t) : JS.M t :=
  if gameOverTriggered g || truthy (menuOpen g) then JS.ret g
  else
    let* g := simulate E deltaTime g in
    let g := cull g in
    let* g := collide E g in
    let* g := spawn E g in
    JS.ret (checkGameOver g).

Definition restart (E : JS.Env) (g : t) : JS.M t :=
  let g := set_gameState initialGameState g in
  let g := set_monsters [] g in
  let g := set_obstacles [] g in
  let g := set_bubbles [] g in
  let* particles := initializeParticles E in
  let g := set_particles particles g in
  let g := set_upgrades initialUpgrades g in
  let g := set_nextMonsterId 1 g in
  let g := set_lastSpawnDepth 0 g in
  let g := set_lastResourceUpdate 0 g in
  let g := set_gameOverTriggered false g in
  let g := set_gameOverReason None g in
  let g := set_debugMode false g in
  let g := set_menuOpen None g in
  let g := set_hint None g in
  let g := set_claimedRewards ∅ g in
  let g := set_submarine (Submarine.reset (submarine g)) g in
  let g := set_inputHandler (InputHandler.reset (inputHandler g)) g in
  let g := set_collisionDetector (CollisionDetector.reset (collisionDetector g)) g in
  let g := set_renderer (Renderer.reset (renderer g)) g in
  JS.ret (set_page (page g ++ [GameOverHidden]) g).

(** One call of the [gameLoop] closure of [start]; [currentTime] is the
    timestamp handed over by [requestAnimationFrame]. *)
Definition gameLoop (E : JS.Env) (currentTime : Q) (g : t) : JS.M t :=
  let deltaTime := currentTime - lastFrameTime g in
  let g := set_lastFrameTime currentTime g in
  let clampedDeltaTime := JS.Math_min deltaTime 16 in
  let* g := update E clampedDeltaTime g in
  let cameraOffset := InputHandler.getCameraOffset (inputHandler g) in
  JS.ret (set_renderer
            (Renderer.render (renderer g) (gameState g) (submarine g)
               (monsters g) (obstacles g) (bubbles g) (particles g)
               cameraOffset (debugMode g)) g).

(** [InputHandler.handleKeyDown] together with its calls into the game. *)
Definition handleKeyDown (key : string) (g : t) : t :=
  let g := set_inputHandler (InputHandler.handleKeyDown (inputHandler g) key) g in
  let g := if String.eqb key " " then activateSonar g else g in
  let g := if String.eqb key "m" then toggleMenu "missions" g else g in
  let g := if String.eqb key "u" then toggleMenu "upgrades" g else g in
  let g := if String.eqb key "escape" then closeMenu g else g in
  if String.eqb key "b" then toggleDebugMode g else g.

Definition handleKeyUp (key : string) (g : t) : t :=
  set_inputHandler (InputHandler.handleKeyUp (inputHandler g) key) g.

Definition handleWheel (deltaY : Q) (g : t) : t :=
  set_inputHandler (InputHandler.handleWheel (inputHandler g) deltaY) g.

(** *** The event loop

    Everything that can run between two frames: the browser delivers
    an animation frame, a keyboard or wheel event, a click on the
    restart button or on a menu-closing control, or one of the two
    timer callbacks. Timers are allowed to fire at any moment. *)
Inductive Event :=
| AnimationFrame (currentTime : Q)
| KeyDown (key : string)
| KeyUp (key : string)
| Wheel (deltaY : Q)
| SonarTimer
| HintTimer
| ClickCloseMenu
| ClickRestart.

Definition handle (E : JS.Env) (e : Event) (g : t) : JS.M t :=
  match e with
  | AnimationFrame currentTime => gameLoop E currentTime g
  | KeyDown key => JS.ret (handleKeyDown key g)
  | KeyUp key => JS.ret (handleKeyUp key g)
  | Wheel deltaY => JS.ret (handleWheel deltaY g)
  | SonarTimer => JS.ret (sonarTimeout g)
  | HintTimer => JS.ret (hintTimeout g)
  | ClickCloseMenu => JS.ret (closeMenu g)
  | ClickRestart => restart E g
  end.

Definition isRestart (e : Event) : bool :=
  match e with ClickRestart => true | _ => false end.

(** The events of a list, handled in order. *)
Definition run (E : JS.Env) (events : list Event) (g : t) : JS.M t :=
  JS.forEach (handle E) events g.
End Game.

(* ===================================================================== *)
(** * Part II: the vocabulary of the statements *)
(* ===================================================================== *)

(** ** Entity hitboxes *)
Module HitboxSpec.
Local Open Scope Q_scope.
Import GameObject.

Definition knownKinds : list string :=
  ["shark"; "squid"; "angler"; "viper"; "rock"; "bubble"].

(** The full bounding rectangle of an entity. *)
Definition boundingRect (o : GameObject.t) : Rect.t :=
  {| Rect.x := x o; Rect.y := y o; Rect.width := width o; Rect.height := height o |}.

(** The rectangle [{x + w*fx, y + h*fy, w*fw, h*fh}]. *)
Definition shrunkRect (o : GameObject.t) (fx fy fw fh : Q) : Rect.t :=
  {| Rect.x := x o + width o * fx; Rect.y := y o + height o * fy;
     Rect.width := width o * fw; Rect.height := height o * fh |}.

(** The fractions of the six kinds, for reference in the statements. *)
Definition kindFractions (kind : string) : option (Q * Q * Q * Q) :=
  if String.eqb kind "shark" then Some (0.1, 0.2, 0.8, 0.6)
  else if String.eqb kind "squid" then Some (0.2, 0.1, 0.6, 0.8)
  else if String.eqb kind "angler" then Some (0.15, 0.2, 0.7, 0.6)
  else if String.eqb kind "viper" then Some (0.05, 0.1, 0.9, 0.8)
  else if String.eqb kind "rock" then Some (0.1, 0.1, 0.8, 0.8)
  else if String.eqb kind "bubble" then Some (0.15, 0.15, 0.7, 0.7)
  else None.

(** The submarine's own record (type "submarine") and a 120 x 60 viper. *)
Definition sampleUnknown : GameObject.t :=
  GameObject.mk 350 270 100 60 "submarine" 0 0 0 0 0 false 0.
Definition sampleViper : GameObject.t :=
  GameObject.mk 900 1000 120 60 "viper" (-1.5) 0 120 1.5 7 false 0.
End HitboxSpec.

(** ** Collision detection *)
Module DetectionSpec.
Local Open Scope Q_scope.

(** The Coordinate Transform applied on its own: a world-frame
    rectangle moved to the screen frame by adding [depthOffset] to its
    Y coordinate. *)
Definition screenFrame (r : Rect.t) (depthOffset : Q) : Rect.t :=
  {| Rect.x := Rect.x r; Rect.y := Rect.y r + depthOffset;
     Rect.width := Rect.width r; Rect.height := Rect.height r |}.

(** Whether an entity overlaps the submarine in the screen frame. *)
Definition overlaps (submarine : Submarine.t) (depth cameraOffset : Q)
    (o : GameObject.t) : bool :=
  CollisionDetector.checkAABB (Submarine.getScreenHitbox submarine)
    (screenFrame (GameObject.getHitbox o)
                 (CollisionDetector.calculateDepthOffset depth cameraOffset)).

(** A detection call: which pass, and its four arguments. *)
Inductive Pass := MonsterPass | ObstaclePass | BubblePass.

Record Call := mkCall {
  pass : Pass;
  submarine : Submarine.t;
  entities : list GameObject.t;
  depth : Q;
  cameraOffset : Q
}.

Definition detect (E : JS.Env) (c : Call) (cd : CollisionDetector.t)
  : JS.M (list GameObject.t * CollisionDetector.t) :=
  match pass c with
  | MonsterPass =>
      CollisionDetector.checkMonsterCollisions E cd (submarine c) (entities c)
        (depth c) (cameraOffset c)
  | ObstaclePass =>
      CollisionDetector.checkObstacleCollisions E cd (submarine c) (entities c)
        (depth c) (cameraOffset c)
  | BubblePass =>
      CollisionDetector.checkBubbleCollisions cd (submarine c) (entities c)
        (depth c) (cameraOffset c)
  end.

(** A sequence of detection calls on the same detector; the result
    lists what each call reported. *)
Fixpoint detectAll (E : JS.Env) (calls : list Call) (cd : CollisionDetector.t)
  : JS.M (list (Pass * list GameObject.t) * CollisionDetector.t) :=
  match calls with
  | [] => JS.ret ([], cd)
  | c :: rest =>
      let* '(reported, cd) := detect E c cd in
      let* '(reports, cd) := detectAll E rest cd in
      JS.ret ((pass c, reported) :: reports, cd)
  end.

(** The possible outcomes of one gated step (the callback of the monster
    and obstacle passes) on the array [cols], the detector [cd] and the
    oracle counters [w]. *)
Import CollisionDetector.

Inductive GatedOutcome (E : JS.Env) (hb : Rect.t) (off : Q) (o : GameObject.t)
    (cols : list GameObject.t) (cd : CollisionDetector.t) (w : JS.World)
  : list GameObject.t * CollisionDetector.t * JS.World -> Prop :=
| StillCooling (t : Z) :
    collisionCooldown cd !! GameObject.id o = Some t ->
    (JS.Date_now E (JS.clockReads w) - t < cooldownDuration cd)%Z ->
    GatedOutcome E hb off o cols cd w
      (cols, cd, JS.mkWorld (S (JS.clockReads w)) (JS.randomDraws w))
| ExpiredMiss (t : Z) :
    collisionCooldown cd !! GameObject.id o = Some t ->
    (cooldownDuration cd <= JS.Date_now E (JS.clockReads w) - t)%Z ->
    checkAABB hb (getWorldObjectScreenHitbox o off) = false ->
    GatedOutcome E hb off o cols cd w
      (cols, mk (delete (GameObject.id o) (collisionCooldown cd)) (cooldownDuration cd),
       JS.mkWorld (S (JS.clockReads w)) (JS.randomDraws w))
| ExpiredHit (t : Z) :
    collisionCooldown cd !! GameObject.id o = Some t ->
    (cooldownDuration cd <= JS.Date_now E (JS.clockReads w) - t)%Z ->
    checkAABB hb (getWorldObjectScreenHitbox o off) = true ->
    GatedOutcome E hb off o cols cd w
      (cols ++ [o],
       mk (<[GameObject.id o := JS.Date_now E (S (JS.clockReads w))]>
             (delete (GameObject.id o) (collisionCooldown cd))) (cooldownDuration cd),
       JS.mkWorld (S (S (JS.clockReads w))) (JS.randomDraws w))
| FreshMiss :
    collisionCooldown cd !! GameObject.id o = None ->
    checkAABB hb (getWorldObjectScreenHitbox o off) = false ->
    GatedOutcome E hb off o cols cd w (cols, cd, w)
| FreshHit :
    collisionCooldown cd !! GameObject.id o = None ->
    checkAABB hb (getWorldObjectScreenHitbox o off) = true ->
    GatedOutcome E hb off o cols cd w
      (cols ++ [o],
       mk (<[GameObject.id o := JS.Date_now E (JS.clockReads w)]> (collisionCooldown cd))
          (cooldownDuration cd),
       JS.mkWorld (S (JS.clockReads w)) (JS.randomDraws w)).
End DetectionSpec.

(** ** The player craft *)
Module SubmarineSpec.
Local Open Scope Q_scope.

(** The vertical band the craft is meant to stay in. *)
Definition screenYInRange (s : Submarine.t) : Prop :=
  Submarine.centerY s - Submarine.maxVerticalOffset s <= Submarine.screenY s
  /\ Submarine.screenY s <= Submarine.centerY s + Submarine.maxVerticalOffset s.

(** The first animation frame of a page on which the W key went down
    before the frame: [Date.now()] is a Unix time in milliseconds, the
    timestamp of the frame counts from the page load. *)
Definition firstFrameEnv : JS.Env :=
  {| JS.Date_now := fun _ => 1700000000000%Z;
     JS.Math_random := fun _ => 0.5;
     JS.Math_sin := fun _ => 0 |}.

Definition afterFirstFrame : Game.t :=
  let (g, w) := Game.new firstFrameEnv (JS.mkWorld 0 0) in
  (Game.run firstFrameEnv [Game.KeyDown "w"; Game.AnimationFrame 16] g w).1.
End SubmarineSpec.

(** ** The simulation step *)
Module GameSpec.
Local Open Scope Q_scope.
Import Game.

(** The ranges of the four clamped scalars. *)
Definition resourcesInRange (gs : GameState.t) : Prop :=
  (0 <= GameState.health gs /\ GameState.health gs <= 100) /\
  (0 <= GameState.energy gs /\ GameState.energy gs <= 100) /\
  (0 <= GameState.oxygen gs /\ GameState.oxygen gs <= 100) /\
  (0 <= GameState.depth gs /\ GameState.depth gs <= 11000).

(** How many times the game-over screen has been shown, and how many
    times the reward of a threshold has been announced. Each execution
    of the guarded block of [checkDepthRewards] announces its reward
    once, and each call of [endGame] shows the screen once. *)
Definition isGameOverShown (e : DomEvent) : bool :=
  match e with GameOverShown _ _ => true | _ => false end.

Definition gameOverShown (events : list DomEvent) : nat :=
  length (List.filter isGameOverShown events).

Definition isRewardShown (threshold : Z) (e : DomEvent) : bool :=
  match e with
  | HintShown (RewardReached th) => (th =? threshold)%Z
  | _ => false
  end.

Definition rewardsShown (threshold : Z) (events : list DomEvent) : nat :=
  length (List.filter (isRewardShown threshold) events).

(** The simulation is stepping: no game over yet and no menu open. *)
Definition running (g : Game.t) : Prop :=
  gameOverTriggered g = false /\ truthy (menuOpen g) = false.

(** A run is a sequence of events without a restart. *)
Definition noRestart (events : list Event) : Prop :=
  Forall (fun e => isRestart e = false) events.

(** The state of the rewards at the start of a run. *)
Definition fresh (g : Game.t) : Prop :=
  GameState.depth (gameState g) = 0 /\
  GameState.score (gameState g) = 0 /\
  claimedRewards g = ∅.

(** The points of the rewards whose threshold is in [claimed]. *)
Definition earned (claimed : gset Z) : Q :=
  fold_right (fun r acc => (if bool_decide (depth r ∈ claimed) then points r else 0) + acc)
             0 rewards.

(** The live entities and their ids. *)
Definition liveObjects (g : Game.t) : list GameObject.t :=
  monsters g ++ obstacles g ++ bubbles g.

Definition liveIds (g : Game.t) : list Z :=
  List.map GameObject.id (liveObjects g).

(** Ids are unique among live entities and below the next id to hand
    out. *)
Definition idsWellFormed (g : Game.t) : Prop :=
  NoDup (liveIds g) /\ forall i, i ∈ liveIds g -> (i < nextMonsterId g)%Z.


(** Bookkeeping relations between the state before and after a phase:
    nothing about the rewards changed; nothing about the game over
    changed; every live id is an old one or a newly handed out one. *)
Definition rewardsQuiet (g g' : Game.t) : Prop :=
  claimedRewards g' = claimedRewards g /\
  GameState.depth (gameState g') = GameState.depth (gameState g) /\
  GameState.score (gameState g') = GameState.score (gameState g) /\
  forall th, rewardsShown th (page g') = rewardsShown th (page g).

Definition gameOverQuiet (g g' : Game.t) : Prop :=
  gameOverTriggered g' = gameOverTriggered g /\
  gameOverReason g' = gameOverReason g /\
  gameOverShown (page g') = gameOverShown (page g).

Definition idsFrom (g g' : Game.t) : Prop :=
  (nextMonsterId g <= nextMonsterId g')%Z /\
  forall i, i ∈ liveIds g' -> i ∈ liveIds g \/ (nextMonsterId g <= i)%Z.

(** Page events that are neither a reward announcement nor the
    game-over screen. *)
Definition isPlain (e : DomEvent) : bool :=
  match e with
  | HintShown (RewardReached _) => false
  | GameOverShown _ _ => false
  | _ => true
  end.

(** What a collision outcome leaves alone, and the relation between
    the state before and after collision damage: only the health (kept
    in range), the hint and the page (plain events) change. *)
Definition bystanders (g : Game.t) :=
  (monsters g, obstacles g, bubbles g, nextMonsterId g, upgrades g,
   claimedRewards g, gameOverTriggered g, gameOverReason g).

Definition hurt (g g' : Game.t) : Prop :=
  bystanders g' = bystanders g /\
  (exists delta, page g' = page g ++ delta /\ Forall (fun e => isPlain e = true) delta) /\
  (exists v, gameState g' = GameState.set_health v (gameState g) /\
             (0 <= GameState.health (gameState g) /\ GameState.health (gameState g) <= 100 ->
              0 <= v /\ v <= 100)).

(** A phase that is quiet in all three respects and keeps the two
    invariants. *)
Definition steady (g g' : Game.t) : Prop :=
  rewardsQuiet g g' /\ gameOverQuiet g g' /\ idsFrom g g' /\
  (resourcesInRange (gameState g) -> resourcesInRange (gameState g')) /\
  (idsWellFormed g -> idsWellFormed g').

(** The same without the rewards part (the depth phase), and without
    the game-over part (the terminal check). *)
Definition steadyButRewards (g g' : Game.t) : Prop :=
  gameOverQuiet g g' /\ idsFrom g g' /\
  (resourcesInRange (gameState g) -> resourcesInRange (gameState g')) /\
  (idsWellFormed g -> idsWellFormed g').

Definition steadyButGameOver (g g' : Game.t) : Prop :=
  rewardsQuiet g g' /\ idsFrom g g' /\
  (resourcesInRange (gameState g) -> resourcesInRange (gameState g')) /\
  (idsWellFormed g -> idsWellFormed g').

(** The game-over screen is shown at most once while going from [g]
    to [g']: once the flag is set it stays set, and the screen has been
    shown once more exactly if the flag went from unset to set. *)
Definition gameOverOnce (g g' : Game.t) : Prop :=
  (gameOverTriggered g = true -> gameOverTriggered g' = true) /\
  gameOverShown (page g')
  = (gameOverShown (page g)
     + (if negb (gameOverTriggered g) && gameOverTriggered g' then 1 else 0))%nat.

(** The thresholds of the depth rewards. *)
Definition thresholds : list Z := List.map depth rewards.

(** The reward of threshold [th] is due at depth [d]: the depth has
    reached it and it is not in the claimed set [c]. *)
Definition due (d : Q) (c : gset Z) (th : Z) : bool :=
  JS.geb d (inject_Z th) && negb (bool_decide (th ∈ c)).

(** The points of the rewards of threshold [th]. *)
Definition pointsAt (th : Z) : Q :=
  fold_right (fun r acc => (if bool_decide (depth r = th) then points r else 0) + acc)
             0 rewards.

(** One-shot rewards, relative to the page [base] at the start of the
    run: a threshold is claimed exactly when the depth has reached it,
    its reward has been announced once if it is claimed and never
    otherwise, and the score is the sum of the points of the claimed
    rewards. *)
Definition rewardsOneShot (base : list DomEvent) (g : Game.t) : Prop :=
  (forall th, th ∈ thresholds ->
     (th ∈ claimedRewards g <-> inject_Z th <= GameState.depth (gameState g)) /\
     rewardsShown th (page g)
     = (rewardsShown th base + (if bool_decide (th ∈ claimedRewards g) then 1 else 0))%nat) /\
  GameState.score (gameState g) == earned (claimedRewards g).

(** What every event other than a restart guarantees, and hence every
    run: the resources stay in range, ids stay unique and are never
    handed out twice, the rewards stay one-shot, and the game-over
    screen is shown at most once. *)
Definition orderly (g g' : Game.t) : Prop :=
  (resourcesInRange (gameState g) -> resourcesInRange (gameState g')) /\
  idsFrom g g' /\
  (idsWellFormed g -> idsWellFormed g') /\
  (forall base, rewardsOneShot base g -> rewardsOneShot base g') /\
  gameOverOnce g g'.
End GameSpec.

(** ** Sample inputs *)
Module Samples.
Local Open Scope Q_scope.

(** A clock that advances by one millisecond per reading from 1000,
    a constant random source and a flat [Math.sin]. *)
Definition env : JS.Env :=
  {| JS.Date_now := fun k => (1000 + Z.of_nat k)%Z;
     JS.Math_random := fun _ => 0.5;
     JS.Math_sin := fun _ => 0 |}.

(** The same with a random source that always returns 1/128, below
    both spawn chances. *)
Definition luckyEnv : JS.Env :=
  {| JS.Date_now := fun k => (1000 + Z.of_nat k)%Z;
     JS.Math_random := fun _ => 1 # 128;
     JS.Math_sin := fun _ => 0 |}.

(** The same with a random source whose first draw is 0.75 and whose
    third and fourth draws are the largest double below 1. *)
Definition edgeEnv : JS.Env :=
  {| JS.Date_now := fun k => (1000 + Z.of_nat k)%Z;
     JS.Math_random := fun k => match k with
                                | 0%nat => 0.75
                                | 2%nat | 3%nat => 1 - (1 # 2 ^ 53)
                                | _ => 0.5
                                end;
     JS.Math_sin := fun _ => 0 |}.

Definition world0 : JS.World := JS.mkWorld 0 0.

(** The submarine of [new Game]: [new Submarine(350, 270, 100, 60)]. *)
Definition submarine : Submarine.t := (Submarine.new env 350 270 100 60 world0).1.

(** A shark and a bubble that overlap the submarine at depth 0 with
    the camera at rest. *)
Definition shark : GameObject.t :=
  GameObject.mk 350 (-40) 150 100 "shark" 1.2 0 200 1.2 7 false 0.
Definition bubble : GameObject.t :=
  GameObject.mk 380 (-10) 40 40 "bubble" 0 0 0 0 8 false 0.

(** The first gated step on the shark, from an empty cooldown table. *)
Definition sharkStep : list GameObject.t * CollisionDetector.t * JS.World :=
  CollisionDetector.gatedStep env (Submarine.getScreenHitbox submarine)
    (CollisionDetector.calculateDepthOffset 0 0) shark
    ([], CollisionDetector.new) world0.

(** A table in which both sample entities are cooling since time 1000. *)
Definition coolingDetector : CollisionDetector.t :=
  CollisionDetector.mk (<[7%Z := 1000%Z]> (<[8%Z := 1000%Z]> ∅)) 100.

(** A new game and the oracle counters after its construction. *)
Definition game0 : Game.t := (Game.new env world0).1.
Definition world1 : JS.World := (Game.new env world0).2.


(** A game that is 6500 deep with no reward claimed yet. *)
Definition deepGame : Game.t :=
  Game.set_gameState (GameState.set_depth 6500 (Game.gameState game0)) game0.

(** A rock at world y = 0 under the submarine. *)
Definition rock : GameObject.t :=
  GameObject.mk 350 0 80 80 "rock" 0 0 0 0 3 false 0.

(** A game at depth 1995 with 90 oxygen and the S key held. *)
Definition nearReward : Game.t :=
  Game.set_inputHandler
    (InputHandler.handleKeyDown (Game.inputHandler game0) "s")
    (Game.set_gameState
       (GameState.set_oxygen 90 (GameState.set_depth 1995 (Game.gameState game0)))
       game0).

(** A game whose oxygen has run out. *)
Definition noOxygen : Game.t :=
  Game.set_gameState (GameState.set_oxygen 0 (Game.gameState game0)) game0.

(** A game with two sharks on the submarine. *)
Definition shark2 : GameObject.t :=
  GameObject.mk 360 (-35) 150 100 "shark" 1.2 0 200 1.2 9 false 0.
Definition twoSharks : Game.t :=
  Game.set_nextMonsterId 10 (Game.set_monsters [shark; shark2] game0).
End Samples.

(** ** Vocabulary of the further properties (Part IV) *)
Module OracleSpec.
Local Open Scope Q_scope.
(** [Math.random()] returns a number in [0, 1). *)
Definition unitDraws (E : JS.Env) : Prop :=
  forall k, 0 <= JS.Math_random E k /\ JS.Math_random E k < 1.
End OracleSpec.

Module InputSpec.
Local Open Scope Q_scope.
(** The band of the camera nudge and of its target. *)
Definition cameraInRange (ih : InputHandler.t) : Prop :=
  (-100 <= InputHandler.targetCameraOffset ih <= 100) /\
  (-100 <= InputHandler.cameraOffset ih <= 100).
End InputSpec.

Module RenderSpec.
Local Open Scope Q_scope.
Import Canvas.

(** The context [c] after drawing [ds]: same transform, same stack. *)
Definition paint (c : ctx) (ds : list Draw) : ctx :=
  mk (sx c) (sy c) (tx c) (ty c) (saved c) (drawn c ++ ds).

(** A text drawn at the point [(x, y)] of the frame of [c]. *)
Definition textAt (c : ctx) (text : option string) (p : Q * Q) : Draw :=
  FillText text (deviceX c p.1) (deviceY c p.2).

Definition particleDot (c : ctx) (p : Particle.t) : Draw :=
  Arc (deviceX c (Particle.x p)) (deviceY c (Particle.y p)) (Particle.size p).

Definition bubbleSprite (c : ctx) (b : GameObject.t) : Draw :=
  textAt c (Renderer.emojiMap "bubble") (GameObject.getCenter b).

Definition rockSprite (c : ctx) (o : GameObject.t) : Draw :=
  textAt c (Renderer.emojiMap "rock") (GameObject.getCenter o).

(** Where the flipped branch of the creature drawing puts its text:
    the frame translated to the creature's right edge and mirrored. *)
Definition flippedFrame (c : ctx) (m : GameObject.t) : ctx :=
  scale (-1) 1 (translate (GameObject.x m + GameObject.width m) (GameObject.y m) c).

Definition monsterSprite (c : ctx) (m : GameObject.t) : list Draw :=
  if GameObject.visible m then
    if String.eqb (GameObject.type m) "squid" then
      [textAt (flippedFrame c m) (Renderer.emojiMap (GameObject.type m))
         (0 - GameObject.width m / 2, GameObject.y m + GameObject.height m / 2)]
    else [textAt c (Renderer.emojiMap (GameObject.type m)) (GameObject.getCenter m)]
  else [].

Definition strokeOf (c : ctx) (r : Rect.t) : Draw :=
  StrokeRect (deviceX c (Rect.x r)) (deviceY c (Rect.y r))
             (sx c * Rect.width r) (sy c * Rect.height r).

(** The world layer of a frame and the debug layer, drawn in the frame
    of [c]. *)
Definition worldLayer (c : ctx) (particles : list Particle.t)
    (bubbles obstacles monsters : list GameObject.t) : list Draw :=
  List.map (particleDot c) particles ++ List.map (bubbleSprite c) bubbles
  ++ List.map (rockSprite c) obstacles ++ flat_map (monsterSprite c) monsters.

Definition debugLayer (c : ctx) (submarine : Submarine.t)
    (monsters obstacles bubbles : list GameObject.t) (depthOffset : Q) : list Draw :=
  strokeOf c (Submarine.getScreenHitbox submarine)
  :: List.map (fun o => strokeOf c (CollisionDetector.getWorldObjectScreenHitbox o depthOffset))
              (monsters ++ obstacles ++ bubbles).
End RenderSpec.

Module ControlsSpec.
Local Open Scope Q_scope.
Import Game.
(** The guard of a successful sonar activation, and its energy cost. *)
Definition sonarReady (g : Game.t) : bool :=
  JS.geb (GameState.energy (gameState g)) 20
  && JS.leb (GameState.sonarCooldown (gameState g)) 0
  && negb (GameState.sonarActive (gameState g)).

Definition sonarCost (g : Game.t) : Q := if advancedSonar (upgrades g) then 10 else 20.
End ControlsSpec.

Module UpgradeSpec.
Local Open Scope Q_scope.
Import Game.
(** The upgrades after passing depth [d]: each flag is set once the
    depth has reached its threshold, and never cleared. *)
Definition unlockedAt (d : Q) (u : Upgrades) : Upgrades :=
  {| oxygenTank := oxygenTank u || JS.geb d 3000;
     advancedSonar := advancedSonar u || JS.geb d 5000;
     reinforcedHull := reinforcedHull u || JS.geb d 7000;
     turboThrust := turboThrust u || JS.geb d 9000 |}.

(** No upgrade of [u] is missing from [u']. *)
Definition upgradesKept (u u' : Upgrades) : Prop :=
  (oxygenTank u = true -> oxygenTank u' = true) /\
  (advancedSonar u = true -> advancedSonar u' = true) /\
  (reinforcedHull u = true -> reinforcedHull u' = true) /\
  (turboThrust u = true -> turboThrust u' = true).

Definition isUpgradeShown (name : string) (e : DomEvent) : bool :=
  match e with
  | HintShown (UpgradeUnlocked n) => String.eqb n name
  | _ => false
  end.
End UpgradeSpec.

Module ParticleSpec.
Local Open Scope Q_scope.
(** What the roundings of one particle computation can add up to, at
    the magnitudes of the particles. *)
Definition slack : Q := 1 # 100000000.

(** A particle inside the 600-high band it drifts in, with the size
    and speed ranges of [initializeParticles]. The ends are included:
    a rounded product can reach them. *)
Definition drifting (p : Particle.t) : Prop :=
  (0 <= Particle.y p /\ Particle.y p <= 600) /\
  (1 <= Particle.size p /\ Particle.size p <= 4) /\
  (0.2 - slack <= Particle.speed p /\ Particle.speed p <= 0.7 + slack).
End ParticleSpec.

Module ReachSpec.
Local Open Scope Q_scope.
Import Game GameSpec.

(** What only the input events, the head of [update] and the frame
    loop write. *)
Definition controls (g : Game.t) :=
  (inputHandler g, submarine g, menuOpen g, debugMode g, lastFrameTime g,
   resourceUpdateInterval g).

Definition drifting50 (ps : list Particle.t) : Prop :=
  Forall ParticleSpec.drifting ps /\ length ps = 50%nat.

(** A phase of the tail of [update]: it leaves the controls and the
    cooldown duration alone, loses no upgrade and keeps the particles
    drifting. *)
Definition tidy (g g' : Game.t) : Prop :=
  controls g' = controls g /\
  CollisionDetector.cooldownDuration (collisionDetector g')
  = CollisionDetector.cooldownDuration (collisionDetector g) /\
  UpgradeSpec.upgradesKept (upgrades g) (upgrades g') /\
  (drifting50 (particles g) -> drifting50 (particles g')).

(** The craft as [new Game] builds it, up to its position and tilt. *)
Definition craftInv (s : Submarine.t) : Prop :=
  (-15 <= Submarine.targetRotation s /\ Submarine.targetRotation s <= 15) /\
  (-15 <= Submarine.rotation s /\ Submarine.rotation s <= 15) /\
  Submarine.centerY s = 270 /\ Submarine.maxVerticalOffset s = 80 /\
  Submarine.moveSpeed s = 0.18 /\
  (Submarine.hitboxOffsetX s, Submarine.hitboxOffsetY s,
   Submarine.hitboxWidth s, Submarine.hitboxHeight s)
  = (100 * 0.225, 60 * 0.275, 100 * 0.55, 60 * 0.45) /\
  GameObject.width (Submarine.base s) = 100 /\ GameObject.height (Submarine.base s) = 60.

Definition settings (g : Game.t) : Prop :=
  craftInv (submarine g) /\ InputSpec.cameraInRange (inputHandler g) /\
  resourceUpdateInterval g = 50%Z /\
  CollisionDetector.cooldownDuration (collisionDetector g) = 100%Z.

(** The craft inside the screen band and between the side walls. *)
Definition craftOnScreen (s : Submarine.t) : Prop :=
  SubmarineSpec.screenYInRange s /\
  (0 <= Submarine.screenX s /\ Submarine.screenX s <= 700).

(** Every animation frame of the list carries a timestamp that is not
    before the previous frame time, starting from [last]. *)
Fixpoint framesMonotone (last : Q) (events : list Event) : Prop :=
  match events with
  | [] => True
  | AnimationFrame t :: rest => last <= t /\ framesMonotone t rest
  | _ :: rest => framesMonotone last rest
  end.

(** The states the game can reach from [new Game]. *)
Definition reached (E : JS.Env) (events : list Event) (w : JS.World) : Game.t :=
  (run E events (Game.new E w).1 (Game.new E w).2).1.
End ReachSpec.

Module StationSpec.
Import Game.
(** What the game-side reactions to a key (sonar, menus, debug mode)
    and the two timers never write. *)
Definition station (g : Game.t) :=
  (inputHandler g, submarine g, lastFrameTime g, resourceUpdateInterval g, upgrades g,
   particles g, collisionDetector g, monsters g, obstacles g, bubbles g, nextMonsterId g).
End StationSpec.

Module WorldSpec.
Import Game GameSpec CollisionDetector.

(** The entities, the next id and the cooldown table. *)
Definition world (g : Game.t) :=
  (collisionDetector g, monsters g, obstacles g, bubbles g, nextMonsterId g).

(** No live entity has an entry in the cooldown table, and every entry
    belongs to an id that has been handed out. *)
Definition coolingClear (g : Game.t) : Prop :=
  (forall i, i ∈ liveIds g -> collisionCooldown (collisionDetector g) !! i = None) /\
  (forall i t, collisionCooldown (collisionDetector g) !! i = Some t ->
               (i < nextMonsterId g)%Z).

(** The caps of the procedural spawning. *)
Definition capped (g : Game.t) : Prop :=
  (length (obstacles g) <= 4)%nat /\ (length (bubbles g) <= 5)%nat.

Definition worldInv (g : Game.t) : Prop :=
  idsWellFormed g /\ coolingClear g /\ capped g.
End WorldSpec.

Module OutcomeSpec.
Local Open Scope Q_scope.
Import Game.
(** The count of a list as a JavaScript number. *)
Definition count {A} (l : list A) : Q := inject_Z (Z.of_nat (length l)).
Definition monsterDamage (g : Game.t) : Q := if reinforcedHull (upgrades g) then 7 else 10.
Definition rockDamage (g : Game.t) : Q := if reinforcedHull (upgrades g) then 17 else 25.
End OutcomeSpec.

Module RestartSpec.
Import Game.
(** Everything a run plays with: the whole state but the particles,
    the frame time, the renderer and the page log. *)
Definition gameplay (g : Game.t) :=
  (inputHandler g, collisionDetector g, submarine g, gameState g,
   monsters g, obstacles g, bubbles g, upgrades g, nextMonsterId g,
   lastSpawnDepth g, lastResourceUpdate g, resourceUpdateInterval g,
   gameOverTriggered g, gameOverReason g, debugMode g, menuOpen g, hint g,
   claimedRewards g).

(** The channels of a colour are at most those of another. *)
Definition darker (c c' : Z * Z * Z) : Prop :=
  (c.1.1 <= c'.1.1 /\ c.1.2 <= c'.1.2 /\ c.2 <= c'.2)%Z.
End RestartSpec.

Module PhaseSpec.
Import Game.
(** What the collision phase reads but never writes. *)
Definition scene (g : Game.t) := (inputHandler g, submarine g, upgrades g).
(** The state in which the collision phase of a tick runs. *)
Definition beforeCollisions (E : JS.Env) (deltaTime : Q) (g : Game.t) (w : JS.World)
  : Game.t :=
  cull (simulate E deltaTime g w).1.
End PhaseSpec.

(* ===================================================================== *)
(** * Part III: properties *)
(* ===================================================================== *)

(** ** Comparisons and clamps *)
Section JSFacts.
Local Open Scope Q_scope.

Lemma leb_true (a b : Q) : JS.leb a b = true <-> a <= b.
Proof. apply Qle_bool_iff. Qed.

Lemma leb_false (a b : Q) : JS.leb a b = false <-> b < a.
Proof.
  unfold JS.leb. split; intros H.
  - apply Qnot_le_lt. intros Hle. apply Qle_bool_iff in Hle. congruence.
  - destruct (Qle_bool a b) eqn:Hb; [|reflexivity].
    apply Qle_bool_iff in Hb. lra.
Qed.

Lemma geb_true (a b : Q) : JS.geb a b = true <-> b <= a.
Proof. apply leb_true. Qed.

Lemma geb_false (a b : Q) : JS.geb a b = false <-> a < b.
Proof. apply leb_false. Qed.

Lemma ltb_true (a b : Q) : JS.ltb a b = true <-> a < b.
Proof. unfold JS.ltb. rewrite negb_true_iff. apply (leb_false b a). Qed.

Lemma ltb_false (a b : Q) : JS.ltb a b = false <-> b <= a.
Proof. unfold JS.ltb. rewrite negb_false_iff. apply (leb_true b a). Qed.

Lemma gtb_true (a b : Q) : JS.gtb a b = true <-> b < a.
Proof. apply (ltb_true b a). Qed.

Lemma gtb_false (a b : Q) : JS.gtb a b = false <-> a <= b.
Proof. apply (ltb_false b a). Qed.

Lemma Math_max_cases (a b : Q) :
  (a < b /\ JS.Math_max a b = b) \/ (b <= a /\ JS.Math_max a b = a).
Proof.
  unfold JS.Math_max. destruct (JS.ltb a b) eqn:H.
  - left. split; [now apply ltb_true | reflexivity].
  - right. split; [now apply ltb_false | reflexivity].
Qed.

Lemma Math_min_cases (a b : Q) :
  (b < a /\ JS.Math_min a b = b) \/ (a <= b /\ JS.Math_min a b = a).
Proof.
  unfold JS.Math_min. destruct (JS.ltb b a) eqn:H.
  - left. split; [now apply ltb_true | reflexivity].
  - right. split; [now apply ltb_false | reflexivity].
Qed.

Lemma Math_abs_cases (a : Q) :
  (a < 0 /\ JS.Math_abs a = - a) \/ (0 <= a /\ JS.Math_abs a = a).
Proof.
  unfold JS.Math_abs. destruct (JS.ltb a 0) eqn:H.
  - left. split; [now apply ltb_true | reflexivity].
  - right. split; [now apply ltb_false | reflexivity].
Qed.

(** Clamping from below by [lo] keeps a value between [lo] and any
    upper bound of both arguments; dually for [Math.min]. *)
Lemma Math_max_between (lo hi a : Q) :
  lo <= hi -> a <= hi -> lo <= JS.Math_max lo a <= hi.
Proof. intros. destruct (Math_max_cases lo a) as [[? ->]|[? ->]]; lra. Qed.

Lemma Math_min_between (lo hi a : Q) :
  lo <= hi -> lo <= a -> lo <= JS.Math_min hi a <= hi.
Proof. intros. destruct (Math_min_cases hi a) as [[? ->]|[? ->]]; lra. Qed.

(** Adding the literal [0] does not change the representation. *)
Lemma Qplus_0_r_eq (q : Q) : q + 0 = q.
Proof.
  destruct q as [n d]. unfold Qplus. simpl.
  rewrite Z.mul_1_r, Z.add_0_r, Pos.mul_1_r. reflexivity.
Qed.
End JSFacts.

(** ** Rounding

    [JS.fl] is monotone, leaves the doubles alone, and is off by at most
    half a unit in the last place; then what this gives for the numbers
    of the game. *)
Section Rounding.
Local Open Scope Q_scope.

(** *** Rounding to the nearest integer *)
Lemma frac (t : Q) : 0 <= t - inject_Z (Qfloor t) /\ t - inject_Z (Qfloor t) < 1.
Proof.
  pose proof (Qfloor_le t). pose proof (Qlt_floor t) as H1.
  rewrite inject_Z_plus in H1. change (inject_Z 1) with 1 in H1. lra.
Qed.

Lemma rne_cases (t : Q) :
  (JS.rne t = Qfloor t /\ t - inject_Z (Qfloor t) <= 1 # 2) \/
  (JS.rne t = (Qfloor t + 1)%Z /\ (1 # 2) <= t - inject_Z (Qfloor t)).
Proof.
  unfold JS.rne. cbv zeta.
  destruct (Qlt_le_dec (t - inject_Z (Qfloor t)) (1 # 2)) as [H|H]; [left; split; [reflexivity | lra]|].
  destruct (Qlt_le_dec (1 # 2) (t - inject_Z (Qfloor t))) as [H'|H'];
    [right; split; [reflexivity | lra]|].
  destruct (Z.even (Qfloor t)); [left | right]; split; try reflexivity; lra.
Qed.

(** The nearest integer is within one half. *)
Lemma rne_error (t : Q) :
  - (1 # 2) <= inject_Z (JS.rne t) - t /\ inject_Z (JS.rne t) - t <= 1 # 2.
Proof.
  pose proof (frac t) as [H0 H1].
  destruct (rne_cases t) as [[-> H]|[-> H]].
  - lra.
  - rewrite inject_Z_plus. change (inject_Z 1) with 1. lra.
Qed.

Lemma rne_int (n : Z) : JS.rne (inject_Z n) = n.
Proof.
  unfold JS.rne. cbv zeta. rewrite Qfloor_Z.
  destruct (Qlt_le_dec (inject_Z n - inject_Z n) (1 # 2)) as [H|H]; [reflexivity | lra].
Qed.

Lemma rne_wd (s t : Q) : s == t -> JS.rne s = JS.rne t.
Proof.
  intros H. unfold JS.rne. cbv zeta. rewrite (Qfloor_comp s t H).
  destruct (Qlt_le_dec (s - inject_Z (Qfloor t)) (1 # 2)),
           (Qlt_le_dec (t - inject_Z (Qfloor t)) (1 # 2)); try lra; try reflexivity.
  destruct (Qlt_le_dec (1 # 2) (s - inject_Z (Qfloor t))),
           (Qlt_le_dec (1 # 2) (t - inject_Z (Qfloor t))); try lra; reflexivity.
Qed.

Lemma rne_monotone (s t : Q) : s <= t -> (JS.rne s <= JS.rne t)%Z.
Proof.
  intros Hst. pose proof (Qfloor_resp_le s t Hst) as Hf.
  pose proof (frac s) as [Hs0 Hs1]. pose proof (frac t) as [Ht0 Ht1].
  destruct (Z.eq_dec (Qfloor s) (Qfloor t)) as [Heq|Hne].
  - unfold JS.rne. cbv zeta. rewrite Heq in *.
    destruct (Qlt_le_dec (s - inject_Z (Qfloor t)) (1 # 2)),
             (Qlt_le_dec (t - inject_Z (Qfloor t)) (1 # 2)); try lra; try lia.
    + destruct (Qlt_le_dec (1 # 2) (t - inject_Z (Qfloor t))); [lia|].
      destruct (Z.even (Qfloor t)); lia.
    + destruct (Qlt_le_dec (1 # 2) (s - inject_Z (Qfloor t))),
               (Qlt_le_dec (1 # 2) (t - inject_Z (Qfloor t)));
        try lra; destruct (Z.even (Qfloor t)); lia.
  - destruct (rne_cases s) as [[-> _]|[-> _]], (rne_cases t) as [[-> _]|[-> _]]; lia.
Qed.

Lemma rne_le_int (t : Q) (n : Z) : t <= inject_Z n -> (JS.rne t <= n)%Z.
Proof. intros H. rewrite <- (rne_int n). apply rne_monotone, H. Qed.

Lemma rne_ge_int (t : Q) (n : Z) : inject_Z n <= t -> (n <= JS.rne t)%Z.
Proof. intros H. rewrite <- (rne_int n). apply rne_monotone, H. Qed.

(** Below one half the nearest integer is 0, above it is at most
    [t + 1/2]. *)
Lemma rne_twice (t : Q) : 0 <= t -> inject_Z (JS.rne t) <= 2 * t.
Proof.
  intros Ht. destruct (Qlt_le_dec t (1 # 2)) as [Hlt|Hge].
  - assert (Qfloor t = 0%Z) as Hf.
    { pose proof (Qfloor_resp_le 0 t Ht) as H0. change (Qfloor 0) with 0%Z in H0.
      pose proof (Qfloor_le t) as H1.
      assert (inject_Z (Qfloor t) < inject_Z 1) as H2 by (change (inject_Z 1) with 1; lra).
      rewrite <- Zlt_Qlt in H2. lia. }
    unfold JS.rne. cbv zeta. rewrite Hf. change (inject_Z 0) with 0.
    destruct (Qlt_le_dec (t - 0) (1 # 2)); [change (inject_Z 0) with 0; lra | lra].
  - pose proof (rne_error t). lra.
Qed.

(** *** Powers of two *)
Lemma pw_pos (z : Z) : 0 < 2 ^ z.
Proof. apply Qpower_0_lt. reflexivity. Qed.

Lemma pw_add (a b : Z) : 2 ^ (a + b) == 2 ^ a * 2 ^ b.
Proof. apply Qpower_plus. discriminate. Qed.

Lemma pw_le (a b : Z) : (a <= b)%Z -> 2 ^ a <= 2 ^ b.
Proof. intros H. apply Qpower_le_compat_l; [exact H | discriminate]. Qed.

Lemma pw_lt_inv (a b : Z) : 2 ^ a < 2 ^ b -> (a < b)%Z.
Proof. intros H. apply (Qpower_lt_compat_l_inv 2); [exact H | reflexivity]. Qed.

Lemma pw_le_inv (a b : Z) : 2 ^ a <= 2 ^ b -> (a <= b)%Z.
Proof. intros H. apply (Qpower_le_compat_l_inv 2); [exact H | reflexivity]. Qed.

Lemma pw_Z (n : Z) : (0 <= n)%Z -> inject_Z (2 ^ n) == 2 ^ n.
Proof. intros H. apply (Zpower_Qpower 2 n H). Qed.

Lemma pw_succ (a : Z) : 2 ^ (a + 1) == 2 * 2 ^ a.
Proof. rewrite pw_add. change (2 ^ 1) with 2. ring. Qed.

Lemma pw_pred (a : Z) : 2 * 2 ^ (a - 1) == 2 ^ a.
Proof. rewrite <- pw_succ. replace (a - 1 + 1)%Z with a by lia. reflexivity. Qed.

Lemma quot_mul (a q : Q) : 0 < q -> a / q * q == a.
Proof. intros H. field. lra. Qed.

(** *** The exponent

    [JS.exponent] starts from the logarithms of numerator and
    denominator, which bracket the exponent within one. *)
Lemma exponent_spec (a : Q) :
  0 < a -> 2 ^ JS.exponent a <= a /\ a < 2 ^ (JS.exponent a + 1).
Proof.
  intros Ha. destruct a as [n d]. unfold JS.exponent. cbn [Qnum Qden].
  assert (0 < n)%Z as Hn by (unfold Qlt in Ha; cbn in Ha; lia).
  pose proof (Z.log2_spec n Hn) as [Hn1 Hn2].
  pose proof (Z.log2_spec (Z.pos d) (Pos2Z.is_pos d)) as [Hd1 Hd2].
  pose proof (Z.log2_nonneg n) as Hln. pose proof (Z.log2_nonneg (Z.pos d)) as Hld.
  set (la := Z.log2 n) in *. set (ld := Z.log2 (Z.pos d)) in *.
  rewrite Zle_Qle, pw_Z in Hn1, Hd1 by assumption.
  rewrite Zlt_Qlt, pw_Z in Hn2, Hd2 by lia.
  unfold Z.succ in Hn2, Hd2. rewrite pw_succ in Hn2, Hd2.
  assert (n # d == inject_Z n / inject_Z (Z.pos d)) as Hnd by apply Qmake_Qdiv.
  assert (0 < inject_Z (Z.pos d)) as Hdpos by (rewrite <- (Zlt_Qlt 0); lia).
  assert ((n # d) * inject_Z (Z.pos d) == inject_Z n) as Hmul
    by (rewrite Hnd; apply quot_mul, Hdpos).
  set (N := inject_Z n) in *. set (D := inject_Z (Z.pos d)) in *.
  set (a := n # d) in *.
  assert (2 ^ la == 2 ^ (la - ld) * 2 ^ ld) as Hk
    by (rewrite <- pw_add; replace (la - ld + ld)%Z with la by lia; reflexivity).
  pose proof (pw_pos la) as Pla. pose proof (pw_pos ld) as Pld.
  pose proof (pw_pos (la - ld)) as Pk.
  pose proof (pw_pred (la - ld)) as Hpred.
  pose proof (pw_succ (la - ld)) as Hsucc.
  set (P := 2 ^ la) in *. set (L := 2 ^ ld) in *. set (K := 2 ^ (la - ld)) in *.
  assert (a < 2 * K) as Hup.
  { destruct (Qlt_le_dec a (2 * K)) as [H|H]; [exact H | exfalso].
    assert (2 * K * L <= a * D) by nra. nra. }
  assert (2 ^ (la - ld - 1) <= a) as Hlow.
  { set (K' := 2 ^ (la - ld - 1)) in *.
    destruct (Qlt_le_dec a K') as [H|H]; [exfalso | exact H].
    assert (a * D < K' * (2 * L)) by nra. nra. }
  destruct (Qle_bool K a) eqn:Hb.
  - apply Qle_bool_iff in Hb. split; [exact Hb | lra].
  - assert (a < K) as Hlt.
    { destruct (Qlt_le_dec a K) as [H|H]; [exact H|].
      apply Qle_bool_iff in H. congruence. }
    split; [exact Hlow|]. replace (la - ld - 1 + 1)%Z with (la - ld)%Z by lia. exact Hlt.
Qed.

Lemma exponent_unique (a : Q) (e : Z) :
  2 ^ e <= a -> a < 2 ^ (e + 1) -> JS.exponent a = e.
Proof.
  intros H1 H2. assert (0 < a) as Ha by (pose proof (pw_pos e); lra).
  destruct (exponent_spec a Ha) as [H3 H4].
  assert (2 ^ e < 2 ^ (JS.exponent a + 1)) as H5 by lra.
  assert (2 ^ JS.exponent a < 2 ^ (e + 1)) as H6 by lra.
  apply pw_lt_inv in H5, H6. lia.
Qed.

Lemma exponent_wd (a b : Q) : 0 < a -> a == b -> JS.exponent a = JS.exponent b.
Proof.
  intros Ha Hab. symmetry. destruct (exponent_spec a Ha).
  apply exponent_unique; lra.
Qed.

Lemma exponent_monotone (a b : Q) : 0 < a -> a <= b -> (JS.exponent a <= JS.exponent b)%Z.
Proof.
  intros Ha Hab. destruct (exponent_spec a Ha) as [H1 _].
  destruct (exponent_spec b ltac:(lra)) as [_ H2].
  assert (2 ^ JS.exponent a < 2 ^ (JS.exponent b + 1)) as H by lra.
  apply pw_lt_inv in H. lia.
Qed.

(** *** Rounding a magnitude *)
Lemma mag_eq (a : Q) : JS.mag a = inject_Z (JS.rne (a / JS.ulp a)) * JS.ulp a.
Proof. reflexivity. Qed.

Lemma ulp_pos (a : Q) : 0 < JS.ulp a.
Proof. apply pw_pos. Qed.

Lemma ulp_top (a : Q) : 2 ^ 52 * JS.ulp a == 2 ^ JS.expo a.
Proof.
  unfold JS.ulp. rewrite <- pw_add. replace (52 + (JS.expo a - 52))%Z with (JS.expo a) by lia.
  reflexivity.
Qed.

Lemma below_top (a : Q) : 0 < a -> a < 2 * 2 ^ JS.expo a.
Proof.
  intros Ha. destruct (exponent_spec a Ha) as [_ H].
  assert (2 ^ (JS.exponent a + 1) <= 2 ^ (JS.expo a + 1)) by (apply pw_le; unfold JS.expo; lia).
  pose proof (pw_succ (JS.expo a)). lra.
Qed.

Lemma scaled (a : Q) : a / JS.ulp a * JS.ulp a == a.
Proof. apply quot_mul, ulp_pos. Qed.

Lemma mag_zero (a : Q) : a == 0 -> JS.mag a == 0.
Proof.
  intros Ha. rewrite mag_eq.
  assert (a / JS.ulp a == inject_Z 0) as H.
  { change (inject_Z 0) with 0. transitivity (0 / JS.ulp a).
    - unfold Qdiv. apply Qmult_comp; [exact Ha | reflexivity].
    - unfold Qdiv. ring. }
  rewrite (rne_wd _ _ H), rne_int. change (inject_Z 0) with 0. ring.
Qed.

Lemma mag_nonneg (a : Q) : 0 <= a -> 0 <= JS.mag a.
Proof.
  intros Ha. rewrite mag_eq. pose proof (ulp_pos a) as Hq. pose proof (scaled a) as Hs.
  assert (0 <= a / JS.ulp a) as Ht.
  { destruct (Qlt_le_dec (a / JS.ulp a) 0) as [H|H]; [exfalso; nra | exact H]. }
  assert (0 <= JS.rne (a / JS.ulp a))%Z as Hr by (apply rne_ge_int; exact Ht).
  rewrite Zle_Qle in Hr. change (inject_Z 0) with 0 in Hr. nra.
Qed.

Lemma mag_error (a : Q) :
  - ((1 # 2) * JS.ulp a) <= JS.mag a - a /\ JS.mag a - a <= (1 # 2) * JS.ulp a.
Proof.
  rewrite mag_eq. pose proof (ulp_pos a) as Hq. pose proof (scaled a) as Hs.
  pose proof (rne_error (a / JS.ulp a)) as [H1 H2].
  set (t := a / JS.ulp a) in *. set (r := inject_Z (JS.rne t)) in *. set (q := JS.ulp a) in *.
  assert (0 <= (r - t + (1 # 2)) * q) by (apply Qmult_le_0_compat; lra).
  assert (0 <= ((1 # 2) - (r - t)) * q) by (apply Qmult_le_0_compat; lra).
  split; lra.
Qed.

Lemma mag_twice (a : Q) : 0 <= a -> JS.mag a <= 2 * a.
Proof.
  intros Ha. rewrite mag_eq. pose proof (ulp_pos a) as Hq. pose proof (scaled a) as Hs.
  assert (0 <= a / JS.ulp a) as Ht.
  { destruct (Qlt_le_dec (a / JS.ulp a) 0) as [H|H]; [exfalso; nra | exact H]. }
  pose proof (rne_twice _ Ht) as H.
  set (t := a / JS.ulp a) in *. set (r := inject_Z (JS.rne t)) in *. set (q := JS.ulp a) in *.
  nra.
Qed.

(** A rounded magnitude stays in the binade of its argument, the
    upper end [2^(e+1)] included. *)
Lemma mag_le_top (a : Q) : 0 < a -> JS.mag a <= 2 * 2 ^ JS.expo a.
Proof.
  intros Ha. rewrite mag_eq. pose proof (ulp_pos a) as Hq. pose proof (scaled a) as Hs.
  pose proof (below_top a Ha) as Hb. pose proof (ulp_top a) as Ht.
  assert (a / JS.ulp a <= inject_Z (2 ^ 53)) as Hle.
  { change (inject_Z (2 ^ 53)) with (2 * 2 ^ 52).
    destruct (Qlt_le_dec (2 * 2 ^ 52) (a / JS.ulp a)) as [H|H]; [exfalso; nra | exact H]. }
  apply rne_le_int in Hle. rewrite Zle_Qle in Hle.
  change (inject_Z (2 ^ 53)) with (2 * 2 ^ 52) in Hle.
  set (r := inject_Z (JS.rne (a / JS.ulp a))) in *. nra.
Qed.

Lemma mag_ge_bottom (a : Q) :
  0 < a -> (-1022 <= JS.exponent a)%Z -> 2 ^ JS.expo a <= JS.mag a.
Proof.
  intros Ha Hn. rewrite mag_eq. pose proof (ulp_pos a) as Hq. pose proof (scaled a) as Hs.
  pose proof (ulp_top a) as Ht.
  destruct (exponent_spec a Ha) as [Hlow _].
  assert (JS.expo a = JS.exponent a) as He by (unfold JS.expo; lia).
  rewrite <- He in Hlow.
  assert (inject_Z (2 ^ 52) <= a / JS.ulp a) as Hle.
  { change (inject_Z (2 ^ 52)) with (2 ^ 52).
    destruct (Qlt_le_dec (a / JS.ulp a) (2 ^ 52)) as [H|H]; [exfalso; nra | exact H]. }
  apply rne_ge_int in Hle. rewrite Zle_Qle in Hle.
  change (inject_Z (2 ^ 52)) with (2 ^ 52) in Hle.
  set (r := inject_Z (JS.rne (a / JS.ulp a))) in *. nra.
Qed.

Lemma expo_monotone (a b : Q) : 0 < a -> a <= b -> (JS.expo a <= JS.expo b)%Z.
Proof. intros Ha Hab. pose proof (exponent_monotone a b Ha Hab). unfold JS.expo. lia. Qed.

Lemma mag_monotone (a b : Q) : 0 < a -> a <= b -> JS.mag a <= JS.mag b.
Proof.
  intros Ha Hab. pose proof (expo_monotone a b Ha Hab) as He.
  destruct (Z.eq_dec (JS.expo a) (JS.expo b)) as [Heq|Hne].
  - rewrite !mag_eq. unfold JS.ulp. rewrite Heq. fold (JS.ulp b).
    pose proof (ulp_pos b) as Hq.
    assert (a / JS.ulp b <= b / JS.ulp b) as Ht.
    { pose proof (quot_mul a (JS.ulp b) Hq) as Ea. pose proof (quot_mul b (JS.ulp b) Hq) as Eb.
      destruct (Qlt_le_dec (b / JS.ulp b) (a / JS.ulp b)) as [H|H]; [exfalso; nra | exact H]. }
    apply rne_monotone in Ht. rewrite Zle_Qle in Ht. nra.
  - assert (JS.expo a + 1 <= JS.expo b)%Z as Hlt by lia.
    assert (-1022 <= JS.exponent b)%Z as Hn by (unfold JS.expo in *; lia).
    pose proof (mag_le_top a Ha) as H1.
    pose proof (mag_ge_bottom b ltac:(lra) Hn) as H2.
    pose proof (pw_le _ _ Hlt) as H3. rewrite pw_succ in H3. lra.
Qed.

(** A number [m * 2^j] with at most 53 bits of [m] and [j] no less
    than the exponent of the smallest subnormal is a double. *)
Lemma mag_exact (a : Q) (m j : Z) :
  a == inject_Z m * 2 ^ j -> (0 < m <= 2 ^ 53)%Z -> (-1074 <= j)%Z -> JS.mag a == a.
Proof.
  intros Ha [Hm0 Hm1] Hj.
  pose proof (pw_pos j) as Pj.
  assert (0 < inject_Z m) as Hmq by (rewrite <- (Zlt_Qlt 0); exact Hm0).
  assert (inject_Z m <= 2 * 2 ^ 52) as Hmq1
    by (change (2 * 2 ^ 52) with (inject_Z (2 ^ 53)); rewrite <- Zle_Qle; exact Hm1).
  assert (0 < a) as Hpos by nra.
  rewrite mag_eq. pose proof (ulp_pos a) as Hq. pose proof (scaled a) as Hs.
  destruct (Z_le_gt_dec (JS.expo a - 52) j) as [Hle|Hgt].
  - assert (a / JS.ulp a == inject_Z (m * 2 ^ (j - (JS.expo a - 52)))) as Ht.
    { rewrite inject_Z_mult, pw_Z by lia.
      assert (2 ^ j == 2 ^ (j - (JS.expo a - 52)) * JS.ulp a) as Hsplit.
      { unfold JS.ulp. rewrite <- pw_add.
        replace (j - (JS.expo a - 52) + (JS.expo a - 52))%Z with j by lia. reflexivity. }
      apply (Qmult_inj_r _ _ (JS.ulp a)); [lra|].
      rewrite Hs. transitivity (inject_Z m * 2 ^ j); [exact Ha|].
      rewrite Hsplit. ring. }
    rewrite (rne_wd _ _ Ht), rne_int, <- Ht. exact Hs.
  - assert (JS.expo a = JS.exponent a) as He by (unfold JS.expo in *; lia).
    destruct (exponent_spec a Hpos) as [Hlow _]. rewrite <- He in Hlow.
    pose proof (ulp_top a) as Htop.
    assert (2 ^ JS.expo a <= 2 ^ (j + 53)) as Hcap.
    { rewrite pw_add. change (2 ^ 53) with (2 * 2 ^ 52). nra. }
    apply pw_le_inv in Hcap.
    assert (JS.expo a = (j + 53)%Z) as Hexp by lia.
    assert (JS.ulp a == 2 * 2 ^ j) as Hu.
    { unfold JS.ulp. rewrite Hexp. replace (j + 53 - 52)%Z with (j + 1)%Z by lia.
      apply pw_succ. }
    assert (a / JS.ulp a == inject_Z (2 ^ 52)) as Ht.
    { change (inject_Z (2 ^ 52)) with (2 ^ 52).
      assert (2 ^ JS.expo a == 2 * 2 ^ 52 * 2 ^ j) as Hx.
      { rewrite Hexp, pw_add. change (2 ^ 53) with (2 * 2 ^ 52). ring. }
      assert (inject_Z m * 2 ^ j <= 2 * 2 ^ 52 * 2 ^ j) as Hy
        by (apply Qmult_le_compat_r; lra).
      apply (Qmult_inj_r _ _ (JS.ulp a)); [lra|].
      rewrite Hs. lra. }
    rewrite (rne_wd _ _ Ht), rne_int, <- Ht. exact Hs.
Qed.

Lemma fl_nonneg_arg (x : Q) : 0 <= x -> JS.fl x = JS.mag x.
Proof. intros H. unfold JS.fl. apply Qle_bool_iff in H. rewrite H. reflexivity. Qed.

Lemma fl_neg_arg (x : Q) : x < 0 -> JS.fl x = - JS.mag (- x).
Proof.
  intros H. unfold JS.fl. destruct (Qle_bool 0 x) eqn:Hb; [|reflexivity].
  apply Qle_bool_iff in Hb. lra.
Qed.

Lemma mag_monotone0 (a b : Q) : 0 <= a -> a <= b -> JS.mag a <= JS.mag b.
Proof.
  intros Ha Hab. destruct (Qlt_le_dec 0 a) as [Hpos|H0].
  - apply mag_monotone; assumption.
  - rewrite (mag_zero a) by lra. apply mag_nonneg. lra.
Qed.

(** *** The laws of [JS.fl] *)
Lemma fl_monotone (x y : Q) : x <= y -> JS.fl x <= JS.fl y.
Proof.
  intros Hxy. destruct (Qlt_le_dec x 0) as [Hx|Hx], (Qlt_le_dec y 0) as [Hy|Hy].
  - rewrite !fl_neg_arg by assumption.
    pose proof (mag_monotone0 (- y) (- x) ltac:(lra) ltac:(lra)). lra.
  - rewrite (fl_neg_arg x), (fl_nonneg_arg y) by assumption.
    pose proof (mag_nonneg (- x) ltac:(lra)). pose proof (mag_nonneg y Hy). lra.
  - lra.
  - rewrite !fl_nonneg_arg by assumption. apply mag_monotone0; assumption.
Qed.

Lemma fl_wd (x y : Q) : x == y -> JS.fl x == JS.fl y.
Proof. intros H. apply Qle_antisym; apply fl_monotone; lra. Qed.

Lemma fl_scaled (m j : Z) :
  (Z.abs m <= 2 ^ 53)%Z -> (-1074 <= j)%Z -> JS.fl (inject_Z m * 2 ^ j) == inject_Z m * 2 ^ j.
Proof.
  intros Hm Hj. pose proof (pw_pos j) as Pj.
  destruct (Z.lt_trichotomy m 0) as [Hneg|[->|Hpos]].
  - assert (inject_Z m < 0) as Hq by (change (inject_Z m < inject_Z 0); rewrite <- Zlt_Qlt; exact Hneg).
    rewrite fl_neg_arg by nra.
    rewrite (mag_exact _ (- m) j); [ring | | lia | exact Hj].
    rewrite inject_Z_opp. ring.
  - change (inject_Z 0) with 0. rewrite fl_nonneg_arg by lra.
    rewrite mag_zero; ring.
  - assert (0 < inject_Z m) as Hq by (change (inject_Z 0 < inject_Z m); rewrite <- Zlt_Qlt; exact Hpos).
    rewrite fl_nonneg_arg by nra.
    apply (mag_exact _ m j); [reflexivity | lia | exact Hj].
Qed.

Lemma fl_dyadic (n : Z) (k : nat) :
  (k <= 1074)%nat -> (Z.abs n <= 2 ^ 53)%Z ->
  JS.fl (inject_Z n / inject_Z (2 ^ Z.of_nat k)) == inject_Z n / inject_Z (2 ^ Z.of_nat k).
Proof.
  intros Hk Hn.
  assert (inject_Z n / inject_Z (2 ^ Z.of_nat k) == inject_Z n * 2 ^ (- Z.of_nat k)) as H.
  { rewrite pw_Z by lia. rewrite Qpower_opp. reflexivity. }
  rewrite (fl_wd _ _ H), H. apply fl_scaled; lia.
Qed.

Lemma mag_idempotent (a : Q) : 0 <= a -> JS.mag (JS.mag a) == JS.mag a.
Proof.
  intros Ha. destruct (Qlt_le_dec 0 a) as [Hpos|H0].
  - pose proof (mag_nonneg a Ha) as Hm.
    destruct (Qlt_le_dec 0 (JS.mag a)) as [Hmpos|Hm0];
      [|rewrite (mag_zero (JS.mag a)) by lra; lra].
    apply (mag_exact _ (JS.rne (a / JS.ulp a)) (JS.expo a - 52)).
    + reflexivity.
    + pose proof (ulp_pos a) as Hq. rewrite mag_eq in Hmpos.
      split.
      * rewrite Zlt_Qlt. change (inject_Z 0) with 0.
        destruct (Qlt_le_dec 0 (inject_Z (JS.rne (a / JS.ulp a)))) as [H|H]; [exact H | exfalso; nra].
      * apply rne_le_int. change (inject_Z (2 ^ 53)) with (2 * 2 ^ 52).
        pose proof (below_top a Hpos) as Hb. pose proof (ulp_top a) as Htop.
        pose proof (scaled a) as Hs.
        destruct (Qlt_le_dec (2 * 2 ^ 52) (a / JS.ulp a)) as [H|H]; [exfalso; nra | exact H].
    + unfold JS.expo. lia.
  - assert (JS.mag a == 0) as Hz by (apply mag_zero; lra).
    rewrite (mag_zero (JS.mag a) Hz). symmetry. exact Hz.
Qed.

Lemma fl_idempotent (x : Q) : JS.fl (JS.fl x) == JS.fl x.
Proof.
  destruct (Qlt_le_dec x 0) as [Hx|Hx].
  - rewrite (fl_neg_arg x Hx). pose proof (mag_nonneg (- x) ltac:(lra)) as Hm.
    destruct (Qlt_le_dec 0 (JS.mag (- x))) as [Hpos|H0].
    + rewrite fl_neg_arg by lra.
      assert (- - JS.mag (- x) == JS.mag (- x)) as Hopp by ring.
      assert (JS.mag (- - JS.mag (- x)) == JS.mag (JS.mag (- x))) as Hwd.
      { pose proof (fl_wd _ _ Hopp) as H. rewrite !fl_nonneg_arg in H by lra. exact H. }
      rewrite Hwd, mag_idempotent by lra. reflexivity.
    + rewrite fl_nonneg_arg by lra. rewrite mag_zero by lra. lra.
  - rewrite (fl_nonneg_arg x Hx). rewrite fl_nonneg_arg by (apply mag_nonneg, Hx).
    apply mag_idempotent, Hx.
Qed.

Lemma fl_twice (x : Q) : Qabs (JS.fl x) <= 2 * Qabs x.
Proof.
  destruct (Qlt_le_dec x 0) as [Hx|Hx].
  - rewrite (fl_neg_arg x Hx). pose proof (mag_nonneg (- x) ltac:(lra)) as Hm.
    pose proof (mag_twice (- x) ltac:(lra)) as Ht.
    rewrite (Qabs_neg x) by lra. rewrite Qabs_neg by lra. lra.
  - rewrite (fl_nonneg_arg x Hx). pose proof (mag_nonneg x Hx) as Hm.
    pose proof (mag_twice x Hx) as Ht.
    rewrite (Qabs_pos x) by lra. rewrite Qabs_pos by lra. lra.
Qed.

Lemma half_ulp (a : Q) :
  0 < a -> (1 # 2) * JS.ulp a <= a * (1 # 2 ^ 53) + (1 # 2 ^ 1075).
Proof.
  intros Ha. pose proof (ulp_top a) as Htop.
  assert (0 < (1 # 2 ^ 53)) as P53 by reflexivity.
  assert (2 ^ 52 * (1 # 2 ^ 53) == 1 # 2) as Hc by reflexivity.
  assert ((1 # 2) * JS.ulp a == 2 ^ JS.expo a * (1 # 2 ^ 53)) as Hu.
  { rewrite <- Htop, <- Hc. ring. }
  destruct (Z_le_gt_dec (-1022) (JS.exponent a)) as [Hn|Hs].
  - destruct (exponent_spec a Ha) as [Hlow _].
    assert (JS.expo a = JS.exponent a) as He by (unfold JS.expo; lia). rewrite <- He in Hlow.
    assert (0 < (1 # 2 ^ 1075)) by reflexivity.
    assert (2 ^ JS.expo a * (1 # 2 ^ 53) <= a * (1 # 2 ^ 53))
      by (apply Qmult_le_compat_r; lra).
    lra.
  - assert (JS.expo a = (-1022)%Z) as He by (unfold JS.expo; lia).
    rewrite He in Hu.
    assert (2 ^ (-1022) * (1 # 2 ^ 53) == 1 # 2 ^ 1075) as Hc2 by reflexivity.
    assert (0 <= a * (1 # 2 ^ 53)) by (apply Qmult_le_0_compat; lra).
    lra.
Qed.

(** Half a unit in the last place: [2^-53] of the magnitude for a
    normal double, [2^-1075] for a subnormal one. *)
Lemma fl_error (x : Q) :
  Qabs (JS.fl x - x) <= Qabs x * (1 # 2 ^ 53) + (1 # 2 ^ 1075).
Proof.
  destruct (Qlt_le_dec x 0) as [Hx|Hx].
  - rewrite (fl_neg_arg x Hx). pose proof (mag_error (- x)) as [H1 H2].
    pose proof (half_ulp (- x) ltac:(lra)) as Hh.
    rewrite (Qabs_neg x) by lra. apply Qabs_Qle_condition. lra.
  - rewrite (fl_nonneg_arg x Hx). rewrite (Qabs_pos x) by lra.
    destruct (Qlt_le_dec 0 x) as [Hpos|H0].
    + pose proof (mag_error x) as [H1 H2]. pose proof (half_ulp x Hpos) as Hh.
      apply Qabs_Qle_condition. lra.
    + rewrite (mag_zero x) by lra.
      assert (0 - x == 0) as Hz by lra. rewrite (Qabs_wd _ _ Hz).
      assert (0 < (1 # 2 ^ 53)) as P53 by reflexivity.
      assert (0 <= x * (1 # 2 ^ 53)) by (apply Qmult_le_0_compat; lra).
      change (Qabs 0) with 0. assert (0 < (1 # 2 ^ 1075)) by reflexivity. lra.
Qed.


(** The literal [0.1] denotes the double [3602879701896397 / 2^55],
    a little more than one tenth. *)
Example lit_tenth :
  JS.lit 0.1 == 3602879701896397 # 2 ^ 55 /\ 0.1 < JS.lit 0.1.
Proof. vm_compute. split; reflexivity. Qed.

(** From here on only these laws of the rounding are used. *)
#[global] Opaque JS.rne JS.exponent JS.ulp JS.mag JS.fl.

(** Integers up to [2^53] are doubles. *)
Lemma fl_int (n : Z) : (Z.abs n <= 2 ^ 53)%Z -> JS.fl (inject_Z n) == inject_Z n.
Proof.
  intros Hn. pose proof (fl_dyadic n 0 ltac:(lia) Hn) as H.
  assert (inject_Z n / inject_Z (2 ^ Z.of_nat 0) == inject_Z n) as Hd
    by (change (inject_Z (2 ^ Z.of_nat 0)) with 1; field).
  rewrite <- Hd at 2. rewrite <- H. apply fl_wd. symmetry. exact Hd.
Qed.

Lemma fl_half : JS.fl 0.5 == 0.5.
Proof.
  pose proof (fl_dyadic 1 1 ltac:(lia) ltac:(lia)) as H.
  assert (inject_Z 1 / inject_Z (2 ^ Z.of_nat 1) == 0.5) as Hd by reflexivity.
  rewrite <- Hd at 2. rewrite <- H. apply fl_wd. symmetry. exact Hd.
Qed.

(** Rounding does not cross an integer. *)
Lemma fl_le_int (x : Q) (n : Z) :
  (Z.abs n <= 2 ^ 53)%Z -> x <= inject_Z n -> JS.fl x <= inject_Z n.
Proof. intros Hn Hx. rewrite <- (fl_int n Hn). apply fl_monotone, Hx. Qed.

Lemma fl_ge_int (x : Q) (n : Z) :
  (Z.abs n <= 2 ^ 53)%Z -> inject_Z n <= x -> inject_Z n <= JS.fl x.
Proof. intros Hn Hx. rewrite <- (fl_int n Hn). apply fl_monotone, Hx. Qed.

(** Rounding keeps the sign and at most doubles the magnitude. *)
Lemma fl_nonneg (x : Q) : 0 <= x -> 0 <= JS.fl x /\ JS.fl x <= 2 * x.
Proof.
  intros Hx. split; [apply (fl_ge_int x 0); [lia | exact Hx]|].
  pose proof (fl_twice x) as H. rewrite (Qabs_pos x Hx) in H.
  pose proof (Qle_Qabs (JS.fl x)). lra.
Qed.

Lemma fl_nonpos (x : Q) : x <= 0 -> 2 * x <= JS.fl x /\ JS.fl x <= 0.
Proof.
  intros Hx. split; [|apply (fl_le_int x 0); [lia | exact Hx]].
  pose proof (fl_twice x) as H. rewrite (Qabs_neg x Hx) in H.
  pose proof (Qle_Qabs (- JS.fl x)) as H1. rewrite Qabs_opp in H1. lra.
Qed.

(** The error of one rounding, for the magnitudes of the game. *)
Lemma fl_close (x : Q) :
  Qabs x <= 1000000 ->
  - (1 # 1000000000) <= JS.fl x - x /\ JS.fl x - x <= 1 # 1000000000.
Proof.
  intros Hx. pose proof (fl_error x) as H.
  assert ((1 # 2 ^ 53) <= 1 # 9000000000000000) as Hu by (vm_compute; discriminate).
  assert ((1 # 2 ^ 1075) <= 1 # 10000000000) as He by (vm_compute; discriminate).
  assert (0 <= (1 # 2 ^ 53)) as Hu0 by discriminate.
  pose proof (Qabs_nonneg x) as Hx0.
  set (u := 1 # 2 ^ 53) in *. set (e := 1 # 2 ^ 1075) in *. clearbody u e.
  assert (Qabs x * u <= 1000000 * (1 # 9000000000000000)) as Hp by nra.
  apply Qabs_Qle_condition. lra.
Qed.
End Rounding.

(** Turns the boolean tests of the source found in the context into
    order facts on rationals. *)
Ltac js_facts :=
  repeat match goal with
  | H : JS.ltb _ _ = true |- _ => apply ltb_true in H
  | H : JS.ltb _ _ = false |- _ => apply ltb_false in H
  | H : JS.gtb _ _ = true |- _ => apply gtb_true in H
  | H : JS.gtb _ _ = false |- _ => apply gtb_false in H
  | H : JS.leb _ _ = true |- _ => apply leb_true in H
  | H : JS.leb _ _ = false |- _ => apply leb_false in H
  | H : JS.geb _ _ = true |- _ => apply geb_true in H
  | H : JS.geb _ _ = false |- _ => apply geb_false in H
  end.

(** ** Entity hitboxes *)
Section HitboxFacts.
Local Open Scope Q_scope.
Import GameObject HitboxSpec.

Lemma kindFractions_known (kind : string) :
  kind ∈ knownKinds <-> is_Some (kindFractions kind).
Proof.
  unfold kindFractions, knownKinds.
  repeat match goal with
  | |- context [String.eqb kind ?s] =>
      destruct (String.eqb_spec kind s) as [->|?]
  end; split; intros H; try (eexists; reflexivity);
    try (repeat (apply elem_of_cons; first [left; reflexivity | right]); fail).
  - repeat (apply elem_of_cons in H as [H|H]; [congruence|]).
    apply elem_of_nil in H. destruct H.
  - destruct H as [? H]. discriminate.
Qed.

Lemma getHitbox_fractions (o : GameObject.t) (fx fy fw fh : Q) :
  kindFractions (type o) = Some (fx, fy, fw, fh) ->
  getHitbox o = shrunkRect o fx fy fw fh.
Proof.
  unfold kindFractions, getHitbox, hitboxLocals, shrunkRect.
  repeat match goal with
  | |- context [String.eqb (type o) ?s] => destruct (String.eqb (type o) s)
  end; intros H; inversion H; reflexivity.
Qed.

Lemma getHitbox_default (o : GameObject.t) :
  kindFractions (type o) = None -> getHitbox o = boundingRect o.
Proof.
  unfold kindFractions, getHitbox, hitboxLocals, boundingRect.
  repeat match goal with
  | |- context [String.eqb (type o) ?s] => destruct (String.eqb (type o) s)
  end; intros H; try discriminate.
  rewrite !Qplus_0_r_eq. reflexivity.
Qed.
End HitboxFacts.

Section HitboxClaims.
Local Open Scope Q_scope.
Import GameObject HitboxSpec.

(** C8. Unknown-kind degradation: an entity whose [type] is none of
    shark, squid, angler, viper, rock, bubble gets its full bounding
    rectangle as hitbox; each of the six known kinds gets its own
    fractional offset and shrink; and the hitbox depends on nothing but
    the type and the current [x], [y], [width], [height]. [getHitbox]
    is a total function, so no input makes it fail. *)
Theorem getHitbox_by_kind (o : GameObject.t) :
  (type o ∉ knownKinds -> getHitbox o = boundingRect o) /\
  (type o = "shark" -> getHitbox o = shrunkRect o 0.1 0.2 0.8 0.6) /\
  (type o = "squid" -> getHitbox o = shrunkRect o 0.2 0.1 0.6 0.8) /\
  (type o = "angler" -> getHitbox o = shrunkRect o 0.15 0.2 0.7 0.6) /\
  (type o = "viper" -> getHitbox o = shrunkRect o 0.05 0.1 0.9 0.8) /\
  (type o = "rock" -> getHitbox o = shrunkRect o 0.1 0.1 0.8 0.8) /\
  (type o = "bubble" -> getHitbox o = shrunkRect o 0.15 0.15 0.7 0.7) /\
  (forall o' : GameObject.t,
      type o' = type o -> x o' = x o -> y o' = y o ->
      width o' = width o -> height o' = height o ->
      getHitbox o' = getHitbox o).
Proof.
  split; [|repeat split].
  - intros Hunknown. apply getHitbox_default.
    destruct (kindFractions (type o)) eqn:Hk; [|reflexivity].
    exfalso. apply Hunknown, kindFractions_known. rewrite Hk. eexists; reflexivity.
  - intros H. apply getHitbox_fractions. rewrite H. reflexivity.
  - intros H. apply getHitbox_fractions. rewrite H. reflexivity.
  - intros H. apply getHitbox_fractions. rewrite H. reflexivity.
  - intros H. apply getHitbox_fractions. rewrite H. reflexivity.
  - intros H. apply getHitbox_fractions. rewrite H. reflexivity.
  - intros H. apply getHitbox_fractions. rewrite H. reflexivity.
  - intros o' Ht Hx Hy Hw Hh. unfold getHitbox, hitboxLocals.
    rewrite Ht, Hx, Hy, Hw, Hh. reflexivity.
Qed.

Lemma getHitbox_by_kind_witness :
  getHitbox sampleUnknown = Rect.mk 350 270 100 60 /\
  getHitbox sampleViper = shrunkRect sampleViper 0.05 0.1 0.9 0.8.
Proof.
  split.
  - apply (proj1 (getHitbox_by_kind sampleUnknown)). vm_compute.
    intros H. repeat (apply elem_of_cons in H as [H|H]; [discriminate|]).
    apply elem_of_nil in H. exact H.
  - apply (proj1 (proj2 (proj2 (proj2 (proj2 (getHitbox_by_kind sampleViper)))))).
    reflexivity.
Defined.

(** C10. Hitbox containment: for non-negative width and height the
    hitbox lies inside the bounding box, for the six known kinds and
    for every other kind. *)
Theorem getHitbox_inside_bounding_box (o : GameObject.t) :
  0 <= width o -> 0 <= height o ->
  x o <= Rect.x (getHitbox o) /\
  y o <= Rect.y (getHitbox o) /\
  Rect.x (getHitbox o) + Rect.width (getHitbox o) <= x o + width o /\
  Rect.y (getHitbox o) + Rect.height (getHitbox o) <= y o + height o.
Proof.
  intros Hw Hh. unfold getHitbox, hitboxLocals.
  repeat match goal with
  | |- context [String.eqb (type o) ?s] => destruct (String.eqb (type o) s)
  end; simpl; repeat split; lra.
Qed.

Lemma getHitbox_inside_bounding_box_witness :
  900 <= Rect.x (getHitbox sampleViper) /\
  1000 <= Rect.y (getHitbox sampleViper) /\
  Rect.x (getHitbox sampleViper) + Rect.width (getHitbox sampleViper) <= 900 + 120 /\
  Rect.y (getHitbox sampleViper) + Rect.height (getHitbox sampleViper) <= 1000 + 60.
Proof.
  apply (getHitbox_inside_bounding_box sampleViper); vm_compute; discriminate.
Defined.
End HitboxClaims.

(** ** The effect monad *)
Section MonadFacts.
Context {A S : Type}.

Lemma forEach_nil (f : A -> S -> JS.M S) (s : S) (w : JS.World) :
  JS.forEach f [] s w = (s, w).
Proof. reflexivity. Qed.

Lemma forEach_cons (f : A -> S -> JS.M S) (a : A) (l : list A) (s : S) (w : JS.World) :
  JS.forEach f (a :: l) s w = let (s', w') := f a s w in JS.forEach f l s' w'.
Proof. reflexivity. Qed.

Lemma forEach_app (f : A -> S -> JS.M S) (l1 l2 : list A) (s : S) (w : JS.World) :
  JS.forEach f (l1 ++ l2) s w =
  let (s', w') := JS.forEach f l1 s w in JS.forEach f l2 s' w'.
Proof.
  revert s w. induction l1 as [|a l1 IH]; intros s w; simpl.
  - reflexivity.
  - unfold JS.bind. destruct (f a s w) as [s1 w1]. apply IH.
Qed.

(** A loop whose body never touches the oracles is a fold. *)
Lemma forEach_pure (f : A -> S -> JS.M S) (g : S -> A -> S) (l : list A) (s : S)
    (w : JS.World) :
  (forall a s w, f a s w = (g s a, w)) ->
  JS.forEach f l s w = (fold_left g l s, w).
Proof.
  intros Hf. revert s. induction l as [|a l IH]; intros s; simpl.
  - reflexivity.
  - unfold JS.bind. rewrite Hf. apply IH.
Qed.
End MonadFacts.

(** ** The collision detector *)
Section DetectorFacts.
Import CollisionDetector DetectionSpec.
Variable E : JS.Env.

Lemma getWorldObjectScreenHitbox_screenFrame (obj : GameObject.t) (depthOffset : Q) :
  getWorldObjectScreenHitbox obj depthOffset
  = screenFrame (GameObject.getHitbox obj) depthOffset.
Proof. reflexivity. Qed.

(** The bubble pass is a plain filter: it leaves the detector and the
    clock alone. *)
Lemma bubble_forEach (hb : Rect.t) (off : Q) (l cols : list GameObject.t)
    (cd : CollisionDetector.t) (w : JS.World) :
  JS.forEach (bubbleStep hb off) l (cols, cd) w
  = ((cols ++ List.filter
                (fun b => checkAABB hb (getWorldObjectScreenHitbox b off)) l, cd), w).
Proof.
  revert cols. induction l as [|b l IH]; intros cols; simpl.
  - rewrite app_nil_r. reflexivity.
  - unfold JS.bind. unfold bubbleStep at 1.
    destruct (checkAABB hb (getWorldObjectScreenHitbox b off)); simpl.
    + rewrite IH, <- app_assoc. reflexivity.
    + apply IH.
Qed.

Lemma checkBubbleCollisions_filter (cd : CollisionDetector.t) (sub : Submarine.t)
    (bubbles : list GameObject.t) (d cam : Q) (w : JS.World) :
  checkBubbleCollisions cd sub bubbles d cam w
  = ((List.filter (overlaps sub d cam) bubbles, cd), w).
Proof. unfold checkBubbleCollisions. rewrite bubble_forEach. reflexivity. Qed.

Lemma gatedStep_outcome (hb : Rect.t) (off : Q) (o : GameObject.t)
    (cols : list GameObject.t) (cd : CollisionDetector.t) (w : JS.World) :
  GatedOutcome E hb off o cols cd w (gatedStep E hb off o (cols, cd) w).
Proof.
  unfold gatedStep, isInCollisionCooldown, setCollisionCooldown, JS.bind, JS.now, JS.ret.
  destruct (collisionCooldown cd !! GameObject.id o) as [t|] eqn:Hl; simpl.
  - destruct (cooldownDuration cd <=? JS.Date_now E (JS.clockReads w) - t)%Z eqn:Hc; simpl.
    + apply Z.leb_le in Hc.
      destruct (checkAABB hb (getWorldObjectScreenHitbox o off)) eqn:Ho; simpl.
      * eapply ExpiredHit; eauto.
      * eapply ExpiredMiss; eauto.
    + apply Z.leb_gt in Hc. eapply StillCooling; eauto.
  - destruct (checkAABB hb (getWorldObjectScreenHitbox o off)) eqn:Ho; simpl.
    + destruct w. apply FreshHit; auto.
    + apply FreshMiss; auto.
Qed.
Lemma gatedStep_clock (hb : Rect.t) (off : Q) (o : GameObject.t)
    (cols cols' : list GameObject.t) (cd cd' : CollisionDetector.t) (w w' : JS.World) :
  gatedStep E hb off o (cols, cd) w = (cols', cd', w') ->
  JS.clockReads w <= JS.clockReads w' /\ JS.randomDraws w' = JS.randomDraws w /\
  cooldownDuration cd' = cooldownDuration cd.
Proof.
  intros Hstep. pose proof (gatedStep_outcome hb off o cols cd w) as H.
  rewrite Hstep in H. inversion H; subst; simpl; repeat split; lia.
Qed.

Lemma gated_forEach_clock (hb : Rect.t) (off : Q) (l : list GameObject.t)
    (cols cols' : list GameObject.t) (cd cd' : CollisionDetector.t) (w w' : JS.World) :
  JS.forEach (gatedStep E hb off) l (cols, cd) w = (cols', cd', w') ->
  JS.clockReads w <= JS.clockReads w' /\ JS.randomDraws w' = JS.randomDraws w /\
  cooldownDuration cd' = cooldownDuration cd.
Proof.
  revert cols cd w. induction l as [|o l IH]; intros cols cd w Hrun.
  - inversion Hrun; subst. repeat split; lia.
  - rewrite forEach_cons in Hrun.
    destruct (gatedStep E hb off o (cols, cd) w) as [[cols1 cd1] w1] eqn:Hstep.
    apply gatedStep_clock in Hstep as (? & ? & ?).
    apply IH in Hrun as (? & ? & ?). repeat split; [lia | congruence | congruence].
Qed.

(** One gated step on a table that holds [i -> t], while the clock
    stays below [t + 100]: the entry survives and no entity with id [i]
    is added to the collisions. *)
Lemma gatedStep_suppressed (hb : Rect.t) (off : Q) (o : GameObject.t)
    (cols cols' : list GameObject.t) (cd cd' : CollisionDetector.t) (w w' : JS.World)
    (i t : Z) :
  gatedStep E hb off o (cols, cd) w = (cols', cd', w') ->
  cooldownDuration cd = 100%Z ->
  collisionCooldown cd !! i = Some t ->
  (forall k, JS.clockReads w <= k < JS.clockReads w' ->
             (JS.Date_now E k - t < 100)%Z) ->
  collisionCooldown cd' !! i = Some t /\
  (GameObject.id o = i -> cols' = cols) /\
  (forall o', o' ∈ cols' -> GameObject.id o' = i -> o' ∈ cols).
Proof.
  intros Hstep Hdur Hi Hclock.
  pose proof (gatedStep_outcome hb off o cols cd w) as H.
  rewrite Hstep in H.
  assert (forall t0, collisionCooldown cd !! GameObject.id o = Some t0 ->
                     (cooldownDuration cd <= JS.Date_now E (JS.clockReads w) - t0)%Z ->
                     JS.clockReads w < JS.clockReads w' ->
                     GameObject.id o <> i) as Hexpired.
  { intros t0 Hl Hle Hlt Heq. rewrite Heq, Hi in Hl. inversion Hl; subst t0.
    specialize (Hclock (JS.clockReads w)). lia. }
  assert (forall o', o' ∈ cols ++ [o] -> GameObject.id o <> i ->
                     GameObject.id o' = i -> o' ∈ cols) as Hadd.
  { intros o' Hin Hne Hid. apply elem_of_app in Hin as [Hin|Hin]; [exact Hin|].
    apply list_elem_of_singleton in Hin. subst o'. congruence. }
  inversion H; subst; simpl in *.
  - repeat split; auto.
  - assert (GameObject.id o <> i) as Hne by (eapply Hexpired; eauto).
    rewrite lookup_delete_ne by exact Hne. repeat split; auto; congruence.
  - assert (GameObject.id o <> i) as Hne by (eapply Hexpired; eauto).
    rewrite lookup_insert_ne, lookup_delete_ne by exact Hne.
    repeat split; auto; try congruence; intros; eapply Hadd; eauto.
  - repeat split; auto.
  - assert (GameObject.id o <> i) as Hne by congruence.
    rewrite lookup_insert_ne by exact Hne.
    repeat split; auto; try congruence; intros; eapply Hadd; eauto.
Qed.

Lemma gated_forEach_suppressed (hb : Rect.t) (off : Q) (l : list GameObject.t)
    (cols cols' : list GameObject.t) (cd cd' : CollisionDetector.t) (w w' : JS.World)
    (i t : Z) :
  JS.forEach (gatedStep E hb off) l (cols, cd) w = (cols', cd', w') ->
  cooldownDuration cd = 100%Z ->
  collisionCooldown cd !! i = Some t ->
  (forall k, JS.clockReads w <= k < JS.clockReads w' ->
             (JS.Date_now E k - t < 100)%Z) ->
  collisionCooldown cd' !! i = Some t /\
  (forall o', o' ∈ cols' -> GameObject.id o' = i -> o' ∈ cols).
Proof.
  revert cols cd w. induction l as [|o l IH]; intros cols cd w Hrun Hdur Hi Hclock.
  - inversion Hrun; subst. split; auto.
  - rewrite forEach_cons in Hrun.
    destruct (gatedStep E hb off o (cols, cd) w) as [[cols1 cd1] w1] eqn:Hstep.
    pose proof (gatedStep_clock _ _ _ _ _ _ _ _ _ Hstep) as (Hw1 & _ & Hd1).
    pose proof (gated_forEach_clock _ _ _ _ _ _ _ _ _ Hrun) as (Hw' & _ & _).
    destruct (gatedStep_suppressed _ _ _ _ _ _ _ _ _ i t Hstep Hdur Hi) as (Hi1 & _ & Hc1).
    { intros k Hk. apply Hclock. lia. }
    destruct (IH _ _ _ Hrun) as (Hi' & Hc'); [congruence | exact Hi1 | |].
    { intros k Hk. apply Hclock. lia. }
    split; [exact Hi'|]. intros o' Hin Hid. apply Hc1; auto.
Qed.






Lemma detectAll_cons (c : Call) (rest : list Call) (cd : CollisionDetector.t)
    (w : JS.World) :
  detectAll E (c :: rest) cd w
  = let '(reported, cd1, w1) := detect E c cd w in
    let '(reports, cd2, w2) := detectAll E rest cd1 w1 in
    ((pass c, reported) :: reports, cd2, w2).
Proof.
  simpl. unfold JS.bind. destruct (detect E c cd w) as [[reported cd1] w1].
  destruct (detectAll E rest cd1 w1) as [[reports cd2] w2]. reflexivity.
Qed.

Lemma detect_clock (c : Call) (cd cd' : CollisionDetector.t) (w w' : JS.World)
    (reported : list GameObject.t) :
  detect E c cd w = (reported, cd', w') ->
  JS.clockReads w <= JS.clockReads w' /\ cooldownDuration cd' = cooldownDuration cd.
Proof.
  unfold detect, checkMonsterCollisions, checkObstacleCollisions. intros H.
  destruct (pass c).
  - apply gated_forEach_clock in H as (? & _ & ?). auto.
  - apply gated_forEach_clock in H as (? & _ & ?). auto.
  - rewrite checkBubbleCollisions_filter in H. inversion H; subst. auto.
Qed.

Lemma detectAll_clock (calls : list Call) (cd cd' : CollisionDetector.t) (w w' : JS.World)
    (reports : list (Pass * list GameObject.t)) :
  detectAll E calls cd w = (reports, cd', w') ->
  JS.clockReads w <= JS.clockReads w' /\ cooldownDuration cd' = cooldownDuration cd.
Proof.
  revert cd w reports. induction calls as [|c rest IH]; intros cd w reports H.
  - inversion H; subst. auto.
  - rewrite detectAll_cons in H.
    destruct (detect E c cd w) as [[reported cd1] w1] eqn:Hc.
    destruct (detectAll E rest cd1 w1) as [[reports' cd2] w2] eqn:Hrest.
    inversion H; subst. apply detect_clock in Hc as (? & ?).
    apply IH in Hrest as (? & ?). split; [lia | congruence].
Qed.

Lemma detect_suppressed (c : Call) (cd cd' : CollisionDetector.t) (w w' : JS.World)
    (reported : list GameObject.t) (i t : Z) :
  detect E c cd w = (reported, cd', w') ->
  cooldownDuration cd = 100%Z ->
  collisionCooldown cd !! i = Some t ->
  (forall k, JS.clockReads w <= k < JS.clockReads w' ->
             (JS.Date_now E k - t < 100)%Z) ->
  collisionCooldown cd' !! i = Some t /\
  (pass c <> BubblePass -> forall o', o' ∈ reported -> GameObject.id o' <> i).
Proof.
  unfold detect, checkMonsterCollisions, checkObstacleCollisions.
  intros H Hdur Hi Hclock. destruct (pass c).
  - destruct (gated_forEach_suppressed _ _ _ _ _ _ _ _ _ i t H Hdur Hi Hclock) as (? & Hc).
    split; [assumption|]. intros _ o' Hin Hid.
    apply (Hc o') in Hin; [|exact Hid]. apply elem_of_nil in Hin. exact Hin.
  - destruct (gated_forEach_suppressed _ _ _ _ _ _ _ _ _ i t H Hdur Hi Hclock) as (? & Hc).
    split; [assumption|]. intros _ o' Hin Hid.
    apply (Hc o') in Hin; [|exact Hid]. apply elem_of_nil in Hin. exact Hin.
  - rewrite checkBubbleCollisions_filter in H. inversion H; subst.
    split; [assumption|]. intros Hne. congruence.
Qed.

Lemma detectAll_suppressed (calls : list Call) (cd cd' : CollisionDetector.t)
    (w w' : JS.World) (reports : list (Pass * list GameObject.t)) (i t : Z) :
  detectAll E calls cd w = (reports, cd', w') ->
  cooldownDuration cd = 100%Z ->
  collisionCooldown cd !! i = Some t ->
  (forall k, JS.clockReads w <= k < JS.clockReads w' ->
             (JS.Date_now E k - t < 100)%Z) ->
  collisionCooldown cd' !! i = Some t /\
  (forall p reported o', (p, reported) ∈ reports -> p <> BubblePass ->
                         o' ∈ reported -> GameObject.id o' <> i).
Proof.
  revert cd w reports. induction calls as [|c rest IH]; intros cd w reports H Hdur Hi Hclock.
  - inversion H; subst. split; [assumption|].
    intros p reported o' Hin. apply elem_of_nil in Hin. destruct Hin.
  - rewrite detectAll_cons in H.
    destruct (detect E c cd w) as [[reported cd1] w1] eqn:Hc.
    destruct (detectAll E rest cd1 w1) as [[reports' cd2] w2] eqn:Hrest.
    inversion H; subst.
    pose proof (detect_clock _ _ _ _ _ _ Hc) as (Hw1 & Hd1).
    pose proof (detectAll_clock _ _ _ _ _ _ Hrest) as (Hw2 & _).
    destruct (detect_suppressed _ _ _ _ _ _ i t Hc Hdur Hi) as (Hi1 & Hr1).
    { intros k Hk. apply Hclock. lia. }
    destruct (IH _ _ _ Hrest) as (Hi2 & Hr2); [congruence | exact Hi1 | |].
    { intros k Hk. apply Hclock. lia. }
    split; [exact Hi2|]. intros p reported0 o' Hin Hp Ho'.
    apply elem_of_cons in Hin as [Heq|Hin].
    + inversion Heq; subst. apply Hr1; assumption.
    + eapply Hr2; eassumption.
Qed.
End DetectorFacts.

Section DetectorClaims.
Import CollisionDetector DetectionSpec.
Variable E : JS.Env.

(** C3. Cooldown suppression. Let a gated step (the body of the
    monster and obstacle passes) report the entity [o]. Then [o]'s id is
    stamped with the clock reading [t] taken by that report, and in any
    sequence of later detection calls on the same detector (the rest of
    the same pass is such a call) during which every clock reading stays
    below [t + 100], the stamp stays in the table and no monster or
    obstacle pass reports an entity with that id, overlapping or not.
    Once a lookup reads a clock value of [t + 100] or more, it drops the
    entry and answers that the id is not in cooldown, and an overlapping
    entity with that id is reported again. *)
Theorem cooldown_suppression (hb : Rect.t) (off : Q) (o : GameObject.t)
    (cols : list GameObject.t) (cd cd1 : CollisionDetector.t) (w w1 : JS.World) :
  cooldownDuration cd = 100%Z ->
  gatedStep E hb off o (cols, cd) w = (cols ++ [o], cd1, w1) ->
  exists t : Z,
    t = JS.Date_now E (pred (JS.clockReads w1)) /\
    collisionCooldown cd1 !! GameObject.id o = Some t /\
    (forall (calls : list Call) (reports : list (Pass * list GameObject.t))
            (cd2 : CollisionDetector.t) (w2 : JS.World),
       detectAll E calls cd1 w1 = (reports, cd2, w2) ->
       (forall k, JS.clockReads w1 <= k < JS.clockReads w2 ->
                  (JS.Date_now E k - t < 100)%Z) ->
       collisionCooldown cd2 !! GameObject.id o = Some t /\
       forall p reported o',
         (p, reported) ∈ reports -> p <> BubblePass -> o' ∈ reported ->
         GameObject.id o' <> GameObject.id o) /\
    (forall (hb' : Rect.t) (off' : Q) (o' : GameObject.t) (cols' : list GameObject.t),
       GameObject.id o' = GameObject.id o ->
       (100 <= JS.Date_now E (JS.clockReads w1) - t)%Z ->
       isInCollisionCooldown E cd1 o' w1
       = (false, mk (delete (GameObject.id o) (collisionCooldown cd1)) 100,
          JS.mkWorld (S (JS.clockReads w1)) (JS.randomDraws w1)) /\
       (checkAABB hb' (getWorldObjectScreenHitbox o' off') = true ->
        (gatedStep E hb' off' o' (cols', cd1) w1).1.1 = cols' ++ [o'])).
Proof.
  intros Hdur Hstep.
  assert (cooldownDuration cd1 = 100%Z /\
          collisionCooldown cd1 !! GameObject.id o
          = Some (JS.Date_now E (pred (JS.clockReads w1)))) as [Hd1 Hl].
  { pose proof (gatedStep_outcome E hb off o cols cd w) as H. rewrite Hstep in H.
    assert (cols <> cols ++ [o]) as Hneq.
    { intros Heq. apply (f_equal length) in Heq. rewrite length_app in Heq.
      simpl in Heq. lia. }
    inversion H; subst; simpl; try congruence;
      (split; [assumption | apply lookup_insert_eq]). }
  exists (JS.Date_now E (pred (JS.clockReads w1))).
  split; [reflexivity|]. split; [exact Hl|]. split.
  - intros calls reports cd2 w2 Hcalls Hclock.
    apply (detectAll_suppressed E calls cd1 cd2 w1 w2 reports _ _ Hcalls Hd1 Hl Hclock).
  - intros hb' off' o' cols' Hid Hexp.
    assert (isInCollisionCooldown E cd1 o' w1
            = (false, mk (delete (GameObject.id o) (collisionCooldown cd1)) 100,
               JS.mkWorld (S (JS.clockReads w1)) (JS.randomDraws w1))) as Hlookup.
    { unfold isInCollisionCooldown, JS.bind, JS.now, JS.ret. rewrite Hid, Hl, Hd1.
      apply Z.leb_le in Hexp. rewrite Hexp. reflexivity. }
    split; [exact Hlookup|]. intros Hover.
    unfold gatedStep, JS.bind. rewrite Hlookup. simpl. rewrite Hover.
    unfold setCollisionCooldown, JS.bind, JS.now, JS.ret. reflexivity.
Qed.

End DetectorClaims.

Lemma cooldown_suppression_witness :
  Samples.sharkStep.1.1 = [] ++ [Samples.shark] /\
  CollisionDetector.collisionCooldown Samples.sharkStep.1.2 !! 7%Z = Some 1000%Z.
Proof.
  split; [reflexivity|].
  destruct (cooldown_suppression Samples.env
              (Submarine.getScreenHitbox Samples.submarine)
              (CollisionDetector.calculateDepthOffset 0 0) Samples.shark []
              CollisionDetector.new Samples.sharkStep.1.2
              (JS.mkWorld 0 0) Samples.sharkStep.2)
    as (t & Ht & Hl & _).
  - reflexivity.
  - vm_compute. reflexivity.
  - subst t. exact Hl.
Defined.

Section BubbleClaims.
Import CollisionDetector DetectionSpec.

Lemma gated_pass_skips_cooling (E : JS.Env) (hb : Rect.t) (off : Q)
    (l : list GameObject.t) (cd : CollisionDetector.t) (w : JS.World)
    (o : GameObject.t) (t : Z) :
  collisionCooldown cd !! GameObject.id o = Some t ->
  cooldownDuration cd = 100%Z ->
  (forall k, JS.clockReads w <= k
             < JS.clockReads (JS.forEach (gatedStep E hb off) l ([], cd) w).2 ->
             (JS.Date_now E k - t < 100)%Z) ->
  o ∉ (JS.forEach (gatedStep E hb off) l ([], cd) w).1.1.
Proof.
  intros Hl Hdur Hclock Hin.
  destruct (JS.forEach (gatedStep E hb off) l ([], cd) w) as [[reported cd'] w'] eqn:Hrun.
  simpl in *.
  destruct (gated_forEach_suppressed E _ _ _ _ _ _ _ _ _ _ t Hrun Hdur Hl Hclock)
    as (_ & Hc).
  apply (Hc o) in Hin; [|reflexivity]. apply elem_of_nil in Hin. exact Hin.
Qed.

(** C7. Bubbles are never cooldown-gated: the bubble pass reports
    exactly the bubbles whose screen-frame hitbox overlaps the
    submarine's, whatever the cooldown table holds, and it neither
    changes the table nor reads the clock. The monster pass and the
    obstacle pass, by contrast, skip an entity whose id is in cooldown
    (stamped [t], with the clock below [t + 100] during the pass), even
    when it overlaps. *)
Theorem bubbles_never_cooldown_gated (E : JS.Env) (cd : CollisionDetector.t)
    (sub : Submarine.t) (l : list GameObject.t) (d cam : Q) (w : JS.World) :
  checkBubbleCollisions cd sub l d cam w
    = (List.filter (overlaps sub d cam) l, cd, w) /\
  (forall b, b ∈ l -> overlaps sub d cam b = true ->
             b ∈ (checkBubbleCollisions cd sub l d cam w).1.1) /\
  (forall o t,
     collisionCooldown cd !! GameObject.id o = Some t ->
     cooldownDuration cd = 100%Z ->
     (forall k, JS.clockReads w <= k
                < JS.clockReads (checkMonsterCollisions E cd sub l d cam w).2 ->
                (JS.Date_now E k - t < 100)%Z) ->
     o ∉ (checkMonsterCollisions E cd sub l d cam w).1.1) /\
  (forall o t,
     collisionCooldown cd !! GameObject.id o = Some t ->
     cooldownDuration cd = 100%Z ->
     (forall k, JS.clockReads w <= k
                < JS.clockReads (checkObstacleCollisions E cd sub l d cam w).2 ->
                (JS.Date_now E k - t < 100)%Z) ->
     o ∉ (checkObstacleCollisions E cd sub l d cam w).1.1).
Proof.
  split; [apply checkBubbleCollisions_filter|]. split; [|split].
  - intros b Hin Hover. rewrite checkBubbleCollisions_filter. simpl.
    apply list_elem_of_In, filter_In. split; [apply list_elem_of_In; exact Hin | exact Hover].
  - intros o t. apply gated_pass_skips_cooling.
  - intros o t. apply gated_pass_skips_cooling.
Qed.

Lemma bubbles_never_cooldown_gated_witness :
  (checkBubbleCollisions Samples.coolingDetector Samples.submarine
     [Samples.bubble] 0 0 Samples.world0).1.1 = [Samples.bubble] /\
  Samples.shark ∉
    (checkMonsterCollisions Samples.env Samples.coolingDetector Samples.submarine
       [Samples.shark] 0 0 Samples.world0).1.1.
Proof.
  split.
  - rewrite (proj1 (bubbles_never_cooldown_gated Samples.env Samples.coolingDetector
                      Samples.submarine [Samples.bubble] 0 0 Samples.world0)).
    reflexivity.
  - apply (proj1 (proj2 (proj2 (bubbles_never_cooldown_gated Samples.env
                      Samples.coolingDetector Samples.submarine [Samples.shark]
                      0 0 Samples.world0))) Samples.shark 1000%Z).
    + reflexivity.
    + reflexivity.
    + vm_compute. intros k [_ Hk].
      assert (k = 0) as -> by lia. reflexivity.
Defined.
End BubbleClaims.

(** ** The player craft *)
Section SubmarineFacts.
Local Open Scope Q_scope.
Import Submarine SubmarineSpec.

Lemma update_worldOffsetY (s : Submarine.t) (keys : gset string) (deltaTime : Q) :
  (update s keys deltaTime).2
  = if has keys "s" then - (moveSpeed s * deltaTime)
    else if has keys "w" then moveSpeed s * deltaTime
    else 0.
Proof.
  unfold update, updateUp, updateDown, updateHorizontal.
  destruct (has keys "a"), (has keys "d"), (has keys "w"), (has keys "s"); reflexivity.
Qed.

Lemma update_keeps_anchor (s : Submarine.t) (keys : gset string) (deltaTime : Q) :
  centerY (update s keys deltaTime).1 = centerY s /\
  maxVerticalOffset (update s keys deltaTime).1 = maxVerticalOffset s /\
  moveSpeed (update s keys deltaTime).1 = moveSpeed s.
Proof.
  unfold update, updateUp, updateDown, updateHorizontal.
  destruct (has keys "a"), (has keys "d"), (has keys "w"), (has keys "s");
    repeat split; reflexivity.
Qed.

(** The vertical motion contract for a frame time that is not
    negative: the four cases of the returned scroll delta, and the
    craft stays in its band. *)
Lemma update_vertical_contract (s : Submarine.t) (keys : gset string) (deltaTime : Q) :
  let speed := moveSpeed s * deltaTime in
  (has keys "w" = true -> has keys "s" = false -> (update s keys deltaTime).2 = speed) /\
  (has keys "w" = false -> has keys "s" = true -> (update s keys deltaTime).2 = - speed) /\
  (has keys "w" = false -> has keys "s" = false -> (update s keys deltaTime).2 = 0) /\
  (has keys "w" = true -> has keys "s" = true -> (update s keys deltaTime).2 = - speed) /\
  (0 <= speed -> 0 <= maxVerticalOffset s -> screenYInRange s ->
   screenYInRange (update s keys deltaTime).1).
Proof.
  intros speed. repeat split; try (intros Hw Hs; rewrite update_worldOffsetY, Hs, ?Hw;
                                   reflexivity);
    revert H H0 H1; unfold screenYInRange, update, updateUp, updateDown, updateHorizontal;
    fold speed;
    destruct (has keys "a"), (has keys "d"), (has keys "w"), (has keys "s"); simpl;
    intros Hspeed Hmax [Hlo Hhi];
    repeat match goal with
    | |- context [JS.Math_max ?a ?b] =>
        destruct (Math_max_cases a b) as [[? ->]|[? ->]]
    | |- context [JS.Math_min ?a ?b] =>
        destruct (Math_min_cases a b) as [[? ->]|[? ->]]
    end; lra.
Qed.
End SubmarineFacts.

Section SubmarineClaims.
Local Open Scope Q_scope.
Import Submarine SubmarineSpec.

(** C6, at the input where the code departs from it. The first
    animation frame computes [deltaTime] as a page-relative timestamp
    minus the [Date.now()] stored by the constructor, and [start] only
    clamps it from above, so [update] receives a negative frame time.
    With W held, [Math.max(centerY - maxVerticalOffset, screenY - speed * 0.5)]
    then moves the craft down without limit: after that frame
    [screenY] is 153000000268.56 while the band is [190, 350]. The
    returned scroll delta still follows the contract ([+speed], here
    negative). *)
Theorem first_frame_leaves_screenY_band :
  Game.lastFrameTime (Game.new firstFrameEnv (JS.mkWorld 0 0)).1 == 1700000000000 /\
  screenY (Game.submarine afterFirstFrame) == 153000000268.56 /\
  centerY (Game.submarine afterFirstFrame) - maxVerticalOffset (Game.submarine afterFirstFrame)
    == 190 /\
  centerY (Game.submarine afterFirstFrame) + maxVerticalOffset (Game.submarine afterFirstFrame)
    == 350 /\
  ~ screenYInRange (Game.submarine afterFirstFrame).
Proof.
  repeat split; try (vm_compute; reflexivity).
  unfold screenYInRange. intros [_ H]. vm_compute in H. apply H. reflexivity.
Qed.

(** The same departure on [Submarine.update] alone: one call with W
    held and a frame time of -1000 ms takes the craft of a new game
    from 270 to 360, above the band's upper end 350. *)
Lemma update_negative_deltaTime_leaves_band :
  screenYInRange Samples.submarine /\
  screenY (update Samples.submarine {["w"]} (-1000)).1 == 360 /\
  ~ screenYInRange (update Samples.submarine {["w"]} (-1000)).1.
Proof.
  split; [|split].
  - split; vm_compute; discriminate.
  - vm_compute. reflexivity.
  - intros [_ H]. vm_compute in H. apply H. reflexivity.
Qed.
End SubmarineClaims.

(** ** The simulation step: bookkeeping *)
Section GameBookkeeping.
Local Open Scope Q_scope.
Import Game GameSpec.

Lemma gameOverShown_app (l1 l2 : list DomEvent) :
  gameOverShown (l1 ++ l2) = (gameOverShown l1 + gameOverShown l2)%nat.
Proof. unfold gameOverShown. rewrite List.filter_app, length_app. reflexivity. Qed.

Lemma rewardsShown_app (th : Z) (l1 l2 : list DomEvent) :
  rewardsShown th (l1 ++ l2) = (rewardsShown th l1 + rewardsShown th l2)%nat.
Proof. unfold rewardsShown. rewrite List.filter_app, length_app. reflexivity. Qed.

Lemma gameOverShown_hint (l : list DomEvent) (h : Hint) :
  gameOverShown (l ++ [HintShown h]) = gameOverShown l.
Proof. rewrite gameOverShown_app. cbn. apply Nat.add_0_r. Qed.

Lemma plain_counts (delta : list DomEvent) :
  Forall (fun e => isPlain e = true) delta ->
  gameOverShown delta = 0%nat /\ forall th, rewardsShown th delta = 0%nat.
Proof.
  induction 1 as [|e delta He _ [IH1 IH2]]; [split; reflexivity|].
  split; [|intros th]; change (e :: delta) with ([e] ++ delta);
    rewrite ?gameOverShown_app, ?rewardsShown_app, ?IH1, ?IH2;
    destruct e as [[]| |]; simpl in *; try discriminate; reflexivity.
Qed.

Lemma rewardsQuiet_refl (g : Game.t) : rewardsQuiet g g.
Proof. repeat split; reflexivity. Qed.

Lemma rewardsQuiet_trans (g1 g2 g3 : Game.t) :
  rewardsQuiet g1 g2 -> rewardsQuiet g2 g3 -> rewardsQuiet g1 g3.
Proof.
  intros (? & ? & ? & H12) (? & ? & ? & H23).
  split; [congruence|]. split; [congruence|]. split; [congruence|].
  intros th. rewrite H23. apply H12.
Qed.

Lemma gameOverQuiet_refl (g : Game.t) : gameOverQuiet g g.
Proof. repeat split; reflexivity. Qed.

Lemma gameOverQuiet_trans (g1 g2 g3 : Game.t) :
  gameOverQuiet g1 g2 -> gameOverQuiet g2 g3 -> gameOverQuiet g1 g3.
Proof. intros (? & ? & ?) (? & ? & ?). repeat split; congruence. Qed.

Lemma idsFrom_refl (g : Game.t) : idsFrom g g.
Proof. split; [lia | auto]. Qed.

Lemma idsFrom_trans (g1 g2 g3 : Game.t) :
  idsFrom g1 g2 -> idsFrom g2 g3 -> idsFrom g1 g3.
Proof.
  intros [Hn12 H12] [Hn23 H23]. split; [lia|].
  intros i Hi. destruct (H23 i Hi) as [Hin|Hge]; [|right; lia].
  destruct (H12 i Hin) as [?|?]; [left; assumption | right; lia].
Qed.

Lemma steady_refl (g : Game.t) : steady g g.
Proof.
  split; [apply rewardsQuiet_refl|]. split; [apply gameOverQuiet_refl|].
  split; [apply idsFrom_refl|]. split; auto.
Qed.

Lemma steady_trans (g1 g2 g3 : Game.t) :
  steady g1 g2 -> steady g2 g3 -> steady g1 g3.
Proof.
  intros (Hr12 & Hg12 & Hi12 & Hres12 & Hwf12) (Hr23 & Hg23 & Hi23 & Hres23 & Hwf23).
  split; [eapply rewardsQuiet_trans; eassumption|].
  split; [eapply gameOverQuiet_trans; eassumption|].
  split; [eapply idsFrom_trans; eassumption|].
  split; auto.
Qed.

(** The usual way to show that a phase is steady: it leaves the reward
    and game-over fields alone, appends plain events to the page, hands
    out no id, and keeps of the live entities a subsequence. *)
Lemma steady_by_fields (g g' : Game.t) (delta : list DomEvent) :
  claimedRewards g' = claimedRewards g ->
  GameState.depth (gameState g') = GameState.depth (gameState g) ->
  GameState.score (gameState g') = GameState.score (gameState g) ->
  gameOverTriggered g' = gameOverTriggered g ->
  gameOverReason g' = gameOverReason g ->
  page g' = page g ++ delta ->
  Forall (fun e => isPlain e = true) delta ->
  nextMonsterId g' = nextMonsterId g ->
  liveIds g' `sublist_of` liveIds g ->
  (resourcesInRange (gameState g) -> resourcesInRange (gameState g')) ->
  steady g g'.
Proof.
  intros Hc Hd Hs Ht Hr Hp Hplain Hn Hsub Hres.
  destruct (plain_counts delta Hplain) as [Hgo Hrw].
  split; [|split; [|split; [|split]]].
  - repeat split; auto. intros th. rewrite Hp, rewardsShown_app, Hrw. lia.
  - repeat split; auto. rewrite Hp, gameOverShown_app, Hgo. lia.
  - split; [lia|]. intros i Hi. left. eapply elem_of_sublist; eassumption.
  - exact Hres.
  - intros [Hnd Hlt]. split.
    + eapply sublist_NoDup; eassumption.
    + intros i Hi. rewrite Hn. apply Hlt. eapply elem_of_sublist; eassumption.
Qed.

Lemma map_filter_sublist {A B} (f : A -> B) (p : A -> bool) (l : list A) :
  List.map f (List.filter p l) `sublist_of` List.map f l.
Proof.
  induction l as [|a l IH]; simpl; [constructor|].
  destruct (p a); simpl; [apply sublist_skip | apply sublist_cons]; exact IH.
Qed.

Lemma liveIds_sublist (g g' : Game.t) :
  List.map GameObject.id (monsters g') `sublist_of` List.map GameObject.id (monsters g) ->
  List.map GameObject.id (obstacles g') `sublist_of` List.map GameObject.id (obstacles g) ->
  List.map GameObject.id (bubbles g') `sublist_of` List.map GameObject.id (bubbles g) ->
  liveIds g' `sublist_of` liveIds g.
Proof.
  intros Hm Ho Hb. unfold liveIds, liveObjects. rewrite !List.map_app.
  apply sublist_app; [exact Hm|]. apply sublist_app; assumption.
Qed.
End GameBookkeeping.

(** ** The simulation step: the phases one by one *)
Section GamePhases.
Local Open Scope Q_scope.
Import Game GameSpec.
Variable E : JS.Env.

(** Closes the side conditions of [steady_by_fields] for a phase whose
    result is a nest of setters over [g]. *)
Ltac steady_with delta :=
  apply (steady_by_fields _ _ delta);
  [ reflexivity | reflexivity | reflexivity | reflexivity | reflexivity
  | simpl; rewrite ?app_nil_r; reflexivity
  | repeat first [assumption | constructor]
  | reflexivity
  | try reflexivity
  | try (intros H; exact H) ].

Lemma showHint_steady (h : Hint) (g : Game.t) :
  isPlain (HintShown h) = true -> steady g (showHint h g).
Proof. intros Hplain. steady_with [HintShown h]. Qed.

Lemma activateSonar_steady (g : Game.t) : steady g (activateSonar g).
Proof.
  unfold activateSonar.
  destruct (JS.geb (GameState.energy (gameState g)) 20
            && JS.leb (GameState.sonarCooldown (gameState g)) 0
            && negb (GameState.sonarActive (gameState g))) eqn:Hgo.
  - steady_with [HintShown SonarActivated].
    apply andb_prop in Hgo as [Hgo _]. apply andb_prop in Hgo as [Hen _]. js_facts.
    unfold resourcesInRange. simpl. intros (Hh & He & Ho & Hd).
    repeat split; try tauto;
      destruct (advancedSonar (upgrades g));
      match goal with
      | |- context [JS.Math_max ?a ?b] => destruct (Math_max_cases a b) as [[? ->]|[? ->]]
      end; lra.
  - destruct (JS.ltb (GameState.energy (gameState g)) 20).
    + steady_with [HintShown LowEnergy].
    + destruct (JS.gtb (GameState.sonarCooldown (gameState g)) 0).
      * steady_with [HintShown SonarOnCooldown].
      * apply steady_refl.
Qed.

Lemma sonarTimeout_steady (g : Game.t) : steady g (sonarTimeout g).
Proof. steady_with (@nil DomEvent). Qed.

Lemma hintTimeout_steady (g : Game.t) : steady g (hintTimeout g).
Proof. steady_with (@nil DomEvent). Qed.

Lemma closeMenu_steady (g : Game.t) : steady g (closeMenu g).
Proof. steady_with (@nil DomEvent). Qed.

Lemma toggleMenu_steady (menuName : string) (g : Game.t) : steady g (toggleMenu menuName g).
Proof.
  unfold toggleMenu. destruct (bool_decide (menuOpen g = Some menuName)).
  - apply closeMenu_steady.
  - steady_with (@nil DomEvent).
Qed.

Lemma toggleDebugMode_steady (g : Game.t) : steady g (toggleDebugMode g).
Proof.
  unfold toggleDebugMode. simpl.
  destruct (negb (debugMode g)).
  - steady_with [HintShown DebugOn].
  - steady_with [HintShown DebugOff].
Qed.

Lemma handleKeyDown_steady (key : string) (g : Game.t) : steady g (handleKeyDown key g).
Proof.
  unfold handleKeyDown.
  eapply steady_trans; [|destruct (String.eqb key "b");
                          [apply toggleDebugMode_steady | apply steady_refl]].
  eapply steady_trans; [|destruct (String.eqb key "escape");
                          [apply closeMenu_steady | apply steady_refl]].
  eapply steady_trans; [|destruct (String.eqb key "u");
                          [apply toggleMenu_steady | apply steady_refl]].
  eapply steady_trans; [|destruct (String.eqb key "m");
                          [apply toggleMenu_steady | apply steady_refl]].
  eapply steady_trans; [|destruct (String.eqb key " ");
                          [apply activateSonar_steady | apply steady_refl]].
  steady_with (@nil DomEvent).
Qed.

Lemma handleKeyUp_steady (key : string) (g : Game.t) : steady g (handleKeyUp key g).
Proof. steady_with (@nil DomEvent). Qed.

Lemma handleWheel_steady (deltaY : Q) (g : Game.t) : steady g (handleWheel deltaY g).
Proof. steady_with (@nil DomEvent). Qed.

Lemma moveWorld_steady (worldOffsetY : Q) (g : Game.t) : steady g (moveWorld worldOffsetY g).
Proof.
  unfold moveWorld. destruct (JS.neb worldOffsetY 0); [|apply steady_refl].
  steady_with (@nil DomEvent).
  unfold liveIds, liveObjects. simpl. rewrite <- !List.map_app, List.map_map. reflexivity.
Qed.

Lemma cull_steady (g : Game.t) : steady g (cull g).
Proof.
  unfold cull. steady_with (@nil DomEvent).
  apply liveIds_sublist; simpl; apply map_filter_sublist.
Qed.
Lemma updateParticles_steady (g : Game.t) (w : JS.World) :
  steady g (updateParticles E g w).1.
Proof.
  unfold updateParticles, JS.bind.
  destruct (JS.mapM (moveParticle E) (particles g) w) as [ps w']. simpl.
  steady_with (@nil DomEvent).
Qed.

Lemma updateResources_steady (g : Game.t) (w : JS.World) :
  steady g (updateResources E g w).1.
Proof.
  unfold updateResources, JS.bind, JS.now. simpl.
  destruct (resourceUpdateInterval g <=? JS.Date_now E (JS.clockReads w)
                                        - lastResourceUpdate g)%Z;
    [|apply steady_refl].
  assert (resourcesInRange (gameState g) ->
          resourcesInRange
            (GameState.set_sonarCooldown
               (JS.Math_max 0 (GameState.sonarCooldown (gameState g) - 0.016))
               (GameState.set_energy
                  (JS.Math_min 100 (GameState.energy (gameState g) + 0.02))
                  (GameState.set_oxygen
                     (JS.Math_max 0 (GameState.oxygen (gameState g) - 0.05))
                     (gameState g))))) as Hres.
  { unfold resourcesInRange. simpl. intros (Hh & He & Ho & Hd).
    repeat split; try tauto;
      match goal with
      | |- context [JS.Math_max ?a ?b] => destruct (Math_max_cases a b) as [[? ->]|[? ->]]
      | |- context [JS.Math_min ?a ?b] => destruct (Math_min_cases a b) as [[? ->]|[? ->]]
      end; lra. }
  match goal with
  | |- context [if ?c then _ else _] => destruct c
  end; simpl.
  - steady_with [HintShown LowOxygen]. exact Hres.
  - steady_with (@nil DomEvent). exact Hres.
Qed.

Lemma moveMonster_id (sonarActive : bool) (m : GameObject.t) (w : JS.World) :
  GameObject.id (moveMonster E sonarActive m w).1 = GameObject.id m.
Proof.
  unfold moveMonster, JS.bind, JS.now, JS.ret. simpl.
  match goal with
  | |- context [if ?c then _ else _] => destruct c
  end; reflexivity.
Qed.

Lemma mapM_cons {A B} (f : A -> JS.M B) (a : A) (l : list A) (w : JS.World) :
  JS.mapM f (a :: l) w
  = let (b, w1) := f a w in let (bs, w2) := JS.mapM f l w1 in (b :: bs, w2).
Proof.
  simpl. unfold JS.bind. destruct (f a w) as [b w1].
  destruct (JS.mapM f l w1) as [bs w2]. reflexivity.
Qed.

Lemma mapM_moveMonster_ids (sonarActive : bool) (l : list GameObject.t) (w : JS.World) :
  List.map GameObject.id (JS.mapM (moveMonster E sonarActive) l w).1
  = List.map GameObject.id l.
Proof.
  revert w. induction l as [|m l IH]; intros w; [reflexivity|].
  rewrite mapM_cons. pose proof (moveMonster_id sonarActive m w) as Hid.
  destruct (moveMonster E sonarActive m w) as [m' w1].
  specialize (IH w1). destruct (JS.mapM (moveMonster E sonarActive) l w1) as [ms w2].
  simpl in *. rewrite Hid, IH. reflexivity.
Qed.

Lemma updateMonsters_steady (g : Game.t) (w : JS.World) :
  steady g (updateMonsters E g w).1.
Proof.
  unfold updateMonsters, JS.bind.
  pose proof (mapM_moveMonster_ids (GameState.sonarActive (gameState g)) (monsters g) w)
    as Hids.
  destruct (JS.mapM _ (monsters g) w) as [ms w']. simpl in *.
  steady_with (@nil DomEvent).
  unfold liveIds, liveObjects. simpl. rewrite !List.map_app, Hids. reflexivity.
Qed.

(** *** Collision damage *)

Lemma hurt_refl (g : Game.t) : hurt g g.
Proof.
  split; [reflexivity|]. split.
  - exists []. rewrite app_nil_r. split; [reflexivity | constructor].
  - exists (GameState.health (gameState g)). split; [|auto].
    destruct (gameState g). reflexivity.
Qed.

Lemma hurt_trans (g1 g2 g3 : Game.t) : hurt g1 g2 -> hurt g2 g3 -> hurt g1 g3.
Proof.
  intros (Hb12 & (d12 & Hp12 & Hpl12) & (v12 & Hg12 & Hr12))
         (Hb23 & (d23 & Hp23 & Hpl23) & (v23 & Hg23 & Hr23)).
  split; [congruence|]. split.
  - exists (d12 ++ d23). split.
    + rewrite Hp23, Hp12, app_assoc. reflexivity.
    + apply Forall_app. split; assumption.
  - exists v23. split.
    + rewrite Hg23, Hg12. reflexivity.
    + intros Hrange. apply Hr23. rewrite Hg12. simpl. apply Hr12. exact Hrange.
Qed.

Lemma fold_left_rel {A} (R : Game.t -> Game.t -> Prop) (f : Game.t -> A -> Game.t)
    (l : list A) (g : Game.t) :
  (forall g, R g g) -> (forall g1 g2 g3, R g1 g2 -> R g2 g3 -> R g1 g3) ->
  (forall g a, R g (f g a)) ->
  R g (fold_left f l g).
Proof.
  intros Hrefl Htrans Hstep. revert g. induction l as [|a l IH]; intros g; simpl.
  - apply Hrefl.
  - eapply Htrans; [apply Hstep | apply IH].
Qed.

Lemma damage_hurt (h : Hint) (damage : Q) (g : Game.t) :
  isPlain (HintShown h) = true -> 0 <= damage ->
  hurt g (showHint h
            (set_gameState
               (GameState.set_health
                  (JS.Math_max 0 (GameState.health (gameState g) - damage))
                  (gameState g)) g)).
Proof.
  intros Hplain Hdamage. split; [reflexivity|]. split.
  - exists [HintShown h]. split; [reflexivity | repeat constructor; assumption].
  - eexists. split; [reflexivity|]. intros [Hlo Hhi].
    destruct (Math_max_cases 0 (GameState.health (gameState g) - damage))
      as [[? ->]|[? ->]]; lra.
Qed.

Lemma hitByMonster_hurt (g : Game.t) (monster : GameObject.t) :
  hurt g (hitByMonster g monster).
Proof.
  unfold hitByMonster. apply damage_hurt; [reflexivity|].
  destruct (reinforcedHull (upgrades g)); lra.
Qed.

Lemma hitByObstacle_hurt (g : Game.t) (obstacle : GameObject.t) :
  hurt g (hitByObstacle g obstacle).
Proof.
  unfold hitByObstacle. apply damage_hurt; [reflexivity|].
  destruct (reinforcedHull (upgrades g)); lra.
Qed.

(** After the damage, dropping entities from the three lists gives a
    steady phase. *)
Lemma hurt_then_drop_steady (g g2 g' : Game.t) :
  hurt g g2 ->
  bystanders g' = (monsters g', obstacles g', bubbles g', nextMonsterId g2, upgrades g2,
                   claimedRewards g2, gameOverTriggered g2, gameOverReason g2) ->
  gameState g' = gameState g2 -> page g' = page g2 ->
  List.map GameObject.id (monsters g') `sublist_of` List.map GameObject.id (monsters g2) ->
  List.map GameObject.id (obstacles g') `sublist_of` List.map GameObject.id (obstacles g2) ->
  List.map GameObject.id (bubbles g') `sublist_of` List.map GameObject.id (bubbles g2) ->
  steady g g'.
Proof.
  intros (Hb & (delta & Hp & Hplain) & (v & Hg & Hr)) Hb' Hg' Hp' Hm Ho Hbu.
  unfold bystanders in *. inversion Hb as [[Hbm Hbo Hbb Hbn Hbup Hbc Hbt Hbr]].
  inversion Hb' as [[Hn' Hu' Hc' Ht' Hr']].
  apply (steady_by_fields _ _ delta); try congruence.
  - rewrite Hg', Hg. reflexivity.
  - rewrite Hg', Hg. reflexivity.
  - apply liveIds_sublist; congruence.
  - rewrite Hg', Hg. unfold resourcesInRange. simpl. intros (Hh & He & Ho' & Hd).
    repeat split; try tauto; apply Hr; tauto.
Qed.
Lemma collideMonsters_steady (cameraOffset : Q) (g : Game.t) (w : JS.World) :
  steady g (collideMonsters E cameraOffset g w).1.
Proof.
  unfold collideMonsters, JS.bind.
  destruct (CollisionDetector.checkMonsterCollisions E (collisionDetector g) (submarine g)
              (monsters g) (GameState.depth (gameState g)) cameraOffset w)
    as [[cols cd'] w']. simpl.
  apply (hurt_then_drop_steady g (fold_left hitByMonster cols (set_collisionDetector cd' g)));
    try reflexivity.
  - apply (hurt_trans g (set_collisionDetector cd' g)).
    + destruct (hurt_refl g) as (Hb & Hp & Hg). split; [|split]; assumption.
    + apply (fold_left_rel hurt hitByMonster cols _ hurt_refl hurt_trans hitByMonster_hurt).
  - apply map_filter_sublist.
Qed.

Lemma collideObstacles_steady (cameraOffset : Q) (g : Game.t) (w : JS.World) :
  steady g (collideObstacles E cameraOffset g w).1.
Proof.
  unfold collideObstacles, JS.bind.
  destruct (CollisionDetector.checkObstacleCollisions E (collisionDetector g) (submarine g)
              (obstacles g) (GameState.depth (gameState g)) cameraOffset w)
    as [[cols cd'] w']. simpl.
  apply (hurt_then_drop_steady g (fold_left hitByObstacle cols (set_collisionDetector cd' g)));
    try reflexivity.
  - apply (hurt_trans g (set_collisionDetector cd' g)).
    + destruct (hurt_refl g) as (Hb & Hp & Hg). split; [|split]; assumption.
    + apply (fold_left_rel hurt hitByObstacle cols _ hurt_refl hurt_trans hitByObstacle_hurt).
  - apply map_filter_sublist.
Qed.

Lemma collideBubbles_steady (cameraOffset : Q) (g : Game.t) (w : JS.World) :
  steady g (collideBubbles cameraOffset g w).1.
Proof.
  unfold collideBubbles, JS.bind.
  destruct (CollisionDetector.checkBubbleCollisions (collisionDetector g) (submarine g)
              (bubbles g) (GameState.depth (gameState g)) cameraOffset w)
    as [[cols cd'] w']. simpl.
  destruct (0 <? Z.of_nat (length cols))%Z; simpl.
  - steady_with [HintShown (OxygenGained (15 * inject_Z (Z.of_nat (length cols))))].
    + apply liveIds_sublist; simpl; try reflexivity. apply map_filter_sublist.
    + unfold resourcesInRange. simpl. intros (Hh & He & Ho & Hd).
      assert (0 <= inject_Z (Z.of_nat (length cols))) as Hn.
      { change 0 with (inject_Z 0). rewrite <- Zle_Qle. lia. }
      repeat split; try tauto;
        match goal with
        | |- context [JS.Math_min ?a ?b] => destruct (Math_min_cases a b) as [[? ->]|[? ->]]
        end; lra.
  - steady_with (@nil DomEvent).
    apply liveIds_sublist; simpl; try reflexivity. apply map_filter_sublist.
Qed.

Lemma collide_steady (g : Game.t) (w : JS.World) : steady g (collide E g w).1.
Proof.
  unfold collide, JS.bind.
  pose proof (collideMonsters_steady (InputHandler.getCameraOffset (inputHandler g)) g w)
    as H1.
  destruct (collideMonsters E _ g w) as [g1 w1].
  pose proof (collideObstacles_steady (InputHandler.getCameraOffset (inputHandler g)) g1 w1)
    as H2.
  destruct (collideObstacles E _ g1 w1) as [g2 w2].
  pose proof (collideBubbles_steady (InputHandler.getCameraOffset (inputHandler g)) g2 w2)
    as H3.
  eapply steady_trans; [exact H1|]. eapply steady_trans; [exact H2 | exact H3].
Qed.

(** *** Spawning *)

Lemma fresh_id_first (n : Z) (A B C : list Z) :
  (A ++ [n]) ++ B ++ C ≡ₚ n :: A ++ B ++ C.
Proof. rewrite <- app_assoc. simpl. symmetry. apply Permutation_middle. Qed.

Lemma fresh_id_second (n : Z) (A B C : list Z) :
  A ++ (B ++ [n]) ++ C ≡ₚ n :: A ++ B ++ C.
Proof.
  replace (A ++ (B ++ [n]) ++ C) with ((A ++ B) ++ n :: C)
    by (rewrite <- !app_assoc; reflexivity).
  replace (n :: A ++ B ++ C) with (n :: (A ++ B) ++ C)
    by (rewrite <- !app_assoc; reflexivity).
  symmetry. apply Permutation_middle.
Qed.

Lemma fresh_id_third (n : Z) (A B C : list Z) :
  A ++ B ++ (C ++ [n]) ≡ₚ n :: A ++ B ++ C.
Proof.
  replace (A ++ B ++ C ++ [n]) with ((A ++ B ++ C) ++ [n])
    by (rewrite <- !app_assoc; reflexivity).
  symmetry. apply Permutation_cons_append.
Qed.

(** A phase that hands out exactly the next id to one new entity. *)
Lemma handout_steady (g g' : Game.t) :
  claimedRewards g' = claimedRewards g ->
  gameState g' = gameState g ->
  gameOverTriggered g' = gameOverTriggered g ->
  gameOverReason g' = gameOverReason g ->
  page g' = page g ->
  nextMonsterId g' = (nextMonsterId g + 1)%Z ->
  liveIds g' ≡ₚ nextMonsterId g :: liveIds g ->
  steady g g'.
Proof.
  intros Hc Hg Ht Hr Hp Hn Hperm.
  split; [|split; [|split; [|split]]].
  - split; [congruence|]. split; [congruence|]. split; [congruence|].
    intros th. rewrite Hp. reflexivity.
  - repeat split; congruence.
  - split; [lia|]. intros i Hi. rewrite Hperm in Hi.
    apply elem_of_cons in Hi as [->|Hi]; [right; lia | left; exact Hi].
  - rewrite Hg. auto.
  - intros [Hnd Hlt]. split.
    + rewrite Hperm. apply NoDup_cons. split; [|exact Hnd].
      intros Hin. apply Hlt in Hin. lia.
    + intros i Hi. rewrite Hperm in Hi. rewrite Hn.
      apply elem_of_cons in Hi as [->|Hi]; [lia|]. apply Hlt in Hi. lia.
Qed.

Lemma spawnMonster_steady (currentDepth : Q) (g : Game.t) (w : JS.World) :
  steady g (spawnMonster E currentDepth g w).1.
Proof.
  unfold spawnMonster, JS.bind, JS.random, JS.ret, GameObject.new, JS.now. simpl.
  apply handout_steady; try reflexivity.
  unfold liveIds, liveObjects. simpl. rewrite !List.map_app. simpl.
  apply fresh_id_first.
Qed.

Lemma times_rel {S} (R : S -> S -> Prop) (body : S -> JS.M S) (n : nat) (s : S)
    (w : JS.World) :
  (forall s, R s s) -> (forall s1 s2 s3, R s1 s2 -> R s2 s3 -> R s1 s3) ->
  (forall s w, R s (body s w).1) ->
  R s (JS.times n body s w).1.
Proof.
  intros Hrefl Htrans Hstep. revert s w. induction n as [|n IH]; intros s w; simpl.
  - apply Hrefl.
  - unfold JS.bind. specialize (Hstep s w). destruct (body s w) as [s1 w1].
    eapply Htrans; [exact Hstep | apply IH].
Qed.

Lemma spawnMonsters_steady (g : Game.t) (w : JS.World) :
  steady g (spawnMonsters E g w).1.
Proof.
  unfold spawnMonsters, JS.bind, JS.random. simpl.
  match goal with
  | |- context [if ?c then _ else _] => destruct c
  end; [|apply steady_refl].
  match goal with
  | |- steady _ (JS.times ?n ?body ?g1 ?w1).1 =>
      apply (steady_trans g g1);
      [ steady_with (@nil DomEvent)
      | apply (times_rel steady body n g1 w1 steady_refl steady_trans);
        intros; apply spawnMonster_steady ]
  end.
Qed.

Lemma spawnObstacle_steady (currentDepth : Q) (g : Game.t) (w : JS.World) :
  steady g (spawnObstacle E currentDepth g w).1.
Proof.
  unfold spawnObstacle, JS.bind, JS.random, JS.ret, GameObject.new, JS.now. simpl.
  destruct (Z.of_nat (length (obstacles g)) <? 4)%Z; [|apply steady_refl]. simpl.
  match goal with
  | |- context [if ?c then _ else _] => destruct c
  end; [|apply steady_refl]. simpl.
  apply handout_steady; try reflexivity.
  unfold liveIds, liveObjects. simpl. rewrite !List.map_app. simpl.
  apply fresh_id_second.
Qed.

Lemma spawnBubble_steady (currentDepth : Q) (g : Game.t) (w : JS.World) :
  steady g (spawnBubble E currentDepth g w).1.
Proof.
  unfold spawnBubble, JS.bind, JS.random, JS.ret, GameObject.new, JS.now. simpl.
  destruct (Z.of_nat (length (bubbles g)) <? 5)%Z; [|apply steady_refl]. simpl.
  match goal with
  | |- context [if ?c then _ else _] => destruct c
  end; [|apply steady_refl]. simpl.
  apply handout_steady; try reflexivity.
  unfold liveIds, liveObjects. simpl. rewrite !List.map_app. simpl.
  apply fresh_id_third.
Qed.

Lemma spawn_steady (g : Game.t) (w : JS.World) : steady g (spawn E g w).1.
Proof.
  unfold spawn, spawnProceduralElements, JS.bind.
  pose proof (spawnMonsters_steady g w) as H1.
  destruct (spawnMonsters E g w) as [g1 w1].
  pose proof (spawnObstacle_steady (GameState.depth (gameState g1)) g1 w1) as H2.
  destruct (spawnObstacle E _ g1 w1) as [g2 w2].
  pose proof (spawnBubble_steady (GameState.depth (gameState g1)) g2 w2) as H3.
  eapply steady_trans; [exact H1|]. eapply steady_trans; [exact H2 | exact H3].
Qed.
End GamePhases.

(** ** The simulation step: depth rewards *)
Section GameRewards.
Local Open Scope Q_scope.
Import Game GameSpec.

Lemma same_ids (g g' : Game.t) :
  nextMonsterId g' = nextMonsterId g -> liveIds g' = liveIds g ->
  idsFrom g g' /\ (idsWellFormed g -> idsWellFormed g').
Proof.
  intros Hn Hl. unfold idsFrom, idsWellFormed. rewrite Hn, Hl.
  split; [split; [lia | auto] | auto].
Qed.

Lemma steady_butRewards (g g' : Game.t) : steady g g' -> steadyButRewards g g'.
Proof.
  intros (_ & ? & ? & ? & ?).
  split; [assumption|]. split; [assumption|]. split; assumption.
Qed.

Lemma steady_butGameOver (g g' : Game.t) : steady g g' -> steadyButGameOver g g'.
Proof.
  intros (? & _ & ? & ? & ?).
  split; [assumption|]. split; [assumption|]. split; assumption.
Qed.

Lemma steadyButRewards_trans (g1 g2 g3 : Game.t) :
  steadyButRewards g1 g2 -> steadyButRewards g2 g3 -> steadyButRewards g1 g3.
Proof.
  intros (Hg12 & Hi12 & Hres12 & Hwf12) (Hg23 & Hi23 & Hres23 & Hwf23).
  split; [eapply gameOverQuiet_trans; eassumption|].
  split; [eapply idsFrom_trans; eassumption|]. split; auto.
Qed.


Lemma unlock_step_steady (c : bool) (h : Hint) (u : Upgrades) (g : Game.t) :
  isPlain (HintShown h) = true ->
  steady g (if c then showHint h (set_upgrades u g) else g).
Proof.
  intros Hplain. destruct c; [|apply steady_refl].
  apply (steady_by_fields _ _ [HintShown h]);
    first [reflexivity | repeat constructor; assumption | intros H; exact H].
Qed.

Lemma unlockUpgrades_steady (d : Q) (g : Game.t) : steady g (unlockUpgrades d g).
Proof.
  unfold unlockUpgrades. cbv zeta.
  repeat (eapply steady_trans; [|apply unlock_step_steady; reflexivity]).
  apply steady_refl.
Qed.

(** One execution of the callback of [rewards.forEach]. *)
Lemma claimReward_due (d : Q) (g : Game.t) (r : Reward) :
  due d (claimedRewards g) (depth r) = true ->
  claimedRewards (claimReward d g r) = {[depth r]} ∪ claimedRewards g /\
  gameState (claimReward d g r)
  = GameState.set_score (GameState.score (gameState g) + points r)
      (GameState.set_oxygen
         (JS.Math_min 100 (GameState.oxygen (gameState g) + oxygen r)) (gameState g)) /\
  page (claimReward d g r) = page g ++ [HintShown (RewardReached (depth r))].
Proof.
  unfold due, claimReward. intros ->. repeat split; reflexivity.
Qed.

Lemma claimReward_not_due (d : Q) (g : Game.t) (r : Reward) :
  due d (claimedRewards g) (depth r) = false -> claimReward d g r = g.
Proof. unfold due, claimReward. intros ->. reflexivity. Qed.

Lemma claimReward_steadyButRewards (d : Q) (g : Game.t) (r : Reward) :
  0 <= oxygen r -> steadyButRewards g (claimReward d g r).
Proof.
  intros Hbonus. destruct (due d (claimedRewards g) (depth r)) eqn:Hdue.
  - unfold due in Hdue. unfold claimReward. rewrite Hdue.
    match goal with
    | |- steadyButRewards g ?g' =>
        destruct (same_ids g g' eq_refl eq_refl) as [Hids Hwf]
    end.
    split; [|split; [exact Hids|split; [|exact Hwf]]].
    + repeat split; try reflexivity. simpl. apply gameOverShown_hint.
    + unfold resourcesInRange. simpl. intros (Hh & He & Ho & Hd).
      repeat split; try tauto;
        match goal with
        | |- context [JS.Math_min ?a ?b] => destruct (Math_min_cases a b) as [[? ->]|[? ->]]
        end; lra.
  - rewrite claimReward_not_due by exact Hdue. apply steady_butRewards, steady_refl.
Qed.

Lemma rewards_bonus (r : Reward) : r ∈ rewards -> 0 <= oxygen r.
Proof.
  unfold rewards. intros H.
  repeat (apply elem_of_cons in H as [->|H]; [simpl; lra|]).
  apply elem_of_nil in H. destruct H.
Qed.

Lemma fold_claimReward_steadyButRewards (d : Q) (rs : list Reward) (g : Game.t) :
  (forall r, r ∈ rs -> r ∈ rewards) ->
  steadyButRewards g (fold_left (claimReward d) rs g).
Proof.
  revert g. induction rs as [|r rs IH]; intros g Hrs; simpl.
  - apply steady_butRewards, steady_refl.
  - eapply steadyButRewards_trans.
    + apply claimReward_steadyButRewards, rewards_bonus, Hrs. left.
    + apply IH. intros r' Hr'. apply Hrs. right. exact Hr'.
Qed.

Lemma checkDepthRewards_steadyButRewards (g : Game.t) :
  steadyButRewards g (checkDepthRewards g).
Proof.
  unfold checkDepthRewards.
  apply (steadyButRewards_trans g
           (fold_left (claimReward (GameState.depth (gameState g))) rewards g)).
  - apply fold_claimReward_steadyButRewards. intros r Hr. exact Hr.
  - apply steady_butRewards, unlockUpgrades_steady.
Qed.

Lemma descend_steadyButRewards (keys : gset string) (g : Game.t) :
  steadyButRewards g (descend keys g).
Proof.
  unfold descend. destruct (Submarine.has keys "s");
    [|apply steady_butRewards, steady_refl].
  eapply steadyButRewards_trans; [|apply checkDepthRewards_steadyButRewards].
  match goal with
  | |- steadyButRewards g ?g' =>
      destruct (same_ids g g' eq_refl eq_refl) as [Hids Hwf]
  end.
  split; [|split; [exact Hids|split; [|exact Hwf]]].
  - repeat split; reflexivity.
  - unfold resourcesInRange. simpl. intros (Hh & He & Ho & Hd).
    repeat split; try tauto;
      match goal with
      | |- context [JS.Math_min ?a ?b] => destruct (Math_min_cases a b) as [[? ->]|[? ->]]
      end; lra.
Qed.
(** *** The books of the rewards *)

Lemma rewardsShown_reward (th th' : Z) (l : list DomEvent) :
  rewardsShown th (l ++ [HintShown (RewardReached th')])
  = (rewardsShown th l + (if (th' =? th)%Z then 1 else 0))%nat.
Proof.
  rewrite rewardsShown_app. unfold rewardsShown at 2. cbn.
  destruct (th' =? th)%Z; reflexivity.
Qed.

Lemma earned_insert (rs : list Reward) (th : Z) (c : gset Z) :
  th ∉ c ->
  fold_right (fun r acc => (if bool_decide (depth r ∈ {[th]} ∪ c) then points r else 0) + acc)
             0 rs
  == fold_right (fun r acc => (if bool_decide (depth r ∈ c) then points r else 0) + acc)
                0 rs
     + fold_right (fun r acc => (if bool_decide (depth r = th) then points r else 0) + acc)
                  0 rs.
Proof.
  intros Hth. induction rs as [|r rs IH]; simpl; [lra|].
  destruct (decide (depth r = th)) as [Heq|Hne].
  - rewrite (bool_decide_eq_true_2 (depth r ∈ {[th]} ∪ c))
      by (apply elem_of_union; left; apply elem_of_singleton; exact Heq).
    rewrite (bool_decide_eq_false_2 (depth r ∈ c)) by (rewrite Heq; exact Hth).
    rewrite (bool_decide_eq_true_2 (depth r = th)) by exact Heq. lra.
  - rewrite (bool_decide_eq_false_2 (depth r = th)) by exact Hne.
    assert (bool_decide (depth r ∈ {[th]} ∪ c) = bool_decide (depth r ∈ c)) as ->.
    { apply bool_decide_ext. rewrite elem_of_union, elem_of_singleton. tauto. }
    destruct (bool_decide (depth r ∈ c)); lra.
Qed.

Lemma rewards_points (r : Reward) : r ∈ rewards -> points r == pointsAt (depth r).
Proof.
  unfold rewards. intros H.
  repeat (apply elem_of_cons in H as [->|H]; [vm_compute; reflexivity|]).
  apply elem_of_nil in H. destruct H.
Qed.

Lemma thresholds_small (th : Z) : th ∈ thresholds -> inject_Z th <= 11000.
Proof.
  unfold thresholds, rewards. simpl. intros H.
  repeat (apply elem_of_cons in H as [->|H]; [vm_compute; discriminate|]).
  apply elem_of_nil in H. destruct H.
Qed.

Lemma claimReward_books (d : Q) (g : Game.t) (r : Reward) :
  points r == pointsAt (depth r) ->
  GameState.depth (gameState (claimReward d g r)) = GameState.depth (gameState g) /\
  (forall th, th ∈ claimedRewards (claimReward d g r)
              <-> th ∈ claimedRewards g \/ (th = depth r /\ inject_Z th <= d)) /\
  (forall th, rewardsShown th (page (claimReward d g r))
              = (rewardsShown th (page g)
                 + (if (depth r =? th)%Z && due d (claimedRewards g) th then 1 else 0))%nat) /\
  GameState.score (gameState (claimReward d g r)) - earned (claimedRewards (claimReward d g r))
  == GameState.score (gameState g) - earned (claimedRewards g).
Proof.
  intros Hpoints. destruct (due d (claimedRewards g) (depth r)) eqn:Hdue.
  - destruct (claimReward_due d g r Hdue) as (Hc & Hg & Hp).
    unfold due in Hdue. apply andb_prop in Hdue as [Hge Hnew]. js_facts.
    apply negb_true_iff, bool_decide_eq_false in Hnew.
    rewrite Hc, Hg, Hp. simpl. split; [reflexivity|]. split; [|split].
    + intros th. rewrite elem_of_union, elem_of_singleton. split.
      * intros [->|?]; [right; split; [reflexivity | exact Hge] | left; assumption].
      * intros [?|[-> _]]; [right; assumption | left; reflexivity].
    + intros th. rewrite rewardsShown_reward.
      destruct (Z.eqb_spec (depth r) th) as [<-|Hne]; simpl; [|reflexivity].
      unfold due. apply geb_true in Hge. rewrite Hge.
      rewrite bool_decide_eq_false_2 by exact Hnew. reflexivity.
    + unfold earned. rewrite (earned_insert rewards (depth r) (claimedRewards g) Hnew).
      fold (earned (claimedRewards g)). fold (pointsAt (depth r)). lra.
  - rewrite (claimReward_not_due d g r Hdue). split; [reflexivity|]. split; [|split].
    + intros th. split; [auto|]. intros [?|[-> Hle]]; [assumption|].
      unfold due in Hdue. apply geb_true in Hle. rewrite Hle in Hdue. simpl in Hdue.
      apply negb_false_iff, bool_decide_eq_true in Hdue. exact Hdue.
    + intros th. destruct (Z.eqb_spec (depth r) th) as [<-|Hne]; simpl.
      * rewrite Hdue. lia.
      * lia.
    + reflexivity.
Qed.

Lemma fold_claimReward_books (d : Q) (rs : list Reward) (g : Game.t) :
  NoDup (List.map depth rs) ->
  (forall r, r ∈ rs -> points r == pointsAt (depth r)) ->
  GameState.depth (gameState (fold_left (claimReward d) rs g))
  = GameState.depth (gameState g) /\
  (forall th, th ∈ claimedRewards (fold_left (claimReward d) rs g)
              <-> th ∈ claimedRewards g
                  \/ (th ∈ List.map depth rs /\ inject_Z th <= d)) /\
  (forall th, rewardsShown th (page (fold_left (claimReward d) rs g))
              = (rewardsShown th (page g)
                 + (if bool_decide (th ∈ List.map depth rs) && due d (claimedRewards g) th
                    then 1 else 0))%nat) /\
  GameState.score (gameState (fold_left (claimReward d) rs g))
  - earned (claimedRewards (fold_left (claimReward d) rs g))
  == GameState.score (gameState g) - earned (claimedRewards g).
Proof.
  revert g. induction rs as [|r rs IH]; intros g Hnd Hpts; simpl.
  - split; [reflexivity|]. split; [|split].
    + intros th. split; [auto|]. intros [?|[Hin _]]; [assumption|].
      apply elem_of_nil in Hin. destruct Hin.
    + intros th. simpl. lia.
    + reflexivity.
  - simpl in Hnd. apply NoDup_cons in Hnd as [Hfresh Hnd].
    destruct (claimReward_books d g r) as (Hd1 & Hc1 & Hs1 & He1).
    { apply Hpts. left. }
    destruct (IH (claimReward d g r) Hnd) as (Hd2 & Hc2 & Hs2 & He2).
    { intros r' Hr'. apply Hpts. right. exact Hr'. }
    split; [congruence|]. split; [|split].
    + intros th. rewrite Hc2, Hc1, elem_of_cons. tauto.
    + intros th. rewrite Hs2, Hs1.
      destruct (Z.eqb_spec (depth r) th) as [<-|Hne]; simpl.
      * rewrite (bool_decide_eq_false_2 _ Hfresh). simpl.
        rewrite bool_decide_eq_true_2 by left. simpl. lia.
      * assert (due d (claimedRewards (claimReward d g r)) th
                = due d (claimedRewards g) th) as ->.
        { unfold due. f_equal. f_equal. apply bool_decide_ext. rewrite Hc1.
          split; [intros [?|[? _]]; [assumption | congruence] | auto]. }
        assert (bool_decide (th ∈ depth r :: List.map depth rs)
                = bool_decide (th ∈ List.map depth rs)) as ->.
        { apply bool_decide_ext. rewrite elem_of_cons.
          split; [intros [?|?]; [congruence | assumption] | auto]. }
        lia.
    + rewrite He2. exact He1.
Qed.

Lemma rewards_NoDup : NoDup thresholds.
Proof.
  unfold thresholds, rewards. simpl.
  repeat (apply NoDup_cons; split;
          [intros H; repeat (apply elem_of_cons in H as [H|H]; [discriminate|]);
           apply elem_of_nil in H; exact H|]).
  apply NoDup_nil. exact I.
Qed.

(** [checkDepthRewards] at any depth, also one that crossed several
    thresholds at once: every reached threshold is claimed afterwards,
    and each reward is announced by this call exactly when it was due. *)
Lemma checkDepthRewards_books (g : Game.t) :
  GameState.depth (gameState (checkDepthRewards g)) = GameState.depth (gameState g) /\
  (forall th, th ∈ claimedRewards (checkDepthRewards g)
              <-> th ∈ claimedRewards g
                  \/ (th ∈ thresholds /\ inject_Z th <= GameState.depth (gameState g))) /\
  (forall th, rewardsShown th (page (checkDepthRewards g))
              = (rewardsShown th (page g)
                 + (if bool_decide (th ∈ thresholds)
                       && due (GameState.depth (gameState g)) (claimedRewards g) th
                    then 1 else 0))%nat) /\
  GameState.score (gameState (checkDepthRewards g)) - earned (claimedRewards (checkDepthRewards g))
  == GameState.score (gameState g) - earned (claimedRewards g).
Proof.
  unfold checkDepthRewards.
  destruct (fold_claimReward_books (GameState.depth (gameState g)) rewards g rewards_NoDup)
    as (Hd & Hc & Hs & He).
  { intros r Hr. apply rewards_points, Hr. }
  destruct (unlockUpgrades_steady (GameState.depth (gameState g))
              (fold_left (claimReward (GameState.depth (gameState g))) rewards g))
    as ((Hqc & Hqd & Hqs & Hqp) & _).
  cbv zeta. rewrite Hqc, Hqd, Hqs. split; [exact Hd|]. split; [|split].
  - exact Hc.
  - intros th. rewrite Hqp. apply Hs.
  - exact He.
Qed.

Lemma rewardsOneShot_quiet (base : list DomEvent) (g g' : Game.t) :
  rewardsQuiet g g' -> rewardsOneShot base g -> rewardsOneShot base g'.
Proof.
  intros (Hc & Hd & Hs & Hp) [Hth Hscore]. unfold rewardsOneShot.
  rewrite Hc, Hd, Hs. split; [|exact Hscore].
  intros th Hin. rewrite Hp. apply Hth, Hin.
Qed.

Lemma descend_rewardsOneShot (base : list DomEvent) (keys : gset string) (g : Game.t) :
  rewardsOneShot base g -> rewardsOneShot base (descend keys g).
Proof.
  intros [Hth Hscore]. unfold descend. destruct (Submarine.has keys "s"); [|split; assumption].
  match goal with
  | |- rewardsOneShot base (checkDepthRewards ?g1) =>
      destruct (checkDepthRewards_books g1) as (Hd & Hc & Hs & He)
  end.
  simpl in Hd, Hc, Hs, He. split; [|lra].
  intros th Hin. destruct (Hth th Hin) as [Hclaimed Hshown].
  pose proof (thresholds_small th Hin) as Hsmall.
  assert (th ∈ claimedRewards g \/
          (th ∈ thresholds /\
           inject_Z th <= JS.Math_min 11000 (GameState.depth (gameState g) + 5))
          <-> inject_Z th <= JS.Math_min 11000 (GameState.depth (gameState g) + 5))
    as Hreached.
  { rewrite Hclaimed. split.
    - intros [Hle|[_ Hle]]; [|exact Hle].
      destruct (Math_min_cases 11000 (GameState.depth (gameState g) + 5))
        as [[? ->]|[? ->]]; lra.
    - intros Hle. right. split; assumption. }
  split.
  - rewrite Hd. etransitivity; [apply Hc | exact Hreached].
  - rewrite Hs, Hshown. rewrite (bool_decide_eq_true_2 (th ∈ thresholds)) by exact Hin.
    simpl. unfold due.
    destruct (bool_decide (th ∈ claimedRewards g)) eqn:Hb.
    + rewrite andb_false_r. apply bool_decide_eq_true in Hb.
      rewrite bool_decide_eq_true_2; [lia|]. apply Hc. left. exact Hb.
    + rewrite andb_true_r. apply bool_decide_eq_false in Hb.
      destruct (JS.geb _ (inject_Z th)) eqn:Hge; js_facts.
      * rewrite bool_decide_eq_true_2; [lia|]. apply Hc, Hreached. exact Hge.
      * rewrite bool_decide_eq_false_2; [lia|]. intros Hin'.
        apply Hc, Hreached in Hin'. lra.
Qed.
End GameRewards.

(** ** The simulation step: one update, one event, a run *)
Section GameSteps.
Local Open Scope Q_scope.
Import Game GameSpec.
Variable E : JS.Env.

Lemma checkGameOver_cases (g : Game.t) :
  (11000 <= GameState.depth (gameState g) /\
   checkGameOver g = endGame Victory (GameState.score (gameState g) + 10000) g) \/
  (GameState.depth (gameState g) < 11000 /\ GameState.oxygen (gameState g) <= 0 /\
   checkGameOver g = endGame OxygenDepleted (GameState.score (gameState g)) g) \/
  (GameState.depth (gameState g) < 11000 /\ 0 < GameState.oxygen (gameState g) /\
   GameState.health (gameState g) <= 0 /\
   checkGameOver g = endGame SubmarineDestroyed (GameState.score (gameState g)) g) \/
  (GameState.depth (gameState g) < 11000 /\ 0 < GameState.oxygen (gameState g) /\
   0 < GameState.health (gameState g) /\ checkGameOver g = g).
Proof.
  unfold checkGameOver.
  destruct (JS.geb (GameState.depth (gameState g)) 11000) eqn:Hd; js_facts;
    [left; split; [assumption | reflexivity]|].
  destruct (JS.leb (GameState.oxygen (gameState g)) 0) eqn:Ho; js_facts;
    [right; left; repeat split; assumption|].
  destruct (JS.leb (GameState.health (gameState g)) 0) eqn:Hh; js_facts.
  - right; right; left; repeat split; assumption.
  - right; right; right; repeat split; assumption.
Qed.

Lemma endGame_steadyButGameOver (reason : Reason) (finalScore : Q) (g : Game.t) :
  steadyButGameOver g (endGame reason finalScore g).
Proof.
  destruct (same_ids g (endGame reason finalScore g) eq_refl eq_refl) as [Hids Hwf].
  split; [|split; [exact Hids | split; [intros H; exact H | exact Hwf]]].
  split; [reflexivity|]. split; [reflexivity|]. split; [reflexivity|].
  intros th. simpl. rewrite rewardsShown_app. cbn. lia.
Qed.

Lemma checkGameOver_steadyButGameOver (g : Game.t) :
  steadyButGameOver g (checkGameOver g).
Proof.
  destruct (checkGameOver_cases g) as [[_ ->]|[(_ & _ & ->)|[(_ & _ & _ & ->)|(_ & _ & _ & ->)]]];
    try apply endGame_steadyButGameOver.
  apply steady_butGameOver, steady_refl.
Qed.

Lemma gameOverOnce_refl (g : Game.t) : gameOverOnce g g.
Proof. split; [auto|]. destruct (gameOverTriggered g); simpl; lia. Qed.

Lemma gameOverOnce_trans (g1 g2 g3 : Game.t) :
  gameOverOnce g1 g2 -> gameOverOnce g2 g3 -> gameOverOnce g1 g3.
Proof.
  intros [Hk12 Hc12] [Hk23 Hc23]. split; [auto|]. rewrite Hc23, Hc12.
  destruct (gameOverTriggered g1), (gameOverTriggered g2), (gameOverTriggered g3);
    simpl in *; try lia;
    try (specialize (Hk12 eq_refl); discriminate);
    try (specialize (Hk23 eq_refl); discriminate).
Qed.

Lemma gameOverQuiet_once (g g' : Game.t) : gameOverQuiet g g' -> gameOverOnce g g'.
Proof.
  intros (Ht & _ & Hc). split; [congruence|]. rewrite Hc, Ht.
  destruct (gameOverTriggered g); simpl; lia.
Qed.

Lemma checkGameOver_once (g : Game.t) :
  gameOverTriggered g = false -> gameOverOnce g (checkGameOver g).
Proof.
  intros Hrun. split; [congruence|]. rewrite Hrun.
  destruct (checkGameOver_cases g) as [[_ ->]|[(_ & _ & ->)|[(_ & _ & _ & ->)|(_ & _ & _ & ->)]]];
    simpl; rewrite ?gameOverShown_app, ?Hrun; cbn; lia.
Qed.

(** *** One call of [update] *)

Lemma update_stopped (deltaTime : Q) (g : Game.t) (w : JS.World) :
  gameOverTriggered g = true \/ truthy (menuOpen g) = true ->
  update E deltaTime g w = (g, w).
Proof.
  intros H. unfold update.
  destruct H as [-> | ->]; [|rewrite orb_true_r]; reflexivity.
Qed.

Lemma update_running (deltaTime : Q) (g : Game.t) (w : JS.World) :
  running g ->
  update E deltaTime g w
  = let (g0, w0) := simulate E deltaTime g w in
    let (g2, w2) := collide E (cull g0) w0 in
    let (g3, w3) := spawn E g2 w2 in
    (checkGameOver g3, w3).
Proof.
  intros [Hover Hmenu]. unfold update. rewrite Hover, Hmenu. simpl. unfold JS.bind.
  destruct (simulate E deltaTime g w) as [g0 w0].
  destruct (collide E (cull g0) w0) as [g2 w2].
  destruct (spawn E g2 w2) as [g3 w3]. reflexivity.
Qed.

(** [simulate] is a steady prefix, the depth phase, and a steady
    suffix. *)
Lemma simulate_phases (deltaTime : Q) (g : Game.t) (w : JS.World) :
  exists gA,
    steady g gA /\
    steady (descend (InputHandler.keys (inputHandler g)) gA) (simulate E deltaTime g w).1.
Proof.
  unfold simulate. simpl.
  destruct (Submarine.update (submarine g) (InputHandler.keys (inputHandler g)) deltaTime)
    as [submarine' worldOffsetY].
  match goal with
  | |- context [descend ?k (moveWorld ?off ?g1)] => exists (moveWorld off g1)
  end.
  split.
  - eapply steady_trans; [|apply moveWorld_steady].
    apply (steady_by_fields _ _ []);
      first [reflexivity | intros H; exact H | constructor
            | simpl; rewrite app_nil_r; reflexivity].
  - unfold JS.bind.
    match goal with
    | |- context [updateParticles E ?g1 w] =>
        pose proof (updateParticles_steady E g1 w) as H1;
        destruct (updateParticles E g1 w) as [g2 w2];
        assert (steady (descend (InputHandler.keys (inputHandler g))
                                (moveWorld worldOffsetY
                                   (set_submarine submarine'
                                      (set_inputHandler
                                         (InputHandler.updateCameraOffset (inputHandler g))
                                         g)))) g1) as H0
    end.
    { apply (steady_by_fields _ _ []);
        first [reflexivity | intros H; exact H | constructor
              | simpl; rewrite app_nil_r; reflexivity]. }
    pose proof (updateResources_steady E g2 w2) as H2.
    destruct (updateResources E g2 w2) as [g3 w3].
    pose proof (updateMonsters_steady E g3 w3) as H3.
    eapply steady_trans; [exact H0|]. eapply steady_trans; [exact H1|].
    eapply steady_trans; [exact H2 | exact H3].
Qed.

(** A running [update] is: a steady prefix, the depth phase, a steady
    middle (the rest of [simulate], the culling, the collisions and the
    spawning), and the terminal check. *)
Lemma update_phases (deltaTime : Q) (g : Game.t) (w : JS.World) :
  running g ->
  exists gA g3,
    steady g gA /\
    steady (descend (InputHandler.keys (inputHandler g)) gA) g3 /\
    steady (cull (simulate E deltaTime g w).1) g3 /\
    (update E deltaTime g w).1 = checkGameOver g3.
Proof.
  intros Hrun. rewrite (update_running deltaTime g w Hrun).
  destruct (simulate_phases deltaTime g w) as (gA & HA & H0).
  destruct (simulate E deltaTime g w) as [g0 w0]. simpl in H0.
  pose proof (cull_steady g0) as Hcull.
  pose proof (collide_steady E (cull g0) w0) as Hcol.
  destruct (collide E (cull g0) w0) as [g2 w2].
  pose proof (spawn_steady E g2 w2) as Hsp.
  destruct (spawn E g2 w2) as [g3 w3]. simpl in *.
  exists gA, g3. split; [exact HA|]. split; [|split; [|reflexivity]].
  - eapply steady_trans; [exact H0|]. eapply steady_trans; [exact Hcull|].
    eapply steady_trans; [exact Hcol | exact Hsp].
  - eapply steady_trans; [exact Hcol | exact Hsp].
Qed.
Lemma orderly_refl (g : Game.t) : orderly g g.
Proof.
  split; [auto|]. split; [apply idsFrom_refl|]. split; [auto|]. split; [auto|].
  apply gameOverOnce_refl.
Qed.

Lemma orderly_trans (g1 g2 g3 : Game.t) : orderly g1 g2 -> orderly g2 g3 -> orderly g1 g3.
Proof.
  intros (Hr12 & Hi12 & Hw12 & Ho12 & Hg12) (Hr23 & Hi23 & Hw23 & Ho23 & Hg23).
  split; [auto|]. split; [eapply idsFrom_trans; eassumption|]. split; [auto|].
  split; [auto|]. eapply gameOverOnce_trans; eassumption.
Qed.

Lemma steady_orderly (g g' : Game.t) : steady g g' -> orderly g g'.
Proof.
  intros (Hq & Hg & Hi & Hr & Hw).
  split; [exact Hr|]. split; [exact Hi|]. split; [exact Hw|]. split.
  - intros base. apply rewardsOneShot_quiet, Hq.
  - apply gameOverQuiet_once, Hg.
Qed.

Lemma descend_orderly (keys : gset string) (g : Game.t) : orderly g (descend keys g).
Proof.
  destruct (descend_steadyButRewards keys g) as (Hg & Hi & Hr & Hw).
  split; [exact Hr|]. split; [exact Hi|]. split; [exact Hw|]. split.
  - intros base. apply descend_rewardsOneShot.
  - apply gameOverQuiet_once, Hg.
Qed.

Lemma checkGameOver_orderly (g : Game.t) :
  gameOverTriggered g = false -> orderly g (checkGameOver g).
Proof.
  intros Hrun. destruct (checkGameOver_steadyButGameOver g) as (Hq & Hi & Hr & Hw).
  split; [exact Hr|]. split; [exact Hi|]. split; [exact Hw|]. split.
  - intros base. apply rewardsOneShot_quiet, Hq.
  - apply checkGameOver_once, Hrun.
Qed.

Lemma update_orderly (deltaTime : Q) (g : Game.t) (w : JS.World) :
  orderly g (update E deltaTime g w).1.
Proof.
  destruct (gameOverTriggered g) eqn:Hover;
    [rewrite update_stopped by (left; exact Hover); apply orderly_refl|].
  destruct (truthy (menuOpen g)) eqn:Hmenu;
    [rewrite update_stopped by (right; exact Hmenu); apply orderly_refl|].
  destruct (update_phases deltaTime g w (conj Hover Hmenu))
    as (gA & g3 & HA & H3 & _ & ->).
  pose proof (descend_orderly (InputHandler.keys (inputHandler g)) gA) as Hdesc.
  assert (orderly g g3) as Hg3.
  { eapply orderly_trans; [apply steady_orderly, HA|].
    eapply orderly_trans; [exact Hdesc | apply steady_orderly, H3]. }
  eapply orderly_trans; [exact Hg3|]. apply checkGameOver_orderly.
  destruct Hg3 as (_ & _ & _ & _ & [_ Hcount]).
  destruct (gameOverTriggered g3) eqn:H3t; [|reflexivity].
  exfalso.
  destruct HA as (_ & (HtA & _) & _).
  destruct (descend_steadyButRewards (InputHandler.keys (inputHandler g)) gA)
    as ((Htd & _) & _).
  destruct H3 as (_ & (Ht3 & _) & _). congruence.
Qed.

(** *** One event *)

Lemma gameLoop_orderly (currentTime : Q) (g : Game.t) (w : JS.World) :
  orderly g (gameLoop E currentTime g w).1.
Proof.
  unfold gameLoop, JS.bind.
  match goal with
  | |- context [update E ?dt ?g1 w] =>
      pose proof (update_orderly dt g1 w) as Hup;
      destruct (update E dt g1 w) as [g2 w2];
      assert (steady g g1) as H1
  end.
  { apply (steady_by_fields _ _ []);
      first [reflexivity | intros H; exact H | constructor
            | simpl; rewrite app_nil_r; reflexivity]. }
  simpl in *.
  eapply orderly_trans; [apply steady_orderly, H1|].
  eapply orderly_trans; [exact Hup|]. apply steady_orderly.
  apply (steady_by_fields _ _ []);
    first [reflexivity | intros H; exact H | constructor
          | simpl; rewrite app_nil_r; reflexivity].
Qed.

Lemma handle_orderly (e : Event) (g : Game.t) (w : JS.World) :
  isRestart e = false -> orderly g (handle E e g w).1.
Proof.
  destruct e; intros Hno; try discriminate Hno.
  - apply gameLoop_orderly.
  - apply steady_orderly. exact (handleKeyDown_steady key g).
  - apply steady_orderly. exact (handleKeyUp_steady key g).
  - apply steady_orderly. exact (handleWheel_steady deltaY g).
  - apply steady_orderly. exact (sonarTimeout_steady g).
  - apply steady_orderly. exact (hintTimeout_steady g).
  - apply steady_orderly. exact (closeMenu_steady g).
Qed.

Lemma initialGameState_inRange : resourcesInRange initialGameState.
Proof. unfold resourcesInRange, initialGameState. simpl. repeat split; lra. Qed.

Lemma restart_state (g : Game.t) (w : JS.World) :
  gameState (restart E g w).1 = initialGameState /\
  liveIds (restart E g w).1 = [] /\
  claimedRewards (restart E g w).1 = ∅ /\
  gameOverTriggered (restart E g w).1 = false.
Proof.
  unfold restart, JS.bind. destruct (initializeParticles E w) as [ps w'].
  repeat split; reflexivity.
Qed.

Lemma handle_resources (e : Event) (g : Game.t) (w : JS.World) :
  resourcesInRange (gameState g) -> resourcesInRange (gameState (handle E e g w).1).
Proof.
  destruct (isRestart e) eqn:Hr.
  - destruct e; try discriminate. intros _.
    change (handle E ClickRestart g w) with (restart E g w).
    destruct (restart_state g w) as (-> & _). apply initialGameState_inRange.
  - apply handle_orderly, Hr.
Qed.

Lemma handle_idsWellFormed (e : Event) (g : Game.t) (w : JS.World) :
  idsWellFormed g -> idsWellFormed (handle E e g w).1.
Proof.
  destruct (isRestart e) eqn:Hr.
  - destruct e; try discriminate. intros _.
    change (handle E ClickRestart g w) with (restart E g w).
    destruct (restart_state g w) as (_ & Hl & _). unfold idsWellFormed. rewrite Hl.
    split; [apply NoDup_nil; exact I|]. intros i Hi. apply elem_of_nil in Hi. destruct Hi.
  - apply handle_orderly, Hr.
Qed.

(** *** Runs *)

Lemma run_cons (e : Event) (events : list Event) (g : Game.t) (w : JS.World) :
  run E (e :: events) g w = let (g1, w1) := handle E e g w in run E events g1 w1.
Proof. reflexivity. Qed.

Lemma run_orderly (events : list Event) (g : Game.t) (w : JS.World) :
  noRestart events -> orderly g (run E events g w).1.
Proof.
  intros Hno. revert g w. induction Hno as [|e events He _ IH]; intros g w.
  - apply orderly_refl.
  - rewrite run_cons. pose proof (handle_orderly e g w He) as H1.
    destruct (handle E e g w) as [g1 w1]. eapply orderly_trans; [exact H1 | apply IH].
Qed.

Lemma run_resources (events : list Event) (g : Game.t) (w : JS.World) :
  resourcesInRange (gameState g) -> resourcesInRange (gameState (run E events g w).1).
Proof.
  revert g w. induction events as [|e events IH]; intros g w Hg; [exact Hg|].
  rewrite run_cons. pose proof (handle_resources e g w Hg) as H1.
  destruct (handle E e g w) as [g1 w1]. apply IH, H1.
Qed.

Lemma run_idsWellFormed (events : list Event) (g : Game.t) (w : JS.World) :
  idsWellFormed g -> idsWellFormed (run E events g w).1.
Proof.
  revert g w. induction events as [|e events IH]; intros g w Hg; [exact Hg|].
  rewrite run_cons. pose proof (handle_idsWellFormed e g w Hg) as H1.
  destruct (handle E e g w) as [g1 w1]. apply IH, H1.
Qed.

Lemma new_state (w : JS.World) :
  gameState (Game.new E w).1 = initialGameState /\
  liveIds (Game.new E w).1 = [] /\
  claimedRewards (Game.new E w).1 = ∅ /\
  gameOverTriggered (Game.new E w).1 = false /\
  menuOpen (Game.new E w).1 = None.
Proof.
  unfold Game.new, JS.bind. destruct (Submarine.new E 350 270 100 60 w) as [sub w1].
  destruct (JS.now E w1) as [t w2]. destruct (initializeParticles E w2) as [ps w3].
  repeat split; reflexivity.
Qed.
End GameSteps.

(** ** The simulation step: the claims *)
Section GameClaims.
Local Open Scope Q_scope.
Import Game GameSpec.

(** C2. Resource ranges. In every state the game can reach from
    [new Game] by any sequence of events (animation frames, key and
    wheel events, timer callbacks, menu clicks, restarts), health,
    energy and oxygen lie in [0, 100] and depth lies in [0, 11000]; in
    particular after every [update], however many collisions, rewards,
    decays or sonar activations took place. More generally [update] and
    [activateSonar] keep these ranges from any state that satisfies
    them. All functions involved are total: a value that would leave
    its range is clamped, nothing fails. *)
Theorem resources_stay_in_range (E : JS.Env) :
  (forall (events : list Event) (w : JS.World),
     resourcesInRange
       (gameState (run E events (Game.new E w).1 (Game.new E w).2).1)) /\
  (forall (deltaTime : Q) (g : Game.t) (w : JS.World),
     resourcesInRange (gameState g) ->
     resourcesInRange (gameState (update E deltaTime g w).1)) /\
  (forall g : Game.t,
     resourcesInRange (gameState g) -> resourcesInRange (gameState (activateSonar g))).
Proof.
  split; [|split].
  - intros events w. apply run_resources.
    destruct (new_state E w) as (-> & _). apply initialGameState_inRange.
  - intros deltaTime g w. apply update_orderly.
  - intros g. apply activateSonar_steady.
Qed.

(** C4. Terminal conditions. Once game over has been triggered, or
    while a menu is open, [update] returns without touching the state
    (or the clock or the random source). Otherwise its last step checks,
    on the values the tick ends with, depth >= 11000 first (victory,
    final score = score + 10000), then oxygen <= 0, then health <= 0;
    the first condition that holds triggers game over with its reason
    and shows the game-over screen, and if none holds the game keeps
    running. In any sequence of events without a restart the flag, once
    set, stays set, and the screen is shown exactly once if the flag
    went from unset to set and not at all otherwise. *)
Theorem terminal_conditions (E : JS.Env) :
  (forall (deltaTime : Q) (g : Game.t) (w : JS.World),
     gameOverTriggered g = true \/ truthy (menuOpen g) = true ->
     update E deltaTime g w = (g, w)) /\
  (forall (deltaTime : Q) (g : Game.t) (w : JS.World),
     running g ->
     let g' := (update E deltaTime g w).1 in
     let gs := gameState g' in
     (11000 <= GameState.depth gs ->
      gameOverTriggered g' = true /\ gameOverReason g' = Some Victory /\
      last (page g') = Some (GameOverShown Victory (GameState.score gs + 10000))) /\
     (GameState.depth gs < 11000 -> GameState.oxygen gs <= 0 ->
      gameOverTriggered g' = true /\ gameOverReason g' = Some OxygenDepleted /\
      last (page g') = Some (GameOverShown OxygenDepleted (GameState.score gs))) /\
     (GameState.depth gs < 11000 -> 0 < GameState.oxygen gs -> GameState.health gs <= 0 ->
      gameOverTriggered g' = true /\ gameOverReason g' = Some SubmarineDestroyed /\
      last (page g') = Some (GameOverShown SubmarineDestroyed (GameState.score gs))) /\
     (GameState.depth gs < 11000 -> 0 < GameState.oxygen gs -> 0 < GameState.health gs ->
      gameOverTriggered g' = false) /\
     gameOverShown (page g')
     = (gameOverShown (page g) + (if gameOverTriggered g' then 1 else 0))%nat) /\
  (forall (events : list Event) (g : Game.t) (w : JS.World),
     noRestart events ->
     let g' := (run E events g w).1 in
     (gameOverTriggered g = true -> gameOverTriggered g' = true) /\
     gameOverShown (page g')
     = (gameOverShown (page g)
        + (if negb (gameOverTriggered g) && gameOverTriggered g' then 1 else 0))%nat).
Proof.
  split; [|split].
  - intros deltaTime g w. apply update_stopped.
  - intros deltaTime g w Hrun g' gs.
    pose proof (update_orderly E deltaTime g w) as (_ & _ & _ & _ & [_ Hcount]).
    fold g' in Hcount. destruct Hrun as [Hover Hmenu]. rewrite Hover in Hcount.
    simpl in Hcount.
    destruct (update_phases E deltaTime g w (conj Hover Hmenu))
      as (gA & g3 & HA & H3 & _ & Hg').
    assert (gameOverTriggered g3 = false) as H3t.
    { destruct HA as (_ & (HtA & _) & _).
      destruct (descend_steadyButRewards (InputHandler.keys (inputHandler g)) gA)
        as ((Htd & _) & _).
      destruct H3 as (_ & (Ht3 & _) & _). congruence. }
    split; [|split; [|split; [|split; [|exact Hcount]]]];
      subst gs; unfold g'; rewrite Hg';
      destruct (checkGameOver_cases g3)
        as [[Hd ->]|[(Hd & Ho & ->)|[(Hd & Ho & Hh & ->)|(Hd & Ho & Hh & ->)]]];
      simpl; intros; try lra;
      rewrite ?last_snoc; repeat split; try reflexivity; try assumption.
  - intros events g w Hno. apply (run_orderly E events g w Hno).
Qed.
Lemma fresh_rewardsOneShot (g : Game.t) : fresh g -> rewardsOneShot (page g) g.
Proof.
  intros (Hd & Hs & Hc). unfold rewardsOneShot. rewrite Hd, Hs, Hc. split.
  - intros th Hin. split.
    + split; [intros H; apply elem_of_empty in H; destruct H|].
      intros Hle. exfalso. revert Hle. unfold thresholds, rewards in Hin. simpl in Hin.
      repeat (apply elem_of_cons in Hin as [->|Hin]; [vm_compute; intros H; apply H; reflexivity|]).
      apply elem_of_nil in Hin. destruct Hin.
    + rewrite bool_decide_eq_false_2 by apply not_elem_of_empty. lia.
  - vm_compute. reflexivity.
Qed.

(** C5. One-shot depth rewards. The thresholds are 2000, 4000 and
    6000. In a run (any events without a restart) that starts with
    depth 0, score 0 and nothing claimed, at every moment: a threshold
    is in the claimed set exactly when the depth has reached it, its
    reward has been granted exactly once if it is claimed and never
    otherwise, and the score is the sum of the points of the claimed
    rewards; so each reward is granted once, on the tick in which the
    depth first reaches its threshold, and never again. Granting a
    reward sets oxygen to [Math.min(100, oxygen + bonus)], adds its
    points to the score and puts the threshold in the claimed set; a
    reward that is not due changes nothing. One call of
    [checkDepthRewards] at any depth, also past several unclaimed
    thresholds, grants each reward that is due exactly once. The depth
    and the rewards move only while the descend key is held. *)
Theorem depth_rewards_one_shot (E : JS.Env) :
  thresholds = [2000; 4000; 6000]%Z /\
  (forall (events : list Event) (g : Game.t) (w : JS.World),
     fresh g -> noRestart events ->
     let g' := (run E events g w).1 in
     (forall th, th ∈ thresholds ->
        (th ∈ claimedRewards g' <-> inject_Z th <= GameState.depth (gameState g')) /\
        rewardsShown th (page g')
        = (rewardsShown th (page g)
           + (if bool_decide (th ∈ claimedRewards g') then 1 else 0))%nat) /\
     GameState.score (gameState g') == earned (claimedRewards g')) /\
  (forall (g : Game.t) (th : Z),
     th ∈ thresholds ->
     (th ∈ claimedRewards (checkDepthRewards g)
      <-> th ∈ claimedRewards g \/ inject_Z th <= GameState.depth (gameState g)) /\
     rewardsShown th (page (checkDepthRewards g))
     = (rewardsShown th (page g)
        + (if due (GameState.depth (gameState g)) (claimedRewards g) th
           then 1 else 0))%nat) /\
  (forall (d : Q) (g : Game.t) (r : Reward),
     (due d (claimedRewards g) (depth r) = true ->
      claimedRewards (claimReward d g r) = {[depth r]} ∪ claimedRewards g /\
      GameState.oxygen (gameState (claimReward d g r))
      = JS.Math_min 100 (GameState.oxygen (gameState g) + oxygen r) /\
      GameState.score (gameState (claimReward d g r))
      = GameState.score (gameState g) + points r /\
      page (claimReward d g r) = page g ++ [HintShown (RewardReached (depth r))]) /\
     (due d (claimedRewards g) (depth r) = false -> claimReward d g r = g)) /\
  (forall (keys : gset string) (g : Game.t),
     Submarine.has keys "s" = false -> descend keys g = g).
Proof.
  split; [reflexivity|]. split; [|split; [|split]].
  - intros events g w Hfresh Hno g'.
    destruct (run_orderly E events g w Hno) as (_ & _ & _ & Hone & _).
    apply (Hone (page g)), fresh_rewardsOneShot, Hfresh.
  - intros g th Hin. destruct (checkDepthRewards_books g) as (_ & Hc & Hs & _). split.
    + rewrite Hc. split; [intros [?|[_ ?]]; auto | intros [?|?]; auto].
    + rewrite Hs. rewrite (bool_decide_eq_true_2 (th ∈ thresholds)) by exact Hin.
      reflexivity.
  - intros d g r. split.
    + intros Hdue. destruct (claimReward_due d g r Hdue) as (Hc & Hg & Hp).
      rewrite Hc, Hg, Hp. repeat split; reflexivity.
    + apply claimReward_not_due.
  - intros keys g Hs. unfold descend. rewrite Hs. reflexivity.
Qed.





Lemma simulate_orderly (E : JS.Env) (deltaTime : Q) (g : Game.t) (w : JS.World) :
  orderly g (simulate E deltaTime g w).1.
Proof.
  destruct (simulate_phases E deltaTime g w) as (gA & HA & H0).
  eapply orderly_trans; [apply steady_orderly, HA|].
  eapply orderly_trans; [apply descend_orderly | apply steady_orderly, H0].
Qed.

End GameClaims.

Section GameWitnesses.
Local Open Scope Q_scope.
Import Game GameSpec.

Lemma terminal_conditions_witness :
  running Samples.game0 /\
  gameOverTriggered (update Samples.env 16 Samples.game0 Samples.world1).1 = false.
Proof.
  assert (running Samples.game0) as Hrun by (split; reflexivity).
  split; [exact Hrun|].
  destruct (proj1 (proj2 (terminal_conditions Samples.env)) 16 Samples.game0
              Samples.world1 Hrun) as (_ & _ & _ & Hkeep & _).
  apply Hkeep; vm_compute; reflexivity.
Defined.

Lemma depth_rewards_one_shot_witness :
  fresh Samples.game0 /\
  rewardsShown 4000 (page (checkDepthRewards Samples.deepGame)) = 1%nat.
Proof.
  split; [repeat split; reflexivity|].
  destruct (proj1 (proj2 (proj2 (depth_rewards_one_shot Samples.env)))
              Samples.deepGame 4000%Z) as [_ Hshown].
  - vm_compute. right. left.
  - rewrite Hshown. reflexivity.
Defined.

End GameWitnesses.

(** ** Reachable states and the scenarios of the specification *)
Section Scenarios.
Local Open Scope Q_scope.
Import Game GameSpec.

(** The hypotheses of the claims hold where the game starts. *)
Lemma new_game_ready (E : JS.Env) (w : JS.World) :
  running (Game.new E w).1 /\ fresh (Game.new E w).1 /\ idsWellFormed (Game.new E w).1.
Proof.
  destruct (new_state E w) as (Hg & Hl & Hc & Ht & Hm).
  split; [split; [exact Ht | rewrite Hm; reflexivity]|]. split.
  - unfold fresh. rewrite Hg, Hc. repeat split; reflexivity.
  - unfold idsWellFormed. rewrite Hl. split; [apply NoDup_nil; exact I|].
    intros i Hi. apply elem_of_nil in Hi. destruct Hi.
Qed.

Lemma restart_ready (E : JS.Env) (g : Game.t) (w : JS.World) :
  fresh (restart E g w).1 /\ idsWellFormed (restart E g w).1 /\
  gameOverTriggered (restart E g w).1 = false.
Proof.
  destruct (restart_state E g w) as (Hg & Hl & Hc & Ht).
  split; [|split; [|exact Ht]].
  - unfold fresh. rewrite Hg, Hc. repeat split; reflexivity.
  - unfold idsWellFormed. rewrite Hl. split; [apply NoDup_nil; exact I|].
    intros i Hi. apply elem_of_nil in Hi. destruct Hi.
Qed.

(** Ids are well formed in every state the game can reach. *)
Lemma reachable_idsWellFormed (E : JS.Env) (events : list Event) (w : JS.World) :
  idsWellFormed (run E events (Game.new E w).1 (Game.new E w).2).1.
Proof. apply run_idsWellFormed, new_game_ready. Qed.

(** Scenario 1: craft at screenY = 270, entity at world y = 0, depth 0,
    camera at rest: the offset is 300 and the entity overlaps the craft. *)
Example scenario_offset_300 :
  Submarine.screenY Samples.submarine = 270 /\
  CollisionDetector.calculateDepthOffset 0 0 = 300 /\
  Rect.y (CollisionDetector.getWorldObjectScreenHitbox Samples.rock 300) == 308 /\
  DetectionSpec.overlaps Samples.submarine 0 0 Samples.rock = true.
Proof. repeat split; vm_compute; reflexivity. Qed.

(** Scenario 2, at the first threshold: one tick with S held takes the
    depth from 1995 to 2000 and grants the reward once (oxygen
    90 -> 100, then the tick's decay; score 0 -> 500); past all three
    thresholds with nothing claimed, one check grants each reward once. *)
Example scenario_rewards :
  let g := (update Samples.env 16 Samples.nearReward Samples.world1).1 in
  GameState.depth (gameState g) == 2000 /\
  GameState.score (gameState g) == 500 /\
  GameState.oxygen (gameState g) == 99.95 /\
  elements (claimedRewards g) = [2000%Z] /\
  page g = [HintShown (RewardReached 2000)] /\
  GameState.score (gameState (checkDepthRewards Samples.deepGame)) == 3500 /\
  List.filter isPlain (page (checkDepthRewards Samples.deepGame))
  = [HintShown (UpgradeUnlocked "oxygenTank"); HintShown (UpgradeUnlocked "advancedSonar")] /\
  List.filter (fun e => negb (isPlain e)) (page (checkDepthRewards Samples.deepGame))
  = [HintShown (RewardReached 2000); HintShown (RewardReached 4000);
     HintShown (RewardReached 6000)].
Proof. repeat split; vm_compute; reflexivity. Qed.

(** Scenario 3: with oxygen at 0 the tick ends the run for lack of
    oxygen, and the final score is the score. *)
Example scenario_oxygen_depleted :
  let g := (update Samples.env 16 Samples.noOxygen Samples.world1).1 in
  gameOverTriggered g = true /\ gameOverReason g = Some OxygenDepleted /\
  last (page g) = Some (GameOverShown OxygenDepleted 0).
Proof. repeat split; vm_compute; reflexivity. Qed.

(** Scenario 4: two creatures overlap the craft in the same tick: both
    are reported and removed, and the damage is applied once for each. *)
Example scenario_two_creatures :
  let g := (update Samples.env 16 Samples.twoSharks Samples.world1).1 in
  monsters g = [] /\
  GameState.health (gameState g) == 80 /\
  page g = [HintShown (MonsterDamage 10); HintShown (MonsterDamage 10)] /\
  map_to_list (CollisionDetector.collisionCooldown (collisionDetector g))
  = [(7%Z, 1055%Z); (9%Z, 1056%Z)].
Proof. repeat split; vm_compute; reflexivity. Qed.
End Scenarios.

(* ===================================================================== *)
(** * Part IV: further properties of the code *)
(* ===================================================================== *)

(** ** Overlap tests *)
Section OverlapTests.
Local Open Scope Q_scope.
Import CollisionDetector.

(** The overlap test as four strict inequalities. *)
Lemma checkAABB_iff (r1 r2 : Rect.t) :
  checkAABB r1 r2 = true <->
  Rect.x r1 < Rect.x r2 + Rect.width r2 /\ Rect.x r2 < Rect.x r1 + Rect.width r1 /\
  Rect.y r1 < Rect.y r2 + Rect.height r2 /\ Rect.y r2 < Rect.y r1 + Rect.height r1.
Proof.
  unfold checkAABB. rewrite !andb_true_iff, !ltb_true, !gtb_true. tauto.
Qed.

Lemma checkAABB_sym (r1 r2 : Rect.t) : checkAABB r1 r2 = checkAABB r2 r1.
Proof.
  destruct (checkAABB r1 r2) eqn:H12, (checkAABB r2 r1) eqn:H21; try reflexivity.
  - apply checkAABB_iff in H12. assert (checkAABB r2 r1 = true) by (apply checkAABB_iff; tauto).
    congruence.
  - apply checkAABB_iff in H21. assert (checkAABB r1 r2 = true) by (apply checkAABB_iff; tauto).
    congruence.
Qed.

(** X1. The overlap test. [checkAABB] is symmetric, is false when
    the rectangles only touch along an edge, is false for a rectangle
    of no width against itself and true for a rectangle of positive
    size against itself; [collidesWith] is [checkAABB] on the two
    hitboxes, hence symmetric too. *)
Theorem overlap_tests_agree (r1 r2 : Rect.t) (o other : GameObject.t) :
  checkAABB r1 r2 = checkAABB r2 r1 /\
  (Rect.x r1 + Rect.width r1 <= Rect.x r2 -> checkAABB r1 r2 = false) /\
  (Rect.y r1 + Rect.height r1 <= Rect.y r2 -> checkAABB r1 r2 = false) /\
  (Rect.width r1 <= 0 -> checkAABB r1 r1 = false) /\
  (0 < Rect.width r1 -> 0 < Rect.height r1 -> checkAABB r1 r1 = true) /\
  GameObject.collidesWith o other
  = checkAABB (GameObject.getHitbox o) (GameObject.getHitbox other) /\
  GameObject.collidesWith o other = GameObject.collidesWith other o.
Proof.
  split; [apply checkAABB_sym|].
  split; [|split; [|split; [|split; [|split]]]].
  - intros H. destruct (checkAABB r1 r2) eqn:Hc; [|reflexivity].
    apply checkAABB_iff in Hc. lra.
  - intros H. destruct (checkAABB r1 r2) eqn:Hc; [|reflexivity].
    apply checkAABB_iff in Hc. lra.
  - intros H. destruct (checkAABB r1 r1) eqn:Hc; [|reflexivity].
    apply checkAABB_iff in Hc. lra.
  - intros Hw Hh. apply checkAABB_iff. lra.
  - reflexivity.
  - change (checkAABB (GameObject.getHitbox o) (GameObject.getHitbox other)
            = checkAABB (GameObject.getHitbox other) (GameObject.getHitbox o)).
    apply checkAABB_sym.
Qed.
End OverlapTests.

(** ** The cooldown table *)
Section CooldownTable.
Import CollisionDetector DetectionSpec.
Variable E : JS.Env.

(** X2. Clearing an entry and resetting the table. After
    [clearCollisionCooldown] the entity is not cooling (the lookup
    reads no clock and changes nothing) and the other entries are as
    before; after [reset] nothing is cooling, [getDebugInfo] reports
    0 entries, and the duration is kept by both. *)
Theorem clear_and_reset_rearm (cd : CollisionDetector.t) (obj o' : GameObject.t)
    (w : JS.World) :
  (GameObject.id o' = GameObject.id obj ->
   isInCollisionCooldown E (clearCollisionCooldown cd obj) o' w
   = (false, clearCollisionCooldown cd obj, w)) /\
  (forall i, i <> GameObject.id obj ->
     collisionCooldown (clearCollisionCooldown cd obj) !! i = collisionCooldown cd !! i) /\
  isInCollisionCooldown E (reset cd) o' w = (false, reset cd, w) /\
  getDebugInfo (reset cd) = (0%nat, cooldownDuration cd) /\
  cooldownDuration (clearCollisionCooldown cd obj) = cooldownDuration cd.
Proof.
  split; [|split; [|split; [|split]]].
  - intros Hid. unfold isInCollisionCooldown, clearCollisionCooldown. cbn.
    rewrite Hid, lookup_delete_eq. reflexivity.
  - intros i Hi. unfold clearCollisionCooldown. cbn. apply lookup_delete_ne. congruence.
  - unfold isInCollisionCooldown, reset. cbn. rewrite lookup_empty. reflexivity.
  - unfold getDebugInfo, reset. cbn. rewrite map_size_empty. reflexivity.
  - reflexivity.
Qed.

(** Deleting a list of keys removes exactly those keys. *)
Lemma lookup_foldr_delete (ids : list Z) (m : gmap Z Z) (i : Z) :
  foldr delete m ids !! i = if bool_decide (i ∈ ids) then None else m !! i.
Proof.
  induction ids as [|j ids IH]; cbn.
  - rewrite bool_decide_eq_false_2; [reflexivity | apply not_elem_of_nil].
  - destruct (decide (i = j)) as [->|Hne].
    + rewrite lookup_delete_eq. rewrite bool_decide_eq_true_2; [reflexivity | left].
    + rewrite lookup_delete_ne by congruence. rewrite IH.
      apply (f_equal (fun b : bool => if b then None else m !! i)).
      apply bool_decide_ext. rewrite elem_of_cons. tauto.
Qed.

(** The keys of the entries of a table that pass a test. *)
Lemma expired_ids (m : gmap Z Z) (p : Z * Z -> bool) (i : Z) :
  i ∈ (List.filter p (map_to_list m)).*1 <-> exists t, m !! i = Some t /\ p (i, t) = true.
Proof.
  rewrite list_elem_of_fmap. split.
  - intros ([j t] & -> & Hin). apply list_elem_of_In, filter_In in Hin as [Hin Hp].
    apply list_elem_of_In, elem_of_map_to_list in Hin. exists t. split; assumption.
  - intros (t & Hl & Hp). exists (i, t). split; [reflexivity|].
    apply list_elem_of_In, filter_In. split; [|exact Hp].
    apply list_elem_of_In, elem_of_map_to_list. exact Hl.
Qed.

(** X3. The sweep. [cleanupCooldowns] reads the clock once and
    keeps exactly the entries younger than the duration at that time,
    with their stamps; the duration is unchanged and the table does
    not grow. *)
Theorem cleanupCooldowns_keeps_young (cd : CollisionDetector.t) (w : JS.World) :
  let now := JS.Date_now E (JS.clockReads w) in
  let cd' := (cleanupCooldowns E cd w).1 in
  (forall i t, collisionCooldown cd' !! i = Some t <->
               collisionCooldown cd !! i = Some t /\ (now - t < cooldownDuration cd)%Z) /\
  cooldownDuration cd' = cooldownDuration cd /\
  (cleanupCooldowns E cd w).2 = JS.mkWorld (S (JS.clockReads w)) (JS.randomDraws w) /\
  ((getDebugInfo cd').1 <= (getDebugInfo cd).1)%nat.
Proof.
  cbn zeta. unfold cleanupCooldowns, JS.bind, JS.now, JS.ret. cbn [fst snd collisionCooldown
    cooldownDuration getDebugInfo].
  assert (forall i t,
    foldr delete (collisionCooldown cd)
      (List.filter (fun entry : Z * Z =>
         (cooldownDuration cd <=? JS.Date_now E (JS.clockReads w) - entry.2)%Z)
         (map_to_list (collisionCooldown cd))).*1 !! i = Some t <->
    collisionCooldown cd !! i = Some t /\
    (JS.Date_now E (JS.clockReads w) - t < cooldownDuration cd)%Z) as Hlook.
  { intros i t. rewrite lookup_foldr_delete. case_bool_decide as Hin.
    - apply expired_ids in Hin as (t' & Hl & Hp). cbn in Hp. apply Z.leb_le in Hp.
      split; [discriminate|]. intros [Hl' Hlt]. rewrite Hl in Hl'. inversion Hl'; subst. lia.
    - split.
      + intros Hl. split; [exact Hl|].
        destruct (Z.ltb_spec (JS.Date_now E (JS.clockReads w) - t) (cooldownDuration cd))
          as [Hlt|Hge]; [exact Hlt|].
        exfalso. apply Hin. apply expired_ids. exists t. split; [exact Hl|].
        cbn. apply Z.leb_le. exact Hge.
      + intros [Hl _]. exact Hl. }
  split; [exact Hlook|]. split; [reflexivity|]. split; [reflexivity|].
  apply map_subseteq_size. apply map_subseteq_spec. intros i t Hl.
  apply Hlook in Hl. tauto.
Qed.
End CooldownTable.

(** ** Gated passes on fresh entities *)
Section FreshPass.
Import CollisionDetector DetectionSpec.
Variable E : JS.Env.

(** A gated pass over entities none of which has an entry in the
    cooldown table, and whose ids are distinct. *)
Lemma gated_forEach_fresh (hb : Rect.t) (off : Q) (l : list GameObject.t) :
  forall (cols : list GameObject.t) (cd : CollisionDetector.t) (w : JS.World),
  NoDup (List.map GameObject.id l) ->
  (forall o, o ∈ l -> collisionCooldown cd !! GameObject.id o = None) ->
  exists cd',
    let hits := List.filter (fun o => checkAABB hb (getWorldObjectScreenHitbox o off)) l in
    JS.forEach (gatedStep E hb off) l (cols, cd) w
    = (cols ++ hits, cd',
       JS.mkWorld (JS.clockReads w + length hits) (JS.randomDraws w)) /\
    cooldownDuration cd' = cooldownDuration cd /\
    (forall i, i ∉ List.map GameObject.id hits ->
               collisionCooldown cd' !! i = collisionCooldown cd !! i) /\
    (forall i, i ∈ List.map GameObject.id hits ->
               exists k, JS.clockReads w <= k < JS.clockReads w + length hits /\
                         collisionCooldown cd' !! i = Some (JS.Date_now E k)).
Proof.
  induction l as [|o l IH]; intros cols cd w Hnd Hfresh.
  - exists cd. cbn. rewrite app_nil_r, Nat.add_0_r. destruct w. cbn.
    split; [reflexivity|]. split; [reflexivity|]. split; [reflexivity|].
    intros i Hi. apply elem_of_nil in Hi. destruct Hi.
  - cbn [List.map] in Hnd. apply NoDup_cons in Hnd as [Hnotin Hnd].
    assert (collisionCooldown cd !! GameObject.id o = None) as Ho
      by (apply Hfresh; left).
    rewrite forEach_cons.
    pose proof (gatedStep_outcome E hb off o cols cd w) as Hout.
    cbn [List.filter].
    remember (gatedStep E hb off o (cols, cd) w) as r eqn:Hr. clear Hr.
    inversion Hout as [t Hl|t Hl|t Hl|Hl Hmiss|Hl Hhit];
      try (rewrite Ho in Hl; discriminate).
    + (* miss *)
      rewrite Hmiss.
      destruct (IH cols cd w Hnd) as (cd' & Hrun & Hdur & Hout' & Hin').
      { intros o' Ho'. apply Hfresh. right. exact Ho'. }
      exists cd'. cbn zeta in *. split; [exact Hrun|]. split; [exact Hdur|].
      split; assumption.
    + (* hit *)
      rewrite Hhit.
      cbn iota.
      set (cd1 := mk (<[GameObject.id o := JS.Date_now E (JS.clockReads w)]>
                        (collisionCooldown cd)) (cooldownDuration cd)).
      destruct (IH (cols ++ [o]) cd1
                   (JS.mkWorld (S (JS.clockReads w)) (JS.randomDraws w)) Hnd)
        as (cd' & Hrun & Hdur & Hout' & Hin').
      { intros o' Ho'. unfold cd1. cbn. rewrite lookup_insert_ne.
        - apply Hfresh. right. exact Ho'.
        - intros Heq. apply Hnotin. rewrite Heq. apply list_elem_of_fmap.
          exists o'. split; [reflexivity | exact Ho']. }
      exists cd'. cbn zeta in *. cbn [JS.clockReads JS.randomDraws] in *.
      set (hits := List.filter (fun o0 => checkAABB hb (getWorldObjectScreenHitbox o0 off)) l)
        in *.
      assert (GameObject.id o ∉ List.map GameObject.id hits) as Hnothit.
      { intros Hin. apply Hnotin. apply list_elem_of_fmap in Hin as (o' & Hid & Ho').
        apply list_elem_of_fmap. exists o'. split; [exact Hid|].
        apply list_elem_of_In in Ho'. apply filter_In in Ho' as [Ho' _].
        apply list_elem_of_In. exact Ho'. }
      split; [|split; [exact Hdur|split]].
      * rewrite Hrun. rewrite <- app_assoc. cbn [app length].
        replace (S (JS.clockReads w) + length hits)%nat
          with (JS.clockReads w + S (length hits))%nat by lia.
        reflexivity.
      * intros i Hi. cbn [List.map] in Hi. apply not_elem_of_cons in Hi as [Hne Hi].
        rewrite (Hout' i Hi). unfold cd1. cbn. apply lookup_insert_ne. congruence.
      * intros i Hi. cbn [List.map length] in *. apply elem_of_cons in Hi as [->|Hi].
        -- exists (JS.clockReads w). split; [lia|].
           rewrite (Hout' _ Hnothit). unfold cd1. cbn. apply lookup_insert_eq.
        -- destruct (Hin' i Hi) as (k & Hk & Hlk). exists k. split; [lia | exact Hlk].
Qed.

(** X4. A gated pass over entities with distinct ids, none of
    which has an entry in the table. The creature pass and the
    obstacle pass are the same function; they report exactly the
    overlapping entities, in order, read the clock once per hit, stamp
    each hit with one of those readings and leave the other entries
    alone. *)
Theorem gated_pass_reports_fresh_overlaps (cd : CollisionDetector.t) (sub : Submarine.t)
    (l : list GameObject.t) (d cam : Q) (w : JS.World) :
  NoDup (List.map GameObject.id l) ->
  (forall o, o ∈ l -> collisionCooldown cd !! GameObject.id o = None) ->
  let hits := List.filter (overlaps sub d cam) l in
  let '(reported, cd', w') := checkMonsterCollisions E cd sub l d cam w in
  checkObstacleCollisions E cd sub l d cam w = (reported, cd', w') /\
  reported = hits /\
  w' = JS.mkWorld (JS.clockReads w + length hits) (JS.randomDraws w) /\
  (forall i, i ∉ List.map GameObject.id hits ->
             collisionCooldown cd' !! i = collisionCooldown cd !! i) /\
  (forall i, i ∈ List.map GameObject.id hits ->
             exists k, JS.clockReads w <= k < JS.clockReads w + length hits /\
                       collisionCooldown cd' !! i = Some (JS.Date_now E k)).
Proof.
  intros Hnd Hfresh hits.
  destruct (gated_forEach_fresh (Submarine.getScreenHitbox sub) (calculateDepthOffset d cam)
              l [] cd w Hnd Hfresh) as (cd' & Hrun & _ & Hout & Hin).
  cbn zeta in *.
  unfold checkObstacleCollisions, checkMonsterCollisions. rewrite Hrun. cbn [app].
  split; [reflexivity|]. split; [reflexivity|]. split; [reflexivity|].
  split; assumption.
Qed.
End FreshPass.

(** Two sharks on the craft and an empty table: both are reported. *)
Lemma gated_pass_reports_fresh_overlaps_witness :
  (CollisionDetector.checkMonsterCollisions Samples.env CollisionDetector.new
     Samples.submarine [Samples.shark; Samples.shark2] 0 0 Samples.world0).1.1
  = [Samples.shark; Samples.shark2].
Proof.
  pose proof (gated_pass_reports_fresh_overlaps Samples.env CollisionDetector.new
                Samples.submarine [Samples.shark; Samples.shark2] 0 0 Samples.world0) as H.
  cbn zeta in H.
  destruct (CollisionDetector.checkMonsterCollisions Samples.env CollisionDetector.new
     Samples.submarine [Samples.shark; Samples.shark2] 0 0 Samples.world0) as [[r c] w'].
  destruct H as (_ & -> & _).
  - apply (bool_decide_unpack (NoDup _)). vm_compute. exact I.
  - intros o _. apply lookup_empty.
  - vm_compute. reflexivity.
Defined.

(** ** The craft *)
Section CraftMotion.
Local Open Scope Q_scope.
Import Submarine.

Lemma update_screenX (s : Submarine.t) (keys : gset string) (deltaTime : Q) :
  screenX (update s keys deltaTime).1 = screenX (updateHorizontal s keys (moveSpeed s * deltaTime)).
Proof.
  unfold update, updateDown, updateUp.
  destruct (has keys "w"), (has keys "s"); reflexivity.
Qed.

Lemma update_targetRotation (s : Submarine.t) (keys : gset string) (deltaTime : Q) :
  targetRotation (update s keys deltaTime).1
  = targetRotation (updateHorizontal s keys (moveSpeed s * deltaTime)).
Proof.
  unfold update, updateDown, updateUp.
  destruct (has keys "w"), (has keys "s"); reflexivity.
Qed.

Lemma update_rotation (s : Submarine.t) (keys : gset string) (deltaTime : Q) :
  rotation (update s keys deltaTime).1
  = rotation s + (targetRotation (update s keys deltaTime).1 - rotation s) * 0.1.
Proof.
  unfold update, updateDown, updateUp, updateHorizontal.
  destruct (has keys "w"), (has keys "s"), (has keys "a"), (has keys "d"); reflexivity.
Qed.

(** X5. Horizontal motion of the craft. With A held the craft
    moves left by speed and stops at 0, whether or not D is held; with
    D alone it moves right and stops at 800 minus its width; with
    neither it keeps its place. For a speed that is not negative a
    craft inside [0, 800 - width] stays inside. *)
Theorem update_horizontal_contract (s : Submarine.t) (keys : gset string) (deltaTime : Q) :
  let speed := moveSpeed s * deltaTime in
  let rightEdge := 800 - GameObject.width (base s) in
  (has keys "a" = true ->
   screenX (update s keys deltaTime).1 = JS.Math_max 0 (screenX s - speed)) /\
  (has keys "a" = false -> has keys "d" = true ->
   screenX (update s keys deltaTime).1 = JS.Math_min rightEdge (screenX s + speed)) /\
  (has keys "a" = false -> has keys "d" = false ->
   screenX (update s keys deltaTime).1 = screenX s) /\
  (0 <= speed -> 0 <= rightEdge -> 0 <= screenX s <= rightEdge ->
   0 <= screenX (update s keys deltaTime).1 <= rightEdge).
Proof.
  cbn zeta. rewrite update_screenX. unfold updateHorizontal.
  split; [|split; [|split]].
  - intros ->. reflexivity.
  - intros -> ->. reflexivity.
  - intros -> ->. reflexivity.
  - intros Hs He Hx.
    destruct (has keys "a"); [|destruct (has keys "d")]; cbn.
    + destruct (Math_max_cases 0 (screenX s - moveSpeed s * deltaTime)) as [[? ->]|[? ->]]; lra.
    + destruct (Math_min_cases (800 - GameObject.width (base s))
                  (screenX s + moveSpeed s * deltaTime)) as [[? ->]|[? ->]]; lra.
    + exact Hx.
Qed.

(** The tilt and its target stay within 15 degrees, and with no
    horizontal key held the target decays by a tenth. *)
Lemma update_rotation_bounded (s : Submarine.t) (keys : gset string) (deltaTime : Q) :
  -15 <= targetRotation s <= 15 -> -15 <= rotation s <= 15 ->
  -15 <= targetRotation (update s keys deltaTime).1 <= 15 /\
  -15 <= rotation (update s keys deltaTime).1 <= 15 /\
  (has keys "a" = false -> has keys "d" = false ->
   targetRotation (update s keys deltaTime).1 = targetRotation s * 0.9).
Proof.
  intros Ht Hr.
  assert (-15 <= targetRotation (update s keys deltaTime).1 <= 15) as Ht'.
  { rewrite update_targetRotation. unfold updateHorizontal.
    destruct (has keys "a"); [|destruct (has keys "d")]; cbn.
    - destruct (Math_max_cases (-15) (targetRotation s - 1)) as [[? ->]|[? ->]]; lra.
    - destruct (Math_min_cases 15 (targetRotation s + 1)) as [[? ->]|[? ->]]; lra.
    - lra. }
  split; [exact Ht'|]. split.
  - rewrite update_rotation. lra.
  - intros Ha Hd. rewrite update_targetRotation. unfold updateHorizontal.
    rewrite Ha, Hd. reflexivity.
Qed.

(** [update] writes the position and the tilt only. *)
Lemma update_hitbox_fields (s : Submarine.t) (keys : gset string) (deltaTime : Q) :
  hitboxOffsetX (update s keys deltaTime).1 = hitboxOffsetX s /\
  hitboxOffsetY (update s keys deltaTime).1 = hitboxOffsetY s /\
  hitboxWidth (update s keys deltaTime).1 = hitboxWidth s /\
  hitboxHeight (update s keys deltaTime).1 = hitboxHeight s /\
  base (update s keys deltaTime).1 = base s.
Proof.
  unfold update, updateDown, updateUp, updateHorizontal.
  destruct (has keys "w"), (has keys "s"), (has keys "a"), (has keys "d");
    repeat split; reflexivity.
Qed.

(** X6. The hitbox of the craft. After any update of a new
    craft the screen hitbox is the sprite rectangle inset by 22.5% and
    27.5%, of 55% by 45% of its size; after [reset] it is that
    rectangle at (350, y); the world hitbox is the screen hitbox moved
    down by the depth; the hitbox lies inside the sprite rectangle and
    contains the screen centre. *)
Theorem craft_hitbox_rides_with_sprite (E : JS.Env) (x y width height : Q) (w : JS.World)
    (keys : gset string) (deltaTime depth : Q) :
  let s0 := (new E x y width height w).1 in
  let s1 := (update s0 keys deltaTime).1 in
  getScreenHitbox s1
  = Rect.mk (screenX s1 + width * 0.225) (screenY s1 + height * 0.275)
            (width * 0.55) (height * 0.45) /\
  getScreenHitbox (reset s1)
  = Rect.mk (350 + width * 0.225) (y + height * 0.275) (width * 0.55) (height * 0.45) /\
  getWorldHitbox s1 depth
  = Rect.mk (Rect.x (getScreenHitbox s1)) (Rect.y (getScreenHitbox s1) + depth)
            (Rect.width (getScreenHitbox s1)) (Rect.height (getScreenHitbox s1)) /\
  (0 <= width -> 0 <= height ->
   screenX s1 <= Rect.x (getScreenHitbox s1) /\
   Rect.x (getScreenHitbox s1) + Rect.width (getScreenHitbox s1) <= screenX s1 + width /\
   screenY s1 <= Rect.y (getScreenHitbox s1) /\
   Rect.y (getScreenHitbox s1) + Rect.height (getScreenHitbox s1) <= screenY s1 + height) /\
  (0 < width -> 0 < height ->
   Rect.x (getScreenHitbox s1) < (getScreenCenter s1).1
     < Rect.x (getScreenHitbox s1) + Rect.width (getScreenHitbox s1) /\
   Rect.y (getScreenHitbox s1) < (getScreenCenter s1).2
     < Rect.y (getScreenHitbox s1) + Rect.height (getScreenHitbox s1)).
Proof.
  cbn zeta.
  set (s0 := (new E x y width height w).1).
  destruct (update_hitbox_fields s0 keys deltaTime) as (Hox & Hoy & Hw & Hh & Hb).
  destruct (update_keeps_anchor s0 keys deltaTime) as (Hc & _ & _).
  set (s1 := (update s0 keys deltaTime).1) in *.
  assert (getScreenHitbox s1
          = Rect.mk (screenX s1 + width * 0.225) (screenY s1 + height * 0.275)
                    (width * 0.55) (height * 0.45)) as Hbox.
  { unfold getScreenHitbox. rewrite Hox, Hoy, Hw, Hh. reflexivity. }
  split; [exact Hbox|]. split.
  { unfold getScreenHitbox, reset. cbn. rewrite Hox, Hoy, Hw, Hh, Hc. reflexivity. }
  split; [reflexivity|].
  rewrite Hbox. unfold getScreenCenter. rewrite Hb. cbn.
  split.
  - intros Hw0 Hh0. nra.
  - intros Hw0 Hh0.
    assert (width / 2 == width * 0.5) as Hhw by field.
    assert (height / 2 == height * 0.5) as Hhh by field.
    nra.
Qed.
End CraftMotion.

(** ** Keys and camera *)
Section Input.
Local Open Scope Q_scope.
Import InputHandler InputSpec.
Variable E : JS.Env.

Ltac clamp_cases :=
  repeat match goal with
  | |- context [JS.Math_max ?a ?b] =>
      let H := fresh in destruct (Math_max_cases a b) as [[? H]|[? H]]; rewrite H in *
  | |- context [JS.Math_min ?a ?b] =>
      let H := fresh in destruct (Math_min_cases a b) as [[? H]|[? H]]; rewrite H in *
  end.

(** One rounded easing step from [a] towards [t] lands between the
    two, as doubles: the step is at most eight tenths of the gap
    however the three roundings fall. *)
Lemma ease_between (a t : Q) :
  let a' := JS.add a (JS.mul (JS.sub t a) (JS.lit 0.1)) in
  (a <= t -> JS.fl a <= a' /\ a' <= JS.fl t) /\
  (t <= a -> JS.fl t <= a' /\ a' <= JS.fl a).
Proof.
  cbn zeta. unfold JS.add, JS.mul, JS.sub, JS.lit.
  destruct (fl_nonneg 0.1 ltac:(lra)) as [Hc0 Hc1].
  set (c := JS.fl 0.1) in *. clearbody c.
  split; intros Hle.
  - destruct (fl_nonneg (t - a) ltac:(lra)) as [Hg0 Hg1].
    set (g1 := JS.fl (t - a)) in *. clearbody g1.
    assert (0 <= g1 * c /\ g1 * c <= 0.4 * (t - a)) as [Hp0 Hp1] by nra.
    destruct (fl_nonneg (g1 * c) Hp0) as [Hq0 Hq1].
    set (p1 := JS.fl (g1 * c)) in *. clearbody p1.
    split; apply fl_monotone; lra.
  - destruct (fl_nonpos (t - a) ltac:(lra)) as [Hg0 Hg1].
    set (g1 := JS.fl (t - a)) in *. clearbody g1.
    assert (g1 * c <= 0 /\ 0.4 * (t - a) <= g1 * c) as [Hp0 Hp1] by nra.
    destruct (fl_nonpos (g1 * c) Hp0) as [Hq0 Hq1].
    set (p1 := JS.fl (g1 * c)) in *. clearbody p1.
    split; apply fl_monotone; lra.
Qed.

(** Every handler keeps the camera offset and its target within
    [-100, 100]. *)
Lemma camera_offset_stays_in_range (ih : InputHandler.t) (key : string) (deltaY : Q) :
  cameraInRange new /\ cameraInRange (reset ih) /\
  (cameraInRange ih ->
   cameraInRange (handleKeyDown ih key) /\
   cameraInRange (handleKeyUp ih key) /\
   cameraInRange (handleWheel ih deltaY) /\
   cameraInRange (updateCameraOffset ih)) /\
  (-100 <= targetCameraOffset (handleWheel ih deltaY) <= 100).
Proof.
  unfold cameraInRange.
  split; [cbn; lra|]. split; [cbn; lra|]. split.
  - intros [Ht Hc]. split; [|split; [|split]].
    + unfold handleKeyDown.
      destruct (String.eqb key "arrowup"), (String.eqb key "arrowdown"); cbn;
        clamp_cases; lra.
    + cbn. lra.
    + unfold handleWheel. cbn. destruct (JS.gtb deltaY 0); clamp_cases; lra.
    + cbn [updateCameraOffset targetCameraOffset cameraOffset]. split; [exact Ht|].
      destruct Ht as [Ht0 Ht1]. destruct Hc as [Hc0 Hc1].
      destruct (ease_between (cameraOffset ih) (targetCameraOffset ih)) as [Hup Hdown].
      cbn zeta in Hup, Hdown.
      pose proof (fl_ge_int (cameraOffset ih) (-100) ltac:(lia) ltac:(unfold inject_Z; lra)).
      pose proof (fl_le_int (cameraOffset ih) 100 ltac:(lia) ltac:(unfold inject_Z; lra)).
      pose proof (fl_ge_int (targetCameraOffset ih) (-100) ltac:(lia) ltac:(unfold inject_Z; lra)).
      pose proof (fl_le_int (targetCameraOffset ih) 100 ltac:(lia) ltac:(unfold inject_Z; lra)).
      change (inject_Z (-100)) with (-100) in *. change (inject_Z 100) with 100 in *.
      destruct (Qlt_le_dec (targetCameraOffset ih) (cameraOffset ih)) as [Hlt|Hle].
      * destruct (Hdown ltac:(lra)). lra.
      * destruct (Hup Hle). lra.
  - unfold handleWheel. cbn. destruct (JS.gtb deltaY 0); clamp_cases; lra.
Qed.

(** X7. The set of held keys. A key is held after its key-down
    and not after its key-up, other keys are not affected, a repeated
    key-down changes nothing, no key is held in a new handler or after
    [reset], and a key-up leaves the camera alone. *)
Theorem key_set_round_trip (ih : InputHandler.t) (key other : string) :
  key ∈ getKeys (handleKeyDown ih key) /\
  (key ∉ getKeys (handleKeyUp ih key)) /\
  (key ∉ getKeys (handleKeyUp (handleKeyDown ih key) key)) /\
  (other <> key ->
   (other ∈ getKeys (handleKeyDown ih key) <-> other ∈ getKeys ih) /\
   (other ∈ getKeys (handleKeyUp ih key) <-> other ∈ getKeys ih)) /\
  getKeys (handleKeyDown (handleKeyDown ih key) key) = getKeys (handleKeyDown ih key) /\
  getKeys new = ∅ /\ getKeys (reset ih) = ∅ /\
  (cameraOffset (handleKeyUp ih key), targetCameraOffset (handleKeyUp ih key))
  = (cameraOffset ih, targetCameraOffset ih).
Proof.
  assert (forall ih k, keys (handleKeyDown ih k) = {[k]} ∪ keys ih) as Hdown.
  { intros ih0 k. unfold handleKeyDown.
    destruct (String.eqb k "arrowup"), (String.eqb k "arrowdown"); reflexivity. }
  unfold getKeys. rewrite !Hdown. cbn.
  split; [apply elem_of_union; left; apply elem_of_singleton; reflexivity|].
  split; [intros H; apply elem_of_difference in H as [_ H];
          apply H, elem_of_singleton; reflexivity|].
  split; [intros H; apply elem_of_difference in H as [_ H];
          apply H, elem_of_singleton; reflexivity|].
  split; [|split; [|split; [reflexivity|split; reflexivity]]].
  - intros Hne. split.
    + rewrite elem_of_union, elem_of_singleton. tauto.
    + rewrite elem_of_difference, elem_of_singleton. tauto.
  - apply set_eq. intros k. rewrite !elem_of_union. tauto.
Qed.

(** X8. Camera easing, in the arithmetic of doubles.
    [updateCameraOffset] keeps the target and the keys; the new offset
    lies between the old offset and the target (as doubles), so it
    never overshoots and never moves away, however the roundings fall;
    and while both are within [-100, 100] it is within a millionth of
    the exact step [offset + 0.1 * (target - offset)]. *)
Theorem camera_eases_towards_target (ih : InputHandler.t) :
  let ih' := updateCameraOffset ih in
  let step := cameraOffset ih + 0.1 * (targetCameraOffset ih - cameraOffset ih) in
  targetCameraOffset ih' = targetCameraOffset ih /\ keys ih' = keys ih /\
  (cameraOffset ih <= targetCameraOffset ih ->
   JS.fl (cameraOffset ih) <= cameraOffset ih' /\
   cameraOffset ih' <= JS.fl (targetCameraOffset ih)) /\
  (targetCameraOffset ih <= cameraOffset ih ->
   JS.fl (targetCameraOffset ih) <= cameraOffset ih' /\
   cameraOffset ih' <= JS.fl (cameraOffset ih)) /\
  (cameraInRange ih ->
   step - (1 # 1000000) <= cameraOffset ih' /\ cameraOffset ih' <= step + (1 # 1000000)).
Proof.
  cbn zeta. cbn [updateCameraOffset targetCameraOffset cameraOffset keys].
  split; [reflexivity|]. split; [reflexivity|].
  destruct (ease_between (cameraOffset ih) (targetCameraOffset ih)) as [Hup Hdown].
  cbn zeta in Hup, Hdown. split; [exact Hup|]. split; [exact Hdown|].
  unfold cameraInRange. intros [[Ht0 Ht1] [Ha0 Ha1]].
  unfold JS.add, JS.mul, JS.sub, JS.lit.
  set (a := cameraOffset ih) in *. set (t := targetCameraOffset ih) in *. clearbody a t.
  assert (forall x, -1000 <= x -> x <= 1000 -> Qabs x <= 1000000) as Hsmall.
  { intros x H0 H1. apply Qabs_Qle_condition. lra. }
  destruct (fl_close 0.1 (Hsmall 0.1 ltac:(lra) ltac:(lra))) as [Hc0 Hc1].
  set (c := JS.fl 0.1) in *. clearbody c.
  destruct (fl_close (t - a) (Hsmall (t - a) ltac:(lra) ltac:(lra))) as [Hg0 Hg1].
  set (g1 := JS.fl (t - a)) in *. clearbody g1.
  assert (-30 <= g1 * c /\ g1 * c <= 30) as [Hp0 Hp1] by nra.
  destruct (fl_close (g1 * c) (Hsmall (g1 * c) ltac:(lra) ltac:(lra))) as [Hq0 Hq1].
  set (p1 := JS.fl (g1 * c)) in *. clearbody p1.
  destruct (fl_close (a + p1) (Hsmall (a + p1) ltac:(lra) ltac:(lra))) as [Hr0 Hr1].
  set (a' := JS.fl (a + p1)) in *. clearbody a'.
  split; nra.
Qed.

(** The easing does stall: 400 updates towards a target of 30 bring the
    offset from 0 to the double [30 - 2^-46] (29.999999999999986), and
    there the rounded step no longer moves it. *)
Example camera_stalls_short_of_target :
  let ih := Nat.iter 400 updateCameraOffset (InputHandler.mk ∅ 0 30) in
  cameraOffset ih == 30 - (1 # 2 ^ 46) /\
  cameraOffset (updateCameraOffset ih) == cameraOffset ih.
Proof. vm_compute. split; reflexivity. Qed.
End Input.

(** ** The world layer of a frame *)
Section Frames.
Local Open Scope Q_scope.
Import Canvas RenderSpec.

Lemma paint_nil (c : ctx) : paint c [] = c.
Proof. destruct c. unfold paint. cbn. rewrite app_nil_r. reflexivity. Qed.

(** Painting twice is painting the concatenation. *)
Lemma paint_paint (c : ctx) (ds1 ds2 : list Draw) :
  paint (paint c ds1) ds2 = paint c (ds1 ++ ds2).
Proof. unfold paint. cbn. rewrite app_assoc. reflexivity. Qed.

Lemma textAt_paint (c : ctx) (ds : list Draw) (text : option string) (p : Q * Q) :
  textAt (paint c ds) text p = textAt c text p.
Proof. reflexivity. Qed.

(** A left fold of steps that each paint some draws computed in the
    frame of the context paints the concatenation. *)
Lemma fold_paint {A} (step : ctx -> A -> ctx) (draws : ctx -> A -> list Draw) (l : list A) :
  (forall c a, step c a = paint c (draws c a)) ->
  (forall c ds a, draws (paint c ds) a = draws c a) ->
  forall c, fold_left step l c = paint c (flat_map (draws c) l).
Proof.
  intros Hstep Hframe. induction l as [|a l IH]; intros c; cbn.
  - symmetry. apply paint_nil.
  - rewrite Hstep, IH, paint_paint. f_equal. f_equal.
    apply flat_map_ext. intros b. apply Hframe.
Qed.

Lemma flat_map_singleton {A B} (f : A -> B) (l : list A) :
  flat_map (fun a => [f a]) l = List.map f l.
Proof. induction l as [|a l IH]; cbn; [reflexivity | rewrite IH; reflexivity]. Qed.

Lemma drawParticles_paint (ps : list Particle.t) (c : ctx) :
  Renderer.drawParticles ps c = paint c (List.map (particleDot c) ps).
Proof.
  unfold Renderer.drawParticles.
  rewrite (fold_paint _ (fun c p => [particleDot c p]));
    [rewrite ?flat_map_singleton; reflexivity | reflexivity | reflexivity].
Qed.

Lemma drawBubbles_paint (bs : list GameObject.t) (c : ctx) :
  Renderer.drawBubbles bs c = paint c (List.map (bubbleSprite c) bs).
Proof.
  unfold Renderer.drawBubbles.
  rewrite (fold_paint _ (fun c b => [bubbleSprite c b]));
    [rewrite ?flat_map_singleton; reflexivity | reflexivity | reflexivity].
Qed.

Lemma drawObstacles_paint (os : list GameObject.t) (c : ctx) :
  Renderer.drawObstacles os c = paint c (List.map (rockSprite c) os).
Proof.
  unfold Renderer.drawObstacles.
  rewrite (fold_paint _ (fun c o => [rockSprite c o]));
    [rewrite ?flat_map_singleton; reflexivity | reflexivity | reflexivity].
Qed.

Lemma drawMonster_paint (c : ctx) (m : GameObject.t) :
  Renderer.drawMonster c m = paint c (monsterSprite c m).
Proof.
  unfold Renderer.drawMonster, monsterSprite.
  destruct (GameObject.visible m); [|symmetry; apply paint_nil].
  destruct (String.eqb (GameObject.type m) "squid"); reflexivity.
Qed.

Lemma drawMonsters_paint (ms : list GameObject.t) (c : ctx) :
  Renderer.drawMonsters ms c = paint c (flat_map (monsterSprite c) ms).
Proof.
  unfold Renderer.drawMonsters. apply fold_paint; [apply drawMonster_paint | reflexivity].
Qed.

Lemma drawWorldObjectHitbox_paint (off : Q) (c : ctx) (o : GameObject.t) :
  Renderer.drawWorldObjectHitbox off c o
  = paint c [strokeOf c (CollisionDetector.getWorldObjectScreenHitbox o off)].
Proof. reflexivity. Qed.

Lemma drawDebugHitboxes_paint (sub : Submarine.t) (ms os bs : list GameObject.t)
    (depth cam : Q) (c : ctx) :
  Renderer.drawDebugHitboxes sub ms os bs depth cam c
  = paint c (debugLayer c sub ms os bs (CollisionDetector.calculateDepthOffset depth cam)).
Proof.
  unfold Renderer.drawDebugHitboxes, debugLayer.
  change (- depth + 300 + cam) with (CollisionDetector.calculateDepthOffset depth cam).
  set (off := CollisionDetector.calculateDepthOffset depth cam).
  set (hb := fun c o => [strokeOf c (CollisionDetector.getWorldObjectScreenHitbox o off)]).
  assert (forall l c, fold_left (Renderer.drawWorldObjectHitbox off) l c
                      = paint c (List.map (fun o => strokeOf c
                           (CollisionDetector.getWorldObjectScreenHitbox o off)) l)) as Hfold.
  { intros l c0. rewrite (fold_paint _ hb); [| reflexivity | reflexivity].
    unfold hb. rewrite flat_map_singleton. reflexivity. }
  rewrite !Hfold.
  change (restore (strokeRect (Rect.x (Submarine.getScreenHitbox sub))
            (Rect.y (Submarine.getScreenHitbox sub)) (Rect.width (Submarine.getScreenHitbox sub))
            (Rect.height (Submarine.getScreenHitbox sub)) (save c)))
    with (paint c [strokeOf c (Submarine.getScreenHitbox sub)]).
  rewrite !paint_paint. rewrite !List.map_app. cbn [app].
  rewrite <- ?app_assoc. reflexivity.
Qed.

(** X9. The world layer of a frame. After [render] the canvas
    has the transform and the stack it had before, and the world-layer
    drawing is: the particles, the bubbles, the rocks, the visible
    creatures and, in debug mode only, the debug rectangles, all drawn
    in the camera frame; the depth colour is the one of
    [updateDepthColor]. *)
Theorem render_frame (r : Renderer.t) (gs : GameState.t) (sub : Submarine.t)
    (ms os bs : list GameObject.t) (ps : list Particle.t) (cam : Q) (debugMode : bool) :
  let c0 := Renderer.ctx r in
  let camera := Renderer.applyCamera gs cam (clear c0) in
  let off := CollisionDetector.calculateDepthOffset (GameState.depth gs) cam in
  Renderer.ctx (Renderer.render r gs sub ms os bs ps cam debugMode)
  = Canvas.mk (sx c0) (sy c0) (tx c0) (ty c0) (saved c0)
      (worldLayer camera ps bs os ms
       ++ (if debugMode then debugLayer camera sub ms os bs off else [])) /\
  Renderer.depthColor (Renderer.render r gs sub ms os bs ps cam debugMode)
  = Renderer.depthColor (Renderer.updateDepthColor r (GameState.depth gs)).
Proof.
  cbn zeta. split; [|reflexivity].
  unfold Renderer.render. cbn [Renderer.ctx].
  set (camera := Renderer.applyCamera gs cam (clear (Renderer.ctx r))).
  rewrite drawParticles_paint, drawBubbles_paint, drawObstacles_paint, drawMonsters_paint.
  assert (forall ds, restore (paint camera ds)
                     = Canvas.mk (sx (Renderer.ctx r)) (sy (Renderer.ctx r)) (tx (Renderer.ctx r)) (ty (Renderer.ctx r))
                         (saved (Renderer.ctx r)) ds) as Hrestore by reflexivity.
  destruct debugMode.
  - rewrite drawDebugHitboxes_paint. rewrite !paint_paint, Hrestore.
    unfold worldLayer. rewrite <- !app_assoc. reflexivity.
  - rewrite !paint_paint, Hrestore. unfold worldLayer.
    rewrite app_nil_r, <- !app_assoc. reflexivity.
Qed.
End Frames.

Section Sprites.
Local Open Scope Q_scope.
Import Canvas RenderSpec.

(** The camera frame: the frame of the canvas moved down by the depth
    offset, in device units. *)
Lemma camera_frame (gs : GameState.t) (cam : Q) (c0 : ctx) (x y : Q) :
  let off := CollisionDetector.calculateDepthOffset (GameState.depth gs) cam in
  deviceX (Renderer.applyCamera gs cam c0) x == deviceX c0 x /\
  deviceY (Renderer.applyCamera gs cam c0) y == deviceY c0 (y + off) /\
  sx (Renderer.applyCamera gs cam c0) = sx c0 /\
  sy (Renderer.applyCamera gs cam c0) = sy c0.
Proof.
  cbn zeta. unfold Renderer.applyCamera, CollisionDetector.calculateDepthOffset,
    deviceX, deviceY. cbn. repeat split; ring.
Qed.

(** The centre of an entity of positive size lies strictly inside its
    hitbox, for each kind. *)
Lemma center_in_hitbox (o : GameObject.t) :
  0 < GameObject.width o -> 0 < GameObject.height o ->
  Rect.x (GameObject.getHitbox o) < (GameObject.getCenter o).1
    < Rect.x (GameObject.getHitbox o) + Rect.width (GameObject.getHitbox o) /\
  Rect.y (GameObject.getHitbox o) < (GameObject.getCenter o).2
    < Rect.y (GameObject.getHitbox o) + Rect.height (GameObject.getHitbox o).
Proof.
  intros Hw Hh. unfold GameObject.getCenter. cbn [fst snd].
  assert (GameObject.width o / 2 == GameObject.width o * 0.5) as Hhw by field.
  assert (GameObject.height o / 2 == GameObject.height o * 0.5) as Hhh by field.
  destruct (HitboxSpec.kindFractions (GameObject.type o)) as [[[[fx fy] fw] fh]|] eqn:Hk.
  - rewrite (getHitbox_fractions o fx fy fw fh Hk). unfold HitboxSpec.shrunkRect. cbn.
    unfold HitboxSpec.kindFractions in Hk.
    repeat match type of Hk with
    | (if ?c then _ else _) = _ => destruct c
    end; inversion Hk; subst; nra.
  - rewrite (getHitbox_default o Hk). unfold HitboxSpec.boundingRect. cbn. nra.
Qed.

(** X10. Sprites and hitboxes. Bubbles, rocks and visible
    creatures other than squids are drawn at the centre of their
    rectangle moved by the depth offset, and for an entity of positive
    size that point lies strictly inside the hitbox the collision
    passes test. *)
Theorem sprite_anchor_inside_collision_hitbox (gs : GameState.t) (cam : Q) (c0 : ctx)
    (o : GameObject.t) :
  let off := CollisionDetector.calculateDepthOffset (GameState.depth gs) cam in
  let camera := Renderer.applyCamera gs cam c0 in
  let hb := CollisionDetector.getWorldObjectScreenHitbox o off in
  let cx := (GameObject.getCenter o).1 in
  let cy := (GameObject.getCenter o).2 in
  (exists X Y,
     bubbleSprite camera o = FillText (Some "🫧") X Y /\
     rockSprite camera o = FillText (Some "🪨") X Y /\
     (GameObject.visible o = true -> GameObject.type o <> "squid" ->
      monsterSprite camera o = [FillText (Renderer.emojiMap (GameObject.type o)) X Y]) /\
     X == deviceX c0 cx /\ Y == deviceY c0 (cy + off)) /\
  (0 < GameObject.width o -> 0 < GameObject.height o ->
   Rect.x hb < cx < Rect.x hb + Rect.width hb /\
   Rect.y hb < cy + off < Rect.y hb + Rect.height hb).
Proof.
  cbn zeta. split.
  - eexists _, _. split; [reflexivity|]. split; [reflexivity|]. split.
    + intros Hv Hne. unfold monsterSprite. rewrite Hv.
      destruct (String.eqb_spec (GameObject.type o) "squid") as [Heq|_]; [contradiction|].
      reflexivity.
    + destruct (camera_frame gs cam c0 (GameObject.getCenter o).1 (GameObject.getCenter o).2)
        as (Hx & Hy & _). split; assumption.
  - intros Hw Hh. destruct (center_in_hitbox o Hw Hh) as [Hx Hy].
    unfold CollisionDetector.getWorldObjectScreenHitbox. cbn [Rect.x Rect.y Rect.width Rect.height].
    split; [exact Hx | lra].
Qed.

(** X11. The squid. An invisible creature draws nothing. A
    visible squid is drawn at its centre displaced by its width to the
    right and by its own world y downwards, so away from the hitbox
    that is tested. *)
Theorem squid_sprite_displaced (gs : GameState.t) (cam : Q) (c0 : ctx) (m : GameObject.t) :
  let off := CollisionDetector.calculateDepthOffset (GameState.depth gs) cam in
  let camera := Renderer.applyCamera gs cam c0 in
  (GameObject.visible m = false -> Renderer.drawMonster camera m = camera) /\
  (GameObject.visible m = true -> GameObject.type m = "squid" ->
   exists X Y,
     Renderer.drawMonster camera m = paint camera [FillText (Some "🦑") X Y] /\
     X == deviceX c0 ((GameObject.getCenter m).1 + GameObject.width m) /\
     Y == deviceY c0 ((GameObject.getCenter m).2 + GameObject.y m + off)).
Proof.
  cbn zeta. split.
  - intros Hv. unfold Renderer.drawMonster. rewrite Hv. reflexivity.
  - intros Hv Hsq. rewrite drawMonster_paint. unfold monsterSprite. rewrite Hv, Hsq.
    eexists _, _. split; [reflexivity|].
    unfold flippedFrame, Renderer.applyCamera, CollisionDetector.calculateDepthOffset,
      deviceX, deviceY, GameObject.getCenter. cbn. split; ring.
Qed.

(** X12. Debug rectangles. In debug mode the rectangle of the
    craft and the rectangle of each entity are drawn inside the camera
    transform, so each appears the depth offset (times the vertical
    scale) below the rectangle the collision passes test; the
    horizontal position is the tested one. *)
Theorem debug_rectangles_shifted_by_camera (gs : GameState.t) (cam : Q) (c0 : ctx)
    (sub : Submarine.t) (o : GameObject.t) :
  let off := CollisionDetector.calculateDepthOffset (GameState.depth gs) cam in
  let camera := Renderer.applyCamera gs cam c0 in
  let tested := CollisionDetector.getWorldObjectScreenHitbox o off in
  let craft := Submarine.getScreenHitbox sub in
  (exists Y,
     Renderer.drawDebugHitboxes sub [o] [] [] (GameState.depth gs) cam camera
     = paint camera
         [StrokeRect (deviceX camera (Rect.x craft)) (deviceY camera (Rect.y craft))
                     (sx c0 * Rect.width craft) (sy c0 * Rect.height craft);
          StrokeRect (deviceX camera (Rect.x tested)) Y
                     (sx c0 * Rect.width tested) (sy c0 * Rect.height tested)] /\
     Y == deviceY c0 (Rect.y tested) + sy c0 * off) /\
  deviceY camera (Rect.y craft) == deviceY c0 (Rect.y craft) + sy c0 * off /\
  deviceX camera (Rect.x tested) == deviceX c0 (Rect.x tested).
Proof.
  cbn zeta. split; [|split].
  - eexists. split.
    + rewrite drawDebugHitboxes_paint. reflexivity.
    + unfold Renderer.applyCamera, CollisionDetector.calculateDepthOffset, deviceY. cbn. ring.
  - unfold Renderer.applyCamera, CollisionDetector.calculateDepthOffset, deviceY. cbn. ring.
  - unfold Renderer.applyCamera, deviceX. cbn. ring.
Qed.
End Sprites.

(** ** Sonar and menus *)
Section SonarAndMenus.
Local Open Scope Q_scope.
Import Game GameSpec ControlsSpec.

(** The branch of [activateSonar] when the sonar is ready; the other
    branch follows. *)
Lemma activateSonar_ready (g : Game.t) :
  sonarReady g = true ->
  activateSonar g
  = showHint SonarActivated
      (set_gameState
         (GameState.set_sonarCooldown 5
            (GameState.set_sonarActive true
               (GameState.set_energy
                  (JS.Math_max 0 (GameState.energy (gameState g) - sonarCost g))
                  (gameState g)))) g).
Proof. unfold sonarReady, activateSonar. intros ->. reflexivity. Qed.

Lemma activateSonar_idle (g : Game.t) :
  sonarReady g = false ->
  activateSonar g
  = if JS.ltb (GameState.energy (gameState g)) 20 then showHint LowEnergy g
    else if JS.gtb (GameState.sonarCooldown (gameState g)) 0 then showHint SonarOnCooldown g
    else g.
Proof. unfold sonarReady, activateSonar. intros ->. reflexivity. Qed.

Lemma activateSonar_idle_gameState (g : Game.t) :
  sonarReady g = false -> gameState (activateSonar g) = gameState g.
Proof.
  intros H. rewrite (activateSonar_idle g H).
  destruct (JS.ltb _ 20); [reflexivity|]. destruct (JS.gtb _ 0); reflexivity.
Qed.

(** X13. The sonar. When the energy is at least 20, the
    cooldown has run out and the sonar is off, activation takes the
    cost (20, or 10 with the advanced sonar), switches the sonar on
    and sets the cooldown to 5;
    otherwise the game state is unchanged and the hint names low
    energy first, the cooldown second. A second activation in a row
    never changes the game state. *)
Theorem activateSonar_contract (g : Game.t) :
  (sonarReady g = true ->
   exists energy',
     gameState (activateSonar g)
     = GameState.set_sonarCooldown 5
         (GameState.set_sonarActive true (GameState.set_energy energy' (gameState g))) /\
     energy' == GameState.energy (gameState g) - sonarCost g /\
     hint (activateSonar g) = Some SonarActivated) /\
  (sonarReady g = false ->
   gameState (activateSonar g) = gameState g /\
   (GameState.energy (gameState g) < 20 -> hint (activateSonar g) = Some LowEnergy) /\
   (20 <= GameState.energy (gameState g) -> 0 < GameState.sonarCooldown (gameState g) ->
    hint (activateSonar g) = Some SonarOnCooldown)) /\
  gameState (activateSonar (activateSonar g)) = gameState (activateSonar g).
Proof.
  split; [|split].
  - intros Hready. rewrite (activateSonar_ready g Hready). eexists.
    split; [reflexivity|]. split; [|reflexivity].
    unfold sonarReady in Hready. apply andb_prop in Hready as [Hready _].
    apply andb_prop in Hready as [He _]. js_facts.
    unfold sonarCost.
    destruct (advancedSonar (upgrades g));
      match goal with
      | |- JS.Math_max ?a ?b == _ => destruct (Math_max_cases a b) as [[? ->]|[? ->]]
      end; lra.
  - intros Hidle. split; [apply activateSonar_idle_gameState, Hidle|].
    rewrite (activateSonar_idle g Hidle). split.
    + intros Hlt. apply ltb_true in Hlt. rewrite Hlt. reflexivity.
    + intros Hge Hcd. apply ltb_false in Hge. apply gtb_true in Hcd.
      rewrite Hge, Hcd. reflexivity.
  - destruct (sonarReady g) eqn:Hready.
    + apply activateSonar_idle_gameState.
      rewrite (activateSonar_ready g Hready). unfold sonarReady. cbn.
      apply andb_false_r.
    + apply activateSonar_idle_gameState.
      unfold sonarReady. rewrite (activateSonar_idle_gameState g Hready). exact Hready.
Qed.

(** X14. Menus. [toggleMenu] closes the menu if it is the open
    one and opens it otherwise (replacing another open menu), toggling
    twice from no menu or from that menu gives the state back, and the
    keys escape, m and u close, toggle missions and toggle upgrades. *)
Theorem menu_toggle_contract (name : string) (g : Game.t) :
  toggleMenu name g
  = set_menuOpen (if bool_decide (menuOpen g = Some name) then None else Some name) g /\
  closeMenu (toggleMenu name g) = closeMenu g /\
  (menuOpen g = None \/ menuOpen g = Some name ->
   toggleMenu name (toggleMenu name g) = g) /\
  menuOpen (handleKeyDown "escape" g) = None /\
  menuOpen (handleKeyDown "m" g)
  = (if bool_decide (menuOpen g = Some "missions") then None else Some "missions") /\
  menuOpen (handleKeyDown "u" g)
  = (if bool_decide (menuOpen g = Some "upgrades") then None else Some "upgrades").
Proof.
  split; [|split; [|split; [|split; [|split]]]].
  - unfold toggleMenu, closeMenu, openMenu. case_bool_decide; reflexivity.
  - unfold toggleMenu, closeMenu, openMenu. case_bool_decide; reflexivity.
  - intros H. unfold toggleMenu, closeMenu, openMenu.
    destruct (decide (menuOpen g = Some name)) as [Heq|Hne].
    + rewrite (bool_decide_eq_true_2 _ Heq). cbn.
      rewrite bool_decide_eq_false_2 by discriminate. destruct g; cbn in *; subst; reflexivity.
    + rewrite (bool_decide_eq_false_2 _ Hne). cbn.
      rewrite bool_decide_eq_true_2 by reflexivity.
      destruct H as [H|H]; [|contradiction]. destruct g; cbn in *; subst; reflexivity.
  - reflexivity.
  - unfold handleKeyDown. cbn. unfold toggleMenu, closeMenu, openMenu. cbn.
    case_bool_decide; reflexivity.
  - unfold handleKeyDown. cbn. unfold toggleMenu, closeMenu, openMenu. cbn.
    case_bool_decide; reflexivity.
Qed.
End SonarAndMenus.

(** ** Upgrades *)
Section UpgradeFacts.
Local Open Scope Q_scope.
Import Game GameSpec UpgradeSpec.

(** The upgrades after [unlockUpgrades]. *)
Lemma unlockUpgrades_upgrades (d : Q) (g : Game.t) :
  upgrades (unlockUpgrades d g) = unlockedAt d (upgrades g).
Proof.
  unfold unlockUpgrades, unlockedAt. cbv zeta.
  destruct g as [? ? ? ? ? ? ? ? ? u ? ? ? ? ? ? ? ? ? ? ? ?]. destruct u as [a b c e].
  cbn [upgrades oxygenTank advancedSonar reinforcedHull turboThrust].
  destruct (JS.geb d 3000), (JS.geb d 5000), (JS.geb d 7000), (JS.geb d 9000),
    a, b, c, e; reflexivity.
Qed.

(** When every upgrade that is due is already set, [unlockUpgrades]
    does nothing. *)
Lemma unlockUpgrades_settled (d : Q) (g : Game.t) :
  upgrades g = unlockedAt d (upgrades g) -> unlockUpgrades d g = g.
Proof.
  unfold unlockUpgrades, unlockedAt. cbv zeta.
  destruct g as [? ? ? ? ? ? ? ? ? u ? ? ? ? ? ? ? ? ? ? ? ?]. destruct u as [a b c e].
  cbn [upgrades oxygenTank advancedSonar reinforcedHull turboThrust].
  intros Heq. inversion Heq as [[Ha Hb Hc He]]. clear Heq.
  destruct (JS.geb d 3000), (JS.geb d 5000), (JS.geb d 7000), (JS.geb d 9000),
    a, b, c, e; try discriminate; reflexivity.
Qed.

Lemma unlockedAt_idem (d : Q) (u : Upgrades) : unlockedAt d (unlockedAt d u) = unlockedAt d u.
Proof.
  unfold unlockedAt. cbn.
  destruct (JS.geb d 3000), (JS.geb d 5000), (JS.geb d 7000), (JS.geb d 9000),
    (oxygenTank u), (advancedSonar u), (reinforcedHull u), (turboThrust u); reflexivity.
Qed.

(** With no reward due the claiming loop does nothing. *)
Lemma fold_claimReward_none_due (d : Q) (rs : list Reward) (g : Game.t) :
  (forall r, r ∈ rs -> due d (claimedRewards g) (depth r) = false) ->
  fold_left (claimReward d) rs g = g.
Proof.
  induction rs as [|r rs IH]; intros Hnone; cbn; [reflexivity|].
  rewrite (claimReward_not_due d g r) by (apply Hnone; left).
  apply IH. intros r' Hr'. apply Hnone. right. exact Hr'.
Qed.

(** X15. The depth rewards are idempotent: a second
    [checkDepthRewards] at the same depth changes nothing (no points,
    no oxygen, no hint, no upgrade). *)
Theorem checkDepthRewards_idempotent (g : Game.t) :
  checkDepthRewards (checkDepthRewards g) = checkDepthRewards g.
Proof.
  destruct (checkDepthRewards_books g) as (Hd & Hc & _ & _).
  set (g2 := checkDepthRewards g) in *.
  unfold checkDepthRewards at 1. cbv zeta. rewrite Hd.
  rewrite fold_claimReward_none_due.
  - apply unlockUpgrades_settled. unfold g2, checkDepthRewards. cbv zeta.
    rewrite unlockUpgrades_upgrades. symmetry. apply unlockedAt_idem.
  - intros r Hr. unfold due.
    destruct (JS.geb (GameState.depth (gameState g)) (inject_Z (depth r))) eqn:Hge;
      [|reflexivity].
    js_facts. cbn. apply negb_false_iff, bool_decide_eq_true. apply Hc. right.
    split; [|exact Hge]. unfold thresholds. apply list_elem_of_fmap. exists r.
    split; [reflexivity | exact Hr].
Qed.
End UpgradeFacts.

(** ** Spawning *)
Section Spawning.
Local Open Scope Q_scope.
Import Game GameSpec OracleSpec.
Variable E : JS.Env.

(** [Math.floor(Math.random() * n)] is an index below [n]. *)
Lemma Qfloor_unit_times (r : Q) (n : Z) :
  0 <= r -> r < 1 -> (0 < n)%Z -> (0 <= Qfloor (r * inject_Z n) < n)%Z.
Proof.
  intros H0 H1 Hn.
  assert (0 < inject_Z n) as Hn'.
  { change 0 with (inject_Z 0). rewrite <- Zlt_Qlt. exact Hn. }
  split.
  - change 0%Z with (Qfloor (inject_Z 0)). apply Qfloor_resp_le.
    change (inject_Z 0) with 0. nra.
  - apply Z.lt_nge. intros Hge.
    pose proof (Qfloor_le (r * inject_Z n)) as Hle.
    assert (inject_Z n <= inject_Z (Qfloor (r * inject_Z n))) as Hz
      by (rewrite <- Zle_Qle; exact Hge).
    nra.
Qed.

Lemma Qdiv_nonneg (d c : Q) : 0 <= d -> 0 < c -> 0 <= d / c.
Proof.
  intros Hd Hc. unfold Qdiv. apply Qmult_le_0_compat; [exact Hd|].
  apply Qinv_le_0_compat. lra.
Qed.

(** The culling test fails inside the horizontal and vertical bounds. *)
Lemma isOffScreen_false (o : GameObject.t) (d : Q) :
  -200 <= GameObject.x o -> GameObject.x o <= 1000 ->
  -1200 <= GameObject.y o - d -> GameObject.y o - d <= 1200 ->
  GameObject.isOffScreen o 800 600 d = false.
Proof.
  intros Hx1 Hx2 Hy1 Hy2. unfold GameObject.isOffScreen.
  assert (JS.ltb (GameObject.x o) (-200) = false) as -> by (apply ltb_false; lra).
  assert (JS.gtb (GameObject.x o) (800 + 200) = false) as -> by (apply gtb_false; lra).
  cbn [orb].
  assert (JS.gtb (JS.Math_abs (GameObject.y o - d)) 1200 = false) as ->; [|reflexivity].
  apply gtb_false.
  destruct (Math_abs_cases (GameObject.y o - d)) as [[? ->]|[? ->]]; lra.
Qed.

Lemma small_abs (x : Q) : -1000000 <= x -> x <= 1000000 -> Qabs x <= 1000000.
Proof. intros H0 H1. apply Qabs_Qle_condition. lra. Qed.

(** [Math.random() * n] for an integer [n]: between 0 and [n], both
    ends included once the product is rounded. *)
Lemma scaled_draw (r : Q) (n : Z) :
  0 <= r -> r < 1 -> (0 <= n <= 2 ^ 53)%Z ->
  0 <= JS.mul r (inject_Z n) /\ JS.mul r (inject_Z n) <= inject_Z n.
Proof.
  intros H0 H1 Hn. unfold JS.mul.
  assert (0 <= inject_Z n) as Hq by (change 0 with (inject_Z 0); rewrite <- Zle_Qle; lia).
  split.
  - apply (fl_ge_int _ 0); [lia | change (inject_Z 0) with 0; nra].
  - apply (fl_le_int _ n); [lia | nra].
Qed.

(** [base + Math.random() * n], the way the spawn heights are
    computed: between [base] and [base + n] as doubles, and within a
    billionth of the exact range. *)
Lemma offset_draw (d : Q) (k n : Z) (r : Q) :
  0 <= r -> r < 1 -> (0 <= n <= 2000)%Z -> (0 <= k <= 2000)%Z ->
  0 <= d -> d <= 11000 ->
  let y := JS.add (JS.add d (inject_Z k)) (JS.mul r (inject_Z n)) in
  JS.add d (inject_Z k) <= y /\ y <= JS.add (JS.add d (inject_Z k)) (inject_Z n) /\
  d + inject_Z k - (1 # 100000000) <= y /\ y <= d + inject_Z k + inject_Z n + (1 # 100000000).
Proof.
  intros H0 H1 Hn Hk Hd0 Hd1. cbn zeta.
  destruct (scaled_draw r n H0 H1 ltac:(lia)) as [Hm0 Hm1].
  set (m := JS.mul r (inject_Z n)) in *. clearbody m.
  assert (0 <= inject_Z k /\ inject_Z k <= 2000) as [Hk0 Hk1].
  { change 0 with (inject_Z 0). change 2000 with (inject_Z 2000).
    rewrite <- !Zle_Qle. lia. }
  assert (0 <= inject_Z n /\ inject_Z n <= 2000) as [Hn0 Hn1].
  { change 0 with (inject_Z 0). change 2000 with (inject_Z 2000).
    rewrite <- !Zle_Qle. lia. }
  set (qk := inject_Z k) in *. set (qn := inject_Z n) in *. clearbody qk qn.
  unfold JS.add.
  destruct (fl_close (d + qk) (small_abs (d + qk) ltac:(lra) ltac:(lra))) as [Hb0 Hb1].
  pose proof (fl_idempotent (d + qk)) as Hidem.
  set (b := JS.fl (d + qk)) in *. clearbody b.
  destruct (fl_close (b + m) (small_abs (b + m) ltac:(lra) ltac:(lra))) as [Hy0 Hy1].
  split; [|split; [|split]].
  - apply (Qle_trans _ (JS.fl b)); [rewrite Hidem; apply Qle_refl|].
    apply fl_monotone. lra.
  - apply fl_monotone. lra.
  - lra.
  - lra.
Qed.

(** [c + Math.random() * n] and [Math.random() * n + c] for integers. *)
Lemma shifted_draw (r : Q) (c n : Z) :
  0 <= r -> r < 1 -> (0 <= n <= 2000)%Z -> (0 <= c <= 2000)%Z ->
  (inject_Z c <= JS.add (inject_Z c) (JS.mul r (inject_Z n)) /\
   JS.add (inject_Z c) (JS.mul r (inject_Z n)) <= inject_Z (c + n)) /\
  (inject_Z c <= JS.add (JS.mul r (inject_Z n)) (inject_Z c) /\
   JS.add (JS.mul r (inject_Z n)) (inject_Z c) <= inject_Z (c + n)).
Proof.
  intros H0 H1 Hn Hc.
  destruct (scaled_draw r n H0 H1 ltac:(lia)) as [Hm0 Hm1].
  set (m := JS.mul r (inject_Z n)) in *. clearbody m. unfold JS.add.
  rewrite inject_Z_plus.
  split; split.
  - apply (fl_ge_int _ c); [lia | lra].
  - rewrite <- inject_Z_plus. apply (fl_le_int _ (c + n)); [lia | rewrite inject_Z_plus; lra].
  - apply (fl_ge_int _ c); [lia | lra].
  - rewrite <- inject_Z_plus. apply (fl_le_int _ (c + n)); [lia | rewrite inject_Z_plus; lra].
Qed.

(** The depth factors [1 + depth / 5000] and [1 + depth / 10000]. *)
Lemma depth_factor (d c : Q) :
  0 <= d -> d <= 11000 -> 5000 <= c ->
  1 <= JS.add 1 (JS.div d c) /\ JS.add 1 (JS.div d c) <= 4.
Proof.
  intros Hd0 Hd1 Hc. unfold JS.add, JS.div.
  assert (0 <= d / c /\ d / c <= 3) as [Hq0 Hq1].
  { split; [apply Qdiv_nonneg; lra|].
    apply Qle_shift_div_r; lra. }
  assert (0 <= JS.fl (d / c) /\ JS.fl (d / c) <= 3) as [Hf0 Hf1].
  { split; [apply (fl_ge_int _ 0); [lia | exact Hq0]
           | apply (fl_le_int _ 3); [lia | exact Hq1]]. }
  split; [apply (fl_ge_int _ 1); [lia | change (inject_Z 1) with 1; lra]
         | apply (fl_le_int _ 4); [lia | change (inject_Z 4) with 4; lra]].
Qed.

(** The horizontal velocity has the sign of the direction. *)
Lemma velocity_sign (bs f : Q) :
  (59 # 100) <= bs -> bs <= 2 -> 1 <= f -> f <= 4 ->
  0 < JS.mul (JS.mul 1 bs) f /\ JS.mul (JS.mul (-1) bs) f < 0.
Proof.
  intros Hb0 Hb1 Hf0 Hf1. unfold JS.mul.
  destruct (fl_close (1 * bs) (small_abs (1 * bs) ltac:(lra) ltac:(lra))) as [Ha0 Ha1].
  destruct (fl_close (-1 * bs) (small_abs (-1 * bs) ltac:(lra) ltac:(lra))) as [Hc0 Hc1].
  set (p := JS.fl (1 * bs)) in *. set (n := JS.fl (-1 * bs)) in *. clearbody p n.
  assert ((58 # 100) <= p * f /\ p * f <= 10) as [Hp0 Hp1] by nra.
  assert (-10 <= n * f /\ n * f <= - (58 # 100)) as [Hn0 Hn1] by nra.
  destruct (fl_close (p * f) (small_abs (p * f) ltac:(lra) ltac:(lra))) as [Hq0 Hq1].
  destruct (fl_close (n * f) (small_abs (n * f) ltac:(lra) ltac:(lra))) as [Hr0 Hr1].
  split; lra.
Qed.

(** The base speeds, as doubles. *)
Lemma baseSpeed_bounds (c : Q) :
  (6 # 10) <= c -> c <= (15 # 10) -> (59 # 100) <= JS.lit c /\ JS.lit c <= 2.
Proof.
  intros H0 H1. unfold JS.lit.
  destruct (fl_close c (small_abs c ltac:(lra) ltac:(lra))). split; lra.
Qed.

(** The vertical velocity [(Math.random() - 0.5) * 0.3]. *)
Lemma velocityY_bounds (r : Q) :
  0 <= r -> r < 1 ->
  - (151 # 1000) <= JS.mul (JS.sub r 0.5) (JS.lit 0.3) /\
  JS.mul (JS.sub r 0.5) (JS.lit 0.3) <= 151 # 1000.
Proof.
  intros H0 H1. unfold JS.mul, JS.sub, JS.lit.
  destruct (fl_close 0.3 (small_abs 0.3 ltac:(lra) ltac:(lra))) as [Hc0 Hc1].
  destruct (fl_close (r - 0.5) (small_abs (r - 0.5) ltac:(lra) ltac:(lra))) as [Hs0 Hs1].
  set (c := JS.fl 0.3) in *. set (s := JS.fl (r - 0.5)) in *. clearbody c s.
  assert (- (1501 # 10000) <= s * c /\ s * c <= 1501 # 10000) as [Hp0 Hp1] by nra.
  destruct (fl_close (s * c) (small_abs (s * c) ltac:(lra) ltac:(lra))) as [Hq0 Hq1].
  split; lra.
Qed.

(** The health [Math.floor(base * depthMultiplier)]. *)
Lemma health_floor (b : Z) (f : Q) :
  (100 <= b <= 2000)%Z -> 1 <= f ->
  100 <= JS.Math_floor (JS.mul (inject_Z b) f).
Proof.
  intros Hb Hf. unfold JS.Math_floor, JS.mul.
  assert (100 <= inject_Z b) as Hq by (change 100 with (inject_Z 100); rewrite <- Zle_Qle; lia).
  change 100 with (inject_Z 100). rewrite <- Zle_Qle.
  change 100%Z with (Qfloor (inject_Z 100)). apply Qfloor_resp_le.
  apply (fl_ge_int _ 100); [lia | change (inject_Z 100) with 100; nra].
Qed.

(** X16. One spawned creature, for a random source in [0, 1) and
    a depth in [0, 11000], in the arithmetic of doubles. It takes four
    draws and one clock reading, gets the next id, is of one of the
    four kinds, starts just outside the left edge moving right or just
    outside the right edge moving left, at a height between the
    doubles [depth + 600] and [(depth + 600) + 400], both included,
    with a vertical velocity within 0.151, invisible, with at least
    100 health, and is not culled at that depth. *)
Theorem spawnMonster_enters_from_a_side (d : Q) (g : Game.t) (w : JS.World) :
  unitDraws E -> 0 <= d -> d <= 11000 ->
  exists m,
    spawnMonster E d g w
    = (set_monsters (monsters g ++ [m]) (set_nextMonsterId (nextMonsterId g + 1)%Z g),
       JS.mkWorld (S (JS.clockReads w)) (4 + JS.randomDraws w)) /\
    GameObject.id m = nextMonsterId g /\
    GameObject.type m ∈ monsterTypes /\
    ((GameObject.x m = -100 /\ 0 < GameObject.velocityX m) \/
     (GameObject.x m = 900 /\ GameObject.velocityX m < 0)) /\
    (JS.add d 600 <= GameObject.y m /\
     GameObject.y m <= JS.add (JS.add d 600) 400) /\
    (- (151 # 1000) <= GameObject.velocityY m /\ GameObject.velocityY m <= 151 # 1000) /\
    GameObject.visible m = false /\
    100 <= GameObject.health m /\
    GameObject.isOffScreen m 800 600 d = false.
Proof.
  intros Hunit Hd0 Hd1.
  unfold spawnMonster, JS.bind, JS.random, JS.ret, GameObject.new, JS.now.
  eexists. split; [reflexivity|].
  cbn -[index Qfloor inject_Z monsterTypes JS.add JS.mul JS.sub JS.div JS.lit].
  pose proof (Hunit (JS.randomDraws w)) as [Ht0 Ht1].
  pose proof (Hunit (S (S (JS.randomDraws w)))) as [Hy0 Hy1].
  pose proof (Hunit (S (S (S (JS.randomDraws w))))) as [Hv0 Hv1].
  pose proof (Qfloor_unit_times _ 4 Ht0 Ht1 eq_refl) as Hz.
  change (inject_Z (Z.of_nat (length monsterTypes))) with (inject_Z 4).
  set (z := Qfloor (JS.Math_random E (JS.randomDraws w) * inject_Z 4)) in *.
  set (rd := JS.Math_random E (S (JS.randomDraws w))) in *.
  clearbody z rd.
  destruct (offset_draw d 600 400 _ Hy0 Hy1 ltac:(lia) ltac:(lia) Hd0 Hd1)
    as (Hya & Hyb & Hyc & Hyd).
  change (inject_Z 600) with 600 in *. change (inject_Z 400) with 400 in *.
  set (y := JS.add (JS.add d 600) (JS.mul _ 400)) in *. clearbody y.
  pose proof (velocityY_bounds _ Hv0 Hv1) as Hvy.
  set (vy := JS.mul (JS.sub _ 0.5) (JS.lit 0.3)) in *. clearbody vy.
  destruct (depth_factor d 5000 Hd0 Hd1 ltac:(lra)) as [Hf0 _].
  destruct (depth_factor d 10000 Hd0 Hd1 ltac:(lra)) as [Hg0 Hg1].
  set (f5 := JS.add 1 (JS.div d 5000)) in *.
  set (f10 := JS.add 1 (JS.div d 10000)) in *. clearbody f5 f10.
  assert (index monsterTypes z = "squid" \/ index monsterTypes z = "angler" \/
          index monsterTypes z = "viper" \/ index monsterTypes z = "shark") as Hty.
  { assert (z = 0 \/ z = 1 \/ z = 2 \/ z = 3)%Z as Hcases by lia.
    destruct Hcases as [-> | [-> | [-> | ->]]]; [left | right; left | right; right; left
                                                 | right; right; right]; reflexivity. }
  remember (index monsterTypes z) as ty eqn:Hdef. clear Hdef.
  split; [reflexivity|].
  split; [unfold monsterTypes; destruct Hty as [-> | [-> | [-> | ->]]]; repeat constructor|].
  assert (forall bs, (59 # 100) <= bs -> bs <= 2 ->
            0 < JS.mul (JS.mul 1 bs) f10 /\ JS.mul (JS.mul (-1) bs) f10 < 0) as Hvx
    by (intros bs H0 H1; apply velocity_sign; assumption).
  pose proof (baseSpeed_bounds 1.2 ltac:(lra) ltac:(lra)) as Hshark.
  pose proof (baseSpeed_bounds 0.8 ltac:(lra) ltac:(lra)) as Hsquid.
  pose proof (baseSpeed_bounds 0.6 ltac:(lra) ltac:(lra)) as Hangler.
  pose proof (health_floor 200 f5 ltac:(lia) Hf0) as Hh200.
  pose proof (health_floor 150 f5 ltac:(lia) Hf0) as Hh150.
  pose proof (health_floor 120 f5 ltac:(lia) Hf0) as Hh120.
  pose proof (health_floor 100 f5 ltac:(lia) Hf0) as Hh100.
  change (inject_Z 200) with 200 in *. change (inject_Z 150) with 150 in *.
  change (inject_Z 120) with 120 in *. change (inject_Z 100) with 100 in *.
  destruct Hty as [-> | [-> | [-> | ->]]];
    cbn -[JS.add JS.mul JS.sub JS.div JS.lit].
  all: destruct (JS.gtb rd 0.5) eqn:Hdir; cbn -[JS.add JS.mul JS.sub JS.div JS.lit].
  all: change (JS.gtb 1 0) with true; change (JS.gtb (-1) 0) with false; cbn iota.
  all: split;
    [(left + right); (split; [reflexivity|]);
     match goal with
     | |- 0 < _ => refine (proj1 (Hvx _ _ _))
     | |- _ < 0 => refine (proj2 (Hvx _ _ _))
     end;
     match goal with
     | |- context [JS.lit 0.8] => apply Hsquid
     | |- context [JS.lit 0.6] => apply Hangler
     | |- context [JS.lit 1.2] => apply Hshark
     | _ => lra
     end|].
  all: split; [split; assumption|].
  all: split; [exact Hvy|].
  all: split; [reflexivity|].
  all: split; [assumption|].
  all: apply isOffScreen_false; cbn; lra.
Qed.

(** The ends are reached and the floor sees the rounding: at depth
    650 a shark whose third draw is the largest double below 1 starts
    at the height [650 + 600 + 400] exactly, and its health is 225
    where the exact product [200 * (1 + 650 / 5000)] is 226. *)
Example spawned_shark_in_doubles :
  match monsters (spawnMonster Samples.edgeEnv 650 Samples.game0 Samples.world0).1 with
  | [m] => GameObject.type m = "shark" /\ GameObject.y m == 1650 /\
           GameObject.health m == 225
  | _ => False
  end.
Proof. vm_compute. repeat split. Qed.

(** X17. Rocks and bubbles, for a random source in [0, 1), in the
    arithmetic of doubles. Nothing is spawned (and nothing drawn) at
    the cap of 4 rocks or 5 bubbles; below the cap one draw decides
    (under the double 0.02 for a rock, 0.025 for a bubble). A spawned
    rock gets the next id, x in [50, 750] and a size in [80, 120], a
    spawned bubble the next id, x in [25, 775] and the size 40, the
    ends included; at a depth in [0, 11000] its height is between the
    doubles [depth + 400] and [(depth + 400) + 400] (500 and 300 for a
    bubble) and it is not culled. *)
Theorem procedural_spawns_capped_and_on_screen (d : Q) (g : Game.t) (w : JS.World) :
  unitDraws E ->
  let r := JS.Math_random E (JS.randomDraws w) in
  ((4 <= length (obstacles g))%nat -> spawnObstacle E d g w = (g, w)) /\
  ((length (obstacles g) < 4)%nat -> JS.lit 0.02 <= r ->
   spawnObstacle E d g w = (g, JS.mkWorld (JS.clockReads w) (S (JS.randomDraws w)))) /\
  ((length (obstacles g) < 4)%nat -> r < JS.lit 0.02 ->
   exists o,
     spawnObstacle E d g w
     = (set_obstacles (obstacles g ++ [o]) (set_nextMonsterId (nextMonsterId g + 1)%Z g),
        JS.mkWorld (S (JS.clockReads w)) (5 + JS.randomDraws w)) /\
     GameObject.id o = nextMonsterId g /\ GameObject.type o = "rock" /\
     (50 <= GameObject.x o /\ GameObject.x o <= 750) /\
     (80 <= GameObject.width o /\ GameObject.width o <= 120) /\
     (80 <= GameObject.height o /\ GameObject.height o <= 120) /\
     (0 <= d -> d <= 11000 ->
      JS.add d 400 <= GameObject.y o /\
      GameObject.y o <= JS.add (JS.add d 400) 400 /\
      GameObject.isOffScreen o 800 600 d = false)) /\
  ((5 <= length (bubbles g))%nat -> spawnBubble E d g w = (g, w)) /\
  ((length (bubbles g) < 5)%nat -> JS.lit 0.025 <= r ->
   spawnBubble E d g w = (g, JS.mkWorld (JS.clockReads w) (S (JS.randomDraws w)))) /\
  ((length (bubbles g) < 5)%nat -> r < JS.lit 0.025 ->
   exists b,
     spawnBubble E d g w
     = (set_bubbles (bubbles g ++ [b]) (set_nextMonsterId (nextMonsterId g + 1)%Z g),
        JS.mkWorld (S (JS.clockReads w)) (3 + JS.randomDraws w)) /\
     GameObject.id b = nextMonsterId g /\ GameObject.type b = "bubble" /\
     (25 <= GameObject.x b /\ GameObject.x b <= 775) /\
     GameObject.width b = 40 /\ GameObject.height b = 40 /\
     (0 <= d -> d <= 11000 ->
      JS.add d 500 <= GameObject.y b /\
      GameObject.y b <= JS.add (JS.add d 500) 300 /\
      GameObject.isOffScreen b 800 600 d = false)).
Proof.
  intros Hunit. cbn zeta.
  pose proof (Hunit (S (JS.randomDraws w))) as [Hx0 Hx1].
  pose proof (Hunit (S (S (JS.randomDraws w)))) as [Hy0 Hy1].
  pose proof (Hunit (S (S (S (JS.randomDraws w))))) as [Hw0 Hw1].
  pose proof (Hunit (S (S (S (S (JS.randomDraws w)))))) as [Hh0 Hh1].
  split; [|split; [|split; [|split; [|split]]]].
  - intros Hfull. unfold spawnObstacle.
    assert ((Z.of_nat (length (obstacles g)) <? 4)%Z = false) as -> by (apply Z.ltb_ge; lia).
    reflexivity.
  - intros Hroom Hr. unfold spawnObstacle, JS.bind, JS.random.
    assert ((Z.of_nat (length (obstacles g)) <? 4)%Z = true) as -> by (apply Z.ltb_lt; lia).
    apply ltb_false in Hr. rewrite Hr. reflexivity.
  - intros Hroom Hr. unfold spawnObstacle, JS.bind, JS.random, JS.ret, GameObject.new, JS.now.
    assert ((Z.of_nat (length (obstacles g)) <? 4)%Z = true) as -> by (apply Z.ltb_lt; lia).
    apply ltb_true in Hr. rewrite Hr.
    eexists. split; [reflexivity|]. cbn -[JS.add JS.mul].
    split; [reflexivity|]. split; [reflexivity|].
    destruct (shifted_draw _ 50 700 Hx0 Hx1 ltac:(lia) ltac:(lia)) as [_ Hx].
    destruct (shifted_draw _ 80 40 Hw0 Hw1 ltac:(lia) ltac:(lia)) as [Hw _].
    destruct (shifted_draw _ 80 40 Hh0 Hh1 ltac:(lia) ltac:(lia)) as [Hh _].
    split; [exact Hx|]. split; [exact Hw|]. split; [exact Hh|].
    intros Hd0 Hd1.
    destruct (offset_draw d 400 400 _ Hy0 Hy1 ltac:(lia) ltac:(lia) Hd0 Hd1)
      as (Hya & Hyb & Hyc & Hyd).
    split; [exact Hya|]. split; [exact Hyb|].
    destruct Hx as [Hxa Hxb].
    change (inject_Z 400) with 400 in *. change (inject_Z 50) with 50 in *.
    change (inject_Z 700) with 700 in *. change (inject_Z (50 + 700)) with 750 in *.
    apply isOffScreen_false; cbn -[JS.add JS.mul]; lra.
  - intros Hfull. unfold spawnBubble.
    assert ((Z.of_nat (length (bubbles g)) <? 5)%Z = false) as -> by (apply Z.ltb_ge; lia).
    reflexivity.
  - intros Hroom Hr. unfold spawnBubble, JS.bind, JS.random.
    assert ((Z.of_nat (length (bubbles g)) <? 5)%Z = true) as -> by (apply Z.ltb_lt; lia).
    apply ltb_false in Hr. rewrite Hr. reflexivity.
  - intros Hroom Hr. unfold spawnBubble, JS.bind, JS.random, JS.ret, GameObject.new, JS.now.
    assert ((Z.of_nat (length (bubbles g)) <? 5)%Z = true) as -> by (apply Z.ltb_lt; lia).
    apply ltb_true in Hr. rewrite Hr.
    eexists. split; [reflexivity|]. cbn -[JS.add JS.mul].
    split; [reflexivity|]. split; [reflexivity|].
    destruct (shifted_draw _ 25 750 Hx0 Hx1 ltac:(lia) ltac:(lia)) as [_ Hx].
    split; [exact Hx|]. split; [reflexivity|]. split; [reflexivity|].
    intros Hd0 Hd1.
    destruct (offset_draw d 500 300 _ Hy0 Hy1 ltac:(lia) ltac:(lia) Hd0 Hd1)
      as (Hya & Hyb & Hyc & Hyd).
    split; [exact Hya|]. split; [exact Hyb|].
    destruct Hx as [Hxa Hxb].
    change (inject_Z 500) with 500 in *. change (inject_Z 300) with 300 in *.
    change (inject_Z 25) with 25 in *. change (inject_Z 750) with 750 in *.
    change (inject_Z (25 + 750)) with 775 in *.
    apply isOffScreen_false; cbn -[JS.add JS.mul]; lra.
Qed.

Lemma spawnMonster_adds_one (d : Q) (g : Game.t) (w : JS.World) :
  length (monsters (spawnMonster E d g w).1) = S (length (monsters g)) /\
  lastSpawnDepth (spawnMonster E d g w).1 = lastSpawnDepth g /\
  gameState (spawnMonster E d g w).1 = gameState g.
Proof.
  unfold spawnMonster, JS.bind, JS.random, JS.ret, GameObject.new, JS.now. cbn.
  rewrite length_app. cbn. split; [lia|]. split; reflexivity.
Qed.

(** A loop of [n] spawns adds [n] creatures. *)
Lemma times_spawnMonster (d : Q) (n : nat) (g : Game.t) (w : JS.World) :
  length (monsters (JS.times n (spawnMonster E d) g w).1) = (n + length (monsters g))%nat /\
  lastSpawnDepth (JS.times n (spawnMonster E d) g w).1 = lastSpawnDepth g /\
  gameState (JS.times n (spawnMonster E d) g w).1 = gameState g.
Proof.
  revert g w. induction n as [|n IH]; intros g w; [repeat split; reflexivity|].
  cbn [JS.times]. unfold JS.bind.
  destruct (spawnMonster_adds_one d g w) as (H1 & H2 & H3).
  destruct (spawnMonster E d g w) as [g1 w1]. cbn [fst] in *.
  destruct (IH g1 w1) as (I1 & I2 & I3). rewrite I1, I2, I3, H1, H2, H3.
  split; [lia|]. split; reflexivity.
Qed.

Lemma enemyCount_value (d : Q) :
  Qceiling (JS.Math_min (1 + JS.Math_floor (d / 2000)) 3)
  = Z.min (1 + Qfloor (d / 2000)) 3.
Proof.
  unfold JS.Math_floor.
  assert (1 + inject_Z (Qfloor (d / 2000)) == inject_Z (1 + Qfloor (d / 2000))) as Hsum.
  { rewrite inject_Z_plus. reflexivity. }
  destruct (Math_min_cases (1 + inject_Z (Qfloor (d / 2000))) 3) as [[Hlt ->]|[Hle ->]].
  - rewrite Hsum in Hlt. change 3 with (inject_Z 3) in Hlt. rewrite <- Zlt_Qlt in Hlt.
    change 3 with (inject_Z 3). rewrite Qceiling_Z. lia.
  - rewrite Hsum in Hle. change 3 with (inject_Z 3) in Hle. rewrite <- Zle_Qle in Hle.
    rewrite Hsum, Qceiling_Z. lia.
Qed.

(** X18. Waves of creatures, for a random source in [0, 1). No
    wave starts before the depth has grown by 400 since the last one,
    one starts for sure once it has grown by 700, and a wave adds
    min(1 + floor(depth / 2000), 3) creatures, between 1 and 3, and
    records the depth. *)
Theorem spawnMonsters_wave (g : Game.t) (w : JS.World) :
  unitDraws E ->
  let d := GameState.depth (gameState g) in
  let g' := (spawnMonsters E g w).1 in
  let wave := Z.to_nat (Z.min (1 + Qfloor (d / 2000)) 3) in
  (d - lastSpawnDepth g < 400 -> g' = g) /\
  (700 <= d - lastSpawnDepth g ->
   length (monsters g') = (wave + length (monsters g))%nat /\ lastSpawnDepth g' = d) /\
  (g' = g \/
   length (monsters g') = (wave + length (monsters g))%nat /\ lastSpawnDepth g' = d) /\
  (0 <= d -> (1 <= wave <= 3)%nat).
Proof.
  intros Hunit. cbn zeta.
  pose proof (Hunit (JS.randomDraws w)) as [Hr0 Hr1].
  assert (forall w1,
    length (monsters (JS.times
       (Z.to_nat (Qceiling (JS.Math_min (1 + JS.Math_floor (GameState.depth (gameState g) / 2000)) 3)))
       (spawnMonster E (GameState.depth (gameState g)))
       (set_lastSpawnDepth (GameState.depth (gameState g)) g) w1).1)
    = (Z.to_nat (Z.min (1 + Qfloor (GameState.depth (gameState g) / 2000)) 3)
       + length (monsters g))%nat /\
    lastSpawnDepth (JS.times
       (Z.to_nat (Qceiling (JS.Math_min (1 + JS.Math_floor (GameState.depth (gameState g) / 2000)) 3)))
       (spawnMonster E (GameState.depth (gameState g)))
       (set_lastSpawnDepth (GameState.depth (gameState g)) g) w1).1
    = GameState.depth (gameState g)) as Hwave.
  { intros w1. rewrite enemyCount_value.
    destruct (times_spawnMonster (GameState.depth (gameState g))
                (Z.to_nat (Z.min (1 + Qfloor (GameState.depth (gameState g) / 2000)) 3))
                (set_lastSpawnDepth (GameState.depth (gameState g)) g) w1) as (H1 & H2 & _).
    rewrite H1, H2. split; reflexivity. }
  unfold spawnMonsters, JS.bind, JS.random.
  split; [|split; [|split]].
  - intros Hnear.
    assert (JS.geb (GameState.depth (gameState g) - lastSpawnDepth g)
                   (400 + JS.Math_random E (JS.randomDraws w) * 300) = false) as ->
      by (apply geb_false; nra).
    reflexivity.
  - intros Hfar.
    assert (JS.geb (GameState.depth (gameState g) - lastSpawnDepth g)
                   (400 + JS.Math_random E (JS.randomDraws w) * 300) = true) as ->
      by (apply geb_true; nra).
    apply Hwave.
  - destruct (JS.geb _ _); [right; apply Hwave | left; reflexivity].
  - intros Hd. pose proof (Qdiv_nonneg _ 2000 Hd eq_refl) as Hq.
    assert (0 <= Qfloor (GameState.depth (gameState g) / 2000))%Z.
    { change 0%Z with (Qfloor (inject_Z 0)). apply Qfloor_resp_le. exact Hq. }
    lia.
Qed.
End Spawning.

(** ** Particles *)
Section Particles.
Local Open Scope Q_scope.
Import Game ParticleSpec OracleSpec.
Variable E : JS.Env.

Lemma Qfloor_eq (q : Q) (k : Z) :
  inject_Z k <= q -> q < inject_Z k + 1 -> Qfloor q = k.
Proof.
  intros Hle Hlt.
  pose proof (Qfloor_le q) as H1. pose proof (Qlt_floor q) as H2.
  assert (inject_Z (Qfloor q) < inject_Z (k + 1)) as Ha.
  { rewrite inject_Z_plus. change (inject_Z 1) with 1. lra. }
  assert (inject_Z k < inject_Z (Qfloor q + 1)) as Hb.
  { lra. }
  rewrite <- Zlt_Qlt in Ha, Hb. lia.
Qed.

(** The remainder by 600 on [0, 1200). *)
Lemma rem_600 (a : Q) :
  0 <= a -> a < 1200 ->
  (a < 600 -> JS.rem a 600 == a) /\ (600 <= a -> JS.rem a 600 == a - 600).
Proof.
  intros H0 H1.
  assert (a / 600 == a * (1 # 600)) as Hdiv by field.
  assert (JS.ltb (a / 600) 0 = false) as Hsign by (apply ltb_false; lra).
  unfold JS.rem, JS.trunc. rewrite Hsign. split; intros Ha.
  - rewrite (Qfloor_eq (a / 600) 0); [change (inject_Z 0) with 0; ring| |];
      change (inject_Z 0) with 0; lra.
  - rewrite (Qfloor_eq (a / 600) 1); [change (inject_Z 1) with 1; ring| |];
      change (inject_Z 1) with 1; lra.
Qed.

(** The rounded sum [y - speed + 600] of a particle in the band: it
    stays in [599, 1200), is at least 600 when the particle does not
    wrap and below 600 when it does, and is within the slack of the
    exact sum. *)
Lemma shifted_height (y s : Q) :
  0 <= y -> y <= 600 -> 0.2 - slack <= s -> s <= 0.7 + slack ->
  let a := JS.add (JS.sub y s) 600 in
  (599 <= a /\ a < 1200) /\
  (s + slack <= y -> 600 <= a) /\ (y + slack <= s -> a < 600) /\
  (y - s + 600 - slack <= a /\ a <= y - s + 600 + slack).
Proof.
  unfold slack. intros Hy0 Hy1 Hs0 Hs1. cbn zeta. unfold JS.add, JS.sub.
  destruct (fl_close (y - s) (small_abs (y - s) ltac:(lra) ltac:(lra))) as [Ht0 Ht1].
  set (t := JS.fl (y - s)) in *.
  destruct (fl_close (t + 600) (small_abs (t + 600) ltac:(lra) ltac:(lra))) as [Ha0 Ha1].
  pose proof (fl_ge_int (t + 600) 600 ltac:(lia)) as Hup.
  change (inject_Z 600) with 600 in Hup.
  set (a := JS.fl (t + 600)) in *. clearbody a t.
  split; [split; lra|]. split; [intros H; apply Hup; lra|]. split; [intros H; lra | split; lra].
Qed.

(** One move of a particle in the band: it is in the band again, now
    below 600, with its size and speed, and its height is the exact
    new height up to the slack, with or without the wrap by 600. *)
Lemma moveParticle_wraps (p : Particle.t) (w : JS.World) :
  drifting p ->
  let p' := (moveParticle E p w).1 in
  let exact := Particle.y p - Particle.speed p in
  (drifting p' /\ Particle.y p' < 600) /\
  Particle.size p' = Particle.size p /\ Particle.speed p' = Particle.speed p /\
  (Particle.speed p + slack <= Particle.y p ->
   exact - slack <= Particle.y p' /\ Particle.y p' <= exact + slack) /\
  (Particle.y p + slack <= Particle.speed p ->
   exact + 600 - slack <= Particle.y p' /\ Particle.y p' <= exact + 600 + slack) /\
  ((exact - slack <= Particle.y p' /\ Particle.y p' <= exact + slack) \/
   (exact + 600 - slack <= Particle.y p' /\ Particle.y p' <= exact + 600 + slack)).
Proof.
  intros ((Hy0 & Hy1) & Hsize & (Hs0 & Hs1)). cbn zeta.
  unfold moveParticle, JS.bind, JS.now, JS.ret.
  cbn [fst Particle.y Particle.size Particle.speed].
  destruct (shifted_height (Particle.y p) (Particle.speed p) Hy0 Hy1 Hs0 Hs1)
    as ((Ha0 & Ha1) & Hstay & Hwrap & (Hn0 & Hn1)).
  cbn zeta in *.
  set (a := JS.add (JS.sub (Particle.y p) (Particle.speed p)) 600) in *. clearbody a.
  destruct (rem_600 a ltac:(lra) Ha1) as [Hsmall Hbig].
  assert (0 <= JS.rem a 600 /\ JS.rem a 600 < 600 /\
          (600 <= a -> JS.rem a 600 == a - 600) /\ (a < 600 -> JS.rem a 600 == a))
    as (Hr0 & Hr1 & Hr2 & Hr3).
  { destruct (Qlt_le_dec a 600) as [Hlt|Hge].
    - rewrite (Hsmall Hlt). split; [lra|]. split; [lra|]. split; intros; lra.
    - rewrite (Hbig Hge). split; [lra|]. split; [lra|]. split; intros; lra. }
  set (y' := JS.rem a 600) in *. clearbody y'. unfold slack in *.
  split; [split; [|exact Hr1]|].
  { unfold drifting. cbn [Particle.y Particle.size Particle.speed]. unfold slack.
    split; [lra|]. split; [exact Hsize | lra]. }
  split; [reflexivity|]. split; [reflexivity|].
  split; [|split].
  - intros H. rewrite (Hr2 (Hstay H)). lra.
  - intros H. rewrite (Hr3 (Hwrap H)). lra.
  - destruct (Qlt_le_dec a 600) as [Hlt|Hge].
    + right. rewrite (Hr3 Hlt). lra.
    + left. rewrite (Hr2 Hge). lra.
Qed.

Lemma newParticle_drifting (ps : list Particle.t) (w : JS.World) :
  unitDraws E -> Forall drifting ps ->
  Forall drifting (newParticle E ps w).1 /\
  length (newParticle E ps w).1 = S (length ps).
Proof.
  intros Hunit Hps. unfold newParticle, JS.bind, JS.random, JS.ret.
  cbn -[JS.add JS.mul JS.lit].
  pose proof (Hunit (S (JS.randomDraws w))) as [Hy0 Hy1].
  pose proof (Hunit (S (S (JS.randomDraws w)))) as [Hz0 Hz1].
  pose proof (Hunit (S (S (S (JS.randomDraws w))))) as [Hs0 Hs1].
  split.
  - apply Forall_app. split; [exact Hps|]. constructor; [|constructor].
    unfold drifting, slack. cbn -[JS.add JS.mul JS.lit].
    split; [apply (scaled_draw _ 600 Hy0 Hy1); lia|].
    split; [apply (shifted_draw _ 1 3 Hz0 Hz1); lia|].
    unfold JS.add, JS.mul, JS.lit.
    set (r := JS.Math_random E (S (S (S (JS.randomDraws w))))) in *. clearbody r.
    destruct (fl_close 0.2 (small_abs 0.2 ltac:(lra) ltac:(lra))) as [Hc0 Hc1].
    destruct (fl_close (r * 0.5) (small_abs (r * 0.5) ltac:(lra) ltac:(lra))) as [Hm0 Hm1].
    set (c := JS.fl 0.2) in *. set (m := JS.fl (r * 0.5)) in *. clearbody c m.
    destruct (fl_close (m + c) (small_abs (m + c) ltac:(lra) ltac:(lra))) as [Hq0 Hq1].
    split; lra.
  - rewrite length_app. cbn. lia.
Qed.

(** [initializeParticles] makes 50 particles in the band. *)
Lemma initializeParticles_drifting (w : JS.World) :
  unitDraws E ->
  Forall drifting (initializeParticles E w).1 /\ length (initializeParticles E w).1 = 50%nat.
Proof.
  intros Hunit. unfold initializeParticles.
  assert (forall n ps w, Forall drifting ps ->
            Forall drifting (JS.times n (newParticle E) ps w).1 /\
            length (JS.times n (newParticle E) ps w).1 = (n + length ps)%nat) as Hn.
  { induction n as [|n IH]; intros ps w0 Hps; [split; [exact Hps | reflexivity]|].
    cbn [JS.times]. unfold JS.bind.
    destruct (newParticle_drifting ps w0 Hunit Hps) as [H1 H2].
    destruct (newParticle E ps w0) as [ps1 w1]. cbn [fst] in *.
    destruct (IH ps1 w1 H1) as [I1 I2]. split; [exact I1|]. rewrite I2, H2. lia. }
  apply (Hn 50%nat [] w). constructor.
Qed.

Lemma mapM_moveParticle_drifting (ps : list Particle.t) (w : JS.World) :
  Forall drifting ps ->
  Forall drifting (JS.mapM (moveParticle E) ps w).1 /\
  length (JS.mapM (moveParticle E) ps w).1 = length ps.
Proof.
  revert w. induction ps as [|p ps IH]; intros w Hps; [split; [constructor | reflexivity]|].
  apply Forall_cons in Hps as [Hp Hps]. rewrite mapM_cons.
  pose proof (moveParticle_wraps p w Hp) as ((Hstep & _) & _).
  cbn zeta in Hstep. destruct (moveParticle E p w) as [p1 w1]. cbn [fst] in Hstep.
  destruct (IH w1 Hps) as [I1 I2]. destruct (JS.mapM (moveParticle E) ps w1) as [ps1 w2].
  cbn [fst length] in *. split; [|congruence].
  constructor; [exact Hstep | exact I1].
Qed.
(** The upper end of the speed is reached: a draw of the largest double
    below 1 gives the double 0.7. *)
Example particle_speed_reaches_upper_end :
  match (newParticle Samples.edgeEnv [] Samples.world0).1 with
  | [p] => Particle.speed p == JS.lit 0.7
  | _ => False
  end.
Proof. vm_compute. reflexivity. Qed.
End Particles.

(** ** What a tick leaves alone *)
Section Tidy.
Local Open Scope Q_scope.
Import Game GameSpec ReachSpec UpgradeSpec.
Variable E : JS.Env.

Lemma upgradesKept_refl (u : Upgrades) : upgradesKept u u.
Proof. unfold upgradesKept. tauto. Qed.

Lemma upgradesKept_trans (u1 u2 u3 : Upgrades) :
  upgradesKept u1 u2 -> upgradesKept u2 u3 -> upgradesKept u1 u3.
Proof. unfold upgradesKept. tauto. Qed.

Lemma tidy_refl (g : Game.t) : tidy g g.
Proof.
  split; [reflexivity|]. split; [reflexivity|]. split; [apply upgradesKept_refl | auto].
Qed.

Lemma tidy_trans (g1 g2 g3 : Game.t) : tidy g1 g2 -> tidy g2 g3 -> tidy g1 g3.
Proof.
  intros (Hc12 & Hd12 & Hu12 & Hp12) (Hc23 & Hd23 & Hu23 & Hp23).
  split; [congruence|]. split; [congruence|].
  split; [eapply upgradesKept_trans; eassumption | auto].
Qed.

(** A step that keeps the fields named in [tidy] is tidy. *)
Lemma tidy_by_fields (g g' : Game.t) :
  controls g' = controls g ->
  CollisionDetector.cooldownDuration (collisionDetector g')
  = CollisionDetector.cooldownDuration (collisionDetector g) ->
  upgrades g' = upgrades g -> particles g' = particles g ->
  tidy g g'.
Proof.
  intros Hc Hd Hu Hp. split; [exact Hc|]. split; [exact Hd|]. split.
  - rewrite Hu. apply upgradesKept_refl.
  - rewrite Hp. auto.
Qed.

Ltac tidy_fields := apply tidy_by_fields; reflexivity.

Lemma showHint_tidy (h : Hint) (g : Game.t) : tidy g (showHint h g).
Proof. tidy_fields. Qed.

Lemma moveWorld_tidy (off : Q) (g : Game.t) : tidy g (moveWorld off g).
Proof. unfold moveWorld. destruct (JS.neb off 0); [tidy_fields | apply tidy_refl]. Qed.

Lemma claimReward_tidy (d : Q) (g : Game.t) (r : Reward) : tidy g (claimReward d g r).
Proof.
  unfold claimReward.
  match goal with |- context [if ?c then _ else _] => destruct c end;
    [tidy_fields | apply tidy_refl].
Qed.

Lemma unlock_step_tidy (c : bool) (h : Hint) (u : Upgrades) (g : Game.t) :
  upgradesKept (upgrades g) u ->
  tidy g (if c then showHint h (set_upgrades u g) else g).
Proof.
  intros Hu. destruct c; [|apply tidy_refl].
  split; [reflexivity|]. split; [reflexivity|]. split; [exact Hu | auto].
Qed.

Lemma unlockUpgrades_tidy (d : Q) (g : Game.t) : tidy g (unlockUpgrades d g).
Proof.
  unfold unlockUpgrades. cbv zeta.
  repeat (eapply tidy_trans;
          [|apply unlock_step_tidy; unfold upgradesKept; cbn; tauto]).
  apply tidy_refl.
Qed.

Lemma fold_left_tidy {A} (f : Game.t -> A -> Game.t) (l : list A) (g : Game.t) :
  (forall g a, tidy g (f g a)) -> tidy g (fold_left f l g).
Proof. intros H. apply (fold_left_rel tidy f l g tidy_refl tidy_trans H). Qed.

Lemma checkDepthRewards_tidy (g : Game.t) : tidy g (checkDepthRewards g).
Proof.
  unfold checkDepthRewards. cbv zeta.
  eapply tidy_trans; [|apply unlockUpgrades_tidy].
  apply fold_left_tidy. intros g0 r. apply claimReward_tidy.
Qed.

Lemma descend_tidy (keys : gset string) (g : Game.t) : tidy g (descend keys g).
Proof.
  unfold descend. destruct (Submarine.has keys "s"); [|apply tidy_refl].
  cbv zeta. eapply tidy_trans; [|apply checkDepthRewards_tidy]. tidy_fields.
Qed.

Lemma updateParticles_tidy (g : Game.t) (w : JS.World) : tidy g (updateParticles E g w).1.
Proof.
  unfold updateParticles, JS.bind.
  pose proof (mapM_moveParticle_drifting E (particles g) w) as Hps.
  destruct (JS.mapM (moveParticle E) (particles g) w) as [ps w1]. cbn [fst] in *.
  split; [reflexivity|]. split; [reflexivity|]. split; [apply upgradesKept_refl|].
  intros [Hd Hl]. destruct (Hps Hd) as [Hd' Hl']. split; [exact Hd'|]. cbn. congruence.
Qed.

Lemma updateResources_tidy (g : Game.t) (w : JS.World) : tidy g (updateResources E g w).1.
Proof.
  unfold updateResources, JS.bind, JS.now. cbn.
  repeat match goal with |- context [if ?c then _ else _] => destruct c end;
    cbn; first [tidy_fields | apply tidy_refl].
Qed.

Lemma updateMonsters_tidy (g : Game.t) (w : JS.World) : tidy g (updateMonsters E g w).1.
Proof.
  unfold updateMonsters, JS.bind.
  destruct (JS.mapM _ (monsters g) w) as [ms w1]. tidy_fields.
Qed.

Lemma cull_tidy (g : Game.t) : tidy g (cull g).
Proof. tidy_fields. Qed.

Lemma hitByMonster_tidy (g : Game.t) (m : GameObject.t) : tidy g (hitByMonster g m).
Proof. tidy_fields. Qed.

Lemma hitByObstacle_tidy (g : Game.t) (o : GameObject.t) : tidy g (hitByObstacle g o).
Proof. tidy_fields. Qed.

Lemma collideMonsters_tidy (cam : Q) (g : Game.t) (w : JS.World) :
  tidy g (collideMonsters E cam g w).1.
Proof.
  unfold collideMonsters, JS.bind, CollisionDetector.checkMonsterCollisions.
  destruct (JS.forEach _ (monsters g) ([], collisionDetector g) w) as [[cols cd'] w'] eqn:Hrun.
  apply gated_forEach_clock in Hrun as (_ & _ & Hdur). cbn [fst].
  apply (tidy_trans g (set_collisionDetector cd' g));
    [apply tidy_by_fields; first [exact Hdur | reflexivity]|].
  apply (tidy_trans _ (fold_left hitByMonster cols (set_collisionDetector cd' g)));
    [apply (fold_left_tidy hitByMonster); apply hitByMonster_tidy | tidy_fields].
Qed.

Lemma collideObstacles_tidy (cam : Q) (g : Game.t) (w : JS.World) :
  tidy g (collideObstacles E cam g w).1.
Proof.
  unfold collideObstacles, JS.bind, CollisionDetector.checkObstacleCollisions.
  destruct (JS.forEach _ (obstacles g) ([], collisionDetector g) w) as [[cols cd'] w'] eqn:Hrun.
  apply gated_forEach_clock in Hrun as (_ & _ & Hdur). cbn [fst].
  apply (tidy_trans g (set_collisionDetector cd' g));
    [apply tidy_by_fields; first [exact Hdur | reflexivity]|].
  apply (tidy_trans _ (fold_left hitByObstacle cols (set_collisionDetector cd' g)));
    [apply (fold_left_tidy hitByObstacle); apply hitByObstacle_tidy | tidy_fields].
Qed.

Lemma collideBubbles_tidy (cam : Q) (g : Game.t) (w : JS.World) :
  tidy g (collideBubbles cam g w).1.
Proof.
  unfold collideBubbles, JS.bind. rewrite checkBubbleCollisions_filter. cbn [fst].
  destruct (0 <? _)%Z; tidy_fields.
Qed.

Lemma collide_tidy (g : Game.t) (w : JS.World) : tidy g (collide E g w).1.
Proof.
  unfold collide, JS.bind.
  pose proof (collideMonsters_tidy (InputHandler.getCameraOffset (inputHandler g)) g w) as H1.
  destruct (collideMonsters E _ g w) as [g1 w1].
  pose proof (collideObstacles_tidy (InputHandler.getCameraOffset (inputHandler g)) g1 w1)
    as H2.
  destruct (collideObstacles E _ g1 w1) as [g2 w2].
  pose proof (collideBubbles_tidy (InputHandler.getCameraOffset (inputHandler g)) g2 w2) as H3.
  eapply tidy_trans; [exact H1|]. eapply tidy_trans; [exact H2 | exact H3].
Qed.

Lemma spawnMonster_tidy (d : Q) (g : Game.t) (w : JS.World) :
  tidy g (spawnMonster E d g w).1.
Proof.
  unfold spawnMonster, JS.bind, JS.random, JS.ret, GameObject.new, JS.now. cbn [fst].
  tidy_fields.
Qed.

Lemma spawnMonsters_tidy (g : Game.t) (w : JS.World) : tidy g (spawnMonsters E g w).1.
Proof.
  unfold spawnMonsters, JS.bind, JS.random. cbn [fst].
  match goal with |- context [if ?c then _ else _] => destruct c end; [|apply tidy_refl].
  match goal with
  | |- tidy _ (JS.times ?n ?body ?g1 ?w1).1 =>
      apply (tidy_trans g g1);
      [ tidy_fields
      | apply (times_rel tidy body n g1 w1 tidy_refl tidy_trans);
        intros; apply spawnMonster_tidy ]
  end.
Qed.

Lemma spawnObstacle_tidy (d : Q) (g : Game.t) (w : JS.World) :
  tidy g (spawnObstacle E d g w).1.
Proof.
  unfold spawnObstacle, JS.bind, JS.random, JS.ret, GameObject.new, JS.now.
  destruct (_ <? 4)%Z; [|apply tidy_refl]. cbn [fst].
  match goal with |- context [if ?c then _ else _] => destruct c end;
    [tidy_fields | apply tidy_refl].
Qed.

Lemma spawnBubble_tidy (d : Q) (g : Game.t) (w : JS.World) :
  tidy g (spawnBubble E d g w).1.
Proof.
  unfold spawnBubble, JS.bind, JS.random, JS.ret, GameObject.new, JS.now.
  destruct (_ <? 5)%Z; [|apply tidy_refl]. cbn [fst].
  match goal with |- context [if ?c then _ else _] => destruct c end;
    [tidy_fields | apply tidy_refl].
Qed.

Lemma spawn_tidy (g : Game.t) (w : JS.World) : tidy g (spawn E g w).1.
Proof.
  unfold spawn, spawnProceduralElements, JS.bind.
  pose proof (spawnMonsters_tidy g w) as H1.
  destruct (spawnMonsters E g w) as [g1 w1].
  pose proof (spawnObstacle_tidy (GameState.depth (gameState g1)) g1 w1) as H2.
  destruct (spawnObstacle E _ g1 w1) as [g2 w2].
  pose proof (spawnBubble_tidy (GameState.depth (gameState g1)) g2 w2) as H3.
  eapply tidy_trans; [exact H1|]. eapply tidy_trans; [exact H2 | exact H3].
Qed.

Lemma checkGameOver_tidy (g : Game.t) : tidy g (checkGameOver g).
Proof.
  destruct (checkGameOver_cases g)
    as [[_ ->]|[(_ & _ & ->)|[(_ & _ & _ & ->)|(_ & _ & _ & ->)]]];
    first [tidy_fields | apply tidy_refl].
Qed.

(** The tail of a running [update], after the input and the craft have
    been stepped. *)
Lemma update_tidy (deltaTime : Q) (g : Game.t) (w : JS.World) :
  running g ->
  tidy (set_submarine
          (Submarine.update (submarine g) (InputHandler.keys (inputHandler g)) deltaTime).1
          (set_inputHandler (InputHandler.updateCameraOffset (inputHandler g)) g))
       (update E deltaTime g w).1.
Proof.
  intros Hrun. rewrite (update_running E deltaTime g w Hrun).
  unfold simulate. simpl.
  destruct (Submarine.update (submarine g) (InputHandler.keys (inputHandler g)) deltaTime)
    as [s' off]. cbn [fst]. unfold JS.bind.
  match goal with
  | |- context [updateParticles E ?g1 w] =>
      assert (tidy (set_submarine s'
                      (set_inputHandler (InputHandler.updateCameraOffset (inputHandler g)) g))
                   g1) as H0;
      [|pose proof (updateParticles_tidy g1 w) as H1;
        destruct (updateParticles E g1 w) as [g2 w2]]
  end.
  { eapply tidy_trans; [apply moveWorld_tidy|].
    eapply tidy_trans; [apply descend_tidy|]. tidy_fields. }
  pose proof (updateResources_tidy g2 w2) as H2.
  destruct (updateResources E g2 w2) as [g3 w3].
  pose proof (updateMonsters_tidy g3 w3) as H3.
  destruct (updateMonsters E g3 w3) as [g4 w4].
  pose proof (cull_tidy g4) as H4.
  pose proof (collide_tidy (cull g4) w4) as H5.
  destruct (collide E (cull g4) w4) as [g5 w5].
  pose proof (spawn_tidy g5 w5) as H6.
  destruct (spawn E g5 w5) as [g6 w6].
  pose proof (checkGameOver_tidy g6) as H7. cbn [fst] in *.
  repeat (eapply tidy_trans; [eassumption|]). apply tidy_refl.
Qed.
End Tidy.

(** ** Settings of a run *)
Section Reach.
Local Open Scope Q_scope.
Import Game GameSpec ReachSpec UpgradeSpec InputSpec StationSpec.
Variable E : JS.Env.

Lemma activateSonar_station (g : Game.t) : station (activateSonar g) = station g.
Proof.
  unfold activateSonar. cbv zeta.
  repeat match goal with |- context [if ?c then _ else _] => destruct c end; reflexivity.
Qed.

Lemma toggleMenu_station (name : string) (g : Game.t) : station (toggleMenu name g) = station g.
Proof. unfold toggleMenu. destruct (bool_decide _); reflexivity. Qed.

Lemma toggleDebugMode_station (g : Game.t) : station (toggleDebugMode g) = station g.
Proof. reflexivity. Qed.

(** A conditional between two steps that keep the station keeps it. *)
Lemma cond_station (c : bool) (f : Game.t -> Game.t) (g : Game.t) :
  (forall g, station (f g) = station g) -> station (if c then f g else g) = station g.
Proof. intros H. destruct c; [apply H | reflexivity]. Qed.

Lemma handleKeyDown_station (key : string) (g : Game.t) :
  station (handleKeyDown key g)
  = station (set_inputHandler (InputHandler.handleKeyDown (inputHandler g) key) g).
Proof.
  unfold handleKeyDown. cbv zeta.
  rewrite (cond_station _ toggleDebugMode) by apply toggleDebugMode_station.
  rewrite (cond_station _ closeMenu) by reflexivity.
  rewrite (cond_station _ (toggleMenu "upgrades")) by apply toggleMenu_station.
  rewrite (cond_station _ (toggleMenu "missions")) by apply toggleMenu_station.
  rewrite (cond_station _ activateSonar) by apply activateSonar_station.
  reflexivity.
Qed.

(** What the input events and the timers leave alone. *)
Lemma input_event_station (e : Event) (g : Game.t) (w : JS.World) :
  match e with AnimationFrame _ | ClickRestart => False | _ => True end ->
  station (handle E e g w).1
  = station (set_inputHandler
               match e with
               | KeyDown key => InputHandler.handleKeyDown (inputHandler g) key
               | KeyUp key => InputHandler.handleKeyUp (inputHandler g) key
               | Wheel deltaY => InputHandler.handleWheel (inputHandler g) deltaY
               | _ => inputHandler g
               end g).
Proof.
  destruct e; intros He; try destruct He; cbn [handle JS.ret fst];
    first [apply handleKeyDown_station | reflexivity].
Qed.

(** One frame: the frame time is recorded, and a running game steps
    the camera and the craft with the clamped elapsed time. *)
Lemma gameLoop_controls (currentTime : Q) (g : Game.t) (w : JS.World) :
  let dt := JS.Math_min (currentTime - lastFrameTime g) 16 in
  let g' := (gameLoop E currentTime g w).1 in
  lastFrameTime g' = currentTime /\
  resourceUpdateInterval g' = resourceUpdateInterval g /\
  CollisionDetector.cooldownDuration (collisionDetector g')
  = CollisionDetector.cooldownDuration (collisionDetector g) /\
  upgradesKept (upgrades g) (upgrades g') /\
  (drifting50 (particles g) -> drifting50 (particles g')) /\
  ((gameOverTriggered g || truthy (menuOpen g) = true /\
    submarine g' = submarine g /\ inputHandler g' = inputHandler g) \/
   (gameOverTriggered g || truthy (menuOpen g) = false /\
    submarine g'
    = (Submarine.update (submarine g) (InputHandler.keys (inputHandler g)) dt).1 /\
    inputHandler g' = InputHandler.updateCameraOffset (inputHandler g))).
Proof.
  cbn zeta. unfold gameLoop, JS.bind.
  set (g1 := set_lastFrameTime currentTime g).
  set (dt := JS.Math_min (currentTime - lastFrameTime g) 16).
  destruct (gameOverTriggered g || truthy (menuOpen g)) eqn:Hstop.
  - rewrite (update_stopped E dt g1 w)
      by (apply orb_true_iff in Hstop; exact Hstop).
    cbn. split; [reflexivity|]. split; [reflexivity|]. split; [reflexivity|].
    split; [apply upgradesKept_refl|]. split; [auto|]. left. repeat split; reflexivity.
  - apply orb_false_iff in Hstop as [Hover Hmenu].
    pose proof (update_tidy E dt g1 w (conj Hover Hmenu)) as (Hc & Hd & Hu & Hp).
    destruct (update E dt g1 w) as [g2 w2]. cbn [fst] in *.
    unfold controls in Hc. subst g1. cbn in Hc, Hd, Hu, Hp. injection Hc as Hih Hsub Hmo Hdb Hlf Hri.
    cbn. split; [exact Hlf|]. split; [exact Hri|]. split; [exact Hd|].
    split; [exact Hu|]. split; [exact Hp|]. right. repeat split; assumption.
Qed.

(** What [restart] does to the craft, the input, the frame time, the
    settings and the particles. *)
Lemma restart_controls (g : Game.t) (w : JS.World) :
  let g' := (restart E g w).1 in
  submarine g' = Submarine.reset (submarine g) /\
  inputHandler g' = InputHandler.reset (inputHandler g) /\
  lastFrameTime g' = lastFrameTime g /\
  resourceUpdateInterval g' = resourceUpdateInterval g /\
  CollisionDetector.cooldownDuration (collisionDetector g')
  = CollisionDetector.cooldownDuration (collisionDetector g) /\
  particles g' = (initializeParticles E w).1.
Proof.
  cbn zeta. unfold restart, JS.bind. destruct (initializeParticles E w) as [ps w1].
  repeat split; reflexivity.
Qed.

(** The craft keeps its constants and its tilt bounds. *)
Lemma update_craftInv (s : Submarine.t) (keys : gset string) (dt : Q) :
  craftInv s -> craftInv (Submarine.update s keys dt).1.
Proof.
  intros (Ht & Hr & Hc & Hm & Hs & Hb & Hw & Hh).
  destruct (update_rotation_bounded s keys dt) as (Ht' & Hr' & _); [lra | lra |].
  destruct (update_keeps_anchor s keys dt) as (Hc' & Hm' & Hs').
  destruct (update_hitbox_fields s keys dt) as (Hox & Hoy & Hhw & Hhh & Hbase).
  unfold craftInv. rewrite Hc', Hm', Hs', Hbase, Hox, Hoy, Hhw, Hhh.
  split; [exact Ht'|]. split; [exact Hr'|]. split; [exact Hc|]. split; [exact Hm|].
  split; [exact Hs|]. split; [exact Hb|]. split; [exact Hw | exact Hh].
Qed.

Lemma reset_craftInv (s : Submarine.t) : craftInv s -> craftInv (Submarine.reset s).
Proof.
  intros (Ht & Hr & Hc & Hm & Hs & Hb & Hw & Hh). unfold craftInv. cbn.
  split; [lra|]. split; [lra|]. split; [exact Hc|]. split; [exact Hm|].
  split; [exact Hs|]. split; [exact Hb|]. split; [exact Hw | exact Hh].
Qed.

Lemma new_settings (w : JS.World) : settings (Game.new E w).1.
Proof.
  unfold Game.new, JS.bind, Submarine.new, GameObject.new, JS.now, JS.ret.
  cbn -[initializeParticles].
  match goal with
  | |- context [initializeParticles E ?w0] => destruct (initializeParticles E w0) as [ps w3]
  end. cbn [fst].
  unfold settings, craftInv, cameraInRange. cbn.
  repeat split; first [reflexivity | lra].
Qed.

(** Every event keeps the settings. *)
Lemma handle_settings (e : Event) (g : Game.t) (w : JS.World) :
  settings g -> settings (handle E e g w).1.
Proof.
  intros (Hcraft & Hcam & Hri & Hcd).
  destruct (camera_offset_stays_in_range (inputHandler g) "" 0) as (_ & Hreset & _).
  assert (forall key dy,
    cameraInRange (InputHandler.handleKeyDown (inputHandler g) key) /\
    cameraInRange (InputHandler.handleKeyUp (inputHandler g) key) /\
    cameraInRange (InputHandler.handleWheel (inputHandler g) dy) /\
    cameraInRange (InputHandler.updateCameraOffset (inputHandler g))) as Hops.
  { intros key dy.
    destruct (camera_offset_stays_in_range (inputHandler g) key dy) as (_ & _ & H & _).
    specialize (H Hcam). tauto. }
  destruct e as [t|key|key|dy| | | |].
  - change (handle E (AnimationFrame t) g w) with (gameLoop E t g w).
    destruct (gameLoop_controls t g w) as (_ & Hri' & Hcd' & _ & _ & Hcases).
    cbn zeta in *. unfold settings. rewrite Hri', Hcd'.
    destruct Hcases as [(_ & -> & ->)|(_ & -> & ->)].
    + split; [assumption|]. split; [assumption|]. split; assumption.
    + split; [apply update_craftInv, Hcraft|]. split; [apply (Hops "" 0)|].
      split; assumption.
  - pose proof (input_event_station (KeyDown key) g w I) as Hst.
    unfold station in Hst. cbn [inputHandler set_inputHandler submarine lastFrameTime
      resourceUpdateInterval upgrades particles collisionDetector monsters obstacles bubbles
      nextMonsterId] in Hst.
    injection Hst as Hih Hsub Hlf Hr' Hu Hp Hc Hms Hos Hbs Hn.
    unfold settings. cbn [handle JS.ret fst]. rewrite Hih, Hsub, Hr', Hc.
    split; [assumption|]. split; [apply (Hops key 0)|]. split; assumption.
  - split; [assumption|]. split; [apply (Hops key 0)|]. split; assumption.
  - split; [assumption|]. split; [apply (Hops "" dy)|]. split; assumption.
  - split; [assumption|]. split; [assumption|]. split; assumption.
  - split; [assumption|]. split; [assumption|]. split; assumption.
  - split; [assumption|]. split; [assumption|]. split; assumption.
  - change (handle E ClickRestart g w) with (restart E g w).
    destruct (restart_controls g w) as (Hs & Hi & _ & Hr' & Hc & _). cbn zeta in *.
    unfold settings. rewrite Hs, Hi, Hr', Hc.
    split; [apply reset_craftInv, Hcraft|]. split; [exact Hreset|]. split; assumption.
Qed.

Lemma run_settings (events : list Event) (g : Game.t) (w : JS.World) :
  settings g -> settings (run E events g w).1.
Proof.
  revert g w. induction events as [|e events IH]; intros g w Hg; [exact Hg|].
  rewrite run_cons. pose proof (handle_settings e g w Hg) as H1.
  destruct (handle E e g w) as [g1 w1]. apply IH, H1.
Qed.
End Reach.

(** ** Entities and cooldowns of a run *)
Section WorldFacts.
Local Open Scope Q_scope.
Import Game GameSpec WorldSpec StationSpec.
Variable E : JS.Env.

(** A phase that keeps the detector, keeps the caps and hands out ids
    in order keeps the invariant. *)
Lemma worldInv_keep (g g' : Game.t) :
  idsFrom g g' -> (idsWellFormed g -> idsWellFormed g') ->
  collisionDetector g' = collisionDetector g -> (capped g -> capped g') ->
  worldInv g -> worldInv g'.
Proof.
  intros [Hnext Hfrom] Hwf Hcd Hcap (Hids & [Hclear Hkeys] & Hc).
  split; [apply Hwf, Hids|]. split; [|apply Hcap, Hc].
  unfold coolingClear. rewrite Hcd. split.
  - intros i Hi. destruct (Hfrom i Hi) as [Hold|Hnew]; [apply Hclear, Hold|].
    destruct (CollisionDetector.collisionCooldown (collisionDetector g) !! i) as [t|] eqn:Hl;
      [|reflexivity].
    apply Hkeys in Hl. lia.
  - intros i t Hl. apply Hkeys in Hl. lia.
Qed.

Lemma worldInv_steady (g g' : Game.t) :
  steady g g' -> collisionDetector g' = collisionDetector g -> (capped g -> capped g') ->
  worldInv g -> worldInv g'.
Proof. intros (_ & _ & Hi & _ & Hw). apply worldInv_keep; assumption. Qed.

(** A step that keeps the entities, the next id and the table keeps the
    invariant. *)
Lemma worldInv_same (g g' : Game.t) : world g' = world g -> worldInv g -> worldInv g'.
Proof.
  unfold world. intros Hw. injection Hw as Hcd Hm Ho Hb Hn.
  destruct (same_ids g g') as [Hi Hwf]; [exact Hn | unfold liveIds, liveObjects; congruence|].
  apply worldInv_keep; try assumption. unfold capped. rewrite Ho, Hb. auto.
Qed.

Lemma fold_left_world {A} (f : Game.t -> A -> Game.t) (l : list A) (g : Game.t) :
  (forall g a, world (f g a) = world g) -> world (fold_left f l g) = world g.
Proof.
  intros H. revert g. induction l as [|a l IH]; intros g; cbn; [reflexivity|].
  rewrite IH. apply H.
Qed.

Lemma claimReward_world (d : Q) (g : Game.t) (r : Reward) : world (claimReward d g r) = world g.
Proof.
  unfold claimReward.
  match goal with |- context [if ?c then _ else _] => destruct c end; reflexivity.
Qed.

Lemma unlockUpgrades_world (d : Q) (g : Game.t) : world (unlockUpgrades d g) = world g.
Proof.
  unfold unlockUpgrades. cbv zeta.
  repeat match goal with
  | |- world (if ?c then ?a else ?b) = _ =>
      transitivity (world b); [destruct c; reflexivity|]
  end.
  reflexivity.
Qed.

Lemma descend_world (keys : gset string) (g : Game.t) : world (descend keys g) = world g.
Proof.
  unfold descend, checkDepthRewards. destruct (Submarine.has keys "s"); [|reflexivity].
  cbv zeta. rewrite unlockUpgrades_world.
  rewrite (fold_left_world (claimReward _)) by (intros; apply claimReward_world).
  reflexivity.
Qed.

Lemma updateParticles_world (g : Game.t) (w : JS.World) :
  world (updateParticles E g w).1 = world g.
Proof.
  unfold updateParticles, JS.bind. destruct (JS.mapM _ (particles g) w). reflexivity.
Qed.

Lemma updateResources_world (g : Game.t) (w : JS.World) :
  world (updateResources E g w).1 = world g.
Proof.
  unfold updateResources, JS.bind, JS.now. cbn.
  repeat match goal with |- context [if ?c then _ else _] => destruct c end; reflexivity.
Qed.

Lemma checkGameOver_world (g : Game.t) : world (checkGameOver g) = world g.
Proof.
  destruct (checkGameOver_cases g)
    as [[_ ->]|[(_ & _ & ->)|[(_ & _ & _ & ->)|(_ & _ & _ & ->)]]]; reflexivity.
Qed.

(** *** The three collision passes *)

Lemma NoDup_ids_inj (l : list GameObject.t) (o h : GameObject.t) :
  NoDup (List.map GameObject.id l) -> o ∈ l -> h ∈ l ->
  GameObject.id o = GameObject.id h -> o = h.
Proof.
  induction l as [|a l IH]; intros Hnd Ho Hh Hid; [apply elem_of_nil in Ho; destruct Ho|].
  cbn in Hnd. apply NoDup_cons in Hnd as [Hnotin Hnd].
  apply elem_of_cons in Ho as [->|Ho]; apply elem_of_cons in Hh as [->|Hh].
  - reflexivity.
  - exfalso. apply Hnotin. rewrite Hid. apply list_elem_of_fmap. exists h. auto.
  - exfalso. apply Hnotin. rewrite <- Hid. apply list_elem_of_fmap. exists o. auto.
  - apply IH; assumption.
Qed.

(** Dropping the hits of a test keeps the entities that fail it. *)
Lemma without_hits (p : GameObject.t -> bool) (l : list GameObject.t) :
  without (List.filter p l) l = List.filter (fun o => negb (p o)) l.
Proof.
  unfold without. apply filter_ext_in. intros o Ho. f_equal.
  destruct (p o) eqn:Hp.
  - apply bool_decide_eq_true_2, list_elem_of_In, filter_In. split; assumption.
  - apply bool_decide_eq_false_2. intros Hin. apply list_elem_of_In, filter_In in Hin as [_ Hin].
    congruence.
Qed.

Lemma survivors_not_hit (p : GameObject.t -> bool) (l : list GameObject.t) (i : Z) :
  NoDup (List.map GameObject.id l) ->
  i ∈ List.map GameObject.id (List.filter (fun o => negb (p o)) l) ->
  i ∉ List.map GameObject.id (List.filter p l).
Proof.
  intros Hnd Hi Hhit.
  apply list_elem_of_fmap in Hi as (o & -> & Ho). apply list_elem_of_fmap in Hhit as (h & Hid & Hh).
  apply list_elem_of_In, filter_In in Ho as [Ho Hpo].
  apply list_elem_of_In, filter_In in Hh as [Hh Hph].
  apply list_elem_of_In in Ho, Hh.
  rewrite (NoDup_ids_inj l o h Hnd Ho Hh Hid) in Hpo. rewrite Hph in Hpo. discriminate.
Qed.

Lemma hitByMonster_world (g : Game.t) (m : GameObject.t) : world (hitByMonster g m) = world g.
Proof. reflexivity. Qed.

Lemma hitByObstacle_world (g : Game.t) (o : GameObject.t) : world (hitByObstacle g o) = world g.
Proof. reflexivity. Qed.

(** A gated pass over one of the three lists of a state that satisfies
    the invariant: the table gains the ids of the hits, which leave the
    list. *)
Lemma gated_pass_clear (hb : Rect.t) (off : Q) (l : list GameObject.t) (ids : list Z)
    (cd : CollisionDetector.t) (next : Z) (w : JS.World) :
  NoDup (List.map GameObject.id l) ->
  (forall i, i ∈ List.map GameObject.id l -> i ∈ ids) ->
  (forall i, i ∈ ids -> CollisionDetector.collisionCooldown cd !! i = None) ->
  (forall i, i ∈ ids -> (i < next)%Z) ->
  (forall i t, CollisionDetector.collisionCooldown cd !! i = Some t -> (i < next)%Z) ->
  exists cd',
    let p := fun o => CollisionDetector.checkAABB hb
                        (CollisionDetector.getWorldObjectScreenHitbox o off) in
    (JS.forEach (CollisionDetector.gatedStep E hb off) l ([], cd) w).1
    = (List.filter p l, cd') /\
    (forall i, i ∈ ids -> i ∉ List.map GameObject.id (List.filter p l) ->
               CollisionDetector.collisionCooldown cd' !! i = None) /\
    (forall i t, CollisionDetector.collisionCooldown cd' !! i = Some t -> (i < next)%Z).
Proof.
  intros Hnd Hsub Hclear Hlt Hkeys.
  destruct (gated_forEach_fresh E hb off l [] cd w Hnd) as (cd' & Hrun & _ & Hout & Hin).
  { intros o Ho. apply Hclear, Hsub, list_elem_of_fmap. exists o. auto. }
  cbn zeta in *. exists cd'. rewrite Hrun. cbn [fst app].
  split; [reflexivity|]. split.
  - intros i Hi Hnot. rewrite (Hout i Hnot). apply Hclear, Hi.
  - intros i t Hl.
    destruct (decide (i ∈ List.map GameObject.id
                (List.filter (fun o => CollisionDetector.checkAABB hb
                   (CollisionDetector.getWorldObjectScreenHitbox o off)) l))) as [Hhit|Hnot].
    + apply Hlt, Hsub. apply list_elem_of_fmap in Hhit as (o & -> & Ho).
      apply list_elem_of_In, filter_In in Ho as [Ho _]. apply list_elem_of_fmap.
      exists o. split; [reflexivity | apply list_elem_of_In, Ho].
    + rewrite (Hout i Hnot) in Hl. apply Hkeys in Hl. exact Hl.
Qed.

(** The live ids, list by list. *)
Lemma liveIds_parts (g : Game.t) :
  liveIds g = List.map GameObject.id (monsters g) ++ List.map GameObject.id (obstacles g)
              ++ List.map GameObject.id (bubbles g).
Proof. unfold liveIds, liveObjects. rewrite !List.map_app. reflexivity. Qed.

(** The creature pass keeps the invariant and drops exactly the
    overlapping creatures; likewise the other two passes. *)
Lemma collideMonsters_worldInv (cam : Q) (g : Game.t) (w : JS.World) :
  worldInv g ->
  worldInv (collideMonsters E cam g w).1 /\
  monsters (collideMonsters E cam g w).1
  = List.filter (fun o => negb (DetectionSpec.overlaps (submarine g)
                                  (GameState.depth (gameState g)) cam o)) (monsters g).
Proof.
  intros Hinv. pose proof (collideMonsters_steady E cam g w) as (_ & _ & _ & _ & Hwf).
  destruct Hinv as (Hids & [Hclear Hkeys] & Hcap).
  pose proof Hids as [Hnd Hlt]. rewrite liveIds_parts in Hnd.
  apply NoDup_app in Hnd as (Hndm & Hdisj & Hndr).
  destruct (gated_pass_clear (Submarine.getScreenHitbox (submarine g))
              (CollisionDetector.calculateDepthOffset (GameState.depth (gameState g)) cam)
              (monsters g) (liveIds g) (collisionDetector g) (nextMonsterId g) w Hndm)
    as (cd' & Hrun & Hclear' & Hkeys'); try assumption.
  { intros i Hi. rewrite liveIds_parts. apply elem_of_app. left. exact Hi. }
  cbn zeta in Hrun.
  unfold collideMonsters, JS.bind, CollisionDetector.checkMonsterCollisions in *.
  destruct (JS.forEach _ (monsters g) ([], collisionDetector g) w) as [[cols cd1] w1].
  cbn [fst] in Hrun, Hwf |- *. injection Hrun as -> ->.
  set (p := fun o => CollisionDetector.checkAABB (Submarine.getScreenHitbox (submarine g))
              (CollisionDetector.getWorldObjectScreenHitbox o
                 (CollisionDetector.calculateDepthOffset (GameState.depth (gameState g)) cam)))
    in *.
  pose proof (fold_left_world hitByMonster (List.filter p (monsters g))
                (set_collisionDetector cd' g) hitByMonster_world) as Hw.
  set (g1 := fold_left hitByMonster (List.filter p (monsters g)) (set_collisionDetector cd' g))
    in *.
  unfold world in Hw. cbn in Hw. injection Hw as Hcd1 Hm1 Ho1 Hb1 Hn1.
  clearbody g1.
  cbn [JS.ret fst] in Hwf |- *. rewrite Hm1, without_hits in Hwf |- *.
  split; [|reflexivity].
  split; [apply Hwf, Hids|]. split.
  - unfold coolingClear. rewrite liveIds_parts. cbn. rewrite Hcd1, Ho1, Hb1, Hn1.
    split; [|exact Hkeys'].
    intros i Hi. apply Hclear'.
    + rewrite liveIds_parts. apply elem_of_app in Hi as [Hi|Hi]; apply elem_of_app;
        [left|right; exact Hi].
      apply list_elem_of_fmap in Hi as (o & -> & Ho).
      apply list_elem_of_In, filter_In in Ho as [Ho _]. apply list_elem_of_fmap.
      exists o. split; [reflexivity | apply list_elem_of_In, Ho].
    + apply elem_of_app in Hi as [Hi|Hi].
      * apply (survivors_not_hit p (monsters g) i Hndm Hi).
      * intros Hhit. apply (Hdisj i); [|exact Hi].
        apply list_elem_of_fmap in Hhit as (o & -> & Ho).
        apply list_elem_of_In, filter_In in Ho as [Ho _]. apply list_elem_of_fmap.
        exists o. split; [reflexivity | apply list_elem_of_In, Ho].
  - unfold capped. cbn. rewrite Ho1, Hb1. exact Hcap.
Qed.

Lemma collideObstacles_worldInv (cam : Q) (g : Game.t) (w : JS.World) :
  worldInv g ->
  worldInv (collideObstacles E cam g w).1 /\
  obstacles (collideObstacles E cam g w).1
  = List.filter (fun o => negb (DetectionSpec.overlaps (submarine g)
                                  (GameState.depth (gameState g)) cam o)) (obstacles g).
Proof.
  intros Hinv. pose proof (collideObstacles_steady E cam g w) as (_ & _ & _ & _ & Hwf).
  destruct Hinv as (Hids & [Hclear Hkeys] & Hcap).
  pose proof Hids as [Hnd Hlt]. rewrite liveIds_parts in Hnd.
  apply NoDup_app in Hnd as (Hndm & Hdisj & Hndr).
  apply NoDup_app in Hndr as (Hndo & Hdisj2 & Hndb).
  destruct (gated_pass_clear (Submarine.getScreenHitbox (submarine g))
              (CollisionDetector.calculateDepthOffset (GameState.depth (gameState g)) cam)
              (obstacles g) (liveIds g) (collisionDetector g) (nextMonsterId g) w Hndo)
    as (cd' & Hrun & Hclear' & Hkeys'); try assumption.
  { intros i Hi. rewrite liveIds_parts. apply elem_of_app. right.
    apply elem_of_app. left. exact Hi. }
  cbn zeta in Hrun.
  unfold collideObstacles, JS.bind, CollisionDetector.checkObstacleCollisions in *.
  destruct (JS.forEach _ (obstacles g) ([], collisionDetector g) w) as [[cols cd1] w1].
  cbn [fst] in Hrun, Hwf |- *. injection Hrun as -> ->.
  set (p := fun o => CollisionDetector.checkAABB (Submarine.getScreenHitbox (submarine g))
              (CollisionDetector.getWorldObjectScreenHitbox o
                 (CollisionDetector.calculateDepthOffset (GameState.depth (gameState g)) cam)))
    in *.
  pose proof (fold_left_world hitByObstacle (List.filter p (obstacles g))
                (set_collisionDetector cd' g) hitByObstacle_world) as Hw.
  set (g1 := fold_left hitByObstacle (List.filter p (obstacles g))
               (set_collisionDetector cd' g)) in *.
  unfold world in Hw. cbn in Hw. injection Hw as Hcd1 Hm1 Ho1 Hb1 Hn1.
  clearbody g1.
  cbn [JS.ret fst] in Hwf |- *. rewrite Ho1, without_hits in Hwf |- *.
  split; [|reflexivity].
  assert (forall (i : Z), i ∈ List.map GameObject.id (List.filter p (obstacles g)) ->
                          i ∈ List.map GameObject.id (obstacles g)) as Hhits.
  { intros i Hhit. apply list_elem_of_fmap in Hhit as (o & -> & Ho).
    apply list_elem_of_In, filter_In in Ho as [Ho _]. apply list_elem_of_fmap.
    exists o. split; [reflexivity | apply list_elem_of_In, Ho]. }
  split; [apply Hwf, Hids|]. split.
  - unfold coolingClear. rewrite liveIds_parts. cbn. rewrite Hcd1, Hm1, Hb1, Hn1.
    split; [|exact Hkeys'].
    intros i Hi. apply Hclear'.
    + rewrite liveIds_parts. apply elem_of_app in Hi as [Hi|Hi]; apply elem_of_app;
        [left; exact Hi|right].
      apply elem_of_app in Hi as [Hi|Hi]; apply elem_of_app; [left|right; exact Hi].
      apply list_elem_of_fmap in Hi as (o & -> & Ho).
      apply list_elem_of_In, filter_In in Ho as [Ho _]. apply list_elem_of_fmap.
      exists o. split; [reflexivity | apply list_elem_of_In, Ho].
    + apply elem_of_app in Hi as [Hi|Hi]; [|apply elem_of_app in Hi as [Hi|Hi]].
      * intros Hhit. apply (Hdisj i Hi). apply elem_of_app. left. apply Hhits, Hhit.
      * apply (survivors_not_hit p (obstacles g) i Hndo Hi).
      * intros Hhit. apply (Hdisj2 i); [apply Hhits, Hhit | exact Hi].
  - unfold capped. cbn. rewrite Hb1.
    destruct Hcap as [Hco Hcb]. split; [|exact Hcb].
    etransitivity; [apply filter_length_le | exact Hco].
Qed.

Lemma collideBubbles_worldInv (cam : Q) (g : Game.t) (w : JS.World) :
  worldInv g -> worldInv (collideBubbles cam g w).1.
Proof.
  apply (worldInv_steady g _ (collideBubbles_steady cam g w)).
  - unfold collideBubbles, JS.bind. rewrite checkBubbleCollisions_filter. cbn [fst].
    destruct (0 <? _)%Z; reflexivity.
  - unfold collideBubbles, JS.bind. rewrite checkBubbleCollisions_filter. cbn [fst].
    intros [Hco Hcb]. unfold capped, without.
    destruct (0 <? _)%Z; cbn; (split; [exact Hco|]);
      (etransitivity; [apply filter_length_le | exact Hcb]).
Qed.

Lemma collide_worldInv (g : Game.t) (w : JS.World) : worldInv g -> worldInv (collide E g w).1.
Proof.
  intros Hinv. unfold collide, JS.bind.
  pose proof (collideMonsters_worldInv (InputHandler.getCameraOffset (inputHandler g)) g w Hinv)
    as [H1 _].
  destruct (collideMonsters E _ g w) as [g1 w1].
  pose proof (collideObstacles_worldInv (InputHandler.getCameraOffset (inputHandler g)) g1 w1
                H1) as [H2 _].
  destruct (collideObstacles E _ g1 w1) as [g2 w2].
  apply collideBubbles_worldInv, H2.
Qed.

Lemma moveWorld_worldInv (off : Q) (g : Game.t) : worldInv g -> worldInv (moveWorld off g).
Proof.
  apply (worldInv_steady g _ (moveWorld_steady off g)); unfold moveWorld;
    destruct (JS.neb off 0); try reflexivity; try (intros H; exact H).
  unfold capped. cbn. rewrite !length_map. auto.
Qed.

Lemma updateMonsters_worldInv (g : Game.t) (w : JS.World) :
  worldInv g -> worldInv (updateMonsters E g w).1.
Proof.
  apply (worldInv_steady g _ (updateMonsters_steady E g w)); unfold updateMonsters, JS.bind;
    destruct (JS.mapM _ (monsters g) w); [reflexivity | intros H; exact H].
Qed.

Lemma cull_worldInv (g : Game.t) : worldInv g -> worldInv (cull g).
Proof.
  apply (worldInv_steady g _ (cull_steady g)); [reflexivity|].
  unfold capped, cull. cbn. intros [Hco Hcb].
  split; (etransitivity; [apply filter_length_le | assumption]).
Qed.

(** Spawning hands out fresh ids, so no new entity is in the table. *)
Lemma spawn_worldInv (g : Game.t) (w : JS.World) : worldInv g -> worldInv (spawn E g w).1.
Proof.
  intros Hinv. unfold spawn, spawnProceduralElements, JS.bind.
  assert (worldInv (spawnMonsters E g w).1) as H1.
  { revert Hinv. apply (worldInv_steady g _ (spawnMonsters_steady E g w)).
    - unfold spawnMonsters, JS.bind, JS.random. cbn [fst].
      match goal with |- context [if ?c then _ else _] => destruct c end; [|reflexivity].
      match goal with
      | |- collisionDetector (JS.times ?n ?body ?g1 ?w1).1 = _ =>
          apply (times_rel (fun a b : Game.t => collisionDetector b = collisionDetector a)
                   body n g1 w1);
          [reflexivity | intros; congruence | intros; reflexivity]
      end.
    - unfold capped, spawnMonsters, JS.bind, JS.random. cbn [fst].
      match goal with |- context [if ?c then _ else _] => destruct c end; [|auto].
      match goal with
      | |- _ -> (length (obstacles (JS.times ?n ?body ?g1 ?w1).1) <= 4)%nat /\ _ =>
          pose proof (times_rel (fun a b : Game.t => obstacles b = obstacles a
                                                   /\ bubbles b = bubbles a)
                        body n g1 w1) as Hsame
      end.
      destruct Hsame as [Ho Hb];
        [split; reflexivity | intros ? ? ? [? ?] [? ?]; split; congruence
        | intros; split; reflexivity |].
      rewrite Ho, Hb. auto. }
  destruct (spawnMonsters E g w) as [g1 w1]. cbn [fst] in H1.
  assert (worldInv (spawnObstacle E (GameState.depth (gameState g1)) g1 w1).1) as H2.
  { revert H1. apply (worldInv_steady g1 _ (spawnObstacle_steady E _ g1 w1));
      unfold spawnObstacle, JS.bind, JS.random, JS.ret, GameObject.new, JS.now;
      destruct (Z.ltb_spec (Z.of_nat (length (obstacles g1))) 4) as [Hroom|Hfull];
      try reflexivity; try (intros H; exact H); cbn [fst];
      match goal with |- context [if ?c then _ else _] => destruct c end;
      try reflexivity; try (intros H; exact H).
    unfold capped. cbn. rewrite length_app. cbn. intros [_ Hb]. split; [lia | exact Hb]. }
  destruct (spawnObstacle E _ g1 w1) as [g2 w2]. cbn [fst] in H2.
  revert H2. apply (worldInv_steady g2 _ (spawnBubble_steady E _ g2 w2));
    unfold spawnBubble, JS.bind, JS.random, JS.ret, GameObject.new, JS.now;
    destruct (Z.ltb_spec (Z.of_nat (length (bubbles g2))) 5) as [Hroom|Hfull];
    try reflexivity; try (intros H; exact H); cbn [fst];
    match goal with |- context [if ?c then _ else _] => destruct c end;
    try reflexivity; try (intros H; exact H).
  unfold capped. cbn. rewrite length_app. cbn. intros [Ho _]. split; [exact Ho | lia].
Qed.

Lemma update_worldInv (deltaTime : Q) (g : Game.t) (w : JS.World) :
  worldInv g -> worldInv (update E deltaTime g w).1.
Proof.
  intros Hinv.
  destruct (gameOverTriggered g || truthy (menuOpen g)) eqn:Hstop.
  { rewrite update_stopped by (apply orb_true_iff in Hstop; exact Hstop). exact Hinv. }
  apply orb_false_iff in Hstop as [Hover Hmenu].
  rewrite (update_running E deltaTime g w (conj Hover Hmenu)).
  unfold simulate. simpl.
  destruct (Submarine.update (submarine g) (InputHandler.keys (inputHandler g)) deltaTime)
    as [s' off]. unfold JS.bind.
  match goal with
  | |- context [updateParticles E ?g1 w] =>
      assert (worldInv g1) as H0;
      [|pose proof (updateParticles_world g1 w) as H1;
        destruct (updateParticles E g1 w) as [g2 w2]]
  end.
  { apply (worldInv_same (descend (InputHandler.keys (inputHandler g))
                            (moveWorld off
                               (set_submarine s'
                                  (set_inputHandler
                                     (InputHandler.updateCameraOffset (inputHandler g)) g)))));
      [reflexivity|].
    apply (worldInv_same _ _ (descend_world _ _)).
    apply moveWorld_worldInv. apply (worldInv_same g); [reflexivity | exact Hinv]. }
  cbn [fst] in H1. apply (worldInv_same _ _ H1) in H0.
  pose proof (updateResources_world g2 w2) as H2.
  destruct (updateResources E g2 w2) as [g3 w3]. cbn [fst] in H2.
  apply (worldInv_same _ _ H2) in H0.
  pose proof (updateMonsters_worldInv g3 w3 H0) as H3.
  destruct (updateMonsters E g3 w3) as [g4 w4]. cbn [fst] in H3.
  pose proof (collide_worldInv (cull g4) w4 (cull_worldInv g4 H3)) as H5.
  destruct (collide E (cull g4) w4) as [g5 w5]. cbn [fst] in H5.
  pose proof (spawn_worldInv g5 w5 H5) as H6.
  destruct (spawn E g5 w5) as [g6 w6]. cbn [fst] in H6 |- *.
  apply (worldInv_same _ _ (checkGameOver_world g6)), H6.
Qed.

Lemma gameLoop_worldInv (currentTime : Q) (g : Game.t) (w : JS.World) :
  worldInv g -> worldInv (gameLoop E currentTime g w).1.
Proof.
  intros Hinv. unfold gameLoop, JS.bind.
  match goal with
  | |- context [update E ?dt ?g1 w] =>
      pose proof (update_worldInv dt g1 w) as Hup;
      destruct (update E dt g1 w) as [g2 w2]
  end.
  cbn [fst] in *. apply (worldInv_same g2); [reflexivity|].
  apply Hup. apply (worldInv_same g); [reflexivity | exact Hinv].
Qed.

Lemma restart_world (g : Game.t) (w : JS.World) :
  world (restart E g w).1
  = (CollisionDetector.reset (collisionDetector g), [], [], [], 1%Z).
Proof.
  unfold restart, JS.bind. destruct (initializeParticles E w). reflexivity.
Qed.

Lemma empty_worldInv (g : Game.t) (duration : Z) :
  world g = (CollisionDetector.mk ∅ duration, [], [], [], 1%Z) -> worldInv g.
Proof.
  unfold world. intros Hw. injection Hw as Hcd Hm Ho Hb Hn.
  unfold worldInv, idsWellFormed, coolingClear, capped. rewrite liveIds_parts, Hcd, Hm, Ho, Hb.
  cbn. split; [split; [apply NoDup_nil; exact I|]|split; [split|split; lia]].
  - intros i Hi. apply elem_of_nil in Hi. destruct Hi.
  - intros i _. apply lookup_empty.
  - intros i t Hl. rewrite lookup_empty in Hl. discriminate.
Qed.

(** Every event keeps the invariant. *)
Lemma handle_worldInv (e : Event) (g : Game.t) (w : JS.World) :
  worldInv g -> worldInv (handle E e g w).1.
Proof.
  intros Hinv. destruct e as [t|key|key|dy| | | |].
  - apply gameLoop_worldInv, Hinv.
  - pose proof (input_event_station E (KeyDown key) g w I) as Hst.
    unfold station in Hst. injection Hst as _ _ _ _ _ _ Hc Hm Ho Hb Hn.
    apply (worldInv_same g); [|exact Hinv]. unfold world. cbn in *. congruence.
  - apply (worldInv_same g); [reflexivity | exact Hinv].
  - apply (worldInv_same g); [reflexivity | exact Hinv].
  - apply (worldInv_same g); [reflexivity | exact Hinv].
  - apply (worldInv_same g); [reflexivity | exact Hinv].
  - apply (worldInv_same g); [reflexivity | exact Hinv].
  - apply (empty_worldInv _ (CollisionDetector.cooldownDuration (collisionDetector g))).
    apply restart_world.
Qed.

Lemma run_worldInv (events : list Event) (g : Game.t) (w : JS.World) :
  worldInv g -> worldInv (run E events g w).1.
Proof.
  revert g w. induction events as [|e events IH]; intros g w Hg; [exact Hg|].
  rewrite run_cons. pose proof (handle_worldInv e g w Hg) as H1.
  destruct (handle E e g w) as [g1 w1]. apply IH, H1.
Qed.

Lemma new_worldInv (w : JS.World) : worldInv (Game.new E w).1.
Proof.
  apply (empty_worldInv _ 100). unfold Game.new, JS.bind.
  destruct (Submarine.new E 350 270 100 60 w) as [sub w1].
  destruct (JS.now E w1) as [t w2]. destruct (initializeParticles E w2) as [ps w3].
  reflexivity.
Qed.
End WorldFacts.

(** ** The craft, the upgrades and the particles of a run *)
Section ReachMore.
Local Open Scope Q_scope.
Import Game GameSpec ReachSpec UpgradeSpec InputSpec StationSpec WorldSpec SubmarineSpec.
Variable E : JS.Env.

(** A step of non-negative duration keeps the craft on screen. *)
Lemma update_craftOnScreen (s : Submarine.t) (keys : gset string) (dt : Q) :
  craftInv s -> 0 <= dt -> craftOnScreen s -> craftOnScreen (Submarine.update s keys dt).1.
Proof.
  intros (_ & _ & Hc & Hm & Hs & _ & Hw & _) Hdt [Hy Hx].
  assert (0 <= Submarine.moveSpeed s * dt) as Hspeed by (rewrite Hs; nra).
  split.
  - apply (update_vertical_contract s keys dt); [exact Hspeed | rewrite Hm; lra | exact Hy].
  - rewrite update_screenX. unfold Submarine.updateHorizontal.
    destruct (Submarine.has keys "a"); [|destruct (Submarine.has keys "d")]; cbn.
    + destruct (Math_max_cases 0 (Submarine.screenX s - Submarine.moveSpeed s * dt))
        as [[? ->]|[? ->]]; lra.
    + rewrite Hw.
      destruct (Math_min_cases (800 - 100) (Submarine.screenX s + Submarine.moveSpeed s * dt))
        as [[? ->]|[? ->]]; lra.
    + exact Hx.
Qed.

Lemma reset_craftOnScreen (s : Submarine.t) : craftInv s -> craftOnScreen (Submarine.reset s).
Proof.
  intros (_ & _ & Hc & Hm & _). unfold craftOnScreen, screenYInRange. cbn.
  rewrite Hm. lra.
Qed.

(** With frame times that never go back every step has a non-negative
    duration. *)
Lemma run_craftOnScreen (events : list Event) :
  forall (g : Game.t) (w : JS.World),
  settings g -> craftOnScreen (submarine g) -> framesMonotone (lastFrameTime g) events ->
  craftOnScreen (submarine (run E events g w).1).
Proof.
  induction events as [|e events IH]; intros g w Hset Hon Hmono; [exact Hon|].
  rewrite run_cons. pose proof (handle_settings E e g w Hset) as Hset'.
  assert (craftOnScreen (submarine (handle E e g w).1) /\
          framesMonotone (lastFrameTime (handle E e g w).1) events) as [Hon' Hmono'].
  { destruct Hset as (Hcraft & _).
    destruct e as [t|key|key|dy| | | |]; cbn [framesMonotone] in Hmono.
    - destruct Hmono as [Hle Hmono].
      change (handle E (AnimationFrame t) g w) with (gameLoop E t g w).
      destruct (gameLoop_controls E t g w) as (Hlf & _ & _ & _ & _ & Hcases).
      cbn zeta in *. rewrite Hlf. split; [|exact Hmono].
      destruct Hcases as [(_ & -> & _)|(_ & -> & _)]; [exact Hon|].
      apply update_craftOnScreen; [exact Hcraft| |exact Hon].
      destruct (Math_min_cases (t - lastFrameTime g) 16) as [[? ->]|[? ->]]; lra.
    - pose proof (input_event_station E (KeyDown key) g w I) as Hst.
      unfold station in Hst. injection Hst as _ Hsub Hlf _ _ _ _ _ _ _ _.
      cbn [set_inputHandler submarine lastFrameTime] in Hsub, Hlf.
      cbn [handle JS.ret fst]. rewrite Hsub, Hlf.
      split; assumption.
    - split; assumption.
    - split; assumption.
    - split; assumption.
    - split; assumption.
    - split; assumption.
    - change (handle E ClickRestart g w) with (restart E g w).
      destruct (restart_controls E g w) as (Hs & _ & Hlf & _). cbn zeta in *.
      rewrite Hs, Hlf. split; [apply reset_craftOnScreen, Hcraft | exact Hmono]. }
  destruct (handle E e g w) as [g1 w1]. cbn [fst] in *. apply IH; assumption.
Qed.

Lemma handle_upgradesKept (e : Event) (g : Game.t) (w : JS.World) :
  isRestart e = false -> upgradesKept (upgrades g) (upgrades (handle E e g w).1).
Proof.
  destruct e as [t|key|key|dy| | | |]; intros Hno.
  - change (handle E (AnimationFrame t) g w) with (gameLoop E t g w).
    apply (gameLoop_controls E t g w).
  - pose proof (input_event_station E (KeyDown key) g w I) as Hst.
    unfold station in Hst. injection Hst as _ _ _ _ Hu _ _ _ _ _ _.
    cbn [set_inputHandler upgrades] in Hu. cbn [handle JS.ret fst]. rewrite Hu.
    apply upgradesKept_refl.
  - apply upgradesKept_refl.
  - apply upgradesKept_refl.
  - apply upgradesKept_refl.
  - apply upgradesKept_refl.
  - apply upgradesKept_refl.
  - discriminate Hno.
Qed.

(** Without a restart no upgrade is lost. *)
Lemma run_upgradesKept (events : list Event) (g : Game.t) (w : JS.World) :
  noRestart events -> upgradesKept (upgrades g) (upgrades (run E events g w).1).
Proof.
  intros Hno. revert g w. induction Hno as [|e events He _ IH]; intros g w.
  - apply upgradesKept_refl.
  - rewrite run_cons. pose proof (handle_upgradesKept e g w He) as H1.
    destruct (handle E e g w) as [g1 w1]. eapply upgradesKept_trans; [exact H1 | apply IH].
Qed.

Lemma handle_particles (e : Event) (g : Game.t) (w : JS.World) :
  OracleSpec.unitDraws E ->
  drifting50 (particles g) -> drifting50 (particles (handle E e g w).1).
Proof.
  intros Hunit Hps. destruct e as [t|key|key|dy| | | |].
  - change (handle E (AnimationFrame t) g w) with (gameLoop E t g w).
    apply (gameLoop_controls E t g w), Hps.
  - pose proof (input_event_station E (KeyDown key) g w I) as Hst.
    unfold station in Hst. injection Hst as _ _ _ _ _ Hp _ _ _ _ _.
    cbn [set_inputHandler particles] in Hp. cbn [handle JS.ret fst]. rewrite Hp. exact Hps.
  - exact Hps.
  - exact Hps.
  - exact Hps.
  - exact Hps.
  - exact Hps.
  - change (handle E ClickRestart g w) with (restart E g w).
    destruct (restart_controls E g w) as (_ & _ & _ & _ & _ & Hp). cbn zeta in Hp.
    rewrite Hp. unfold drifting50. exact (initializeParticles_drifting E w Hunit).
Qed.

(** The particles stay 50 and in the band. *)
Lemma run_particles (events : list Event) (g : Game.t) (w : JS.World) :
  OracleSpec.unitDraws E ->
  drifting50 (particles g) -> drifting50 (particles (run E events g w).1).
Proof.
  intros Hunit. revert g w. induction events as [|e events IH]; intros g w Hg; [exact Hg|].
  rewrite run_cons. pose proof (handle_particles e g w Hunit Hg) as H1.
  destruct (handle E e g w) as [g1 w1]. apply IH, H1.
Qed.

Lemma new_particles (w : JS.World) :
  OracleSpec.unitDraws E -> drifting50 (particles (Game.new E w).1).
Proof.
  intros Hunit. unfold Game.new, JS.bind.
  destruct (Submarine.new E 350 270 100 60 w) as [sub w1].
  destruct (JS.now E w1) as [t w2].
  pose proof (initializeParticles_drifting E w2 Hunit) as H.
  destruct (initializeParticles E w2) as [ps w3]. exact H.
Qed.

Lemma new_craftOnScreen (w : JS.World) : craftOnScreen (submarine (Game.new E w).1).
Proof.
  unfold Game.new, JS.bind, Submarine.new, GameObject.new, JS.now, JS.ret.
  cbn -[initializeParticles].
  match goal with
  | |- context [initializeParticles E ?w0] => destruct (initializeParticles E w0) as [ps w3]
  end. cbn [fst].
  unfold craftOnScreen, screenYInRange. cbn. lra.
Qed.
End ReachMore.

(** ** Collision outcomes *)
Section Outcomes.
Local Open Scope Q_scope.
Import Game GameSpec WorldSpec OutcomeSpec.
Variable E : JS.Env.

Lemma count_cons {A} (a : A) (l : list A) : count (a :: l) == count l + 1.
Proof.
  unfold count. cbn [length]. rewrite Nat2Z.inj_succ. unfold Z.succ.
  rewrite inject_Z_plus. reflexivity.
Qed.

Lemma count_nonneg {A} (l : list A) : 0 <= count l.
Proof. unfold count. change 0 with (inject_Z 0). rewrite <- Zle_Qle. lia. Qed.

Lemma set_health_id (gs : GameState.t) : GameState.set_health (GameState.health gs) gs = gs.
Proof. destruct gs. reflexivity. Qed.

(** Repeated damage: each hit takes the damage off the health, which
    stops at 0. *)
Lemma fold_damage (hit : Game.t -> GameObject.t -> Game.t) (dmg : Game.t -> Q) :
  (forall g, 0 <= dmg g) ->
  (forall g o, dmg (hit g o) = dmg g) ->
  (forall g o, gameState (hit g o)
               = GameState.set_health (JS.Math_max 0 (GameState.health (gameState g) - dmg g))
                   (gameState g)) ->
  forall (cols : list GameObject.t) (g : Game.t),
  0 <= GameState.health (gameState g) ->
  exists v,
    gameState (fold_left hit cols g) = GameState.set_health v (gameState g) /\
    v == JS.Math_max 0 (GameState.health (gameState g) - dmg g * count cols).
Proof.
  intros Hd Hsame Hhit. induction cols as [|c cols IH]; intros g Hh.
  - exists (GameState.health (gameState g)). cbn [fold_left]. rewrite set_health_id.
    split; [reflexivity|]. unfold count. cbn [length].
    change (inject_Z (Z.of_nat 0)) with 0.
    destruct (Math_max_cases 0 (GameState.health (gameState g) - dmg g * 0))
      as [[? ->]|[? ->]]; lra.
  - cbn [fold_left]. pose proof (Hd g) as Hdg.
    destruct (IH (hit g c)) as (v & Hgs & Hv).
    { rewrite Hhit. cbn.
      destruct (Math_max_cases 0 (GameState.health (gameState g) - dmg g))
        as [[? ->]|[? ->]]; lra. }
    exists v. rewrite Hgs, Hhit. split; [reflexivity|].
    rewrite Hv, Hhit, Hsame. cbn. pose proof (count_cons c cols) as Hc.
    pose proof (count_nonneg cols) as Hn.
    set (h := GameState.health (gameState g)) in *. set (d := dmg g) in *.
    assert (d * count (c :: cols) == d * count cols + d) as Hp1 by (rewrite Hc; ring).
    assert (0 <= d * count cols) as Hp by (apply Qmult_le_0_compat; assumption).
    set (p := d * count cols) in *. set (p1 := d * count (c :: cols)) in *.
    clearbody p p1 h d.
    destruct (Math_max_cases 0 (h - d)) as [[? ->]|[? ->]];
      match goal with
      | |- JS.Math_max 0 ?a == JS.Math_max 0 ?b =>
          destruct (Math_max_cases 0 a) as [[? ->]|[? ->]];
          destruct (Math_max_cases 0 b) as [[? ->]|[? ->]]
      end; lra.
Qed.

Lemma overlap_split (sub : Submarine.t) (d cam : Q) (l : list GameObject.t) :
  List.filter (fun o => CollisionDetector.checkAABB (Submarine.getScreenHitbox sub)
                 (CollisionDetector.getWorldObjectScreenHitbox o
                    (CollisionDetector.calculateDepthOffset d cam))) l
  = List.filter (DetectionSpec.overlaps sub d cam) l.
Proof. reflexivity. Qed.

Lemma live_lists_NoDup (g : Game.t) :
  idsWellFormed g ->
  NoDup (List.map GameObject.id (monsters g)) /\
  NoDup (List.map GameObject.id (obstacles g)) /\
  (forall o, o ∈ monsters g -> GameObject.id o ∈ liveIds g) /\
  (forall o, o ∈ obstacles g -> GameObject.id o ∈ liveIds g).
Proof.
  intros [Hnd _]. rewrite liveIds_parts in *.
  apply NoDup_app in Hnd as (Hm & _ & Hr). apply NoDup_app in Hr as (Ho & _ & _).
  split; [exact Hm|]. split; [exact Ho|]. split; intros o Hin.
  - apply elem_of_app. left. apply list_elem_of_fmap. exists o. auto.
  - apply elem_of_app. right. apply elem_of_app. left. apply list_elem_of_fmap. exists o. auto.
Qed.

(** In a state that satisfies the invariant, the gated pass over the
    creatures (or over the obstacles) reports every overlap. *)
Lemma live_pass_reports_overlaps (g : Game.t) (cam : Q) (w : JS.World) :
  worldInv g ->
  let d := GameState.depth (gameState g) in
  (exists cd',
     CollisionDetector.checkMonsterCollisions E (collisionDetector g) (submarine g)
       (monsters g) d cam w
     = (List.filter (DetectionSpec.overlaps (submarine g) d cam) (monsters g), cd',
        JS.mkWorld (JS.clockReads w
                    + length (List.filter (DetectionSpec.overlaps (submarine g) d cam) (monsters g)))
                   (JS.randomDraws w))) /\
  (exists cd',
     CollisionDetector.checkObstacleCollisions E (collisionDetector g) (submarine g)
       (obstacles g) d cam w
     = (List.filter (DetectionSpec.overlaps (submarine g) d cam) (obstacles g), cd',
        JS.mkWorld (JS.clockReads w
                    + length (List.filter (DetectionSpec.overlaps (submarine g) d cam) (obstacles g)))
                   (JS.randomDraws w))).
Proof.
  intros (Hids & [Hclear _] & _). cbn zeta.
  destruct (live_lists_NoDup g Hids) as (Hndm & Hndo & Hm & Ho).
  split.
  - destruct (gated_forEach_fresh E (Submarine.getScreenHitbox (submarine g))
                (CollisionDetector.calculateDepthOffset (GameState.depth (gameState g)) cam)
                (monsters g) [] (collisionDetector g) w Hndm) as (cd' & Hrun & _).
    { intros o Hin. apply Hclear, Hm, Hin. }
    exists cd'. exact Hrun.
  - destruct (gated_forEach_fresh E (Submarine.getScreenHitbox (submarine g))
                (CollisionDetector.calculateDepthOffset (GameState.depth (gameState g)) cam)
                (obstacles g) [] (collisionDetector g) w Hndo) as (cd' & Hrun & _).
    { intros o Hin. apply Hclear, Ho, Hin. }
    exists cd'. exact Hrun.
Qed.

(** The damage of the creature pass, and below of the rock pass. *)
Lemma collideMonsters_outcome (cam : Q) (g : Game.t) (w : JS.World) :
  worldInv g -> 0 <= GameState.health (gameState g) ->
  let hits := List.filter (DetectionSpec.overlaps (submarine g) (GameState.depth (gameState g)) cam)
                          (monsters g) in
  exists v,
    gameState (collideMonsters E cam g w).1 = GameState.set_health v (gameState g) /\
    v == JS.Math_max 0 (GameState.health (gameState g) - monsterDamage g * count hits).
Proof.
  intros Hinv Hh. cbn zeta.
  destruct (live_pass_reports_overlaps g cam w Hinv) as [(cd' & Hrun) _]. cbn zeta in Hrun.
  unfold collideMonsters, JS.bind. rewrite Hrun. cbn [fst JS.ret gameState set_monsters].
  assert (forall g0, 0 <= monsterDamage g0) as Hpos.
  { intros g0. unfold monsterDamage. destruct (reinforcedHull (upgrades g0)); lra. }
  exact (fold_damage hitByMonster monsterDamage Hpos (fun _ _ => eq_refl)
           (fun _ _ => eq_refl) _ (set_collisionDetector cd' g) Hh).
Qed.

Lemma collideObstacles_outcome (cam : Q) (g : Game.t) (w : JS.World) :
  worldInv g -> 0 <= GameState.health (gameState g) ->
  let hits := List.filter (DetectionSpec.overlaps (submarine g) (GameState.depth (gameState g)) cam)
                          (obstacles g) in
  exists v,
    gameState (collideObstacles E cam g w).1 = GameState.set_health v (gameState g) /\
    v == JS.Math_max 0 (GameState.health (gameState g) - rockDamage g * count hits).
Proof.
  intros Hinv Hh. cbn zeta.
  destruct (live_pass_reports_overlaps g cam w Hinv) as [_ (cd' & Hrun)]. cbn zeta in Hrun.
  unfold collideObstacles, JS.bind. rewrite Hrun. cbn [fst JS.ret gameState set_obstacles].
  assert (forall g0, 0 <= rockDamage g0) as Hpos.
  { intros g0. unfold rockDamage. destruct (reinforcedHull (upgrades g0)); lra. }
  exact (fold_damage hitByObstacle rockDamage Hpos (fun _ _ => eq_refl)
           (fun _ _ => eq_refl) _ (set_collisionDetector cd' g) Hh).
Qed.

(** The bubble pass: no clock, no table, 15 oxygen per bubble. *)
Lemma collideBubbles_outcome (cam : Q) (g : Game.t) (w : JS.World) :
  let hits := List.filter (DetectionSpec.overlaps (submarine g) (GameState.depth (gameState g)) cam)
                          (bubbles g) in
  (collideBubbles cam g w).2 = w /\
  collisionDetector (collideBubbles cam g w).1 = collisionDetector g /\
  bubbles (collideBubbles cam g w).1
  = List.filter (fun b => negb (DetectionSpec.overlaps (submarine g) (GameState.depth (gameState g)) cam b))
                (bubbles g) /\
  (hits = [] ->
   gameState (collideBubbles cam g w).1 = gameState g /\
   page (collideBubbles cam g w).1 = page g) /\
  (hits <> [] ->
   gameState (collideBubbles cam g w).1
   = GameState.set_oxygen
       (JS.Math_min 100 (GameState.oxygen (gameState g) + 15 * count hits)) (gameState g) /\
   page (collideBubbles cam g w).1 = page g ++ [HintShown (OxygenGained (15 * count hits))]).
Proof.
  cbn zeta. unfold collideBubbles, JS.bind. rewrite checkBubbleCollisions_filter.
  cbn [fst snd JS.ret]. fold (count (List.filter (DetectionSpec.overlaps (submarine g)
    (GameState.depth (gameState g)) cam) (bubbles g))).
  set (hits := List.filter (DetectionSpec.overlaps (submarine g)
                              (GameState.depth (gameState g)) cam) (bubbles g)).
  destruct (0 <? Z.of_nat (length hits))%Z eqn:Hpos;
    cbn [fst snd bubbles set_bubbles collisionDetector gameState page showHint set_page
         set_hint set_gameState set_collisionDetector];
    unfold hits at 1; rewrite without_hits; fold hits.
  - apply Z.ltb_lt in Hpos.
    split; [reflexivity|]. split; [reflexivity|]. split; [reflexivity|]. split.
    + intros Hnil. rewrite Hnil in Hpos. cbn in Hpos. lia.
    + intros _. split; reflexivity.
  - apply Z.ltb_ge in Hpos.
    split; [reflexivity|]. split; [reflexivity|]. split; [reflexivity|]. split.
    + intros _. split; reflexivity.
    + intros Hne. destruct hits; [contradiction | cbn in Hpos; lia].
Qed.
End Outcomes.

(** ** Restart *)
Section RestartFacts.
Local Open Scope Q_scope.
Import Game GameSpec ReachSpec UpgradeSpec InputSpec StationSpec WorldSpec OutcomeSpec
       RestartSpec SubmarineSpec.
Variable E : JS.Env.

(** [update] changes only what [reset] overwrites. *)
Lemma update_reset (s : Submarine.t) (keys : gset string) (dt : Q) :
  Submarine.reset (Submarine.update s keys dt).1 = Submarine.reset s.
Proof.
  unfold Submarine.update, Submarine.updateDown, Submarine.updateUp,
    Submarine.updateHorizontal.
  destruct (Submarine.has keys "w"), (Submarine.has keys "s"), (Submarine.has keys "a"),
    (Submarine.has keys "d"); reflexivity.
Qed.

Lemma handle_sameBuild (e : Event) (g : Game.t) (w : JS.World) :
  Submarine.reset (submarine (handle E e g w).1) = Submarine.reset (submarine g).
Proof.
  destruct e as [t|key|key|dy| | | |].
  - change (handle E (AnimationFrame t) g w) with (gameLoop E t g w).
    destruct (gameLoop_controls E t g w) as (_ & _ & _ & _ & _ & Hcases). cbn zeta in Hcases.
    destruct Hcases as [(_ & -> & _)|(_ & -> & _)]; [reflexivity | apply update_reset].
  - pose proof (input_event_station E (KeyDown key) g w I) as Hst.
    unfold station in Hst. injection Hst as _ Hsub _ _ _ _ _ _ _ _ _.
    cbn [set_inputHandler submarine] in Hsub. cbn [handle JS.ret fst]. rewrite Hsub.
    reflexivity.
  - reflexivity.
  - reflexivity.
  - reflexivity.
  - reflexivity.
  - reflexivity.
  - change (handle E ClickRestart g w) with (restart E g w).
    destruct (restart_controls E g w) as (Hs & _). cbn zeta in Hs. rewrite Hs. reflexivity.
Qed.

(** The craft of a run resets to the craft of its start. *)
Lemma run_sameBuild (events : list Event) (g : Game.t) (w : JS.World) :
  Submarine.reset (submarine (run E events g w).1) = Submarine.reset (submarine g).
Proof.
  revert g w. induction events as [|e events IH]; intros g w; [reflexivity|].
  rewrite run_cons. pose proof (handle_sameBuild e g w) as H1.
  destruct (handle E e g w) as [g1 w1]. cbn [fst] in H1. rewrite IH. exact H1.
Qed.

(** The gameplay state after [restart], and of a new game. *)
Lemma restart_gameplay (g : Game.t) (w : JS.World) :
  gameplay (restart E g w).1
  = (InputHandler.new, CollisionDetector.reset (collisionDetector g),
     Submarine.reset (submarine g), initialGameState, [], [], [], initialUpgrades, 1%Z,
     0, 0%Z, resourceUpdateInterval g, false, None, false, None, None, ∅).
Proof.
  unfold restart, JS.bind. destruct (initializeParticles E w) as [ps w1]. reflexivity.
Qed.

Lemma new_gameplay (w : JS.World) :
  gameplay (Game.new E w).1
  = (InputHandler.new, CollisionDetector.new,
     Submarine.reset (submarine (Game.new E w).1), initialGameState, [], [], [],
     initialUpgrades, 1%Z, 0, 0%Z, 50%Z, false, None, false, None, None, ∅).
Proof.
  unfold Game.new, JS.bind, Submarine.new, GameObject.new, JS.now, JS.ret.
  cbn -[initializeParticles].
  match goal with
  | |- context [initializeParticles E ?w0] => destruct (initializeParticles E w0) as [ps w3]
  end. reflexivity.
Qed.

(** X19. Restart. From every state the game can reach, [restart]
    gives the gameplay state of a new game (input, detector, craft,
    game state, entities, upgrades, ids, spawn and resource
    bookkeeping, flags, menu, hint, claimed rewards); it keeps the
    time of the last frame, hides the game-over screen and leaves the
    game running. *)
Theorem restart_round_trip (events : list Event) (w w' : JS.World) :
  gameplay (restart E (reached E events w) w').1 = gameplay (Game.new E w).1 /\
  lastFrameTime (restart E (reached E events w) w').1 = lastFrameTime (reached E events w) /\
  page (restart E (reached E events w) w').1 = page (reached E events w) ++ [GameOverHidden] /\
  running (restart E (reached E events w) w').1.
Proof.
  unfold reached.
  pose proof (run_settings E events _ (Game.new E w).2 (new_settings E w))
    as (_ & _ & Hri & Hcd).
  pose proof (run_sameBuild events (Game.new E w).1 (Game.new E w).2) as Hsub.
  set (g := (run E events (Game.new E w).1 (Game.new E w).2).1) in *.
  split; [|split; [|split]].
  - rewrite restart_gameplay, new_gameplay, Hsub, Hri.
    unfold CollisionDetector.reset. rewrite Hcd. reflexivity.
  - unfold restart, JS.bind. destruct (initializeParticles E w'). reflexivity.
  - unfold restart, JS.bind. destruct (initializeParticles E w'). reflexivity.
  - unfold restart, JS.bind. destruct (initializeParticles E w'). split; reflexivity.
Qed.
End RestartFacts.

(** ** The collision phase *)
Section Phase.
Local Open Scope Q_scope.
Import Game GameSpec WorldSpec OutcomeSpec PhaseSpec.
Variable E : JS.Env.

(** A loop whose steps keep a projection keeps it. *)
Lemma fold_left_proj {A B} (proj : Game.t -> B) (f : Game.t -> A -> Game.t) (l : list A)
    (g : Game.t) :
  (forall g a, proj (f g a) = proj g) -> proj (fold_left f l g) = proj g.
Proof.
  intros H. revert g. induction l as [|a l IH]; intros g; cbn; [reflexivity|].
  rewrite IH. apply H.
Qed.

(** All of the creature pass at once: the clock, the invariant, the
    survivors, what is left alone, and the health. *)
Lemma collideMonsters_full (cam : Q) (g : Game.t) (w : JS.World) :
  worldInv g -> 0 <= GameState.health (gameState g) ->
  let hit := DetectionSpec.overlaps (submarine g) (GameState.depth (gameState g)) cam in
  let g1 := (collideMonsters E cam g w).1 in
  (collideMonsters E cam g w).2
  = JS.mkWorld (JS.clockReads w + length (List.filter hit (monsters g))) (JS.randomDraws w) /\
  worldInv g1 /\
  monsters g1 = List.filter (fun o => negb (hit o)) (monsters g) /\
  (scene g1, obstacles g1, bubbles g1) = (scene g, obstacles g, bubbles g) /\
  exists v, gameState g1 = GameState.set_health v (gameState g) /\
            v == JS.Math_max 0 (GameState.health (gameState g)
                                - monsterDamage g * count (List.filter hit (monsters g))).
Proof.
  intros Hinv Hh. cbn zeta.
  destruct (collideMonsters_worldInv E cam g w Hinv) as [Hinv1 Hms].
  pose proof (collideMonsters_outcome E cam g w Hinv Hh) as Hout. cbn zeta in Hout.
  split; [|split; [exact Hinv1|split; [exact Hms|split; [|exact Hout]]]].
  - destruct (live_pass_reports_overlaps E g cam w Hinv) as [(cd' & Hrun) _].
    cbn zeta in Hrun. unfold collideMonsters, JS.bind. rewrite Hrun. reflexivity.
  - destruct (live_pass_reports_overlaps E g cam w Hinv) as [(cd' & Hrun) _].
    cbn zeta in Hrun. unfold collideMonsters, JS.bind. rewrite Hrun.
    cbn [fst JS.ret scene inputHandler submarine upgrades obstacles bubbles set_monsters].
    exact (fold_left_proj (fun g => (scene g, obstacles g, bubbles g)) hitByMonster _
             (set_collisionDetector cd' g) (fun _ _ => eq_refl)).
Qed.

Lemma collideObstacles_full (cam : Q) (g : Game.t) (w : JS.World) :
  worldInv g -> 0 <= GameState.health (gameState g) ->
  let hit := DetectionSpec.overlaps (submarine g) (GameState.depth (gameState g)) cam in
  let g1 := (collideObstacles E cam g w).1 in
  (collideObstacles E cam g w).2
  = JS.mkWorld (JS.clockReads w + length (List.filter hit (obstacles g))) (JS.randomDraws w) /\
  worldInv g1 /\
  obstacles g1 = List.filter (fun o => negb (hit o)) (obstacles g) /\
  (scene g1, monsters g1, bubbles g1) = (scene g, monsters g, bubbles g) /\
  exists v, gameState g1 = GameState.set_health v (gameState g) /\
            v == JS.Math_max 0 (GameState.health (gameState g)
                                - rockDamage g * count (List.filter hit (obstacles g))).
Proof.
  intros Hinv Hh. cbn zeta.
  destruct (collideObstacles_worldInv E cam g w Hinv) as [Hinv1 Hms].
  pose proof (collideObstacles_outcome E cam g w Hinv Hh) as Hout. cbn zeta in Hout.
  split; [|split; [exact Hinv1|split; [exact Hms|split; [|exact Hout]]]].
  - destruct (live_pass_reports_overlaps E g cam w Hinv) as [_ (cd' & Hrun)].
    cbn zeta in Hrun. unfold collideObstacles, JS.bind. rewrite Hrun. reflexivity.
  - destruct (live_pass_reports_overlaps E g cam w Hinv) as [_ (cd' & Hrun)].
    cbn zeta in Hrun. unfold collideObstacles, JS.bind. rewrite Hrun.
    cbn [fst JS.ret scene inputHandler submarine upgrades monsters bubbles set_obstacles].
    exact (fold_left_proj (fun g => (scene g, monsters g, bubbles g)) hitByObstacle _
             (set_collisionDetector cd' g) (fun _ _ => eq_refl)).
Qed.

Lemma collideBubbles_others (cam : Q) (g : Game.t) (w : JS.World) :
  (scene (collideBubbles cam g w).1, monsters (collideBubbles cam g w).1,
   obstacles (collideBubbles cam g w).1)
  = (scene g, monsters g, obstacles g).
Proof.
  unfold collideBubbles, JS.bind. rewrite checkBubbleCollisions_filter. cbn [fst snd JS.ret].
  destruct (0 <? _)%Z; reflexivity.
Qed.

(** Two clamped subtractions are one. *)
Lemma max_max (v h a b : Q) :
  v == JS.Math_max 0 (h - a) -> 0 <= a -> 0 <= b ->
  JS.Math_max 0 (v - b) == JS.Math_max 0 (h - a - b).
Proof.
  intros Hv Ha Hb.
  destruct (Math_max_cases 0 (h - a)) as [[? H1]|[? H1]];
    destruct (Math_max_cases 0 (v - b)) as [[? H2]|[? H2]];
    destruct (Math_max_cases 0 (h - a - b)) as [[? H3]|[? H3]];
    rewrite H2, H3; rewrite H1 in *; lra.
Qed.

Lemma damage_nonneg (g : Game.t) {A} (l : list A) :
  0 <= monsterDamage g * count l /\ 0 <= rockDamage g * count l.
Proof.
  pose proof (count_nonneg l). unfold monsterDamage, rockDamage.
  destruct (reinforcedHull (upgrades g)); split; apply Qmult_le_0_compat; lra || assumption.
Qed.

(** The collision phase on a state that satisfies the invariant: the
    overlapping entities leave their lists, the health drops by the
    damage of each creature and rock hit and stops at 0, the oxygen
    rises by 15 per bubble up to 100, and the clock is read once per
    creature and rock hit. *)
Lemma collision_phase_outcome (g : Game.t) (w : JS.World) :
  worldInv g -> 0 <= GameState.health (gameState g) ->
  let hit := DetectionSpec.overlaps (submarine g) (GameState.depth (gameState g))
               (InputHandler.getCameraOffset (inputHandler g)) in
  let g' := (collide E g w).1 in
  monsters g' = List.filter (fun o => negb (hit o)) (monsters g) /\
  obstacles g' = List.filter (fun o => negb (hit o)) (obstacles g) /\
  bubbles g' = List.filter (fun o => negb (hit o)) (bubbles g) /\
  (exists v ox,
     gameState g' = GameState.set_oxygen ox (GameState.set_health v (gameState g)) /\
     v == JS.Math_max 0 (GameState.health (gameState g)
                         - monsterDamage g * count (List.filter hit (monsters g))
                         - rockDamage g * count (List.filter hit (obstacles g))) /\
     ox == (if bool_decide (List.filter hit (bubbles g) = [])
            then GameState.oxygen (gameState g)
            else JS.Math_min 100 (GameState.oxygen (gameState g)
                                  + 15 * count (List.filter hit (bubbles g))))) /\
  (collide E g w).2
  = JS.mkWorld (JS.clockReads w + length (List.filter hit (monsters g))
                + length (List.filter hit (obstacles g))) (JS.randomDraws w) /\
  worldInv g'.
Proof.
  intros Hinv Hh. cbn zeta. unfold collide, JS.bind.
  set (cam := InputHandler.getCameraOffset (inputHandler g)).
  destruct (collideMonsters_full cam g w Hinv Hh) as (Hw1 & Hinv1 & Hm1 & Hs1 & v1 & Hg1 & Hv1).
  cbn zeta in *.
  destruct (collideMonsters E cam g w) as [g1 w1]. cbn [fst snd] in *.
  injection Hs1 as Hi1 Hsub1 Hu1 Ho1 Hb1.
  assert (0 <= GameState.health (gameState g1)) as Hh1.
  { rewrite Hg1. cbn. rewrite Hv1.
    match goal with |- 0 <= JS.Math_max 0 ?x =>
      destruct (Math_max_cases 0 x) as [[? ->]|[? ->]]; lra end. }
  destruct (collideObstacles_full cam g1 w1 Hinv1 Hh1)
    as (Hw2 & Hinv2 & Ho2 & Hs2 & v2 & Hg2 & Hv2).
  cbn zeta in *.
  destruct (collideObstacles E cam g1 w1) as [g2 w2]. cbn [fst snd] in *.
  injection Hs2 as Hi2 Hsub2 Hu2 Hm2 Hb2.
  pose proof (collideBubbles_outcome cam g2 w2) as (Hw3 & _ & Hb3 & Hnil & Hcons).
  pose proof (collideBubbles_others cam g2 w2) as Hs3.
  pose proof (collideBubbles_worldInv cam g2 w2 Hinv2) as Hinv3.
  destruct (collideBubbles cam g2 w2) as [g3 w3]. cbn [fst snd] in *.
  injection Hs3 as Hi3 Hsub3 Hu3 Hm3 Ho3.
  assert (GameState.depth (gameState g1) = GameState.depth (gameState g)) as Hd1
    by (rewrite Hg1; reflexivity).
  assert (GameState.depth (gameState g2) = GameState.depth (gameState g)) as Hd2
    by (rewrite Hg2; cbn; exact Hd1).
  rewrite Hsub2, Hsub1, Hd2, Hb2, Hb1 in Hb3, Hnil, Hcons.
  rewrite Hsub1, Hd1, Ho1 in Ho2, Hw2, Hv2.
  split; [rewrite Hm3, Hm2; exact Hm1|]. split; [rewrite Ho3; exact Ho2|].
  split; [exact Hb3|]. split; [|split; [|exact Hinv3]].
  - exists v2.
    assert (monsterDamage g1 = monsterDamage g /\ rockDamage g1 = rockDamage g) as [Hmd Hrd]
      by (unfold monsterDamage, rockDamage; rewrite Hu1; split; reflexivity).
    assert (v2 == JS.Math_max 0 (GameState.health (gameState g)
                     - monsterDamage g * count (List.filter
                         (DetectionSpec.overlaps (submarine g) (GameState.depth (gameState g)) cam)
                         (monsters g))
                     - rockDamage g * count (List.filter
                         (DetectionSpec.overlaps (submarine g) (GameState.depth (gameState g)) cam)
                         (obstacles g)))) as Hv.
    { rewrite Hv2, Hg1, Hrd. cbn [GameState.health GameState.set_health].
      apply max_max; [exact Hv1 | apply damage_nonneg | apply damage_nonneg]. }
    case_bool_decide as Hhits.
    + destruct (Hnil Hhits) as [Hgs _].
      exists (GameState.oxygen (gameState g)). split; [|split; [exact Hv | reflexivity]].
      rewrite Hgs, Hg2, Hg1. destruct (gameState g). reflexivity.
    + destruct (Hcons Hhits) as [Hgs _].
      eexists. split; [|split; [exact Hv | reflexivity]].
      rewrite Hgs, Hg2, Hg1. destruct (gameState g). reflexivity.
  - rewrite Hw3, Hw2, Hw1. reflexivity.
Qed.
End Phase.

(** ** Every reachable state *)
Section RunLevel.
Local Open Scope Q_scope.
Import Game GameSpec ReachSpec UpgradeSpec InputSpec StationSpec WorldSpec OutcomeSpec
       RestartSpec SubmarineSpec PhaseSpec ParticleSpec OracleSpec.
Variable E : JS.Env.

(** The phases before the culling keep the invariant. *)
Lemma simulate_worldInv (deltaTime : Q) (g : Game.t) (w : JS.World) :
  worldInv g -> worldInv (simulate E deltaTime g w).1.
Proof.
  intros Hinv. unfold simulate. simpl.
  destruct (Submarine.update (submarine g) (InputHandler.keys (inputHandler g)) deltaTime)
    as [s' off]. unfold JS.bind.
  match goal with
  | |- context [updateParticles E ?g1 w] =>
      assert (worldInv g1) as H0;
      [|pose proof (updateParticles_world E g1 w) as H1;
        destruct (updateParticles E g1 w) as [g2 w2]]
  end.
  { apply (worldInv_same (descend (InputHandler.keys (inputHandler g))
                            (moveWorld off
                               (set_submarine s'
                                  (set_inputHandler
                                     (InputHandler.updateCameraOffset (inputHandler g)) g)))));
      [reflexivity|].
    apply (worldInv_same _ _ (descend_world _ _)).
    apply moveWorld_worldInv. apply (worldInv_same g); [reflexivity | exact Hinv]. }
  cbn [fst] in H1. apply (worldInv_same _ _ H1) in H0.
  pose proof (updateResources_world E g2 w2) as H2.
  destruct (updateResources E g2 w2) as [g3 w3]. cbn [fst] in H2.
  apply (worldInv_same _ _ H2) in H0.
  exact (updateMonsters_worldInv E g3 w3 H0).
Qed.

Lemma reached_worldInv (events : list Event) (w : JS.World) : worldInv (reached E events w).
Proof. unfold reached. apply run_worldInv, new_worldInv. Qed.

Lemma reached_resources (events : list Event) (w : JS.World) :
  resourcesInRange (gameState (reached E events w)).
Proof.
  unfold reached. apply run_resources.
  destruct (new_state E w) as (-> & _). apply initialGameState_inRange.
Qed.

(** The collision phase of a tick runs on a state that satisfies the
    invariant, with its resources in range. *)
Lemma beforeCollisions_sound (deltaTime : Q) (g : Game.t) (w : JS.World) :
  worldInv g -> resourcesInRange (gameState g) ->
  worldInv (beforeCollisions E deltaTime g w) /\
  resourcesInRange (gameState (beforeCollisions E deltaTime g w)).
Proof.
  intros Hinv Hres. unfold beforeCollisions. split.
  - apply cull_worldInv, simulate_worldInv, Hinv.
  - destruct (cull_steady (simulate E deltaTime g w).1) as (_ & _ & _ & Hr & _).
    apply Hr. destruct (simulate_orderly E deltaTime g w) as (Hs & _). apply Hs, Hres.
Qed.

(** X20. Ids. In every state the game can reach the ids of the
    live creatures, rocks and bubbles are pairwise distinct and below
    the next id to hand out. *)
Theorem ids_unique_throughout (events : list Event) (w : JS.World) :
  NoDup (liveIds (reached E events w)) /\
  (forall i, i ∈ liveIds (reached E events w) -> (i < nextMonsterId (reached E events w))%Z).
Proof. apply (reached_worldInv events w). Qed.

(** X21. Caps. In every state the game can reach there are at
    most 4 rocks and at most 5 bubbles. *)
Theorem spawn_caps_hold_throughout (events : list Event) (w : JS.World) :
  (length (obstacles (reached E events w)) <= 4)%nat /\
  (length (bubbles (reached E events w)) <= 5)%nat.
Proof. apply (reached_worldInv events w). Qed.

(** X22. The cooldown in play. In every state the game can
    reach, and in the state in which the collision phase of any tick
    from it runs, no live entity has an entry in the cooldown table;
    so the gated passes report every overlapping creature and rock,
    with one clock reading per hit. *)
Theorem cooldown_never_gates_in_game (events : list Event) (w0 : JS.World)
    (deltaTime : Q) (w : JS.World) :
  let g := beforeCollisions E deltaTime (reached E events w0) w in
  let d := GameState.depth (gameState g) in
  (forall i, i ∈ liveIds (reached E events w0) ->
     CollisionDetector.collisionCooldown (collisionDetector (reached E events w0)) !! i = None) /\
  (forall i, i ∈ liveIds g ->
     CollisionDetector.collisionCooldown (collisionDetector g) !! i = None) /\
  (forall cam w', exists cd',
     CollisionDetector.checkMonsterCollisions E (collisionDetector g) (submarine g)
       (monsters g) d cam w'
     = (List.filter (DetectionSpec.overlaps (submarine g) d cam) (monsters g), cd',
        JS.mkWorld (JS.clockReads w'
                    + length (List.filter (DetectionSpec.overlaps (submarine g) d cam) (monsters g)))
                   (JS.randomDraws w'))) /\
  (forall cam w', exists cd',
     CollisionDetector.checkObstacleCollisions E (collisionDetector g) (submarine g)
       (obstacles g) d cam w'
     = (List.filter (DetectionSpec.overlaps (submarine g) d cam) (obstacles g), cd',
        JS.mkWorld (JS.clockReads w'
                    + length (List.filter (DetectionSpec.overlaps (submarine g) d cam) (obstacles g)))
                   (JS.randomDraws w'))).
Proof.
  cbn zeta. pose proof (reached_worldInv events w0) as Hinv.
  destruct (beforeCollisions_sound deltaTime _ w Hinv (reached_resources events w0))
    as [Hb _].
  split; [apply Hinv|]. split; [apply Hb|].
  split; intros cam w'; apply (live_pass_reports_overlaps E _ cam w' Hb).
Qed.

(** X24. Settings. In every state the game can reach the tilt of
    the craft and its target are within 15 degrees, the craft has its
    constants (centre 270, range 80, speed 0.18, size 100 by 60, the
    hitbox inset), the camera offset and its target are within
    [-100, 100], the resource interval is 50 and the cooldown duration
    is 100. *)
Theorem settings_hold_throughout (events : list Event) (w : JS.World) :
  settings (reached E events w).
Proof. unfold reached. apply run_settings, new_settings. Qed.

(** X25. The craft on screen. If the frame times never go back,
    starting from the clock reading of the constructor, then in every
    state the game reaches the craft is within its vertical band and
    within [0, 700] horizontally. *)
Theorem craft_stays_on_screen (events : list Event) (w : JS.World) :
  framesMonotone (lastFrameTime (Game.new E w).1) events ->
  craftOnScreen (submarine (reached E events w)).
Proof.
  intros Hmono. unfold reached.
  apply run_craftOnScreen; [apply new_settings | apply new_craftOnScreen | exact Hmono].
Qed.

(** X26. Particles, for a random source in [0, 1), in the
    arithmetic of doubles. Every state the game can reach has 50
    particles, each with y in [0, 600], size in [1, 4] and speed within
    a hundred-millionth of [0.2, 0.7]. One move of such a particle
    keeps its size and speed and puts y in [0, 600); the new y is the
    exact [y - speed], or [y - speed + 600] after a wrap, up to a
    hundred-millionth, and which of the two is decided by the sign of
    [y - speed] once that is beyond the same margin. *)
Theorem particles_keep_drifting (events : list Event) (w : JS.World) :
  unitDraws E ->
  (Forall drifting (particles (reached E events w)) /\
   length (particles (reached E events w)) = 50%nat) /\
  (forall p w', drifting p ->
     let p' := (moveParticle E p w').1 in
     let exact := Particle.y p - Particle.speed p in
     (drifting p' /\ Particle.y p' < 600) /\
     Particle.size p' = Particle.size p /\ Particle.speed p' = Particle.speed p /\
     (Particle.speed p + slack <= Particle.y p ->
      exact - slack <= Particle.y p' /\ Particle.y p' <= exact + slack) /\
     (Particle.y p + slack <= Particle.speed p ->
      exact + 600 - slack <= Particle.y p' /\ Particle.y p' <= exact + 600 + slack) /\
     ((exact - slack <= Particle.y p' /\ Particle.y p' <= exact + slack) \/
      (exact + 600 - slack <= Particle.y p' /\ Particle.y p' <= exact + 600 + slack))).
Proof.
  intros Hunit. split.
  - unfold reached. apply (run_particles E events _ _ Hunit), new_particles, Hunit.
  - intros p w' Hp. exact (moveParticle_wraps E p w' Hp).
Qed.

(** X27. Upgrades. [checkDepthRewards] sets each upgrade whose
    depth (3000, 5000, 7000, 9000) has been reached and clears none;
    no event other than a restart loses an upgrade; a restart clears
    them all. *)
Theorem upgrades_follow_depth_and_stay :
  (forall g, upgrades (checkDepthRewards g)
             = unlockedAt (GameState.depth (gameState g)) (upgrades g)) /\
  (forall events g w, noRestart events ->
     upgradesKept (upgrades g) (upgrades (run E events g w).1)) /\
  (forall g w, upgrades (restart E g w).1 = initialUpgrades).
Proof.
  split; [|split].
  - intros g. unfold checkDepthRewards. cbv zeta. rewrite unlockUpgrades_upgrades.
    f_equal. apply (fold_left_proj upgrades). intros g0 r. unfold claimReward.
    match goal with |- context [if ?c then _ else _] => destruct c end; reflexivity.
  - intros events g w. apply run_upgradesKept.
  - intros g w. unfold restart, JS.bind. destruct (initializeParticles E w). reflexivity.
Qed.

(** X28. The depth colour. [updateDepthColor] touches neither
    the canvas nor the background position, the colour it sets depends
    on the depth only, and a greater depth never gives a brighter
    channel. *)
Theorem depth_colour_darkens (r r' : Renderer.t) (d d' : Q) :
  Renderer.ctx (Renderer.updateDepthColor r d) = Renderer.ctx r /\
  Renderer.backgroundY (Renderer.updateDepthColor r d) = Renderer.backgroundY r /\
  Renderer.depthColor (Renderer.updateDepthColor r d)
  = Renderer.depthColor (Renderer.updateDepthColor r' d) /\
  (d <= d' ->
   darker (Renderer.depthColor (Renderer.updateDepthColor r d'))
          (Renderer.depthColor (Renderer.updateDepthColor r d))).
Proof.
  unfold Renderer.updateDepthColor, darker.
  destruct (JS.ltb d 1000) eqn:H1, (JS.ltb d 3000) eqn:H2, (JS.ltb d 6000) eqn:H3,
    (JS.ltb d 9000) eqn:H4; (split; [reflexivity|split; [reflexivity|split; [reflexivity|]]]);
    intros Hle;
    destruct (JS.ltb d' 1000) eqn:H5, (JS.ltb d' 3000) eqn:H6, (JS.ltb d' 6000) eqn:H7,
      (JS.ltb d' 9000) eqn:H8; cbn; try lia; js_facts; lra.
Qed.
End RunLevel.

(** ** The collision phase of a tick, and sample runs *)
Section Tick.
Local Open Scope Q_scope.
Import Game GameSpec ReachSpec WorldSpec OutcomeSpec PhaseSpec.
Variable E : JS.Env.

(** X23. The collision phase of a tick from any state the game
    can reach. Exactly the overlapping creatures, rocks and bubbles
    leave their lists; the health drops by 10 per creature and 25 per
    rock hit (7 and 17 with the reinforced hull) and stops at 0; the
    oxygen rises by 15 per bubble up to 100; nothing else of the game
    state changes, and the clock is read once per creature and rock
    hit. *)
Theorem tick_collision_outcome (events : list Event) (w0 : JS.World) (deltaTime : Q)
    (w : JS.World) :
  let g := beforeCollisions E deltaTime (reached E events w0) w in
  let w1 := (simulate E deltaTime (reached E events w0) w).2 in
  let hit := DetectionSpec.overlaps (submarine g) (GameState.depth (gameState g))
               (InputHandler.getCameraOffset (inputHandler g)) in
  let g' := (collide E g w1).1 in
  monsters g' = List.filter (fun o => negb (hit o)) (monsters g) /\
  obstacles g' = List.filter (fun o => negb (hit o)) (obstacles g) /\
  bubbles g' = List.filter (fun o => negb (hit o)) (bubbles g) /\
  (exists v ox,
     gameState g' = GameState.set_oxygen ox (GameState.set_health v (gameState g)) /\
     v == JS.Math_max 0 (GameState.health (gameState g)
                         - monsterDamage g * count (List.filter hit (monsters g))
                         - rockDamage g * count (List.filter hit (obstacles g))) /\
     ox == (if bool_decide (List.filter hit (bubbles g) = [])
            then GameState.oxygen (gameState g)
            else JS.Math_min 100 (GameState.oxygen (gameState g)
                                  + 15 * count (List.filter hit (bubbles g))))) /\
  (collide E g w1).2
  = JS.mkWorld (JS.clockReads w1 + length (List.filter hit (monsters g))
                + length (List.filter hit (obstacles g))) (JS.randomDraws w1).
Proof.
  cbn zeta.
  destruct (beforeCollisions_sound E deltaTime _ w (reached_worldInv E events w0)
              (reached_resources E events w0)) as [Hinv ((Hh & _) & _)].
  destruct (collision_phase_outcome E _ (simulate E deltaTime (reached E events w0) w).2
              Hinv Hh) as (Hm & Ho & Hb & Hgs & Hw & _).
  split; [exact Hm|]. split; [exact Ho|]. split; [exact Hb|]. split; [exact Hgs | exact Hw].
Qed.
End Tick.

Section MoreWitnesses.
Local Open Scope Q_scope.
Import Game GameSpec ReachSpec WorldSpec OutcomeSpec PhaseSpec.

(** The sample random source is in [0, 1). *)
Lemma sample_unitDraws : OracleSpec.unitDraws Samples.env.
Proof. intros k. cbn. lra. Qed.

(** A spawn at depth 0 in a new game. *)
Lemma spawnMonster_enters_from_a_side_witness :
  OracleSpec.unitDraws Samples.env /\
  exists m,
    monsters (spawnMonster Samples.env 0 Samples.game0 Samples.world1).1 = [m] /\
    GameObject.isOffScreen m 800 600 0 = false.
Proof.
  split; [exact sample_unitDraws|].
  destruct (spawnMonster_enters_from_a_side Samples.env 0 Samples.game0 Samples.world1
              sample_unitDraws ltac:(lra) ltac:(lra))
    as (m & Heq & _ & _ & _ & _ & _ & _ & _ & Hoff).
  exists m. rewrite Heq. split; [reflexivity | exact Hoff].
Defined.

(** A draw of 1/128 spawns a rock in a new game. *)
Lemma procedural_spawns_capped_and_on_screen_witness :
  OracleSpec.unitDraws Samples.luckyEnv /\
  exists o,
    obstacles (spawnObstacle Samples.luckyEnv 0 Samples.game0 Samples.world1).1 = [o] /\
    (50 <= GameObject.x o /\ GameObject.x o <= 750) /\
    GameObject.isOffScreen o 800 600 0 = false.
Proof.
  assert (OracleSpec.unitDraws Samples.luckyEnv) as Hunit by (intros k; cbn; lra).
  split; [exact Hunit|].
  destruct (procedural_spawns_capped_and_on_screen Samples.luckyEnv 0 Samples.game0
              Samples.world1 Hunit) as (_ & _ & Hspawn & _).
  destruct Hspawn as (o & Heq & _ & _ & Hx & _ & _ & Hy).
  - vm_compute. lia.
  - vm_compute. reflexivity.
  - exists o. rewrite Heq. split; [reflexivity|]. split; [exact Hx|].
    apply Hy; lra.
Defined.

(** No wave at depth 0. *)
Lemma spawnMonsters_wave_witness :
  OracleSpec.unitDraws Samples.env /\
  (spawnMonsters Samples.env Samples.game0 Samples.world1).1 = Samples.game0.
Proof.
  split; [exact sample_unitDraws|].
  destruct (spawnMonsters_wave Samples.env Samples.game0 Samples.world1 sample_unitDraws)
    as (Hnear & _).
  apply Hnear. vm_compute. reflexivity.
Defined.

(** Two frames after the constructor, with W held in between. *)
Lemma craft_stays_on_screen_witness :
  framesMonotone (lastFrameTime (Game.new Samples.env Samples.world0).1)
    [AnimationFrame 1010; KeyDown "w"; AnimationFrame 1026] /\
  craftOnScreen
    (submarine (reached Samples.env [AnimationFrame 1010; KeyDown "w"; AnimationFrame 1026]
                  Samples.world0)).
Proof.
  assert (framesMonotone (lastFrameTime (Game.new Samples.env Samples.world0).1)
            [AnimationFrame 1010; KeyDown "w"; AnimationFrame 1026]) as Hmono.
  { cbn [framesMonotone]. split; [vm_compute; discriminate|].
    split; [vm_compute; discriminate | exact I]. }
  split; [exact Hmono|].
  exact (craft_stays_on_screen Samples.env _ Samples.world0 Hmono).
Defined.

(** One frame of a new game. *)
Lemma particles_keep_drifting_witness :
  OracleSpec.unitDraws Samples.env /\
  length (particles (reached Samples.env [AnimationFrame 1010] Samples.world0)) = 50%nat.
Proof.
  split; [exact sample_unitDraws|].
  exact (proj2 (proj1 (particles_keep_drifting Samples.env [AnimationFrame 1010]
                         Samples.world0 sample_unitDraws))).
Defined.
End MoreWitnesses.
